(** * canvas-studio: the colour palette generator, embedded and verified

    A shallow embedding of [src/palette_generator.py]: hex parsing and
    formatting, the colour operations built on [colorsys], the WCAG
    contrast engine and audit, the harmony generator, the semantic colour
    suggestions and the Tailwind export.

    Conventions of the embedding.
    - A Python [str] is a [string]; characters are code points below 256.
    - A Python [int] is a [Z]; a Python [float] is a primitive binary64
      [float], so every arithmetic step rounds as CPython's does.
    - A Python exception is the [Err] case of [result]; [let*] sequences
      calls in the source's evaluation order, so the first exception raised
      is the one returned. *)

From Stdlib Require Import ZArith NArith List String Ascii Bool Lia.
From Stdlib Require Import Floats.
From Stdlib Require Import Numbers.DecimalString.
Import ListNotations.

Set Warnings "-inexact-float".

Open Scope string_scope.
Open Scope Z_scope.

(** ** Exceptions *)

(** The exceptions the module can raise.  The two [ValueError]s that
    [generate] raises by hand are told apart by their message; they carry
    the offending argument. *)
Inductive exn : Type :=
| InvalidHexColor (base_hex : string)      (* ValueError("Invalid hex color: ...") *)
| UnknownHarmonyType (harmony_type : string) (* ValueError("Unknown harmony type: ...") *)
| InvalidLiteral (s : string)   (* ValueError: invalid literal for int() with base 16 *)
| NanToInt                      (* ValueError: cannot convert float NaN to integer *)
| InfinityToInt                 (* OverflowError: cannot convert float infinity to integer *)
| ZeroDivision.                 (* ZeroDivisionError *)

(** The Python class of each exception. *)
Inductive py_class : Type := ValueError | OverflowError | ZeroDivisionError.

Definition class_of (e : exn) : py_class :=
  match e with
  | InvalidHexColor _ | UnknownHarmonyType _ | InvalidLiteral _ => ValueError
  | NanToInt => ValueError
  | InfinityToInt => OverflowError
  | ZeroDivision => ZeroDivisionError
  end.

Inductive result (A : Type) : Type :=
| Ok (a : A)
| Err (e : exn).
Arguments Ok {A} a.
Arguments Err {A} e.

Definition bind {A B : Type} (m : result A) (k : A -> result B) : result B :=
  match m with
  | Ok a => k a
  | Err e => Err e
  end.

Notation "'let*' x ':=' m 'in' k" := (bind m (fun x => k))
  (at level 10, x pattern, m at level 100, k at level 200).

Definition is_ok {A : Type} (m : result A) : bool :=
  match m with Ok _ => true | Err _ => false end.

(** [[f(x) for x in l]]: the elements are evaluated left to right and the
    first exception aborts the comprehension. *)
Fixpoint mapM {A B : Type} (f : A -> result B) (l : list A) : result (list B) :=
  match l with
  | [] => Ok []
  | x :: t => let* y := f x in let* ys := mapM f t in Ok (y :: ys)
  end.

(** ** Strings *)

Definition code (c : ascii) : Z := Z.of_N (N_of_ascii c).

(** [s.lstrip("#")]: every leading ['#'] goes. *)
Fixpoint lstrip_hash (s : string) : string :=
  match s with
  | String c t => if Ascii.eqb c "#" then lstrip_hash t else s
  | EmptyString => EmptyString
  end.

(** [s[i:j]] for [0 <= i <= j]; a slice past the end is cut short. *)
Definition slice (i j : nat) (s : string) : string := substring i (j - i) s.

(** [h[0]*2 + h[1]*2 + h[2]*2] on a string of length 3. *)
Definition double_nibbles (h : string) : string :=
  match h with
  | String a (String b (String c EmptyString)) =>
      String a (String a (String b (String b (String c (String c EmptyString)))))
  | _ => h
  end.

(** The value of a character as a digit in base 16. *)
Definition hex_val (c : ascii) : option Z :=
  let n := code c in
  if (48 <=? n) && (n <=? 57) then Some (n - 48)
  else if (97 <=? n) && (n <=? 102) then Some (n - 87)
  else if (65 <=? n) && (n <=? 70) then Some (n - 55)
  else None.

Definition is_hex_digit (c : ascii) : bool :=
  match hex_val c with Some _ => true | None => false end.

(** White space as [int()] skips it: the ASCII blanks, and the two blanks
    of Latin-1 that CPython first rewrites to a space. *)
Definition is_space (c : ascii) : bool :=
  let n := code c in
  ((9 <=? n) && (n <=? 13)) || (n =? 32) || (n =? 133) || (n =? 160).

Definition is_sign (c : ascii) : bool :=
  Ascii.eqb c "+" || Ascii.eqb c "-".

Fixpoint skip_space (l : list ascii) : list ascii :=
  match l with
  | c :: t => if is_space c then skip_space t else l
  | [] => []
  end.

(** The digit loop of [int(s, 16)]: digits with single underscores between
    them.  [None] is a syntax error; otherwise the value read so far,
    whether a digit was read, and the characters left. *)
Fixpoint scan_digits (acc : Z) (seen prev_us : bool) (l : list ascii)
  : option (Z * bool * list ascii) :=
  match l with
  | [] => if prev_us then None else Some (acc, seen, [])
  | c :: t =>
      if Ascii.eqb c "_" then
        if prev_us then None else scan_digits acc seen true t
      else
        match hex_val c with
        | Some d => scan_digits (16 * acc + d) true false t
        | None => if prev_us then None else Some (acc, seen, l)
        end
  end.

Definition strip_prefix (l : list ascii) : list ascii :=
  match l with
  | z :: x :: t =>
      if Ascii.eqb z "0" && (Ascii.eqb x "x" || Ascii.eqb x "X") then
        match t with
        | u :: t' => if Ascii.eqb u "_" then t' else t
        | [] => t
        end
      else l
  | _ => l
  end.

Definition starts_with_underscore (l : list ascii) : bool :=
  match l with
  | c :: _ => Ascii.eqb c "_"
  | [] => false
  end.

(** [int(s, 16)]: blanks, an optional sign, an optional [0x], the digits,
    blanks; anything else is a [ValueError].  A [string] holds code points
    below 256 only.  On a Python [str] with other code points [int()]
    reads, besides what is read here, the white space and the decimal
    digits of other scripts (a full-width ["12"] is 18); every other
    character it refuses, as it does here. *)
Definition int16 (s : string) : result Z :=
  let l := skip_space (list_ascii_of_string s) in
  let '(neg, l) :=
    match l with
    | c :: t => if Ascii.eqb c "-" then (true, t)
                else if Ascii.eqb c "+" then (false, t) else (false, l)
    | [] => (false, l)
    end in
  let l := strip_prefix l in
  if starts_with_underscore l then Err (InvalidLiteral s)
  else
    match scan_digits 0 false false l with
    | Some (v, true, rest) =>
        match skip_space rest with
        | [] => Ok (if neg then - v else v)
        | _ :: _ => Err (InvalidLiteral s)
        end
    | _ => Err (InvalidLiteral s)
    end.

(** The digit of [n] in base 16, lower case. *)
Definition hex_digit (n : Z) : ascii :=
  if n <? 10 then ascii_of_N (Z.to_N (48 + n)) else ascii_of_N (Z.to_N (87 + n)).

(** [f"{n:02x}"] for [0 <= n <= 255]. *)
Definition format_02x (n : Z) : string :=
  String (hex_digit (n / 16)) (String (hex_digit (n mod 16)) EmptyString).

(** [str(n)] for an [int]. *)
Definition str_of_int (n : Z) : string := NilZero.string_of_int (Z.to_int n).

(** ** Hex colours *)

(** [hex_to_rgb]: one or more leading ['#'] are dropped, three characters
    are doubled, and the three slices go through [int(_, 16)]. *)
Definition hex_to_rgb (hex_color : string) : result (Z * Z * Z) :=
  let h := lstrip_hash hex_color in
  let h := if (String.length h =? 3)%nat then double_nibbles h else h in
  let* r := int16 (slice 0 2 h) in
  let* g := int16 (slice 2 4 h) in
  let* b := int16 (slice 4 6 h) in
  Ok (r, g, b).

Definition clamp255 (r : Z) : Z := Z.max 0 (Z.min 255 r).

Definition rgb_to_hex (r g b : Z) : string :=
  let r := clamp255 r in
  let g := clamp255 g in
  let b := clamp255 b in
  ("#" ++ format_02x r ++ format_02x g ++ format_02x b)%string.

(** ** Floats *)

(** [float(n)] for an [int]: the nearest double, ties to even.  The ints of
    this module are channel values, angles and list indices, far below the
    [2^1024] where CPython raises [OverflowError]. *)
Definition float_of_int (n : Z) : float :=
  SF2Prim (binary_normalize prec emax n 0 false).

(** [x / y] on floats. *)
Definition fdiv (x y : float) : result float :=
  if (y =? 0)%float then Err ZeroDivision else Ok (x / y)%float.

(** [a / b] on ints: CPython returns the correctly rounded quotient, which
    for operands below [2^53] (all of them here) is the quotient of the two
    exact conversions. *)
Definition int_truediv (a b : Z) : result float :=
  if b =? 0 then Err ZeroDivision
  else Ok (float_of_int a / float_of_int b)%float.

(** C's [fmod]: the exact remainder of the truncated quotient, with the
    sign of [x]. *)
Definition SFfmod (x y : spec_float) : spec_float :=
  match x, y with
  | S754_nan, _ | _, S754_nan => S754_nan
  | S754_infinity _, _ => S754_nan
  | _, S754_zero _ => S754_nan
  | _, S754_infinity _ => x
  | S754_zero _, _ => x
  | S754_finite sx mx ex, S754_finite _ my ey =>
      let e := Z.min ex ey in
      let X := Zpos mx * 2 ^ (ex - e) in
      let Y := Zpos my * 2 ^ (ey - e) in
      binary_normalize prec emax (cond_Zopp sx (X mod Y)) e sx
  end.

Definition fmod (x y : float) : float := SF2Prim (SFfmod (Prim2SF x) (Prim2SF y)).

(** [x % y] on floats ([float_rem] of CPython): [fmod], then the sign of
    the divisor. *)
Definition float_mod (x y : float) : result float :=
  if (y =? 0)%float then Err ZeroDivision
  else
    let m := fmod x y in
    if (m =? 0)%float then Ok (if (y <? 0)%float then (-0)%float else 0%float)
    else if xorb (y <? 0)%float (m <? 0)%float then Ok (m + y)%float
    else Ok m.

(** [int(x)] on a float: truncation toward zero. *)
Definition int_of_float (x : float) : result Z :=
  match Prim2SF x with
  | S754_zero _ => Ok 0
  | S754_finite s m e => Ok (cond_Zopp s (Z.shiftl (Zpos m) e))
  | S754_infinity _ => Err InfinityToInt
  | S754_nan => Err NanToInt
  end.

Definition round_half_even (num den : Z) : Z :=
  let q := num / den in
  match 2 * (num mod den) ?= den with
  | Lt => q
  | Gt => q + 1
  | Eq => if Z.even q then q else q + 1
  end.

(** [round(x, ndigits)] for [ndigits >= 0]: the exact value of [x] is
    rounded to [ndigits] decimals, ties to even, and the decimal result is
    read back as the nearest double. *)
Definition SFround (x : spec_float) (ndigits : Z) : spec_float :=
  match x with
  | S754_finite s m e =>
      if 0 <=? e then x
      else
        let p := 10 ^ ndigits in
        let n := round_half_even (Zpos m * p) (2 ^ (- e)) in
        if n =? 0 then S754_zero s
        else
          let '(q, e', l) := SFdiv_core_binary prec emax n 0 p 0 in
          binary_round_aux prec emax s q e' l
  | _ => x
  end.

Definition round (x : float) (ndigits : Z) : float :=
  SF2Prim (SFround (Prim2SF x) ndigits).

(** [max(a, b)] and [min(a, b)] on floats: the first argument stays unless
    the second is strictly better. *)
Definition fmax (a b : float) : float := if (a <? b)%float then b else a.
Definition fmin (a b : float) : float := if (b <? a)%float then b else a.

(** ** colorsys (CPython's Lib/colorsys.py) *)

Module colorsys.

Definition ONE_THIRD : float := Eval vm_compute in (1 / 3)%float.
Definition ONE_SIXTH : float := Eval vm_compute in (1 / 6)%float.
Definition TWO_THIRD : float := Eval vm_compute in (2 / 3)%float.

(** The saturation of a light colour is [rangec / (2.0 - maxc - minc)], as
    in the current [Lib/colorsys.py].  Some releases of CPython 3.11 write
    the divisor [2.0 - sumc] instead; the two differ in the last bit, and
    with the second the saturation of a colour such as (255, 57, 57) is
    1.0000000000000002 and not 1.0.  Hue and lightness are the same in
    both. *)
Definition rgb_to_hls (r g b : float) : result (float * float * float) :=
  let maxc := fmax (fmax r g) b in
  let minc := fmin (fmin r g) b in
  let sumc := (maxc + minc)%float in
  let rangec := (maxc - minc)%float in
  let* l := fdiv sumc 2 in
  if (minc =? maxc)%float then Ok (0%float, l, 0%float)
  else
    let* s := if (l <=? 0.5)%float then fdiv rangec sumc
              else fdiv rangec (2 - maxc - minc) in
    let* rc := fdiv (maxc - r) rangec in
    let* gc := fdiv (maxc - g) rangec in
    let* bc := fdiv (maxc - b) rangec in
    let h := if (r =? maxc)%float then (bc - gc)%float
             else if (g =? maxc)%float then (2 + rc - bc)%float
             else (4 + gc - rc)%float in
    let* h6 := fdiv h 6 in
    let* h := float_mod h6 1 in
    Ok (h, l, s).

Definition _v (m1 m2 hue : float) : result float :=
  let* hue := float_mod hue 1 in
  if (hue <? ONE_SIXTH)%float then Ok (m1 + (m2 - m1) * hue * 6)%float
  else if (hue <? 0.5)%float then Ok m2
  else if (hue <? TWO_THIRD)%float then Ok (m1 + (m2 - m1) * (TWO_THIRD - hue) * 6)%float
  else Ok m1.

Definition hls_to_rgb (h l s : float) : result (float * float * float) :=
  if (s =? 0)%float then Ok (l, l, l)
  else
    let m2 := if (l <=? 0.5)%float then (l * (1 + s))%float
              else (l + s - l * s)%float in
    let m1 := (2 * l - m2)%float in
    let* r := _v m1 m2 (h + ONE_THIRD) in
    let* g := _v m1 m2 h in
    let* b := _v m1 m2 (h - ONE_THIRD) in
    Ok (r, g, b).

End colorsys.

(** ** Low-level colour math *)

(** The three channels of a parsed colour as fractions of 255, then
    [rgb_to_hls]: the opening lines of every colour operation. *)
Definition hls_of_rgb (r g b : Z) : result (float * float * float) :=
  let* r := int_truediv r 255 in
  let* g := int_truediv g 255 in
  let* b := int_truediv b 255 in
  colorsys.rgb_to_hls r g b.

Definition hls_hex (h l s : float) : result string :=
  let* h360 := fdiv h 360 in
  let* (r, g, b) := colorsys.hls_to_rgb h360 l s in
  let* r := int_of_float (r * 255) in
  let* g := int_of_float (g * 255) in
  let* b := int_of_float (b * 255) in
  Ok (rgb_to_hex r g b).

Definition rotate_hue (hex_color : string) (degrees : Z) : result string :=
  let* (r, g, b) := hex_to_rgb hex_color in
  let* (h, l, s) := hls_of_rgb r g b in
  let* h := float_mod (h * 360 + float_of_int degrees) 360 in
  hls_hex h l s.

Definition adjust_lightness (hex_color : string) (delta : float) : result string :=
  let* (r, g, b) := hex_to_rgb hex_color in
  let* (h, l, s) := hls_of_rgb r g b in
  hls_hex (h * 360) (fmax 0 (fmin 1 (l + delta))) s.

Definition adjust_saturation (hex_color : string) (delta : float) : result string :=
  let* (r, g, b) := hex_to_rgb hex_color in
  let* (h, l, s) := hls_of_rgb r g b in
  hls_hex (h * 360) l (fmax 0 (fmin 1 (s + delta))).

(** One channel of a blend: [int(c1 + (c2 - c1) * t)]. *)
Definition blend_channel (c1 c2 : Z) (t : float) : result Z :=
  int_of_float (float_of_int c1 + float_of_int (c2 - c1) * t).

Definition blend_colors (hex1 hex2 : string) (ratio : float) : result string :=
  let* (r1, g1, b1) := hex_to_rgb hex1 in
  let* (r2, g2, b2) := hex_to_rgb hex2 in
  let t := fmax 0 (fmin 1 ratio) in
  let* r := blend_channel r1 r2 t in
  let* g := blend_channel g1 g2 t in
  let* b := blend_channel b1 b2 t in
  Ok (rgb_to_hex r g b).

(** [range(n)]. *)
Definition range (n : Z) : list Z := map Z.of_nat (seq 0 (Z.to_nat n)).

Definition generate_tints_shades (hex_color : string) (steps : Z) : result (list string) :=
  let* (r, g, b) := hex_to_rgb hex_color in
  let* (h, _, s) := hls_of_rgb r g b in
  mapM (fun i =>
          let* d := fdiv 0.90 (float_of_int (steps - 1)) in
          hls_hex (h * 360) (0.95 - float_of_int i * d) s)
       (range steps).

Definition generate_gradient_stops (hex1 hex2 : string) (stops : Z) : result (list string) :=
  mapM (fun i =>
          let* t := int_truediv i (stops - 1) in
          blend_colors hex1 hex2 t)
       (range stops).

(** ** Data models *)

Module ColorSwatch.
Record t : Type := mk {
  hex : string;
  name : string;
  role : string;
  hue : float;
  lightness : float;
  saturation : float
}.
End ColorSwatch.

(** [ColorSwatch(hex, name, role)]: [__post_init__] parses the hex, so a
    swatch exists only for a hex that [hex_to_rgb] accepts. *)
Definition ColorSwatch (hex name role : string) : result ColorSwatch.t :=
  let* (r, g, b) := hex_to_rgb hex in
  let* (h, l, s) := hls_of_rgb r g b in
  Ok (ColorSwatch.mk hex name role (round (h * 360) 2) (round l 4) (round s 4)).

Module Palette.
Record t : Type := mk {
  id : string;
  name : string;
  base_color : string;
  harmony : string;
  colors : list ColorSwatch.t;
  tags : list string;
  created_at : string;
  description : string
}.
End Palette.

(** ** Harmony generators *)

Definition _HARMONY_ANGLES : list (string * list Z) :=
  [ ("complementary",       [0; 180]);
    ("triadic",             [0; 120; 240]);
    ("analogous",           [0; 30; 60]);
    ("monochromatic",       []);
    ("split-complementary", [0; 150; 210]);
    ("tetradic",            [0; 90; 180; 270]) ].

Definition _ROLES : list string :=
  ["primary"; "secondary"; "accent"; "quaternary";
   "background"; "surface"; "muted"; "text"].

(** [d.get(key)] on a dict written as its list of items. *)
Fixpoint dict_get {V : Type} (key : string) (d : list (string * V)) : option V :=
  match d with
  | [] => None
  | (k, v) :: t => if String.eqb key k then Some v else dict_get key t
  end.

(** [enumerate(l)]. *)
Definition enumerate {A : Type} (l : list A) : list (Z * A) :=
  combine (range (Z.of_nat (List.length l))) l.

(** [name or 'color']. *)
Definition name_or_color (name : string) : string :=
  match name with EmptyString => "color" | _ => name end.

Definition is_lower (c : ascii) : bool := (97 <=? code c) && (code c <=? 122).
Definition is_upper (c : ascii) : bool := (65 <=? code c) && (code c <=? 90).

(** [s.title()] on ASCII text (it is applied to a key of
    [_HARMONY_ANGLES]): a letter is upper case after a character that is
    not a letter, lower case after a letter. *)
Fixpoint title_from (after_letter : bool) (s : string) : string :=
  match s with
  | EmptyString => EmptyString
  | String c t =>
      if is_lower c then
        String (if after_letter then c else ascii_of_N (Z.to_N (code c - 32)))
               (title_from true t)
      else if is_upper c then
        String (if after_letter then ascii_of_N (Z.to_N (code c + 32)) else c)
               (title_from true t)
      else String c (title_from false t)
  end.

Definition title (s : string) : string := title_from false s.

(** What [generate] reads from outside: [str(uuid.uuid4())] and
    [datetime.datetime.utcnow().isoformat()]. *)
Record world : Type := { uuid4 : string; utcnow : string }.

(** The role of the swatch at position [i] among the rotated ones. *)
Definition role_at (i : Z) : string :=
  match nth_error _ROLES (Z.to_nat i) with
  | Some role => role
  | None => ("color-" ++ str_of_int (i + 1))%string
  end.

Definition monochromatic_steps : list (float * string) :=
  [ (0.92%float, "background"); (0.75%float, "surface"); (0.55%float, "primary");
    (0.35%float, "secondary"); (0.15%float, "text") ].

Definition generate (w : world) (base_hex harmony_type name : string)
  : result Palette.t :=
  let h_str := lstrip_hash base_hex in
  let h_str := if (String.length h_str =? 3)%nat then double_nibbles h_str else h_str in
  if negb (String.length h_str =? 6)%nat then Err (InvalidHexColor base_hex)
  else
    let full := ("#" ++ h_str)%string in
    match dict_get harmony_type _HARMONY_ANGLES with
    | None => Err (UnknownHarmonyType harmony_type)
    | Some angles =>
        let* (r, g, b) := hex_to_rgb full in
        let* (_, l, s) := hls_of_rgb r g b in
        let* swatches :=
          if String.eqb harmony_type "monochromatic" then
            mapM (fun '(i, (lv, role)) =>
                    let* c := adjust_lightness full (lv - l) in
                    ColorSwatch c (name_or_color name ++ "-" ++ str_of_int (i + 1))%string role)
                 (enumerate monochromatic_steps)
          else
            let* rotated :=
              mapM (fun '(i, angle) =>
                      let* c := rotate_hue full angle in
                      ColorSwatch c (name_or_color name ++ "-" ++ str_of_int (i + 1))%string
                                  (role_at i))
                   (enumerate angles) in
            let* c := adjust_lightness full 0.38 in
            let* light := ColorSwatch c (name_or_color name ++ "-light")%string "background" in
            let* c := adjust_lightness full (-0.38) in
            let* dark := ColorSwatch c (name_or_color name ++ "-dark")%string "text" in
            Ok (rotated ++ [light; dark])%list
        in
        Ok (Palette.mk (uuid4 w)
              (match name with
               | EmptyString => (title harmony_type ++ " Palette")%string
               | _ => name
               end)
              full harmony_type swatches [harmony_type] (utcnow w) "")
    end.

(** ** WCAG accessibility *)

Module Check.
Record t : Type := mk {
  fg_name : string; fg_hex : string;
  bg_name : string; bg_hex : string;
  ratio : float;
  grade : string;
  aa_normal : bool;
  aa_large : bool;
  aaa_normal : bool
}.
End Check.

Module Summary.
Record t : Type := mk {
  total : Z;
  pass_aa : Z;
  fail_aa : Z;
  pass_rate : float
}.
End Summary.

Module Report.
Record t : Type := mk {
  palette_id : string;
  palette_name : string;
  checks : list Check.t;
  summary : Summary.t
}.
End Report.

Definition wcag_grade (ratio : float) : string :=
  if (7.0 <=? ratio)%float then "AAA"
  else if (4.5 <=? ratio)%float then "AA"
  else if (3.0 <=? ratio)%float then "AA-Large"
  else "Fail".

Definition text_roles : list string := ["text"; "primary"; "secondary"; "accent"].
Definition bg_roles : list string := ["background"; "surface"; "muted"].

(** [role in roles]. *)
Definition role_in (roles : list string) (s : ColorSwatch.t) : bool :=
  existsb (String.eqb (ColorSwatch.role s)) roles.

(** [l or alt] on lists: an empty list is false. *)
Definition list_or {A : Type} (l alt : list A) : list A :=
  match l with [] => alt | _ :: _ => l end.

(** The summary of a list of checks.  The divisor is [max(1, len(checks))]. *)
Definition summarize (checks : list Check.t) : result Summary.t :=
  let passed := Z.of_nat (List.length (filter Check.aa_normal checks)) in
  let n := Z.of_nat (List.length checks) in
  let* q := int_truediv passed (Z.max 1 n) in
  Ok (Summary.mk n passed (n - passed) (round (q * 100) 1)).

Section WCAG.

(** [x ** y] on floats is the C library's [pow]; it is called on a base
    in (0, 1] with exponent 2.4, where CPython raises nothing. *)
Variable pow : float -> float -> float.

Definition _linearize (c : Z) : result float :=
  let* c := int_truediv c 255 in
  if (c <=? 0.03928)%float then fdiv c 12.92
  else let* b := fdiv (c + 0.055) 1.055 in Ok (pow b 2.4).

Definition relative_luminance (hex_color : string) : result float :=
  let* (r, g, b) := hex_to_rgb hex_color in
  let* lr := _linearize r in
  let* lg := _linearize g in
  let* lb := _linearize b in
  Ok (0.2126 * lr + 0.7152 * lg + 0.0722 * lb)%float.

Definition wcag_contrast_ratio (color1 color2 : string) : result float :=
  let* l1 := relative_luminance color1 in
  let* l2 := relative_luminance color2 in
  let bright := fmax l1 l2 in
  let dark := fmin l1 l2 in
  let* q := fdiv (bright + 0.05) (dark + 0.05) in
  Ok (round q 2).

(** The body of the inner loop of [a11y_check]: the check of one pair. *)
Definition check_pair (fg bg : ColorSwatch.t) : result Check.t :=
  let* ratio := wcag_contrast_ratio (ColorSwatch.hex fg) (ColorSwatch.hex bg) in
  Ok (Check.mk (ColorSwatch.name fg) (ColorSwatch.hex fg)
               (ColorSwatch.name bg) (ColorSwatch.hex bg)
               ratio (wcag_grade ratio)
               (4.5 <=? ratio)%float (3.0 <=? ratio)%float (7.0 <=? ratio)%float).

(** [for bg in backgrounds: checks.append(...)], threading [checks]. *)
Fixpoint inner_loop (fg : ColorSwatch.t) (backgrounds : list ColorSwatch.t)
         (checks : list Check.t) : result (list Check.t) :=
  match backgrounds with
  | [] => Ok checks
  | bg :: rest =>
      let* c := check_pair fg bg in
      inner_loop fg rest (checks ++ [c])%list
  end.

(** [for fg in foregrounds: for bg in backgrounds: ...]. *)
Fixpoint outer_loop (foregrounds backgrounds : list ColorSwatch.t)
         (checks : list Check.t) : result (list Check.t) :=
  match foregrounds with
  | [] => Ok checks
  | fg :: rest =>
      let* checks := inner_loop fg backgrounds checks in
      outer_loop rest backgrounds checks
  end.

Definition a11y_check (palette : Palette.t) : result Report.t :=
  let colors := Palette.colors palette in
  let foregrounds := list_or (filter (role_in text_roles) colors) (firstn 2 colors) in
  let backgrounds := list_or (filter (role_in bg_roles) colors) (skipn 2 colors) in
  let* checks := outer_loop foregrounds backgrounds [] in
  let* summary := summarize checks in
  Ok (Report.mk (Palette.id palette) (Palette.name palette) checks summary).

End WCAG.

(** ** Vocabulary of the statements *)

(** The characters of the hex colour that the parsers read: the input
    without its leading ['#'], three characters doubled. *)
Definition hex_digits_of (s : string) : string :=
  let h := lstrip_hash s in
  if (String.length h =? 3)%nat then double_nibbles h else h.

Definition all_hex (h : string) : bool :=
  forallb is_hex_digit (list_ascii_of_string h).

(** A valid colour: three or six hex digits (either case) behind the
    optional ['#']. *)
Definition valid_hex (s : string) : bool :=
  let h := lstrip_hash s in
  ((String.length h =? 3)%nat || (String.length h =? 6)%nat) && all_hex h.

Definition lower_hex (c : ascii) : ascii :=
  if is_upper c then ascii_of_N (Z.to_N (code c + 32)) else c.

Fixpoint lowercase (s : string) : string :=
  match s with
  | EmptyString => EmptyString
  | String c t => String (lower_hex c) (lowercase t)
  end.

Definition is_lower_hex_digit (c : ascii) : bool :=
  is_hex_digit c && negb (is_upper c).

(** The normal form ["#rrggbb"]: ['#'] and six lower-case hex digits. *)
Definition canonical_hex (s : string) : bool :=
  match s with
  | String c h =>
      Ascii.eqb c "#" && (String.length h =? 6)%nat
      && forallb is_lower_hex_digit (list_ascii_of_string h)
  | EmptyString => false
  end.

(** What [int(_, 16)] accepts among the strings of at most two characters,
    the only ones [hex_to_rgb] hands it. *)
Definition slice_accepted (t : string) : bool :=
  match t with
  | String c EmptyString => is_hex_digit c
  | String c1 (String c2 EmptyString) =>
      (is_hex_digit c1 && is_hex_digit c2)
      || (is_space c1 && is_hex_digit c2)
      || (is_hex_digit c1 && is_space c2)
      || (is_sign c1 && is_hex_digit c2)
  | _ => false
  end.

(** The six harmony kinds. *)
Definition harmony_kinds : list string := map fst _HARMONY_ANGLES.

(** [x] is a finite float (possibly zero) with [|x| < 2^K]. *)
Definition sf_le (K : Z) (x : spec_float) : bool :=
  match x with
  | S754_zero _ => true
  | S754_finite _ m e => Zpos (digits2_pos m) + e <=? K
  | _ => false
  end.

Definition fle (K : Z) (x : float) : bool := sf_le K (Prim2SF x).

(** [0 <= x <= 1] on floats. *)
Definition unit_float (x : float) : bool := ((0 <=? x) && (x <=? 1))%float.

(** The float of a channel: [c / 255]. *)
Definition chan (c : Z) : float := (float_of_int c / float_of_int 255)%float.

(** The colour [generate] works on and stores: ['#'] and the six
    characters read from the input. *)
Definition full_hex (base_hex : string) : string := String "#" (hex_digits_of base_hex).

(** What [generate] makes of the angle at position [i]: the base colour
    rotated by the angle, named by position, with the role of the
    position. *)
Definition rotated_swatch (full label : string) (ia : Z * Z) (sw : ColorSwatch.t) : Prop :=
  rotate_hue full (snd ia) = Ok (ColorSwatch.hex sw)
  /\ ColorSwatch.role sw = role_at (fst ia)
  /\ ColorSwatch.name sw = (label ++ "-" ++ str_of_int (fst ia + 1))%string.

(** A variant of the base colour with its lightness moved by [delta]. *)
Definition lightness_swatch (full name role : string) (delta : float)
           (sw : ColorSwatch.t) : Prop :=
  adjust_lightness full delta = Ok (ColorSwatch.hex sw)
  /\ ColorSwatch.role sw = role
  /\ ColorSwatch.name sw = name.

(** A step of the monochromatic scheme: the base colour at lightness [lv]. *)
Definition monochromatic_swatch (full label : string) (l : float)
           (step : Z * (float * string)) (sw : ColorSwatch.t) : Prop :=
  adjust_lightness full (fst (snd step) - l) = Ok (ColorSwatch.hex sw)
  /\ ColorSwatch.role sw = snd (snd step)
  /\ ColorSwatch.name sw = (label ++ "-" ++ str_of_int (fst step + 1))%string.

(** The palette [generate] builds, as a record of its arguments and
    swatches. *)
Definition palette_of (w : world) (base kind name : string)
           (swatches : list ColorSwatch.t) : Palette.t :=
  Palette.mk (uuid4 w)
    (match name with
     | EmptyString => (title kind ++ " Palette")%string
     | _ => name
     end)
    (full_hex base) kind swatches [kind] (utcnow w) "".

(** The audit in the words of the specification: the candidates by role,
    each partition replaced by its positional slice when it is empty, and
    one check per pair of the cross product. *)
Definition foreground_candidates (colors : list ColorSwatch.t) : list ColorSwatch.t :=
  filter (fun s => existsb (String.eqb (ColorSwatch.role s))
                           ["text"; "primary"; "secondary"; "accent"]) colors.

Definition background_candidates (colors : list ColorSwatch.t) : list ColorSwatch.t :=
  filter (fun s => existsb (String.eqb (ColorSwatch.role s))
                           ["background"; "surface"; "muted"]) colors.

Definition audit_foregrounds (colors : list ColorSwatch.t) : list ColorSwatch.t :=
  match foreground_candidates colors with
  | [] => firstn 2 colors
  | _ :: _ => foreground_candidates colors
  end.

Definition audit_backgrounds (colors : list ColorSwatch.t) : list ColorSwatch.t :=
  match background_candidates colors with
  | [] => skipn 2 colors
  | _ :: _ => background_candidates colors
  end.

(** The check of a pair whose contrast ratio is [ratio]. *)
Definition check_of (fg bg : ColorSwatch.t) (ratio : float) : Check.t :=
  Check.mk (ColorSwatch.name fg) (ColorSwatch.hex fg)
           (ColorSwatch.name bg) (ColorSwatch.hex bg)
           ratio (wcag_grade ratio)
           (4.5 <=? ratio)%float (3.0 <=? ratio)%float (7.0 <=? ratio)%float.

Definition audit_spec (pow : float -> float -> float) (palette : Palette.t)
  : result Report.t :=
  let colors := Palette.colors palette in
  let* checks :=
    mapM (fun '(fg, bg) =>
            let* ratio := wcag_contrast_ratio pow (ColorSwatch.hex fg) (ColorSwatch.hex bg) in
            Ok (check_of fg bg ratio))
         (list_prod (audit_foregrounds colors) (audit_backgrounds colors)) in
  let* summary := summarize checks in
  Ok (Report.mk (Palette.id palette) (Palette.name palette) checks summary).

(** A check that belongs to the pair [(fg, bg)]. *)
Definition check_for (pow : float -> float -> float) (pair : ColorSwatch.t * ColorSwatch.t)
           (c : Check.t) : Prop :=
  let (fg, bg) := pair in
  wcag_contrast_ratio pow (ColorSwatch.hex fg) (ColorSwatch.hex bg) = Ok (Check.ratio c)
  /\ Check.fg_name c = ColorSwatch.name fg /\ Check.fg_hex c = ColorSwatch.hex fg
  /\ Check.bg_name c = ColorSwatch.name bg /\ Check.bg_hex c = ColorSwatch.hex bg
  /\ Check.grade c = wcag_grade (Check.ratio c)
  /\ Check.aa_normal c = (4.5 <=? Check.ratio c)%float
  /\ Check.aa_large c = (3.0 <=? Check.ratio c)%float
  /\ Check.aaa_normal c = (7.0 <=? Check.ratio c)%float.

(** [x] is a zero or a positive finite float with [x < 2^K]. *)
Definition sf_nonneg (K : Z) (x : spec_float) : bool :=
  match x with
  | S754_zero _ => true
  | S754_finite false m e => Zpos (digits2_pos m) + e <=? K
  | _ => false
  end.

(** [x] is a positive finite float with [2^(J-1) <= x]. *)
Definition sf_pos (J : Z) (x : spec_float) : bool :=
  match x with
  | S754_finite false m e => J <=? Zpos (digits2_pos m) + e
  | _ => false
  end.

Definition fnn (K : Z) (x : float) : bool := sf_nonneg K (Prim2SF x).

(** The argument of [pow] for the channel [c]: [(c/255 + 0.055) / 1.055]. *)
Definition pow_base (c : Z) : float := ((chan c + 0.055) / 1.055)%float.

(** What the statements ask of the C library's [pow]: on the arguments that
    the channels above the linear threshold produce, [pow(x, 2.4)] lies in
    [0, 1]. *)
Definition pow_unit_on_channels (pow : float -> float -> float) : bool :=
  forallb (fun c => (chan c <=? 0.03928)%float || unit_float (pow (pow_base c) 2.4%float))
          (range 256).

(** [x^(2^-j)] by [j] square roots. *)
Fixpoint root_pow2 (j : nat) (x : float) : float :=
  match j with
  | O => x
  | S j' => PrimFloat.sqrt (root_pow2 j' x)
  end.

(** [x^(2^-(4k+2)) * x^(2^-(4k+3))] for [k < n], multiplied up: since
    [2/5 = 0.01100110...] in binary, the product tends to [x^(2/5)]. *)
Fixpoint two_fifths (n : nat) (x : float) : float :=
  match n with
  | O => 1%float
  | S k => (two_fifths k x * (root_pow2 (4 * k + 2) x * root_pow2 (4 * k + 3) x))%float
  end.

(** An implementation of [pow(x, 2.4)] as [x^2 * x^(2/5)], to show that
    what is asked of [pow] can be met. *)
Definition pow_by_roots (x y : float) : float := (x * x * two_fifths 13 x)%float.

(** A palette whose swatches hold valid colours, as every swatch built by
    [ColorSwatch] from a colour does. *)
Definition valid_swatches (palette : Palette.t) : Prop :=
  Forall (fun sw => valid_hex (ColorSwatch.hex sw) = true) (Palette.colors palette).

(** ** Values of floats as integers *)

(** Every float of the program is a multiple of [2^-1074], and the exact
    product or quotient of two of them is a fraction over [2^-2200]: the
    value of a non-negative float is counted in units of [2^-scale]. *)
Definition scale : Z := 2200.

Definition SFval (x : spec_float) : Z :=
  match x with
  | S754_finite _ m e => Zpos m * 2 ^ (e + scale)
  | _ => 0
  end.

Definition fval (x : float) : Z := SFval (Prim2SF x).

(** The double nearest to [A / B] (in units of [2^-scale]), ties to even:
    the quotient is rounded to a multiple of the unit in the last place of
    its binade. *)
Definition nearest (A B : Z) : Z :=
  let E := Z.max (Zdigits2 (A / B) - 53) (scale - 1074) in
  round_half_even A (B * 2 ^ E) * 2 ^ E.

(** [N / D] lies in [[m, m+1)], at the place [l] says. *)
Definition located (m : Z) (l : location) (N D : Z) : Prop :=
  match l with
  | loc_Exact => N = m * D
  | loc_Inexact c => m * D < N < (m + 1) * D /\ (2 * N ?= (2 * m + 1) * D) = c
  end.

(** ** Tables and predicates of the proofs *)

(** The 256 characters. *)
Definition all_ascii : list ascii :=
  map (fun n => ascii_of_N (N.of_nat n)) (seq 0 256).

(** The number two hex digits write. *)
Definition hex_pair_value (c1 c2 : ascii) : Z :=
  match hex_val c1, hex_val c2 with
  | Some v1, Some v2 => 16 * v1 + v2
  | _, _ => 0
  end.

(** A character that is neither a hex digit, white space nor a sign. *)
Definition unreadable (c : ascii) : bool :=
  negb (is_hex_digit c || is_space c || is_sign c).

(** White space in the sense of [str.isspace], below code point 256:
    [int()] skips a part of it. *)
Definition is_unicode_space (c : ascii) : bool :=
  let n := code c in
  ((9 <=? n) && (n <=? 13)) || ((28 <=? n) && (n <=? 32)) || (n =? 133) || (n =? 160).

(** A character that [int(_, 16)] reads in no literal of one or two
    characters: neither a hex digit, nor a sign, nor white space. *)
Definition never_read (c : ascii) : bool :=
  negb (is_hex_digit c || is_sign c || is_unicode_space c).

(** The 256 channel floats [c / 255], tabulated. *)
Definition chan_table : list float := Eval vm_compute in map chan (range 256).

Definition chan_nth (c : Z) : float := nth (Z.to_nat c) chan_table 0%float.

(** What [rgb_to_hls] needs of the largest and the smallest channel (its
    divisors and the sizes of [l] and [s] depend on these two only): every
    division is defined and lightness and saturation come out in [0, 1]. *)
Definition hls_pair_ok (maxc minc : float) : bool :=
  let l := ((maxc + minc) / 2)%float in
  unit_float l
  && ((minc =? maxc)%float
      || (negb (maxc - minc =? 0)%float
          && (if (l <=? 0.5)%float
              then negb (maxc + minc =? 0)%float
                   && unit_float ((maxc - minc) / (maxc + minc))
              else negb (2 - maxc - minc =? 0)%float
                   && unit_float ((maxc - minc) / (2 - maxc - minc))))).

(** What the hue asks of a channel [c] below the largest one: the
    difference is a non-negative float below 2, and at least [2^-9] unless
    the channels are equal. *)
Definition chan_diff_ok (maxc c : float) : bool :=
  fnn 1 (maxc - c) && ((c =? maxc)%float || sf_pos (-8) (Prim2SF (maxc - c))).

(** A float that is a zero, negative or minus infinity. *)
Definition below_zero (x : spec_float) : bool :=
  match x with
  | S754_zero _ => true
  | S754_finite s _ _ | S754_infinity s => s
  | S754_nan => false
  end.

(** ** Semantic colour suggestions *)

(** [suggest_semantic]: the dict is written as the list of its items, in
    the order of insertion.  The hues are the ints 120, 38, 4 and 207,
    which [hls_hex] divides by 360. *)
Definition suggest_semantic (palette : Palette.t) : result (list (string * string)) :=
  let* (r, g, b) := hex_to_rgb (Palette.base_color palette) in
  let* (_, l, s) := hls_of_rgb r g b in
  let adj := fmax 0.55 s in
  let tgt := fmax 0.35 (fmin 0.60 l) in
  let* success := hls_hex 120 tgt adj in
  let* warning := hls_hex 38 tgt adj in
  let* error := hls_hex 4 tgt adj in
  let* info := hls_hex 207 tgt adj in
  Ok [("success", success); ("warning", warning); ("error", error); ("info", info)].

Definition suggest_neutral (palette : Palette.t) : result string :=
  let* (r, g, b) := hex_to_rgb (Palette.base_color palette) in
  let* (h, l, _) := hls_of_rgb r g b in
  hls_hex (h * 360) 0.5 0.05.

(** ** Export functions *)

(** [s.lower()] on text whose characters are code points below 256: the
    upper-case letters there are A-Z and the accented letters 192-214 and
    216-222, each 32 below its lower-case form. *)
Definition lower_char (c : ascii) : ascii :=
  let n := code c in
  if ((65 <=? n) && (n <=? 90)) || ((192 <=? n) && (n <=? 214)) || ((216 <=? n) && (n <=? 222))
  then ascii_of_N (Z.to_N (n + 32)) else c.

Fixpoint str_lower (s : string) : string :=
  match s with
  | EmptyString => EmptyString
  | String c t => String (lower_char c) (str_lower t)
  end.

(** [s.replace(" ", "-")]. *)
Fixpoint replace_spaces (s : string) : string :=
  match s with
  | EmptyString => EmptyString
  | String c t => String (if Ascii.eqb c " " then "-"%char else c) (replace_spaces t)
  end.

(** The line feed, and ["\n".join(lines)]. *)
Definition newline : string := String (ascii_of_nat 10) EmptyString.

Definition join_lines (lines : list string) : string := String.concat newline lines.

(** [to_tailwind]: each [for] loop appends one line per item; [zip] stops
    at the shorter of its two lists. *)
Definition to_tailwind (palette : Palette.t) : result string :=
  let* scale := generate_tints_shades (Palette.base_color palette) 9 in
  let pname := replace_spaces (str_lower (Palette.name palette)) in
  let nums := [50; 100; 200; 300; 400; 500; 600; 700; 800; 900] in
  let lines :=
    [ "/** @type {import('tailwindcss').Config} */";
      "module.exports = {"; "  theme: {"; "    extend: {"; "      colors: {";
      "        '" ++ pname ++ "': {" ]%string in
  let lines :=
    fold_left (fun lines '(num, hex_val) =>
                 lines ++ [("          " ++ str_of_int num ++ ": '" ++ hex_val ++ "',")%string])%list
              (combine nums scale) lines in
  let lines := (lines ++ ["        },"])%list in
  let lines := (lines ++ [("        '" ++ pname ++ "-roles': {")%string])%list in
  let lines :=
    fold_left (fun lines sw =>
                 lines ++ [("          '" ++ ColorSwatch.role sw ++ "': '"
                            ++ ColorSwatch.hex sw ++ "',")%string])%list
              (Palette.colors palette) lines in
  let lines := (lines ++ ["        },"; "      },"; "    },"; "  },"; "};"])%list in
  Ok (join_lines lines).

(** * Properties *)

(** ** The error monad *)

Lemma bind_ok {A B : Type} (m : result A) (k : A -> result B) (b : B) :
  bind m k = Ok b -> exists a, m = Ok a /\ k a = Ok b.
Proof. destruct m as [a|e]; simpl; [eauto | discriminate]. Qed.

Lemma bind_err {A B : Type} (m : result A) (k : A -> result B) (e : exn) :
  bind m k = Err e -> m = Err e \/ exists a, m = Ok a /\ k a = Err e.
Proof. destruct m as [a|e']; simpl; [eauto | intros [= ->]; now left]. Qed.

Lemma mapM_length {A B : Type} (f : A -> result B) (l : list A) (l' : list B) :
  mapM f l = Ok l' -> List.length l' = List.length l.
Proof.
  revert l'; induction l as [|x t IH]; simpl; intros l' H.
  - now injection H as <-.
  - apply bind_ok in H as (y & _ & H). apply bind_ok in H as (ys & Hys & H).
    injection H as <-. simpl. now rewrite (IH ys).
Qed.

(** ** Characters, by enumeration *)

Lemma in_all_ascii (c : ascii) : In c all_ascii.
Proof.
  unfold all_ascii. apply in_map_iff. exists (N.to_nat (N_of_ascii c)). split.
  - rewrite N2Nat.id. apply ascii_N_embedding.
  - apply in_seq. pose proof (N_ascii_bounded c). lia.
Qed.

Lemma for_all_ascii (f : ascii -> bool) :
  forallb f all_ascii = true -> forall c, f c = true.
Proof. intros H c. rewrite forallb_forall in H. apply H, in_all_ascii. Qed.

Lemma for_all_ascii2 (f : ascii -> ascii -> bool) :
  forallb (fun c1 => forallb (f c1) all_ascii) all_ascii = true ->
  forall c1 c2, f c1 c2 = true.
Proof.
  intros H c1 c2. apply for_all_ascii.
  exact (for_all_ascii (fun c => forallb (f c) all_ascii) H c1).
Qed.

(** ** [int(_, 16)] on the slices *)

Lemma int16_empty : int16 "" = Err (InvalidLiteral "").
Proof. reflexivity. Qed.

Lemma int16_one (c : ascii) :
  is_ok (int16 (String c "")) = is_hex_digit c.
Proof.
  apply eqb_prop.
  revert c. apply for_all_ascii. vm_compute. reflexivity.
Qed.

Lemma int16_two (c1 c2 : ascii) :
  is_ok (int16 (String c1 (String c2 ""))) = slice_accepted (String c1 (String c2 "")).
Proof.
  apply eqb_prop.
  revert c1 c2. apply for_all_ascii2. vm_compute. reflexivity.
Qed.

Lemma int16_slice (t : string) :
  (String.length t <= 2)%nat -> is_ok (int16 t) = slice_accepted t.
Proof.
  destruct t as [|c1 [|c2 [|c3 t]]]; simpl String.length; intros H.
  - reflexivity.
  - apply int16_one.
  - apply int16_two.
  - lia.
Qed.

Lemma int16_hex_pair (c1 c2 : ascii) :
  is_hex_digit c1 = true -> is_hex_digit c2 = true ->
  int16 (String c1 (String c2 "")) = Ok (hex_pair_value c1 c2)
  /\ 0 <= hex_pair_value c1 c2 <= 255
  /\ format_02x (clamp255 (hex_pair_value c1 c2))
     = String (lower_hex c1) (String (lower_hex c2) "").
Proof.
  set (chk := fun c1 c2 =>
    implb (is_hex_digit c1 && is_hex_digit c2)
      (match int16 (String c1 (String c2 "")) with
       | Ok v => Z.eqb v (hex_pair_value c1 c2)
       | Err _ => false
       end
       && (0 <=? hex_pair_value c1 c2) && (hex_pair_value c1 c2 <=? 255)
       && String.eqb (format_02x (clamp255 (hex_pair_value c1 c2)))
                     (String (lower_hex c1) (String (lower_hex c2) "")))).
  assert (H : forall c1 c2, chk c1 c2 = true).
  { apply for_all_ascii2. vm_compute. reflexivity. }
  intros H1 H2. specialize (H c1 c2). unfold chk in H. rewrite H1, H2 in H.
  simpl in H. repeat (apply andb_prop in H as [H ?]).
  destruct (int16 (String c1 (String c2 ""))) as [v|]; [|discriminate].
  apply Z.eqb_eq in H as ->. repeat split; try lia.
  now apply String.eqb_eq.
Qed.

(** ** Shape of the cleaned string *)

Lemma lstrip_hash_head (s : string) :
  match lstrip_hash s with
  | String c _ => Ascii.eqb c "#" = false
  | EmptyString => True
  end.
Proof.
  induction s as [|c t IH]; simpl; [exact I|].
  destruct (Ascii.eqb c "#") eqn:E; [exact IH | simpl; exact E].
Qed.

Lemma lstrip_hash_no_hash (c : ascii) (t : string) :
  Ascii.eqb c "#" = false -> lstrip_hash (String c t) = String c t.
Proof. intros E. simpl. now rewrite E. Qed.

Lemma hex_digits_of_head (s : string) :
  match hex_digits_of s with
  | String c _ => Ascii.eqb c "#" = false
  | EmptyString => True
  end.
Proof.
  unfold hex_digits_of. pose proof (lstrip_hash_head s) as H.
  destruct (lstrip_hash s) as [|a [|b [|c [|d t]]]]; simpl in *; auto.
Qed.

Lemma hex_digits_of_not_3 (s : string) : String.length (hex_digits_of s) <> 3%nat.
Proof.
  unfold hex_digits_of.
  destruct (lstrip_hash s) as [|a [|b [|c [|d t]]]]; simpl; lia.
Qed.

(** Parsing ["#" ++ h] reads [h] again. *)
Lemma hex_digits_of_full (s : string) :
  hex_digits_of (String "#" (hex_digits_of s)) = hex_digits_of s.
Proof.
  pose proof (hex_digits_of_head s) as Hh. pose proof (hex_digits_of_not_3 s) as H3.
  unfold hex_digits_of at 1. simpl lstrip_hash.
  destruct (hex_digits_of s) as [|c t] eqn:E; [reflexivity|].
  rewrite (lstrip_hash_no_hash c t Hh).
  destruct (Nat.eqb_spec (String.length (String c t)) 3); [contradiction | reflexivity].
Qed.

Lemma hex_to_rgb_unfold (s : string) :
  hex_to_rgb s =
  let h := hex_digits_of s in
  let* r := int16 (slice 0 2 h) in
  let* g := int16 (slice 2 4 h) in
  let* b := int16 (slice 4 6 h) in
  Ok (r, g, b).
Proof. reflexivity. Qed.

Lemma hex_to_rgb_full (s : string) :
  hex_to_rgb (String "#" (hex_digits_of s)) = hex_to_rgb s.
Proof. now rewrite !hex_to_rgb_unfold, hex_digits_of_full. Qed.

Lemma substring_length_le (i n : nat) (s : string) :
  (String.length (substring i n s) <= n)%nat.
Proof.
  revert i n; induction s as [|c t IH]; intros [|i] [|n]; simpl; try lia.
  - specialize (IH 0%nat n). lia.
  - apply (IH i 0%nat).
  - apply (IH i (S n)).
Qed.

Lemma substring_0_0 (s : string) : substring 0 0 s = "".
Proof. now destruct s. Qed.

Lemma is_ok_bind {A B : Type} (m : result A) (k : A -> result B) :
  is_ok (bind m k) = match m with Ok a => is_ok (k a) | Err _ => false end.
Proof. now destruct m. Qed.

Lemma hex_to_rgb_accepts (s : string) :
  is_ok (hex_to_rgb s) =
  slice_accepted (slice 0 2 (hex_digits_of s))
  && slice_accepted (slice 2 4 (hex_digits_of s))
  && slice_accepted (slice 4 6 (hex_digits_of s)).
Proof.
  rewrite hex_to_rgb_unfold. cbv zeta.
  rewrite <- !int16_slice by apply substring_length_le.
  repeat (rewrite is_ok_bind;
          match goal with |- context [int16 ?t] => destruct (int16 t) end;
          simpl; try reflexivity).
  all: now rewrite ?andb_false_r.
Qed.

Lemma int16_error (t : string) (e : exn) : int16 t = Err e -> e = InvalidLiteral t.
Proof.
  unfold int16.
  repeat match goal with
         | |- context [match ?x with _ => _ end] => destruct x
         | |- context [if ?x then _ else _] => destruct x
         end; congruence.
Qed.

Lemma hex_to_rgb_error_slice (s : string) (e : exn) :
  hex_to_rgb s = Err e ->
  exists t, In t [slice 0 2 (hex_digits_of s); slice 2 4 (hex_digits_of s);
                  slice 4 6 (hex_digits_of s)]
            /\ e = InvalidLiteral t.
Proof.
  rewrite hex_to_rgb_unfold. cbv zeta. intros H.
  apply bind_err in H as [H | (? & _ & H)];
    [apply int16_error in H; eexists; split; [left; reflexivity | exact H]|].
  apply bind_err in H as [H | (? & _ & H)];
    [apply int16_error in H; eexists; split; [right; left; reflexivity | exact H]|].
  apply bind_err in H as [H | (? & _ & H)];
    [apply int16_error in H; eexists; split; [right; right; left; reflexivity | exact H]|].
  discriminate.
Qed.

Lemma hex_to_rgb_error (s : string) (e : exn) :
  hex_to_rgb s = Err e -> exists t, e = InvalidLiteral t.
Proof. intros H. destruct (hex_to_rgb_error_slice s e H) as (t & _ & ->). eauto. Qed.

Lemma slice_accepted_readable (t : string) :
  slice_accepted t = true ->
  forallb (fun c => negb (unreadable c)) (list_ascii_of_string t) = true.
Proof.
  unfold unreadable.
  destruct t as [|c1 [|c2 [|c3 t]]]; simpl; try discriminate; try reflexivity.
  - intros ->. reflexivity.
  - destruct (is_hex_digit c1), (is_hex_digit c2), (is_space c1), (is_space c2),
      (is_sign c1); simpl; congruence.
Qed.

(** A character among the first six that is neither hex digit, blank nor
    sign makes its slice a literal that [int(_, 16)] refuses. *)
Lemma hex_to_rgb_unreadable (s : string) :
  existsb unreadable (list_ascii_of_string (slice 0 6 (hex_digits_of s))) = true ->
  is_ok (hex_to_rgb s) = false.
Proof.
  rewrite hex_to_rgb_accepts. set (h := hex_digits_of s). intros H.
  destruct (slice_accepted (slice 0 2 h)) eqn:E1; [|reflexivity].
  destruct (slice_accepted (slice 2 4 h)) eqn:E2; [|reflexivity].
  destruct (slice_accepted (slice 4 6 h)) eqn:E3; [|reflexivity].
  apply slice_accepted_readable in E1, E2, E3. exfalso.
  unfold slice in *.
  destruct h as [|c1 [|c2 [|c3 [|c4 [|c5 [|c6 t]]]]]]; simpl in *;
    repeat match goal with
           | H : context [unreadable ?c] |- _ => destruct (unreadable c); simpl in *
           end; rewrite ?substring_0_0 in *; discriminate.
Qed.

Lemma never_read_unreadable (c : ascii) : never_read c = true -> unreadable c = true.
Proof.
  assert (G : forall c, implb (never_read c) (unreadable c) = true).
  { apply for_all_ascii. vm_compute. reflexivity. }
  intros H. specialize (G c). rewrite H in G. exact G.
Qed.

Lemma existsb_weaken {A : Type} (f g : A -> bool) (l : list A) :
  (forall a, f a = true -> g a = true) -> existsb f l = true -> existsb g l = true.
Proof.
  intros Hfg H. apply existsb_exists in H as (a & Ha & Hf).
  apply existsb_exists. exists a. auto.
Qed.

(** [hex_to_rgb] reads the first six characters only. *)
Lemma slices_of_prefix (h : string) :
  slice 0 2 (slice 0 6 h) = slice 0 2 h
  /\ slice 2 4 (slice 0 6 h) = slice 2 4 h
  /\ slice 4 6 (slice 0 6 h) = slice 4 6 h.
Proof.
  unfold slice.
  destruct h as [|c1 [|c2 [|c3 [|c4 [|c5 [|c6 t]]]]]]; simpl;
    rewrite ?substring_0_0; repeat split; reflexivity.
Qed.

(** C2 (amended): [hex_to_rgb] has no validation of its own.  The only
    error it raises is the [ValueError] of [int(_, 16)] on one of the
    slices [h[0:2]], [h[2:4]], [h[4:6]] of the cleaned string [h] (leading
    ['#'] stripped, three characters doubled).  So every cleaned string of
    length 0, 1, 2 or 4 is rejected, and so is every cleaned string that
    has, among its first six characters, a character with a code point
    below 256 that is neither a hex digit, nor ['+'] or ['-'], nor white
    space: a letter from g to z, an underscore, a dot.  But a cleaned
    string of five, seven or more characters whose first six are hex digits
    is parsed, and the characters past the sixth are never read.  Nothing
    is stated of a string with a sign or with white space among its first
    six characters. *)
Theorem hex_to_rgb_rejection (s : string) :
  let h := hex_digits_of s in
  (forall e, hex_to_rgb s = Err e ->
     class_of e = ValueError
     /\ exists t, In t [slice 0 2 h; slice 2 4 h; slice 4 6 h] /\ e = InvalidLiteral t)
  /\ (In (String.length h) [0; 1; 2; 4]%nat -> is_ok (hex_to_rgb s) = false)
  /\ (existsb never_read (list_ascii_of_string (slice 0 6 h)) = true ->
        is_ok (hex_to_rgb s) = false)
  /\ ((5 <= String.length h)%nat -> all_hex (slice 0 6 h) = true ->
        is_ok (hex_to_rgb s) = true)
  /\ (forall s', slice 0 6 (hex_digits_of s') = slice 0 6 h ->
        hex_to_rgb s' = hex_to_rgb s).
Proof.
  intros h. split; [|split; [|split; [|split]]].
  - intros e He. destruct (hex_to_rgb_error_slice s e He) as (t & Ht & ->).
    split; [reflexivity|]. exists t. split; [exact Ht | reflexivity].
  - rewrite hex_to_rgb_accepts. fold h.
    destruct h as [|a [|b [|c [|d [|x t]]]]]; simpl; intros H;
      try (repeat destruct H as [H|H]; try discriminate; contradiction);
      now rewrite ?andb_false_r.
  - intros H. apply hex_to_rgb_unreadable. fold h.
    revert H. apply existsb_weaken, never_read_unreadable.
  - rewrite hex_to_rgb_accepts. fold h. unfold all_hex.
    unfold slice.
    destruct h as [|c1 [|c2 [|c3 [|c4 [|c5 [|c6 t]]]]]]; simpl; try lia;
      rewrite ?substring_0_0; intros _ H;
      repeat (apply andb_prop in H as [? H]);
      repeat match goal with E : is_hex_digit _ = true |- _ => rewrite E; clear E end;
      reflexivity.
  - intros s' H. rewrite !hex_to_rgb_unfold. cbv zeta. fold h.
    destruct (slices_of_prefix h) as (<- & <- & <-).
    destruct (slices_of_prefix (hex_digits_of s')) as (<- & <- & <-).
    now rewrite H.
Qed.

(** C2, the claim as stated, fails: a cleaned string of five hex digits is
    neither three nor six digits long, and it is parsed. *)
Lemma hex_to_rgb_parses_five_digits :
  String.length (lstrip_hash "12345") = 5%nat
  /\ hex_to_rgb "12345" = Ok (18, 52, 5).
Proof. split; reflexivity. Qed.

(** ** Parsing and formatting valid colours *)

Lemma hex_digit_not_hash (c : ascii) :
  is_hex_digit c = true -> Ascii.eqb c "#" = false.
Proof.
  intros H. assert (G : implb (is_hex_digit c) (negb (Ascii.eqb c "#")) = true).
  { revert c H. intros c _. revert c. apply for_all_ascii. vm_compute. reflexivity. }
  rewrite H in G. simpl in G. now destruct (Ascii.eqb c "#").
Qed.

Lemma lowercase_fixed (h : string) :
  forallb is_lower_hex_digit (list_ascii_of_string h) = true -> lowercase h = h.
Proof.
  induction h as [|c t IH]; simpl; [reflexivity|]. intros H.
  apply andb_prop in H as [Hc Ht]. rewrite (IH Ht). f_equal.
  unfold is_lower_hex_digit in Hc. apply andb_prop in Hc as [_ Hc].
  unfold lower_hex. now destruct (is_upper c).
Qed.

(** A valid colour reads as its six digits: each pair is a channel in
    0..255, and formatting the channels gives the digits back in lower
    case. *)
Lemma hex_to_rgb_valid (s : string) :
  valid_hex s = true ->
  exists r g b,
    hex_to_rgb s = Ok (r, g, b)
    /\ (0 <= r <= 255 /\ 0 <= g <= 255 /\ 0 <= b <= 255)
    /\ rgb_to_hex r g b = String "#" (lowercase (hex_digits_of s))
    /\ String.length (hex_digits_of s) = 6%nat
    /\ all_hex (hex_digits_of s) = true.
Proof.
  unfold valid_hex, all_hex. rewrite hex_to_rgb_unfold. unfold hex_digits_of, slice.
  intros H. apply andb_prop in H as [Hlen Hhex].
  destruct (lstrip_hash s) as [|c1 [|c2 [|c3 [|c4 [|c5 [|c6 [|c7 t]]]]]]];
    simpl in Hlen; try discriminate; simpl in Hhex;
    repeat (apply andb_prop in Hhex as [? Hhex]); cbn -[int16 rgb_to_hex is_hex_digit].
  - destruct (int16_hex_pair c1 c1) as (E1 & B1 & F1); try assumption.
    destruct (int16_hex_pair c2 c2) as (E2 & B2 & F2); try assumption.
    destruct (int16_hex_pair c3 c3) as (E3 & B3 & F3); try assumption.
    exists (hex_pair_value c1 c1), (hex_pair_value c2 c2), (hex_pair_value c3 c3).
    rewrite E1, E2, E3. simpl bind. repeat split; try lia.
    + unfold rgb_to_hex. rewrite F1, F2, F3. reflexivity.
    + now repeat match goal with E : is_hex_digit _ = true |- _ => rewrite E; clear E end.
  - destruct (int16_hex_pair c1 c2) as (E1 & B1 & F1); try assumption.
    destruct (int16_hex_pair c3 c4) as (E2 & B2 & F2); try assumption.
    destruct (int16_hex_pair c5 c6) as (E3 & B3 & F3); try assumption.
    exists (hex_pair_value c1 c2), (hex_pair_value c3 c4), (hex_pair_value c5 c6).
    rewrite E1, E2, E3. simpl bind. repeat split; try lia.
    + unfold rgb_to_hex. rewrite F1, F2, F3. reflexivity.
    + now repeat match goal with E : is_hex_digit _ = true |- _ => rewrite E; clear E end.
Qed.

Lemma canonical_hex_digits (s : string) :
  canonical_hex s = true ->
  valid_hex s = true /\ s = String "#" (lowercase (hex_digits_of s)).
Proof.
  destruct s as [|c h]; simpl; [discriminate|]. intros H.
  apply andb_prop in H as [H Hlow]. apply andb_prop in H as [Hc Hlen].
  apply Ascii.eqb_eq in Hc as ->.
  assert (Hhex : forallb is_hex_digit (list_ascii_of_string h) = true).
  { clear Hlen. induction h as [|c t IH]; simpl in *; [reflexivity|].
    apply andb_prop in Hlow as [Hc Ht]. rewrite (IH Ht), andb_true_r.
    unfold is_lower_hex_digit in Hc. now apply andb_prop in Hc as [-> _]. }
  assert (Hstrip : lstrip_hash (String "#" h) = h).
  { simpl. destruct h as [|c t]; [discriminate|].
    simpl in Hhex. apply andb_prop in Hhex as [Hc _].
    apply lstrip_hash_no_hash, hex_digit_not_hash, Hc. }
  unfold valid_hex, hex_digits_of, all_hex. rewrite Hstrip, Hlen, Hhex, orb_true_r.
  split; [reflexivity|].
  apply Nat.eqb_eq in Hlen. destruct (Nat.eqb_spec (String.length h) 3); [lia|].
  now rewrite lowercase_fixed.
Qed.

(** C8 (amended): [rgb_to_hex] after [hex_to_rgb] gives a valid colour
    back in the normal form: ['#'], then its digits in lower case, the
    three digits of a short colour doubled.  The result is the input itself
    exactly when the input already is ['#'] and six lower-case digits. *)
Theorem hex_round_trip (s : string) :
  valid_hex s = true ->
  exists r g b,
    hex_to_rgb s = Ok (r, g, b)
    /\ rgb_to_hex r g b = String "#" (lowercase (hex_digits_of s))
    /\ (String.length (lstrip_hash s) = 3%nat ->
        hex_digits_of s = double_nibbles (lstrip_hash s))
    /\ (String.length (lstrip_hash s) = 6%nat -> hex_digits_of s = lstrip_hash s)
    /\ (canonical_hex s = true -> rgb_to_hex r g b = s).
Proof.
  intros Hv. destruct (hex_to_rgb_valid s Hv) as (r & g & b & E & _ & F & _).
  exists r, g, b. repeat split; try assumption.
  - unfold hex_digits_of. now intros ->.
  - unfold hex_digits_of. now intros ->.
  - intros Hc. apply canonical_hex_digits in Hc as [_ Hs]. congruence.
Qed.

Lemma hex_round_trip_witness :
  exists r g b,
    hex_to_rgb "#3b82f6" = Ok (r, g, b)
    /\ rgb_to_hex r g b = String "#" (lowercase (hex_digits_of "#3b82f6"))
    /\ (String.length (lstrip_hash "#3b82f6") = 3%nat ->
        hex_digits_of "#3b82f6" = double_nibbles (lstrip_hash "#3b82f6"))
    /\ (String.length (lstrip_hash "#3b82f6") = 6%nat ->
        hex_digits_of "#3b82f6" = lstrip_hash "#3b82f6")
    /\ (canonical_hex "#3b82f6" = true -> rgb_to_hex r g b = "#3b82f6").
Proof. apply (hex_round_trip "#3b82f6"). reflexivity. Defined.

(** C8, the claim as stated, fails: a valid six-digit colour in upper case
    does not come back unchanged. *)
Lemma hex_round_trip_changes_case :
  valid_hex "#ABCDEF" = true
  /\ String.length (lstrip_hash "#ABCDEF") = 6%nat
  /\ hex_to_rgb "#ABCDEF" = Ok (171, 205, 239)
  /\ rgb_to_hex 171 205 239 = "#abcdef"
  /\ rgb_to_hex 171 205 239 <> "#ABCDEF".
Proof. repeat split; try reflexivity. discriminate. Qed.

(** ** [generate]: the order of the checks *)

Lemma dict_get_harmony (kind : string) :
  match dict_get kind _HARMONY_ANGLES with
  | Some _ => In kind harmony_kinds
  | None => ~ In kind harmony_kinds
  end.
Proof.
  unfold harmony_kinds, _HARMONY_ANGLES, dict_get. simpl map.
  repeat match goal with
         | |- context [String.eqb kind ?k] =>
             destruct (String.eqb_spec kind k) as [->|?]; [simpl; tauto|]
         end.
  simpl. intuition congruence.
Qed.

Lemma generate_unfold (w : world) (base_hex harmony_type name : string) :
  generate w base_hex harmony_type name =
  let h_str := hex_digits_of base_hex in
  if negb (String.length h_str =? 6)%nat then Err (InvalidHexColor base_hex)
  else
    let full := String "#" h_str in
    match dict_get harmony_type _HARMONY_ANGLES with
    | None => Err (UnknownHarmonyType harmony_type)
    | Some angles =>
        let* (r, g, b) := hex_to_rgb full in
        let* (_, l, s) := hls_of_rgb r g b in
        let* swatches :=
          if String.eqb harmony_type "monochromatic" then
            mapM (fun '(i, (lv, role)) =>
                    let* c := adjust_lightness full (lv - l) in
                    ColorSwatch c (name_or_color name ++ "-" ++ str_of_int (i + 1))%string role)
                 (enumerate monochromatic_steps)
          else
            let* rotated :=
              mapM (fun '(i, angle) =>
                      let* c := rotate_hue full angle in
                      ColorSwatch c (name_or_color name ++ "-" ++ str_of_int (i + 1))%string
                                  (role_at i))
                   (enumerate angles) in
            let* c := adjust_lightness full 0.38 in
            let* light := ColorSwatch c (name_or_color name ++ "-light")%string "background" in
            let* c := adjust_lightness full (-0.38) in
            let* dark := ColorSwatch c (name_or_color name ++ "-dark")%string "text" in
            Ok (rotated ++ [light; dark])%list
        in
        Ok (Palette.mk (uuid4 w)
              (match name with
               | EmptyString => (title harmony_type ++ " Palette")%string
               | _ => name
               end)
              full harmony_type swatches [harmony_type] (utcnow w) "")
    end.
Proof. reflexivity. Qed.

(** The length check comes first and looks at nothing but the length. *)
Lemma generate_length_check (w : world) (base kind name : string) :
  String.length (hex_digits_of base) <> 6%nat ->
  generate w base kind name = Err (InvalidHexColor base).
Proof.
  intros H. rewrite generate_unfold. cbv zeta.
  destruct (Nat.eqb_spec (String.length (hex_digits_of base)) 6); [contradiction|reflexivity].
Qed.

(** C9: once the cleaned string has six characters, the harmony kind is
    looked up before any digit is read.  An unknown kind raises the
    unknown-harmony error whatever the six characters are; with a known
    kind, characters that [hex_to_rgb] refuses surface as the [ValueError]
    of [int(_, 16)] raised inside [hex_to_rgb], not as the invalid-colour
    error of the length check. *)
Theorem generate_checks_harmony_before_digits (w : world) (base kind name : string) :
  String.length (hex_digits_of base) = 6%nat ->
  (~ In kind harmony_kinds ->
     generate w base kind name = Err (UnknownHarmonyType kind))
  /\ (In kind harmony_kinds ->
      (forall e, hex_to_rgb base = Err e ->
         generate w base kind name = Err e /\ exists t, e = InvalidLiteral t)
      /\ (existsb unreadable (list_ascii_of_string (hex_digits_of base)) = true ->
          exists t, hex_to_rgb base = Err (InvalidLiteral t)
                    /\ generate w base kind name = Err (InvalidLiteral t))).
Proof.
  intros Hlen.
  assert (Hgen : forall e, In kind harmony_kinds -> hex_to_rgb base = Err e ->
                           generate w base kind name = Err e).
  { intros e Hin He. rewrite generate_unfold. cbv zeta. rewrite Hlen. simpl negb. cbv iota.
    pose proof (dict_get_harmony kind) as Hk.
    destruct (dict_get kind _HARMONY_ANGLES); [|contradiction].
    now rewrite hex_to_rgb_full, He. }
  split.
  - intros Hin. rewrite generate_unfold. cbv zeta. rewrite Hlen. simpl negb. cbv iota.
    pose proof (dict_get_harmony kind) as Hk.
    destruct (dict_get kind _HARMONY_ANGLES); [contradiction|reflexivity].
  - intros Hin. split.
    + intros e He. split; [now apply Hgen | exact (hex_to_rgb_error base e He)].
    + intros Hbad.
      pose proof (hex_to_rgb_unreadable base) as Hrej.
      assert (Hsl : slice 0 6 (hex_digits_of base) = hex_digits_of base).
      { unfold slice.
        destruct (hex_digits_of base) as [|c1 [|c2 [|c3 [|c4 [|c5 [|c6 [|c7 t]]]]]]];
          simpl in Hlen; try discriminate. reflexivity. }
      rewrite Hsl in Hrej. specialize (Hrej Hbad).
      destruct (hex_to_rgb base) as [?|e] eqn:He; [discriminate|].
      destruct (hex_to_rgb_error base e He) as [t ->]. exists t. auto.
Qed.

Lemma generate_checks_harmony_before_digits_witness :
  (~ In "rainbow" harmony_kinds ->
     generate (Build_world "id" "now") "zzzzzz" "rainbow" ""
     = Err (UnknownHarmonyType "rainbow"))
  /\ (In "rainbow" harmony_kinds ->
      (forall e, hex_to_rgb "zzzzzz" = Err e ->
         generate (Build_world "id" "now") "zzzzzz" "rainbow" "" = Err e
         /\ exists t, e = InvalidLiteral t)
      /\ (existsb unreadable (list_ascii_of_string (hex_digits_of "zzzzzz")) = true ->
          exists t, hex_to_rgb "zzzzzz" = Err (InvalidLiteral t)
                    /\ generate (Build_world "id" "now") "zzzzzz" "rainbow" ""
                       = Err (InvalidLiteral t))).
Proof.
  apply (generate_checks_harmony_before_digits (Build_world "id" "now") "zzzzzz" "rainbow" "").
  reflexivity.
Defined.

(** ** Tables over the channel values *)

Lemma for_all_range (n : Z) (f : Z -> bool) :
  forallb f (range n) = true -> forall x, 0 <= x < n -> f x = true.
Proof.
  intros H x Hx. rewrite forallb_forall in H. apply H.
  unfold range. apply in_map_iff. exists (Z.to_nat x). split; [lia|].
  apply in_seq. lia.
Qed.

Lemma for_all_range2 (n : Z) (f : Z -> Z -> bool) :
  forallb (fun x => forallb (f x) (range n)) (range n) = true ->
  forall x y, 0 <= x < n -> 0 <= y < n -> f x y = true.
Proof.
  intros H x y Hx Hy. apply (for_all_range n (f x)); [|exact Hy].
  exact (for_all_range n (fun x => forallb (f x) (range n)) H x Hx).
Qed.

Lemma int_truediv_255 (c : Z) : int_truediv c 255 = Ok (chan c).
Proof. reflexivity. Qed.

Lemma fmax_cases (a b : float) : fmax a b = a \/ fmax a b = b.
Proof. unfold fmax. destruct (a <? b)%float; auto. Qed.

Lemma fmin_cases (a b : float) : fmin a b = a \/ fmin a b = b.
Proof. unfold fmin. destruct (b <? a)%float; auto. Qed.

(** *** Comparisons bound the size *)

Lemma Prim2SF_canonical (x : float) (s : bool) (m : positive) (e : Z) :
  Prim2SF x = S754_finite s m e ->
  Zpos (digits2_pos m) <= 53 /\ -1074 <= e <= 971.
Proof.
  intros H. pose proof (Prim2SF_valid x) as V. rewrite H in V.
  unfold SpecFloat.valid_binary, bounded, canonical_mantissa, fexp, SpecFloat.emin in V.
  apply andb_prop in V as [V1 V2]. apply Z.eqb_eq in V1. apply Z.leb_le in V2.
  change prec with 53 in *. change emax with 1024 in *. lia.
Qed.

(** A float between 0 and a positive bound [c] is finite and no larger in
    binary size than [c]. *)
Lemma fle_between (x c : float) (mc : positive) (ec K : Z) :
  Prim2SF c = S754_finite false mc ec -> 53 + ec <= K ->
  (0 <=? x)%float = true -> (x <=? c)%float = true -> fle K x = true.
Proof.
  intros Hc HK H0 H1. rewrite leb_spec in H0, H1. rewrite Hc in H1.
  change (Prim2SF 0) with (S754_zero false) in H0. unfold fle.
  destruct (Prim2SF x) as [s|s| |s m e] eqn:E; try discriminate.
  - reflexivity.
  - destruct s; discriminate.
  - destruct s; [discriminate|].
    apply Prim2SF_canonical in E as [Hd _]. apply Z.leb_le.
    unfold SFleb, SFcompare in H1. destruct (Z.compare_spec e ec); try discriminate; lia.
Qed.

Lemma fle_unit (x : float) :
  (0 <=? x)%float = true -> (x <=? 1)%float = true -> fle 1 x = true.
Proof. apply (fle_between x 1 4503599627370496 (-52)); [reflexivity | lia]. Qed.

Lemma fle_weaken (K K' : Z) (x : float) : K <= K' -> fle K x = true -> fle K' x = true.
Proof.
  unfold fle, sf_le. intros HK. destruct (Prim2SF x); try easy.
  intros H. apply Z.leb_le in H. apply Z.leb_le. lia.
Qed.

(** *** The channel floats *)

Lemma chan_nth_eq (c : Z) : 0 <= c < 256 -> chan c = chan_nth c.
Proof.
  intros Hc. apply FloatAxioms.Leibniz.eqb_spec.
  revert c Hc. apply for_all_range. vm_compute. reflexivity.
Qed.

(** The channel floats grow with the channel. *)
Lemma chan_ltb (x y : Z) :
  0 <= x < 256 -> 0 <= y < 256 -> (chan x <? chan y)%float = (x <? y).
Proof.
  intros Hx Hy. rewrite (chan_nth_eq x Hx), (chan_nth_eq y Hy). apply eqb_prop.
  revert x y Hx Hy. apply for_all_range2. vm_compute. reflexivity.
Qed.

Lemma fmax_chan (x y : Z) :
  0 <= x < 256 -> 0 <= y < 256 -> fmax (chan x) (chan y) = chan (Z.max x y).
Proof.
  intros Hx Hy. unfold fmax. rewrite chan_ltb by assumption.
  destruct (Z.ltb_spec x y); f_equal; lia.
Qed.

Lemma fmin_chan (x y : Z) :
  0 <= x < 256 -> 0 <= y < 256 -> fmin (chan x) (chan y) = chan (Z.min x y).
Proof.
  intros Hx Hy. unfold fmin. rewrite chan_ltb by assumption.
  destruct (Z.ltb_spec y x); f_equal; lia.
Qed.

Lemma hls_pair_table (x y : Z) :
  0 <= y <= x -> x < 256 -> hls_pair_ok (chan x) (chan y) = true.
Proof.
  intros Hy Hx. rewrite (chan_nth_eq x), (chan_nth_eq y) by lia.
  assert (G : forall x y, 0 <= x < 256 -> 0 <= y < 256 ->
              implb (y <=? x) (hls_pair_ok (chan_nth x) (chan_nth y)) = true).
  { apply for_all_range2. vm_compute. reflexivity. }
  specialize (G x y ltac:(lia) ltac:(lia)).
  destruct (Z.leb_spec y x); [exact G | lia].
Qed.

Lemma unit_float_fle (x : float) : unit_float x = true -> fle 1 x = true.
Proof. unfold unit_float. intros H. apply andb_prop in H as [H0 H1]. now apply fle_unit. Qed.

(** [rgb_to_hls] returns on the channels of a colour, with a lightness and
    a saturation below 2. *)
Lemma hls_of_rgb_total (r g b : Z) :
  0 <= r <= 255 -> 0 <= g <= 255 -> 0 <= b <= 255 ->
  exists h l s, hls_of_rgb r g b = Ok (h, l, s) /\ fle 1 l = true /\ fle 1 s = true.
Proof.
  intros Hr Hg Hb. unfold hls_of_rgb. rewrite !int_truediv_255. simpl bind.
  unfold colorsys.rgb_to_hls.
  rewrite !fmax_chan, !fmin_chan by lia.
  set (x := Z.max (Z.max r g) b). set (y := Z.min (Z.min r g) b).
  pose proof (hls_pair_table x y ltac:(lia) ltac:(lia)) as T. unfold hls_pair_ok in T. cbv zeta in T.
  apply andb_prop in T as [Tl T]. apply unit_float_fle in Tl.
  unfold fdiv at 1. change (2 =? 0)%float with false. cbv iota. simpl bind.
  destruct (chan y =? chan x)%float.
  { do 3 eexists. split; [reflexivity|]. split; [exact Tl | reflexivity]. }
  simpl in T. apply andb_prop in T as [Tr T].
  assert (Hs : exists s,
             (if ((chan x + chan y) / 2 <=? 0.5)%float
              then fdiv (chan x - chan y) (chan x + chan y)
              else fdiv (chan x - chan y) (2 - chan x - chan y)) = Ok s
             /\ fle 1 s = true).
  { unfold fdiv. destruct ((chan x + chan y) / 2 <=? 0.5)%float;
      apply andb_prop in T as [T1 T2];
      match goal with |- context [if ?c then _ else _] => destruct c end;
      try discriminate; eauto using unit_float_fle. }
  destruct Hs as (s & -> & Hs). simpl bind.
  unfold fdiv. destruct (chan x - chan y =? 0)%float; [discriminate|]. simpl bind.
  change (6 =? 0)%float with false. cbv iota. simpl bind.
  unfold float_mod. change (1 =? 0)%float with false. cbv iota.
  repeat match goal with |- context [if ?c then _ else _] => destruct c end;
    simpl bind; do 3 eexists; (split; [reflexivity|]); split; assumption.
Qed.

(** A valid colour has its hue, lightness and saturation. *)
Lemma hls_of_valid_hex (s : string) :
  valid_hex s = true ->
  exists r g b h l sat,
    hex_to_rgb s = Ok (r, g, b)
    /\ (0 <= r <= 255 /\ 0 <= g <= 255 /\ 0 <= b <= 255)
    /\ hls_of_rgb r g b = Ok (h, l, sat)
    /\ fle 1 l = true /\ fle 1 sat = true.
Proof.
  intros Hv. destruct (hex_to_rgb_valid s Hv) as (r & g & b & E & (Hr & Hg & Hb) & _).
  destruct (hls_of_rgb_total r g b Hr Hg Hb) as (h & l & sat & Hh & Hl & Hs).
  exists r, g, b, h, l, sat. auto.
Qed.

(** ** Scales and gradients: counts below two *)

Lemma range_nonpositive (n : Z) : n <= 0 -> range n = [].
Proof. intros H. unfold range. now replace (Z.to_nat n) with 0%nat by lia. Qed.

(** C3 (amended): neither function checks its count.  With a count of 1
    both raise [ZeroDivisionError] from the division by [count - 1]
    ([generate_tints_shades] after it has parsed the colour,
    [generate_gradient_stops] before it looks at its colours); with a count
    of 0 or less both return the empty list. *)
Theorem count_below_two (hex_color hex1 hex2 : string) :
  valid_hex hex_color = true ->
  generate_tints_shades hex_color 1 = Err ZeroDivision
  /\ generate_gradient_stops hex1 hex2 1 = Err ZeroDivision
  /\ class_of ZeroDivision = ZeroDivisionError
  /\ (forall steps, steps <= 0 -> generate_tints_shades hex_color steps = Ok [])
  /\ (forall stops, stops <= 0 -> generate_gradient_stops hex1 hex2 stops = Ok []).
Proof.
  intros Hv.
  destruct (hls_of_valid_hex hex_color Hv) as (r & g & b & h & l & sat & E & _ & Eh & _).
  repeat split.
  - unfold generate_tints_shades. rewrite E. simpl bind. rewrite Eh. reflexivity.
  - intros steps Hs. unfold generate_tints_shades. rewrite E. simpl bind. rewrite Eh.
    simpl bind. now rewrite range_nonpositive.
  - intros stops Hs. unfold generate_gradient_stops. now rewrite range_nonpositive.
Qed.

Lemma count_below_two_witness :
  generate_tints_shades "#3b82f6" 1 = Err ZeroDivision
  /\ generate_gradient_stops "#000000" "#ffffff" 1 = Err ZeroDivision
  /\ class_of ZeroDivision = ZeroDivisionError
  /\ (forall steps, steps <= 0 -> generate_tints_shades "#3b82f6" steps = Ok [])
  /\ (forall stops, stops <= 0 ->
      generate_gradient_stops "#000000" "#ffffff" stops = Ok []).
Proof. apply (count_below_two "#3b82f6" "#000000" "#ffffff"). reflexivity. Defined.

(** C3, the claim as stated, fails: a count of 1 ends in the division
    error, and a count of 0 returns a result. *)
Lemma count_below_two_unguarded :
  generate_tints_shades "#3b82f6" 1 = Err ZeroDivision
  /\ generate_gradient_stops "#000000" "#ffffff" 0 = Ok [].
Proof. split; vm_compute; reflexivity. Qed.
(** ** Binary rounding: sizes *)

Lemma fexp_eq (e : Z) : SpecFloat.fexp prec emax e = Z.max (e - 53) (-1074).
Proof. reflexivity. Qed.

Lemma digits2_pos_bounds (m : positive) :
  2 ^ (Zpos (digits2_pos m) - 1) <= Zpos m < 2 ^ Zpos (digits2_pos m).
Proof.
  induction m as [p IH|p IH|]; simpl digits2_pos; [| |simpl; lia].
  all: rewrite Pos2Z.inj_succ;
    replace (Z.succ (Zpos (digits2_pos p)) - 1) with (Z.succ (Zpos (digits2_pos p) - 1)) by lia;
    rewrite !Z.pow_succ_r by lia; lia.
Qed.

Lemma Zdigits2_nonneg (m : Z) : 0 <= Zdigits2 m.
Proof. destruct m; simpl; lia. Qed.

(** A number below [2^k] has at most [k] binary digits. *)
Lemma Zdigits2_le (m k : Z) : 0 <= k -> 0 <= m < 2 ^ k -> Zdigits2 m <= k.
Proof.
  intros Hk [H0 Hm]. destruct m as [|p|p]; simpl; try lia.
  pose proof (digits2_pos_bounds p) as [Hp _].
  assert (H : 2 ^ (Zpos (digits2_pos p) - 1) < 2 ^ k) by lia.
  apply Z.pow_lt_mono_r_iff in H; lia.
Qed.

Lemma Zdigits2_lt_pow (m : Z) : 0 <= m -> m < 2 ^ Zdigits2 m.
Proof.
  intros H. destruct m as [|p|p]; simpl; try lia.
  apply digits2_pos_bounds.
Qed.

(** Dropping [k] low bits drops [k] digits. *)
Lemma Zdigits2_div_pow (m k d : Z) :
  0 <= m -> 0 <= k -> Zdigits2 m <= d -> Zdigits2 (m / 2 ^ k) + k <= Z.max d k.
Proof.
  intros Hm Hk Hd.
  assert (H2k : 0 < 2 ^ k) by (apply Z.pow_pos_nonneg; lia).
  assert (Hq : 0 <= m / 2 ^ k) by (apply Z.div_pos; lia).
  pose proof (Zdigits2_lt_pow m Hm) as Hlt.
  assert (Hmd : m < 2 ^ d).
  { eapply Z.lt_le_trans; [exact Hlt|]. apply Z.pow_le_mono_r; try lia. }
  destruct (Z_le_gt_dec k d) as [Hkd|Hkd].
  - assert (Zdigits2 (m / 2 ^ k) <= d - k); [|lia].
    apply Zdigits2_le; [lia|]. split; [exact Hq|].
    apply Z.div_lt_upper_bound; [lia|].
    rewrite <- Z.pow_add_r by lia. now replace (k + (d - k)) with d by lia.
  - assert (m / 2 ^ k = 0); [|replace (m / 2 ^ k) with 0; simpl; lia].
    apply Z.div_small. split; [lia|].
    eapply Z.lt_le_trans; [exact Hmd|]. apply Z.pow_le_mono_r; lia.
Qed.

Lemma shr_1_m (r : shr_record) : 0 <= shr_m r -> shr_m (shr_1 r) = shr_m r / 2.
Proof.
  destruct r as [m rb sb]. simpl. intros H.
  destruct m as [|[p|p|]|p]; cbn [shr_m]; try lia; try reflexivity.
  - rewrite Pos2Z.inj_xI. apply Z.div_unique with (r := 1); lia.
  - rewrite Pos2Z.inj_xO. apply Z.div_unique with (r := 0); lia.
Qed.

Lemma iter_shr_1_m (p : positive) (r : shr_record) :
  0 <= shr_m r ->
  shr_m (iter_pos shr_1 p r) = shr_m r / 2 ^ Zpos p.
Proof.
  revert r. induction p as [p IH|p IH|]; intros r Hr; simpl iter_pos.
  - assert (H1 : 0 <= shr_m (shr_1 r)) by (rewrite shr_1_m by assumption; apply Z.div_pos; lia).
    assert (H2 : 0 <= shr_m (iter_pos shr_1 p (shr_1 r)))
      by (rewrite IH by assumption; apply Z.div_pos; [lia | apply Z.pow_pos_nonneg; lia]).
    rewrite IH, IH, shr_1_m by assumption.
    rewrite !Z.div_div by (try apply Z.pow_pos_nonneg; lia).
    f_equal. rewrite Pos2Z.inj_xI.
    replace (2 * Zpos p + 1) with (1 + Zpos p + Zpos p) by lia.
    rewrite !Z.pow_add_r by lia. change (2 ^ 1) with 2. lia.
  - assert (H2 : 0 <= shr_m (iter_pos shr_1 p r))
      by (rewrite IH by assumption; apply Z.div_pos; [lia | apply Z.pow_pos_nonneg; lia]).
    rewrite IH, IH by assumption.
    rewrite !Z.div_div by (try apply Z.pow_pos_nonneg; lia).
    f_equal. rewrite Pos2Z.inj_xO, <- !Z.pow_add_r by lia. f_equal. lia.
  - now rewrite shr_1_m.
Qed.

Lemma shr_record_of_loc_m (m : Z) (l : location) : shr_m (shr_record_of_loc m l) = m.
Proof. destruct l as [|[]]; reflexivity. Qed.

(** [shr_fexp] moves the exponent up to [fexp] and drops the low bits. *)
Lemma shr_fexp_m (m e : Z) (l : location) :
  0 <= m ->
  snd (shr_fexp prec emax m e l) = Z.max e (Z.max (Zdigits2 m + e - 53) (-1074))
  /\ shr_m (fst (shr_fexp prec emax m e l))
     = m / 2 ^ (snd (shr_fexp prec emax m e l) - e).
Proof.
  intros Hm. unfold shr_fexp, shr. rewrite fexp_eq.
  destruct (Z.max (Zdigits2 m + e - 53) (-1074) - e) as [|p|p] eqn:E; simpl fst; simpl snd.
  - split; [lia|]. rewrite Z.sub_diag, Z.div_1_r. apply shr_record_of_loc_m.
  - split; [lia|]. rewrite iter_shr_1_m by (rewrite shr_record_of_loc_m; lia).
    rewrite shr_record_of_loc_m. f_equal. f_equal. lia.
  - split; [lia|]. rewrite Z.sub_diag, Z.div_1_r. apply shr_record_of_loc_m.
Qed.

Lemma round_nearest_even_bounds (m : Z) (l : location) :
  m <= round_nearest_even m l <= m + 1.
Proof. unfold round_nearest_even. destruct l as [|[]]; try destruct (Z.even m); lia. Qed.

(** The rounding of [m * 2^e]: a finite float, at most one binary order
    above its argument. *)
Lemma binary_round_aux_le (s : bool) (m e : Z) (l : location) (K : Z) :
  0 <= m -> Zdigits2 m + e <= K -> e <= K -> -1074 <= K <= 971 ->
  sf_le (K + 1) (binary_round_aux prec emax s m e l) = true.
Proof.
  intros Hm Hd He HK. unfold binary_round_aux.
  destruct (shr_fexp_m m e l Hm) as [E1 M1].
  destruct (shr_fexp prec emax m e l) as [mrs' e']. simpl fst in *; simpl snd in *.
  set (m1 := shr_m mrs') in *.
  set (m2 := round_nearest_even m1 (loc_of_shr_record mrs')).
  assert (H2k : forall k, 0 <= k -> 0 < 2 ^ k) by (intros; apply Z.pow_pos_nonneg; lia).
  assert (Hm1 : 0 <= m1) by (rewrite M1; apply Z.div_pos; [lia | apply H2k; lia]).
  pose proof (round_nearest_even_bounds m1 (loc_of_shr_record mrs')) as Hr. fold m2 in Hr.
  assert (Hm2 : 0 <= m2) by lia.
  assert (D1 : Zdigits2 m1 + (e' - e) <= Z.max (Zdigits2 m) (e' - e)).
  { rewrite M1. apply Zdigits2_div_pow; lia. }
  assert (D2 : Zdigits2 m2 <= Zdigits2 m1 + 1).
  { apply Zdigits2_le; [pose proof (Zdigits2_nonneg m1); lia|]. split; [lia|].
    pose proof (Zdigits2_lt_pow m1 Hm1). rewrite Z.pow_add_r by (pose proof (Zdigits2_nonneg m1); lia).
    lia. }
  destruct (shr_fexp_m m2 e' loc_Exact Hm2) as [E2 M2].
  destruct (shr_fexp prec emax m2 e' loc_Exact) as [mrs'' e'']. simpl fst in *; simpl snd in *.
  assert (D3 : Zdigits2 (shr_m mrs'') + (e'' - e') <= Z.max (Zdigits2 m2) (e'' - e')).
  { rewrite M2. apply Zdigits2_div_pow; lia. }
  assert (Hm3 : 0 <= shr_m mrs'') by (rewrite M2; apply Z.div_pos; [lia | apply H2k; lia]).
  destruct (shr_m mrs'') as [|p|p] eqn:E3; [reflexivity| |lia].
  simpl Zdigits2 in D3.
  destruct (Z.leb_spec e'' (emax - prec)) as [Hle|Hgt]; change (emax - prec) with 971 in *.
  - unfold sf_le. apply Z.leb_le. lia.
  - lia.
Qed.

Lemma pos_iter_xO (m d : positive) : Zpos (Pos.iter xO m d) = Zpos m * 2 ^ Zpos d.
Proof.
  induction d as [|d IH] using Pos.peano_ind.
  - simpl. lia.
  - rewrite Pos.iter_succ, Pos2Z.inj_xO, IH, Pos2Z.inj_succ, Z.pow_succ_r by lia. lia.
Qed.

Lemma digits2_pos_iter_xO (m d : positive) :
  Zpos (digits2_pos (Pos.iter xO m d)) = Zpos (digits2_pos m) + Zpos d.
Proof.
  induction d as [|d IH] using Pos.peano_ind.
  - simpl. lia.
  - rewrite Pos.iter_succ. simpl digits2_pos. rewrite Pos2Z.inj_succ, IH. lia.
Qed.

(** [shl_align] keeps the value and lowers the exponent. *)
Lemma shl_align_spec (m : positive) (e e' : Z) :
  let r := shl_align m e e' in
  snd r = Z.min e e'
  /\ Zpos (fst r) = Zpos m * 2 ^ (e - snd r)
  /\ Zpos (digits2_pos (fst r)) + snd r = Zpos (digits2_pos m) + e.
Proof.
  unfold shl_align. destruct (e' - e) as [|d|d] eqn:E; simpl fst; simpl snd.
  - rewrite Z.sub_diag. repeat split; lia.
  - rewrite Z.sub_diag. repeat split; lia.
  - rewrite pos_iter_xO, digits2_pos_iter_xO.
    replace (e - e') with (Zpos d) by lia. repeat split; lia.
Qed.

Lemma binary_round_le (s : bool) (m : positive) (e K : Z) :
  Zpos (digits2_pos m) + e <= K -> -1074 <= K <= 971 ->
  sf_le (K + 1) (binary_round prec emax s m e) = true.
Proof.
  intros Hd HK. unfold binary_round.
  destruct (shl_align_spec m e (SpecFloat.fexp prec emax (Zpos (digits2_pos m) + e)))
    as (E1 & _ & D).
  destruct (shl_align m e _) as [mz ez]. simpl fst in *; simpl snd in *.
  apply binary_round_aux_le; simpl Zdigits2; lia.
Qed.

Lemma binary_normalize_le (m e K : Z) (s : bool) :
  Zdigits2 m + e <= K -> -1074 <= K <= 971 ->
  sf_le (K + 1) (binary_normalize prec emax m e s) = true.
Proof.
  intros Hd HK. destruct m as [|p|p]; simpl binary_normalize; [reflexivity| |];
    apply binary_round_le; cbn [Zdigits2] in Hd; lia.
Qed.

Lemma SFmul_le (x y : spec_float) (K1 K2 K : Z) :
  sf_le K1 x = true -> sf_le K2 y = true -> K1 + K2 <= K -> -1074 <= K <= 971 ->
  sf_le (K + 1) (SFmul prec emax x y) = true.
Proof.
  destruct x as [sx|sx| |sx mx ex], y as [sy|sy| |sy my ey]; cbn [sf_le];
    try discriminate; try reflexivity.
  intros H1 H2 HK Hb. apply Z.leb_le in H1, H2. simpl SFmul.
  pose proof (digits2_pos_bounds mx) as [_ Bx]. pose proof (digits2_pos_bounds my) as [_ By].
  assert (D : Zdigits2 (Zpos (mx * my)) <= Zpos (digits2_pos mx) + Zpos (digits2_pos my)).
  { apply Zdigits2_le; [lia|]. rewrite Z.pow_add_r, Pos2Z.inj_mul by lia. nia. }
  apply binary_round_aux_le; lia.
Qed.

Lemma Zdigits2_abs_sum (a b k : Z) :
  0 <= k -> 0 <= a < 2 ^ k -> 0 <= b < 2 ^ k ->
  forall sa sb, Zdigits2 (cond_Zopp sa a + cond_Zopp sb b) <= k + 1.
Proof.
  intros Hk Ha Hb sa sb.
  assert (H : Z.abs (cond_Zopp sa a + cond_Zopp sb b) < 2 ^ (k + 1)).
  { rewrite Z.pow_add_r by lia. destruct sa, sb; simpl; lia. }
  destruct (cond_Zopp sa a + cond_Zopp sb b) as [|p|p]; simpl in *; try lia.
  - apply (Zdigits2_le (Zpos p)); lia.
  - apply (Zdigits2_le (Zpos p)); lia.
Qed.

Lemma aligned_lt (m : positive) (e ez K : Z) :
  ez <= e -> Zpos (digits2_pos m) + e <= K ->
  0 <= Zpos m * 2 ^ (e - ez) < 2 ^ (K - ez).
Proof.
  intros He Hd. pose proof (digits2_pos_bounds m) as [_ B].
  assert (0 < 2 ^ (e - ez)) by (apply Z.pow_pos_nonneg; lia).
  split; [lia|].
  apply Z.lt_le_trans with (2 ^ Zpos (digits2_pos m) * 2 ^ (e - ez)); [nia|].
  rewrite <- Z.pow_add_r by lia. apply Z.pow_le_mono_r; lia.
Qed.

Lemma SFadd_le (x y : spec_float) (K1 K2 K : Z) :
  sf_le K1 x = true -> sf_le K2 y = true -> K1 <= K -> K2 <= K -> -1075 <= K <= 970 ->
  sf_le (K + 2) (SFadd prec emax x y) = true.
Proof.
  destruct x as [sx|sx| |sx mx ex], y as [sy|sy| |sy my ey]; cbn [sf_le];
    try discriminate; intros H1 H2 HK1 HK2 Hb.
  - simpl. destruct sx, sy; reflexivity.
  - cbn [SFadd SFsub SFopp negb sf_le]. apply Z.leb_le in H2. apply Z.leb_le. lia.
  - cbn [SFadd SFsub sf_le]. apply Z.leb_le in H1. apply Z.leb_le. lia.
  - apply Z.leb_le in H1, H2. unfold SFadd.
    destruct (shl_align_spec mx ex (Z.min ex ey)) as (E1 & V1 & _).
    destruct (shl_align_spec my ey (Z.min ex ey)) as (E2 & V2 & _).
    rewrite V1, V2, E1, E2.
    replace (Z.min ex (Z.min ex ey)) with (Z.min ex ey) by lia.
    replace (Z.min ey (Z.min ex ey)) with (Z.min ex ey) by lia.
    replace (K + 2) with (K + 1 + 1) by lia. apply binary_normalize_le; [|lia].
    pose proof (aligned_lt mx ex (Z.min ex ey) K ltac:(lia) ltac:(lia)).
    pose proof (aligned_lt my ey (Z.min ex ey) K ltac:(lia) ltac:(lia)).
    pose proof (Zdigits2_abs_sum _ _ (K - Z.min ex ey) ltac:(lia) H H0 sx sy). lia.
Qed.

Lemma SFopp_le (x : spec_float) (K : Z) :
  sf_le K (SFopp x) = sf_le K x.
Proof. now destruct x. Qed.

Lemma SFsub_le (x y : spec_float) (K1 K2 K : Z) :
  sf_le K1 x = true -> sf_le K2 y = true -> K1 <= K -> K2 <= K -> -1075 <= K <= 970 ->
  sf_le (K + 2) (SFsub prec emax x y) = true.
Proof.
  destruct x as [sx|sx| |sx mx ex], y as [sy|sy| |sy my ey]; cbn [sf_le];
    try discriminate; intros H1 H2 HK1 HK2 Hb.
  - simpl. destruct sx, sy; reflexivity.
  - cbn [SFadd SFsub SFopp negb sf_le]. apply Z.leb_le in H2. apply Z.leb_le. lia.
  - cbn [SFadd SFsub sf_le]. apply Z.leb_le in H1. apply Z.leb_le. lia.
  - apply Z.leb_le in H1, H2. unfold SFsub.
    destruct (shl_align_spec mx ex (Z.min ex ey)) as (E1 & V1 & _).
    destruct (shl_align_spec my ey (Z.min ex ey)) as (E2 & V2 & _).
    rewrite V1, V2, E1, E2.
    replace (Z.min ex (Z.min ex ey)) with (Z.min ex ey) by lia.
    replace (Z.min ey (Z.min ex ey)) with (Z.min ex ey) by lia.
    replace (K + 2) with (K + 1 + 1) by lia. apply binary_normalize_le; [|lia].
    pose proof (aligned_lt mx ex (Z.min ex ey) K ltac:(lia) ltac:(lia)).
    pose proof (aligned_lt my ey (Z.min ex ey) K ltac:(lia) ltac:(lia)).
    pose proof (Zdigits2_abs_sum _ _ (K - Z.min ex ey) ltac:(lia) H H0 sx (negb sy)) as D.
    replace (cond_Zopp (negb sy) (Zpos my * 2 ^ (ey - Z.min ex ey)))
      with (- cond_Zopp sy (Zpos my * 2 ^ (ey - Z.min ex ey))) in D
      by (destruct sy; simpl; lia).
    rewrite Z.add_opp_r in D. lia.
Qed.

(** *** The primitive operations keep finite floats of moderate size finite *)

Lemma fle_mul (K1 K2 K : Z) (x y : float) :
  fle K1 x = true -> fle K2 y = true -> K1 + K2 + 1 <= K -> -1073 <= K <= 972 ->
  fle K (x * y) = true.
Proof.
  unfold fle. intros H1 H2 HK Hb. rewrite mul_spec.
  replace K with (K - 1 + 1) by lia. apply (SFmul_le _ _ K1 K2); auto; lia.
Qed.

Lemma fle_add (K1 K2 K : Z) (x y : float) :
  fle K1 x = true -> fle K2 y = true -> K1 + 2 <= K -> K2 + 2 <= K -> -1073 <= K <= 972 ->
  fle K (x + y) = true.
Proof.
  unfold fle. intros H1 H2 HK1 HK2 Hb. rewrite add_spec.
  replace K with (K - 2 + 2) by lia. apply (SFadd_le _ _ K1 K2); auto; lia.
Qed.

Lemma fle_sub (K1 K2 K : Z) (x y : float) :
  fle K1 x = true -> fle K2 y = true -> K1 + 2 <= K -> K2 + 2 <= K -> -1073 <= K <= 972 ->
  fle K (x - y) = true.
Proof.
  unfold fle. intros H1 H2 HK1 HK2 Hb. rewrite sub_spec.
  replace K with (K - 2 + 2) by lia. apply (SFsub_le _ _ K1 K2); auto; lia.
Qed.

Lemma fle_int_of_float (K : Z) (x : float) :
  fle K x = true -> exists n, int_of_float x = Ok n.
Proof.
  unfold fle, int_of_float. destruct (Prim2SF x); simpl; try discriminate; eauto.
Qed.

Lemma sf_le_weaken (K K' : Z) (x : spec_float) :
  K <= K' -> sf_le K x = true -> sf_le K' x = true.
Proof.
  unfold sf_le. intros HK. destruct x; try easy.
  intros H. apply Z.leb_le in H. apply Z.leb_le. lia.
Qed.

(** A value that fits in 53 bits at an exponent of the format is
    represented as it is. *)
Lemma binary_normalize_exact (m e : Z) (s : bool) :
  Zdigits2 m <= 53 -> -1074 <= e -> Zdigits2 m + e <= 1024 ->
  SpecFloat.valid_binary prec emax (binary_normalize prec emax m e s) = true
  /\ sf_le (Zdigits2 m + e) (binary_normalize prec emax m e s) = true.
Proof.
  intros Hd He Hb.
  assert (G : forall sg p, Zpos (digits2_pos p) <= 53 -> Zpos (digits2_pos p) + e <= 1024 ->
            SpecFloat.valid_binary prec emax (binary_round prec emax sg p e) = true
            /\ sf_le (Zpos (digits2_pos p) + e) (binary_round prec emax sg p e) = true).
  { intros sg p Hp Hpe. unfold binary_round.
    destruct (shl_align_spec p e (SpecFloat.fexp prec emax (Zpos (digits2_pos p) + e)))
      as (E1 & _ & D).
    destruct (shl_align p e _) as [mz ez]. simpl fst in *; simpl snd in *.
    rewrite fexp_eq in E1.
    assert (F : SpecFloat.fexp prec emax (Zpos (digits2_pos mz) + ez) - ez = 0)
      by (rewrite fexp_eq; lia).
    unfold binary_round_aux, shr_fexp. cbn [Zdigits2 shr_record_of_loc]. rewrite F.
    cbn [shr shr_m loc_of_shr_record round_nearest_even Zdigits2 shr_record_of_loc].
    rewrite F. cbn [shr shr_m].
    destruct (Z.leb_spec ez (emax - prec)) as [Hle|Hgt]; change (emax - prec) with 971 in *;
      [|lia].
    split.
    - cbn [SpecFloat.valid_binary]. unfold bounded, canonical_mantissa.
      apply andb_true_intro. split; [apply Z.eqb_eq; lia | apply Z.leb_le; exact Hle].
    - cbn [sf_le]. apply Z.leb_le. lia. }
  destruct m as [|p|p]; cbn [binary_normalize Zdigits2] in *.
  - split; reflexivity.
  - apply G; lia.
  - apply G; lia.
Qed.

Lemma Zdigits2_cond_Zopp (s : bool) (m : Z) : Zdigits2 (cond_Zopp s m) = Zdigits2 m.
Proof. destruct s, m; reflexivity. Qed.

(** [fmod] by a finite divisor gives nan or a finite float no larger in
    binary size than the divisor. *)
Lemma Prim2SF_fmod (x y : float) (sy : bool) (my : positive) (ey : Z) :
  Prim2SF y = S754_finite sy my ey ->
  Prim2SF (fmod x y) = S754_nan
  \/ sf_le (Zpos (digits2_pos my) + ey) (Prim2SF (fmod x y)) = true.
Proof.
  intros Hy. unfold fmod. rewrite Hy.
  destruct (Prim2SF_canonical y sy my ey Hy) as [Dy Ey].
  destruct (Prim2SF x) as [sx|sx| |sx mx ex] eqn:Hx; cbn [SFfmod].
  - right. rewrite Prim2SF_SF2Prim by reflexivity. reflexivity.
  - left. now rewrite Prim2SF_SF2Prim.
  - left. now rewrite Prim2SF_SF2Prim.
  - destruct (Prim2SF_canonical x sx mx ex Hx) as [Dx Ex].
    set (e := Z.min ex ey).
    set (X := Zpos mx * 2 ^ (ex - e)). set (Y := Zpos my * 2 ^ (ey - e)).
    assert (HY : 0 < Y) by (unfold Y; apply Z.mul_pos_pos; [lia | apply Z.pow_pos_nonneg; lia]).
    assert (HX : 0 <= X) by (unfold X; apply Z.mul_nonneg_nonneg; [lia | apply Z.pow_nonneg; lia]).
    pose proof (Z.mod_pos_bound X Y HY) as [R0 RY].
    pose proof (Z.mod_le X Y HX HY) as RX.
    pose proof (aligned_lt my ey e (Zpos (digits2_pos my) + ey) ltac:(lia) ltac:(lia)) as [_ BY].
    pose proof (aligned_lt mx ex e (Zpos (digits2_pos mx) + ex) ltac:(lia) ltac:(lia)) as [_ BX].
    fold Y in BY. fold X in BX.
    assert (D1 : Zdigits2 (X mod Y) <= Zpos (digits2_pos my) + ey - e)
      by (apply Zdigits2_le; lia).
    assert (D2 : Zdigits2 (X mod Y) <= Zpos (digits2_pos mx) + ex - e)
      by (apply Zdigits2_le; lia).
    destruct (binary_normalize_exact (cond_Zopp sx (X mod Y)) e sx) as [V B];
      rewrite ?Zdigits2_cond_Zopp; try lia.
    right. rewrite Prim2SF_SF2Prim by exact V.
    rewrite Zdigits2_cond_Zopp in B. eapply sf_le_weaken; [|exact B]. lia.
Qed.

Lemma ltb_nan_l (x y : float) : Prim2SF x = S754_nan -> (x <? y)%float = false.
Proof. intros H. rewrite ltb_spec, H. reflexivity. Qed.

(** [x % 1.0] is nan or a finite float below 4. *)
Lemma float_mod_1 (x : float) :
  exists r, float_mod x 1 = Ok r
            /\ (fle 3 r = true \/ forall c, (r <? c)%float = false).
Proof.
  unfold float_mod. change (1 =? 0)%float with false. cbv iota.
  change (1 <? 0)%float with false. cbv iota. simpl xorb.
  destruct (Prim2SF_fmod x 1 false 4503599627370496 (-52) eq_refl) as [N|F].
  - assert (Hn : forall c, (fmod x 1 <? c)%float = false) by (intros; now apply ltb_nan_l).
    assert (He : (fmod x 1 =? 0)%float = false) by (rewrite eqb_spec, N; reflexivity).
    rewrite He, Hn. eauto.
  - change (Zpos (digits2_pos 4503599627370496) + -52) with 1 in F.
    destruct (fmod x 1 =? 0)%float; [eexists; split; [reflexivity|left; reflexivity]|].
    destruct (fmod x 1 <? 0)%float; eexists; (split; [reflexivity|]); left.
    + apply (fle_add 1 1); try lia; [exact F | reflexivity].
    + apply (fle_weaken 1); [lia | exact F].
Qed.

(** *** Sizes through an expression *)

(** [fle K e] for an arithmetic expression [e]: the bound is split between
    the operands, down to hypotheses and constants. *)
Ltac fle_split :=
  lazymatch goal with
  | |- fle ?K (?x + ?y)%float = true =>
      let K' := eval vm_compute in (K - 2) in
      apply (fle_add K' K' K x y); [| |lia..]
  | |- fle ?K (?x - ?y)%float = true =>
      let K' := eval vm_compute in (K - 2) in
      apply (fle_sub K' K' K x y); [| |lia..]
  | |- fle ?K (?x * ?y)%float = true =>
      let K' := eval vm_compute in ((K - 1) / 2) in
      apply (fle_mul K' K' K x y); [| |lia..]
  end.

Ltac fle_hyp :=
  match goal with
  | H : fle ?K0 ?x = true |- fle ?K ?x = true =>
      solve [apply (fle_weaken K0 K x); [lia | exact H]]
  end.

Ltac fle_auto :=
  repeat first [fle_hyp | fle_split | solve [vm_compute; reflexivity]].

Lemma _v_bounded (m1 m2 hue : float) :
  fle 40 m1 = true -> fle 40 m2 = true ->
  exists v, colorsys._v m1 m2 hue = Ok v /\ fle 200 v = true.
Proof.
  intros H1 H2. unfold colorsys._v.
  destruct (float_mod_1 hue) as (r & -> & Hr). simpl bind.
  destruct (r <? colorsys.ONE_SIXTH)%float eqn:C1;
    [|destruct (r <? 0.5)%float eqn:C2; [|destruct (r <? colorsys.TWO_THIRD)%float eqn:C3]];
    eexists; (split; [reflexivity|]).
  - destruct Hr as [Hr|Hr]; [|now rewrite Hr in C1]. fle_auto.
  - fle_auto.
  - destruct Hr as [Hr|Hr]; [|now rewrite Hr in C3]. fle_auto.
  - fle_auto.
Qed.

Lemma hls_to_rgb_bounded (h l s : float) :
  fle 8 l = true -> fle 8 s = true ->
  exists r g b, colorsys.hls_to_rgb h l s = Ok (r, g, b)
                /\ fle 200 r = true /\ fle 200 g = true /\ fle 200 b = true.
Proof.
  intros Hl Hs. unfold colorsys.hls_to_rgb.
  destruct (s =? 0)%float.
  { exists l, l, l. repeat split; fle_auto. }
  set (m2 := if (l <=? 0.5)%float then (l * (1 + s))%float else (l + s - l * s)%float).
  assert (Hm2 : fle 38 m2 = true) by (unfold m2; destruct (l <=? 0.5)%float; fle_auto).
  assert (Hm2' : fle 40 m2 = true) by fle_auto.
  assert (Hm1 : fle 40 (2 * l - m2) = true) by fle_auto.
  destruct (_v_bounded (2 * l - m2) m2 (h + colorsys.ONE_THIRD) Hm1 Hm2') as (r & -> & Hr).
  destruct (_v_bounded (2 * l - m2) m2 h Hm1 Hm2') as (g & -> & Hg).
  destruct (_v_bounded (2 * l - m2) m2 (h - colorsys.ONE_THIRD) Hm1 Hm2') as (b & -> & Hb).
  simpl bind. exists r, g, b. auto.
Qed.

(** *** Formatting *)

Lemma hex_digit_lower (v : Z) : 0 <= v < 16 -> is_lower_hex_digit (hex_digit v) = true.
Proof. revert v. apply for_all_range. vm_compute. reflexivity. Qed.

(** [rgb_to_hex] always writes the normal form. *)
Lemma rgb_to_hex_canonical (r g b : Z) : canonical_hex (rgb_to_hex r g b) = true.
Proof.
  unfold rgb_to_hex, format_02x. cbn [String.append canonical_hex String.length
    list_ascii_of_string forallb]. rewrite Ascii.eqb_refl. cbn [andb Nat.eqb].
  assert (H : forall n, 0 <= clamp255 n / 16 < 16 /\ 0 <= clamp255 n mod 16 < 16).
  { intros n. unfold clamp255. split; [|apply Z.mod_pos_bound; lia].
    split; [apply Z.div_pos; lia | apply Z.div_lt_upper_bound; lia]. }
  destruct (H r), (H g), (H b).
  now rewrite !hex_digit_lower.
Qed.

(** [hls_hex] returns a colour in normal form whenever the lightness and
    the saturation are finite and of moderate size, whatever the hue. *)
Lemma hls_hex_total (h l s : float) :
  fle 8 l = true -> fle 8 s = true ->
  exists c, hls_hex h l s = Ok c /\ canonical_hex c = true.
Proof.
  intros Hl Hs. unfold hls_hex.
  unfold fdiv at 1. change (360 =? 0)%float with false. cbv iota. simpl bind.
  destruct (hls_to_rgb_bounded (h / 360) l s Hl Hs) as (r & g & b & -> & Hr & Hg & Hb).
  simpl bind.
  destruct (fle_int_of_float 900 (r * 255)) as [r' ->]; [fle_auto|].
  destruct (fle_int_of_float 900 (g * 255)) as [g' ->]; [fle_auto|].
  destruct (fle_int_of_float 900 (b * 255)) as [b' ->]; [fle_auto|].
  simpl bind. eexists. split; [reflexivity | apply rgb_to_hex_canonical].
Qed.

Lemma canonical_hex_valid (c : string) : canonical_hex c = true -> valid_hex c = true.
Proof. intros H. now apply canonical_hex_digits in H. Qed.

Lemma rotate_hue_total (s : string) (degrees : Z) :
  valid_hex s = true ->
  exists c, rotate_hue s degrees = Ok c /\ canonical_hex c = true.
Proof.
  intros Hv. destruct (hls_of_valid_hex s Hv) as (r & g & b & h & l & sat & E & _ & Eh & Hl & Hs).
  unfold rotate_hue. rewrite E. simpl bind. rewrite Eh. simpl bind.
  unfold float_mod. change (360 =? 0)%float with false. cbv iota.
  repeat match goal with |- context [if ?c then _ else _] => destruct c end;
    simpl bind; apply hls_hex_total; fle_auto.
Qed.

Lemma fle_clamp (K : Z) (x : float) :
  1 <= K -> fle K x = true -> fle K (fmax 0 (fmin 1 x)) = true.
Proof.
  intros HK Hx. unfold fmax, fmin.
  repeat match goal with |- context [if ?c then _ else _] => destruct c end;
    first [assumption | apply (fle_weaken 1); [lia|reflexivity]].
Qed.

Lemma adjust_lightness_total (s : string) (delta : float) :
  valid_hex s = true -> fle 4 delta = true ->
  exists c, adjust_lightness s delta = Ok c /\ canonical_hex c = true.
Proof.
  intros Hv Hd. destruct (hls_of_valid_hex s Hv) as (r & g & b & h & l & sat & E & _ & Eh & Hl & Hs).
  unfold adjust_lightness. rewrite E. simpl bind. rewrite Eh. simpl bind.
  apply hls_hex_total; [|fle_auto].
  apply fle_clamp; [lia|]. fle_auto.
Qed.

Lemma ColorSwatch_total (c name role : string) :
  canonical_hex c = true ->
  exists sw, ColorSwatch c name role = Ok sw
             /\ ColorSwatch.hex sw = c /\ ColorSwatch.name sw = name
             /\ ColorSwatch.role sw = role.
Proof.
  intros Hc. apply canonical_hex_valid in Hc.
  destruct (hls_of_valid_hex c Hc) as (r & g & b & h & l & sat & E & _ & Eh & _).
  unfold ColorSwatch. rewrite E. simpl bind. rewrite Eh. simpl bind.
  eexists. split; [reflexivity|]. auto.
Qed.

(** ** [generate] returns *)

Lemma mapM_Forall2 {A B : Type} (f : A -> result B) (P : A -> B -> Prop) (l : list A) :
  (forall x, In x l -> exists y, f x = Ok y /\ P x y) ->
  exists l', mapM f l = Ok l' /\ Forall2 P l l'.
Proof.
  induction l as [|x t IH]; intros H; simpl.
  - exists []. split; [reflexivity | constructor].
  - destruct (H x (or_introl eq_refl)) as (y & -> & Hy).
    destruct IH as (ys & -> & Hys); [intros; apply H; now right|].
    simpl. exists (y :: ys). split; [reflexivity | now constructor].
Qed.

Lemma valid_hex_full (base : string) :
  valid_hex base = true -> valid_hex (full_hex base) = true.
Proof.
  intros Hv. destruct (hex_to_rgb_valid base Hv) as (_ & _ & _ & _ & _ & _ & Hlen & Hhex).
  pose proof (hex_digits_of_head base) as Hh.
  unfold valid_hex, full_hex. simpl lstrip_hash.
  destruct (hex_digits_of base) as [|c t] eqn:E; [discriminate|].
  rewrite (lstrip_hash_no_hash c t Hh), Hlen, Hhex. reflexivity.
Qed.

Lemma rotated_swatch_total (full label : string) (ia : Z * Z) :
  valid_hex full = true ->
  exists sw,
    (let* c := rotate_hue full (snd ia) in
     ColorSwatch c (label ++ "-" ++ str_of_int (fst ia + 1))%string (role_at (fst ia))) = Ok sw
    /\ rotated_swatch full label ia sw /\ canonical_hex (ColorSwatch.hex sw) = true.
Proof.
  intros Hv. destruct (rotate_hue_total full (snd ia) Hv) as (c & Ec & Hc).
  rewrite Ec. cbn [bind].
  destruct (ColorSwatch_total c (label ++ "-" ++ str_of_int (fst ia + 1))%string
              (role_at (fst ia)) Hc) as (sw & -> & Hh & Hn & Hr).
  exists sw. unfold rotated_swatch. rewrite Hh, Hn, Hr. auto.
Qed.

Lemma lightness_swatch_total (full name role : string) (delta : float) :
  valid_hex full = true -> fle 4 delta = true ->
  exists sw,
    (let* c := adjust_lightness full delta in ColorSwatch c name role) = Ok sw
    /\ lightness_swatch full name role delta sw
    /\ canonical_hex (ColorSwatch.hex sw) = true.
Proof.
  intros Hv Hd. destruct (adjust_lightness_total full delta Hv Hd) as (c & Ec & Hc).
  rewrite Ec. cbn [bind].
  destruct (ColorSwatch_total c name role Hc) as (sw & -> & Hh & Hn & Hr).
  exists sw. unfold lightness_swatch. rewrite Hh, Hn, Hr. auto.
Qed.

(** Every scheme but the monochromatic one: the rotated swatches, then a
    light and a dark variant. *)
Lemma generate_rotated (w : world) (base kind name : string) (angles : list Z) :
  valid_hex base = true ->
  dict_get kind _HARMONY_ANGLES = Some angles ->
  kind <> "monochromatic" ->
  exists rotated light dark,
    generate w base kind name
    = Ok (palette_of w base kind name (rotated ++ [light; dark])%list)
    /\ Forall2 (rotated_swatch (full_hex base) (name_or_color name))
               (enumerate angles) rotated
    /\ lightness_swatch (full_hex base) (name_or_color name ++ "-light")
                        "background" 0.38 light
    /\ lightness_swatch (full_hex base) (name_or_color name ++ "-dark")
                        "text" (-0.38) dark
    /\ Forall (fun sw => canonical_hex (ColorSwatch.hex sw) = true)
               (rotated ++ [light; dark])%list.
Proof.
  intros Hv Hk Hmono.
  destruct (hex_to_rgb_valid base Hv) as (r & g & b & E & (Hr & Hg & Hb) & _ & Hlen & _).
  destruct (hls_of_rgb_total r g b Hr Hg Hb) as (h & l & sat & Eh & Hl & Hs).
  pose proof (valid_hex_full base Hv) as Hf.
  rewrite generate_unfold. cbv zeta. rewrite Hlen. simpl negb. cbv iota. rewrite Hk.
  fold (full_hex base). unfold full_hex at 1. rewrite hex_to_rgb_full, E. cbn [bind].
  rewrite Eh. cbn [bind].
  destruct (String.eqb_spec kind "monochromatic") as [|_]; [contradiction|].
  match goal with |- context [mapM ?f (enumerate angles)] =>
    destruct (mapM_Forall2 f
              (fun ia sw => rotated_swatch (full_hex base) (name_or_color name) ia sw
                            /\ canonical_hex (ColorSwatch.hex sw) = true)
              (enumerate angles)) as (rotated & -> & Hrot)
  end.
  { intros [i angle] _. apply (rotated_swatch_total _ _ (i, angle) Hf). }
  cbn [bind].
  destruct (lightness_swatch_total (full_hex base) (name_or_color name ++ "-light")
              "background" 0.38 Hf eq_refl) as (light & El & Hlight & Cl).
  apply bind_ok in El as (cl & Ecl & El). rewrite Ecl. cbn [bind]. rewrite El. cbn [bind].
  destruct (lightness_swatch_total (full_hex base) (name_or_color name ++ "-dark")
              "text" (-0.38) Hf eq_refl) as (dark & Ed & Hdark & Cd).
  apply bind_ok in Ed as (cd & Ecd & Ed). rewrite Ecd. cbn [bind]. rewrite Ed. cbn [bind].
  exists rotated, light, dark. split; [reflexivity|].
  split; [|split; [exact Hlight|split; [exact Hdark|]]].
  - clear -Hrot. induction Hrot; constructor; tauto.
  - apply Forall_app. split.
    + clear -Hrot. induction Hrot; constructor; tauto.
    + repeat constructor; assumption.
Qed.

(** The monochromatic scheme: five swatches at fixed lightness. *)
Lemma generate_monochromatic (w : world) (base name : string) :
  valid_hex base = true ->
  exists r g b h l sat swatches,
    hex_to_rgb base = Ok (r, g, b) /\ hls_of_rgb r g b = Ok (h, l, sat)
    /\ generate w base "monochromatic" name
       = Ok (palette_of w base "monochromatic" name swatches)
    /\ Forall2 (monochromatic_swatch (full_hex base) (name_or_color name) l)
               (enumerate monochromatic_steps) swatches
    /\ Forall (fun sw => canonical_hex (ColorSwatch.hex sw) = true) swatches.
Proof.
  intros Hv.
  destruct (hex_to_rgb_valid base Hv) as (r & g & b & E & (Hr & Hg & Hb) & _ & Hlen & _).
  destruct (hls_of_rgb_total r g b Hr Hg Hb) as (h & l & sat & Eh & Hl & Hs).
  pose proof (valid_hex_full base Hv) as Hf.
  exists r, g, b, h, l, sat.
  rewrite generate_unfold. cbv zeta. rewrite Hlen. simpl negb. cbv iota.
  change (dict_get "monochromatic" _HARMONY_ANGLES) with (Some (@nil Z)). cbv iota.
  fold (full_hex base). unfold full_hex at 1. rewrite hex_to_rgb_full, E. cbn [bind].
  rewrite Eh. cbn [bind]. change ("monochromatic" =? "monochromatic")%string with true.
  cbv iota.
  match goal with |- context [mapM ?f (enumerate monochromatic_steps)] =>
    destruct (mapM_Forall2 f
              (fun step sw => monochromatic_swatch (full_hex base) (name_or_color name) l step sw
                              /\ canonical_hex (ColorSwatch.hex sw) = true)
              (enumerate monochromatic_steps)) as (swatches & -> & Hsw)
  end.
  { intros [i [lv role]] Hin.
    assert (Hlv : fle 0 lv = true).
    { simpl in Hin. repeat destruct Hin as [Hin|Hin]; try contradiction;
        injection Hin as _ <- _; reflexivity. }
    destruct (lightness_swatch_total (full_hex base)
                (name_or_color name ++ "-" ++ str_of_int (i + 1))%string role (lv - l) Hf)
      as (sw & Esw & Hsw & Csw); [fle_auto|].
    exists sw. split; [exact Esw|]. split; [exact Hsw | exact Csw]. }
  cbn [bind]. exists swatches. split; [reflexivity|]. split; [reflexivity|].
  split; [reflexivity|]. split.
  - clear -Hsw. induction Hsw; constructor; tauto.
  - clear -Hsw. induction Hsw; constructor; tauto.
Qed.

(** ** The swatches of a harmony *)

Lemma ltb_leb (a b : float) : (a <? b)%float = true -> (a <=? b)%float = true.
Proof.
  rewrite ltb_spec, leb_spec. unfold SFltb, SFleb.
  now destruct (SFcompare (Prim2SF a) (Prim2SF b)) as [[]|].
Qed.

(** [max(0.0, min(1.0, x))] lies in [0, 1] for every float [x], nan and
    the infinities included. *)
Lemma clamp_unit (x : float) : unit_float (fmax 0 (fmin 1 x)) = true.
Proof.
  unfold fmin. destruct (x <? 1)%float eqn:E1.
  - unfold fmax. destruct (0 <? x)%float eqn:E0; [|reflexivity].
    unfold unit_float. now rewrite (ltb_leb _ _ E0), (ltb_leb _ _ E1).
  - reflexivity.
Qed.

Lemma Forall2_length_eq {A B : Type} (P : A -> B -> Prop) (l : list A) (l' : list B) :
  Forall2 P l l' -> List.length l' = List.length l.
Proof. induction 1; simpl; congruence. Qed.

Lemma map_fst_combine_eq {A B : Type} (l : list A) (l' : list B) :
  List.length l = List.length l' -> map fst (combine l l') = l.
Proof.
  revert l'; induction l as [|x t IH]; intros [|y t'] H; simpl in *; try congruence.
  f_equal. apply IH. lia.
Qed.

Lemma enumerate_fst {A : Type} (l : list A) :
  map fst (enumerate l) = range (Z.of_nat (List.length l)).
Proof.
  unfold enumerate. apply map_fst_combine_eq.
  unfold range. now rewrite length_map, length_seq, Nat2Z.id.
Qed.

Lemma rotated_roles (full label : string) (l : list (Z * Z)) (rotated : list ColorSwatch.t) :
  Forall2 (rotated_swatch full label) l rotated ->
  map ColorSwatch.role rotated = map role_at (map fst l).
Proof.
  induction 1 as [|ia sw l l' (_ & Hr & _) _ IH]; simpl; [reflexivity|].
  now rewrite Hr, IH.
Qed.

(** C1: for every valid colour and every harmony kind but the
    monochromatic one, [generate] returns the palette whose swatches are the
    base colour rotated by each angle of the kind, with the roles of
    [_ROLES] by position, followed by exactly two swatches: the base colour
    with its lightness raised by 0.38, role background, and lowered by
    0.38, role text, each lightness clamped to [0, 1] on its own.  For
    ["complementary"] that is four swatches with the roles primary,
    secondary, background, text. *)
Theorem generate_harmony_swatches (w : world) (base kind name : string) (angles : list Z) :
  valid_hex base = true ->
  dict_get kind _HARMONY_ANGLES = Some angles ->
  kind <> "monochromatic" ->
  exists rotated light dark,
    generate w base kind name
    = Ok (palette_of w base kind name (rotated ++ [light; dark])%list)
    /\ Forall2 (rotated_swatch (full_hex base) (name_or_color name))
               (enumerate angles) rotated
    /\ map ColorSwatch.role (rotated ++ [light; dark])%list
       = (map role_at (range (Z.of_nat (List.length angles))) ++ ["background"; "text"])%list
    /\ List.length (rotated ++ [light; dark])%list = (List.length angles + 2)%nat
    /\ lightness_swatch (full_hex base) (name_or_color name ++ "-light")
                        "background" 0.38 light
    /\ lightness_swatch (full_hex base) (name_or_color name ++ "-dark")
                        "text" (-0.38) dark
    /\ (forall delta,
          adjust_lightness (full_hex base) delta
          = let* (r, g, b) := hex_to_rgb (full_hex base) in
            let* (h, l, s) := hls_of_rgb r g b in
            hls_hex (h * 360) (fmax 0 (fmin 1 (l + delta))) s)
    /\ (forall x, unit_float (fmax 0 (fmin 1 x)) = true)
    /\ (kind = "complementary" ->
        map ColorSwatch.role (rotated ++ [light; dark])%list
        = ["primary"; "secondary"; "background"; "text"]).
Proof.
  intros Hv Hk Hmono.
  destruct (generate_rotated w base kind name angles Hv Hk Hmono)
    as (rotated & light & dark & Hgen & Hrot & Hlight & Hdark & _).
  exists rotated, light, dark.
  assert (Hroles : map ColorSwatch.role (rotated ++ [light; dark])%list
                   = (map role_at (range (Z.of_nat (List.length angles)))
                      ++ ["background"; "text"])%list).
  { rewrite map_app, (rotated_roles _ _ _ _ Hrot), enumerate_fst. simpl.
    destruct Hlight as (_ & -> & _), Hdark as (_ & -> & _). reflexivity. }
  split; [exact Hgen|]. split; [exact Hrot|]. split; [exact Hroles|].
  split; [|split; [exact Hlight|split; [exact Hdark|split; [reflexivity|split]]]].
  - rewrite length_app, (Forall2_length_eq _ _ _ Hrot). unfold enumerate.
    rewrite length_combine. unfold range. rewrite length_map, length_seq, Nat2Z.id.
    simpl. lia.
  - apply clamp_unit.
  - intros ->. rewrite Hroles. injection Hk as <-. reflexivity.
Qed.

Lemma generate_harmony_swatches_witness :
  exists rotated light dark,
    generate (Build_world "id" "now") "#3b82f6" "complementary" "Ocean"
    = Ok (palette_of (Build_world "id" "now") "#3b82f6" "complementary" "Ocean"
            (rotated ++ [light; dark])%list)
    /\ Forall2 (rotated_swatch (full_hex "#3b82f6") (name_or_color "Ocean"))
               (enumerate [0; 180]) rotated
    /\ map ColorSwatch.role (rotated ++ [light; dark])%list
       = (map role_at (range (Z.of_nat (List.length [0; 180]))) ++ ["background"; "text"])%list
    /\ List.length (rotated ++ [light; dark])%list = (List.length [0; 180] + 2)%nat
    /\ lightness_swatch (full_hex "#3b82f6") (name_or_color "Ocean" ++ "-light")
                        "background" 0.38 light
    /\ lightness_swatch (full_hex "#3b82f6") (name_or_color "Ocean" ++ "-dark")
                        "text" (-0.38) dark
    /\ (forall delta,
          adjust_lightness (full_hex "#3b82f6") delta
          = let* (r, g, b) := hex_to_rgb (full_hex "#3b82f6") in
            let* (h, l, s) := hls_of_rgb r g b in
            hls_hex (h * 360) (fmax 0 (fmin 1 (l + delta))) s)
    /\ (forall x, unit_float (fmax 0 (fmin 1 x)) = true)
    /\ ("complementary" = "complementary" ->
        map ColorSwatch.role (rotated ++ [light; dark])%list
        = ["primary"; "secondary"; "background"; "text"]).
Proof.
  apply (generate_harmony_swatches (Build_world "id" "now") "#3b82f6" "complementary" "Ocean").
  - reflexivity.
  - reflexivity.
  - discriminate.
Defined.

(** The scenario of the specification, evaluated. *)
Example generate_ocean :
  option_map (fun p => map (fun sw => (ColorSwatch.hex sw, ColorSwatch.name sw,
                                        ColorSwatch.role sw)) (Palette.colors p))
             (match generate (Build_world "id" "now") "#3b82f6" "complementary" "Ocean" with
              | Ok p => Some p
              | Err _ => None
              end)
  = Some [("#3a81f6", "Ocean-1", "primary"); ("#f6af3a", "Ocean-2", "secondary");
          ("#f4f8fe", "Ocean-light", "background"); ("#042b6a", "Ocean-dark", "text")].
Proof. vm_compute. reflexivity. Qed.

(** ** Normal forms in a palette *)

Lemma canonical_full_hex (h : string) :
  String.length h = 6%nat -> all_hex h = true ->
  canonical_hex (String "#" h)
  = forallb (fun c => negb (is_upper c)) (list_ascii_of_string h).
Proof.
  intros Hlen Hhex. cbn [canonical_hex]. rewrite Ascii.eqb_refl, Hlen. cbn [andb Nat.eqb].
  clear Hlen. unfold all_hex in Hhex.
  induction h as [|c t IH]; simpl in *; [reflexivity|].
  apply andb_prop in Hhex as [Hc Ht]. rewrite (IH Ht).
  unfold is_lower_hex_digit. now rewrite Hc.
Qed.

(** C4 (amended): the palette [generate] returns stores as its base colour
    ['#'] and the six digits of the input (the digits of a short colour
    doubled) in the case they were given, so it is in normal form exactly
    when the input has no upper-case digit; the hex of every swatch is in
    the lower-case normal form ["#rrggbb"]. *)
Theorem generate_hex_forms (w : world) (base kind name : string) (angles : list Z) :
  valid_hex base = true ->
  dict_get kind _HARMONY_ANGLES = Some angles ->
  exists p,
    generate w base kind name = Ok p
    /\ Palette.base_color p = String "#" (hex_digits_of base)
    /\ String.length (hex_digits_of base) = 6%nat
    /\ canonical_hex (Palette.base_color p)
       = forallb (fun c => negb (is_upper c)) (list_ascii_of_string (hex_digits_of base))
    /\ Forall (fun sw => canonical_hex (ColorSwatch.hex sw) = true) (Palette.colors p).
Proof.
  intros Hv Hk.
  destruct (hex_to_rgb_valid base Hv) as (_ & _ & _ & _ & _ & _ & Hlen & Hhex).
  destruct (String.eqb_spec kind "monochromatic") as [->|Hmono].
  - destruct (generate_monochromatic w base name Hv)
      as (_ & _ & _ & _ & _ & _ & swatches & _ & _ & Hgen & _ & Hcan).
    eexists. split; [exact Hgen|]. cbn [palette_of Palette.base_color Palette.colors].
    unfold full_hex. split; [reflexivity|]. split; [exact Hlen|].
    split; [now apply canonical_full_hex | exact Hcan].
  - destruct (generate_rotated w base kind name angles Hv Hk Hmono)
      as (rotated & light & dark & Hgen & _ & _ & _ & Hcan).
    eexists. split; [exact Hgen|]. cbn [palette_of Palette.base_color Palette.colors].
    unfold full_hex. split; [reflexivity|]. split; [exact Hlen|].
    split; [now apply canonical_full_hex | exact Hcan].
Qed.

Lemma generate_hex_forms_witness :
  exists p,
    generate (Build_world "id" "now") "#ABC" "triadic" "" = Ok p
    /\ Palette.base_color p = String "#" (hex_digits_of "#ABC")
    /\ String.length (hex_digits_of "#ABC") = 6%nat
    /\ canonical_hex (Palette.base_color p)
       = forallb (fun c => negb (is_upper c)) (list_ascii_of_string (hex_digits_of "#ABC"))
    /\ Forall (fun sw => canonical_hex (ColorSwatch.hex sw) = true) (Palette.colors p).
Proof.
  apply (generate_hex_forms (Build_world "id" "now") "#ABC" "triadic" "" [0; 120; 240]);
    reflexivity.
Defined.

(** C4, the claim as stated, fails: the base colour of an upper-case input
    is stored in upper case. *)
Lemma generate_keeps_upper_case :
  valid_hex "#ABCDEF" = true
  /\ exists p,
       generate (Build_world "id" "now") "#ABCDEF" "complementary" "" = Ok p
       /\ Palette.base_color p = "#ABCDEF"
       /\ canonical_hex (Palette.base_color p) = false.
Proof.
  split; [reflexivity|].
  destruct (generate_rotated (Build_world "id" "now") "#ABCDEF" "complementary" ""
              [0; 180] eq_refl eq_refl ltac:(discriminate))
    as (rotated & light & dark & Hgen & _).
  eexists. split; [exact Hgen|]. split; reflexivity.
Qed.

(** ** The audit *)

Lemma mapM_app {A B : Type} (f : A -> result B) (l1 l2 : list A) :
  mapM f (l1 ++ l2) =
  let* a := mapM f l1 in let* b := mapM f l2 in Ok (a ++ b)%list.
Proof.
  induction l1 as [|x t IH]; simpl.
  - now destruct (mapM f l2).
  - destruct (f x); [|reflexivity]. simpl. rewrite IH.
    destruct (mapM f t); [|reflexivity]. simpl. now destruct (mapM f l2).
Qed.

Lemma mapM_map {A B C : Type} (g : A -> B) (f : B -> result C) (l : list A) :
  mapM f (map g l) = mapM (fun x => f (g x)) l.
Proof. induction l as [|x t IH]; simpl; [reflexivity|]. now rewrite IH. Qed.

Lemma mapM_Forall2_ok {A B : Type} (f : A -> result B) (l : list A) (l' : list B) :
  mapM f l = Ok l' -> Forall2 (fun x y => f x = Ok y) l l'.
Proof.
  revert l'; induction l as [|x t IH]; simpl; intros l' H.
  - injection H as <-. constructor.
  - apply bind_ok in H as (y & Hy & H). apply bind_ok in H as (ys & Hys & H).
    injection H as <-. constructor; auto.
Qed.

Section Audit.

Variable pow : float -> float -> float.

Lemma check_pair_check_of (fg bg : ColorSwatch.t) :
  check_pair pow fg bg =
  let* ratio := wcag_contrast_ratio pow (ColorSwatch.hex fg) (ColorSwatch.hex bg) in
  Ok (check_of fg bg ratio).
Proof. reflexivity. Qed.

(** The inner loop appends the checks of one foreground, in the order of
    the backgrounds. *)
Lemma inner_loop_mapM (fg : ColorSwatch.t) (backgrounds : list ColorSwatch.t)
      (checks : list Check.t) :
  inner_loop pow fg backgrounds checks =
  let* cs := mapM (check_pair pow fg) backgrounds in Ok (checks ++ cs)%list.
Proof.
  revert checks; induction backgrounds as [|bg rest IH]; intros checks; simpl.
  - now rewrite app_nil_r.
  - destruct (check_pair pow fg bg) as [c|e]; [|reflexivity]. simpl. rewrite IH.
    destruct (mapM (check_pair pow fg) rest); simpl; [|reflexivity].
    now rewrite <- app_assoc.
Qed.

(** The two loops walk the cross product, foreground-major. *)
Lemma outer_loop_mapM (foregrounds backgrounds : list ColorSwatch.t)
      (checks : list Check.t) :
  outer_loop pow foregrounds backgrounds checks =
  let* cs := mapM (fun '(fg, bg) => check_pair pow fg bg)
                  (list_prod foregrounds backgrounds) in
  Ok (checks ++ cs)%list.
Proof.
  revert checks; induction foregrounds as [|fg rest IH]; intros checks; simpl.
  - now rewrite app_nil_r.
  - rewrite inner_loop_mapM, mapM_app, mapM_map.
    destruct (mapM (check_pair pow fg) backgrounds) as [cs|e]; [|reflexivity]. simpl.
    rewrite IH.
    destruct (mapM _ (list_prod rest backgrounds)); simpl; [|reflexivity].
    now rewrite <- app_assoc.
Qed.

Lemma list_or_match {A : Type} (l alt : list A) :
  list_or l alt = match l with [] => alt | _ :: _ => l end.
Proof. reflexivity. Qed.

Lemma a11y_check_audit_spec (palette : Palette.t) :
  a11y_check pow palette = audit_spec pow palette.
Proof.
  unfold a11y_check, audit_spec. cbv zeta. rewrite outer_loop_mapM.
  destruct (mapM _ _); reflexivity.
Qed.

(** C5: [a11y_check] is the audit of the specification.  The foregrounds
    are the swatches with a role in text, primary, secondary, accent, or
    the first two swatches when there is none; the backgrounds are those
    with a role in background, surface, muted, or the swatches from index 2
    on when there is none; the report holds exactly one check per
    (foreground, background) pair, foreground-major, each with the contrast
    ratio of the pair, its grade and the three flags at 4.5, 3.0 and 7.0. *)
Theorem a11y_check_cross_product (palette : Palette.t) :
  a11y_check pow palette = audit_spec pow palette
  /\ forall report,
       a11y_check pow palette = Ok report ->
       Forall2 (check_for pow)
               (list_prod (audit_foregrounds (Palette.colors palette))
                          (audit_backgrounds (Palette.colors palette)))
               (Report.checks report)
       /\ List.length (Report.checks report)
          = (List.length (audit_foregrounds (Palette.colors palette))
             * List.length (audit_backgrounds (Palette.colors palette)))%nat.
Proof.
  pose proof (a11y_check_audit_spec palette) as Heq.
  split; [exact Heq|]. intros report H. rewrite Heq in H. unfold audit_spec in H.
  cbv zeta in H. apply bind_ok in H as (checks & Hc & H).
  apply bind_ok in H as (summary & _ & H). injection H as <-. cbn [Report.checks].
  split.
  - apply mapM_Forall2_ok in Hc. clear -Hc.
    induction Hc as [|[fg bg] c l l' Hx _ IH]; constructor; [|exact IH].
    apply bind_ok in Hx as (ratio & Hr & Hx). injection Hx as <-.
    unfold check_for, check_of. cbn. rewrite Hr. repeat split.
  - apply mapM_length in Hc. now rewrite Hc, length_prod.
Qed.

End Audit.

(** ** Binary rounding: signs and zeros *)

Lemma sf_nonneg_le (K : Z) (x : spec_float) : sf_nonneg K x = true -> sf_le K x = true.
Proof. destruct x as [| | |[] m e]; simpl; congruence. Qed.

Lemma binary_round_aux_sign (s : bool) (m e : Z) (l : location) :
  match binary_round_aux prec emax s m e l with
  | S754_zero s' | S754_finite s' _ _ | S754_infinity s' => s' = s
  | S754_nan => True
  end.
Proof.
  unfold binary_round_aux.
  destruct (shr_fexp prec emax m e l) as [mrs' e'].
  destruct (shr_fexp prec emax _ e' loc_Exact) as [mrs'' e''].
  destruct (shr_m mrs''); try reflexivity; try exact I.
  now destruct (e'' <=? emax - prec).
Qed.

Lemma Zdigits2_mono (a b : Z) : 0 <= a <= b -> Zdigits2 a <= Zdigits2 b.
Proof.
  intros [Ha Hab]. apply Zdigits2_le; [apply Zdigits2_nonneg|].
  split; [exact Ha|]. pose proof (Zdigits2_lt_pow b ltac:(lia)). lia.
Qed.

Lemma Zdigits2_pos_ge (m : Z) : 0 < m -> 2 ^ (Zdigits2 m - 1) <= m /\ 1 <= Zdigits2 m.
Proof.
  intros H. destruct m as [|p|p]; try lia. simpl Zdigits2.
  split; [apply digits2_pos_bounds | lia].
Qed.

(** Dropping fewer low bits than there are digits leaves the high ones. *)
Lemma Zdigits2_div_pow_ge (m k : Z) :
  0 < m -> 0 <= k < Zdigits2 m ->
  0 < m / 2 ^ k /\ Zdigits2 m - k <= Zdigits2 (m / 2 ^ k).
Proof.
  intros Hm Hk. destruct (Zdigits2_pos_ge m Hm) as [Hlo _].
  assert (H2k : 0 < 2 ^ k) by (apply Z.pow_pos_nonneg; lia).
  assert (Hq : 2 ^ (Zdigits2 m - 1 - k) <= m / 2 ^ k).
  { apply Z.div_le_lower_bound; [lia|]. rewrite <- Z.pow_add_r by lia.
    now replace (k + (Zdigits2 m - 1 - k)) with (Zdigits2 m - 1) by lia. }
  assert (0 < 2 ^ (Zdigits2 m - 1 - k)) by (apply Z.pow_pos_nonneg; lia).
  split; [lia|].
  destruct (Z_le_gt_dec (Zdigits2 m - k) (Zdigits2 (m / 2 ^ k))) as [|Hgt]; [assumption|].
  exfalso. pose proof (Zdigits2_lt_pow (m / 2 ^ k) ltac:(lia)) as Hlt.
  assert (2 ^ Zdigits2 (m / 2 ^ k) <= 2 ^ (Zdigits2 m - 1 - k)); [|lia].
  apply Z.pow_le_mono_r; [lia|]. lia.
Qed.

(** A positive value above the underflow threshold does not round to
    zero. *)
Lemma binary_round_aux_nonzero (s : bool) (m e : Z) (l : location) :
  0 < m -> -1073 <= Zdigits2 m + e ->
  match binary_round_aux prec emax s m e l with
  | S754_zero _ => False
  | _ => True
  end.
Proof.
  intros Hm Hd. unfold binary_round_aux.
  destruct (shr_fexp_m m e l ltac:(lia)) as [E1 M1].
  destruct (shr_fexp prec emax m e l) as [mrs' e']. simpl fst in *; simpl snd in *.
  set (m1 := shr_m mrs') in *.
  set (m2 := round_nearest_even m1 (loc_of_shr_record mrs')).
  destruct (Zdigits2_pos_ge m Hm) as [_ Hd1].
  destruct (Zdigits2_div_pow_ge m (e' - e) Hm ltac:(lia)) as [P1 D1]. rewrite <- M1 in P1, D1.
  pose proof (round_nearest_even_bounds m1 (loc_of_shr_record mrs')) as Hr. fold m2 in Hr.
  pose proof (Zdigits2_mono m1 m2 ltac:(lia)) as D2.
  destruct (shr_fexp_m m2 e' loc_Exact ltac:(lia)) as [E2 M2].
  destruct (shr_fexp prec emax m2 e' loc_Exact) as [mrs'' e'']. simpl fst in *; simpl snd in *.
  destruct (Zdigits2_div_pow_ge m2 (e'' - e') ltac:(lia) ltac:(lia)) as [P3 _].
  rewrite <- M2 in P3.
  destruct (shr_m mrs''); try lia. now destruct (e'' <=? emax - prec).
Qed.

Lemma SFmul_nonneg (x y : spec_float) (K1 K2 K : Z) :
  sf_nonneg K1 x = true -> sf_nonneg K2 y = true -> K1 + K2 <= K -> -1074 <= K <= 971 ->
  sf_nonneg (K + 1) (SFmul prec emax x y) = true.
Proof.
  intros H1 H2 HK Hb.
  pose proof (SFmul_le x y K1 K2 K (sf_nonneg_le _ _ H1) (sf_nonneg_le _ _ H2) HK Hb) as B.
  destruct x as [sx|sx| |[] mx ex], y as [sy|sy| |[] my ey]; try discriminate; try reflexivity.
  cbn [SFmul xorb] in *.
  pose proof (binary_round_aux_sign false (Zpos (mx * my)) (ex + ey) loc_Exact) as S.
  destruct (binary_round_aux prec emax false (Zpos (mx * my)) (ex + ey) loc_Exact)
    as [| | |s' m' e']; try discriminate; [reflexivity|].
  subst s'. exact B.
Qed.

Lemma SFadd_finite_pos (mx my : positive) (ex ey : Z) :
  -1073 <= Zpos (digits2_pos my) + ey ->
  match SFadd prec emax (S754_finite false mx ex) (S754_finite false my ey) with
  | S754_zero _ => False
  | S754_finite s _ _ | S754_infinity s => s = false
  | S754_nan => True
  end.
Proof.
  intros Hy. unfold SFadd.
  destruct (shl_align_spec mx ex (Z.min ex ey)) as (E1 & V1 & _).
  destruct (shl_align_spec my ey (Z.min ex ey)) as (E2 & V2 & D2).
  rewrite E2 in D2.
  cbn [cond_Zopp].
  set (S := Zpos (fst (shl_align mx ex (Z.min ex ey)))
            + Zpos (fst (shl_align my ey (Z.min ex ey)))).
  assert (HS : Zpos (fst (shl_align my ey (Z.min ex ey))) <= S) by (unfold S; lia).
  pose proof (Zdigits2_mono _ _ (conj (Pos2Z.is_nonneg _) HS)) as DS.
  destruct S as [|p|p] eqn:ES; try lia. cbn [binary_normalize]. unfold binary_round.
  destruct (shl_align_spec p (Z.min ex ey)
              (SpecFloat.fexp prec emax (Zpos (digits2_pos p) + Z.min ex ey))) as (_ & _ & D).
  destruct (shl_align p _ _) as [mz ez]. simpl fst in *; simpl snd in *.
  cbn [Zdigits2] in DS.
  pose proof (binary_round_aux_sign false (Zpos mz) ez loc_Exact) as Sg.
  pose proof (binary_round_aux_nonzero false (Zpos mz) ez loc_Exact ltac:(lia)) as NZ.
  cbn [Zdigits2] in NZ. specialize (NZ ltac:(lia)).
  destruct (binary_round_aux prec emax false (Zpos mz) ez loc_Exact); auto.
Qed.

Lemma SFadd_nonneg (x y : spec_float) (K1 K2 K : Z) :
  sf_nonneg K1 x = true -> sf_nonneg K2 y = true -> K1 <= K -> K2 <= K -> -1075 <= K <= 970 ->
  sf_nonneg (K + 2) (SFadd prec emax x y) = true.
Proof.
  intros H1 H2 HK1 HK2 Hb.
  pose proof (SFadd_le x y K1 K2 K (sf_nonneg_le _ _ H1) (sf_nonneg_le _ _ H2) HK1 HK2 Hb) as B.
  destruct x as [sx|sx| |[] mx ex], y as [sy|sy| |[] my ey]; try discriminate.
  - cbn. now destruct sx, sy.
  - exact B.
  - exact B.
  - destruct (Z_le_gt_dec (-1073) (Zpos (digits2_pos my) + ey)) as [Hy|Hy].
    + pose proof (SFadd_finite_pos mx my ex ey Hy) as P.
      destruct (SFadd prec emax _ _) as [| | |s' m' e']; try discriminate; try contradiction.
      subst s'. exact B.
    + (* y is below the smallest exponent: impossible size, but harmless *)
      unfold SFadd in *.
      destruct (shl_align_spec mx ex (Z.min ex ey)) as (E1 & V1 & _).
      destruct (shl_align_spec my ey (Z.min ex ey)) as (E2 & V2 & _).
      cbn [cond_Zopp] in *.
      set (S := Zpos (fst (shl_align mx ex (Z.min ex ey)))
                + Zpos (fst (shl_align my ey (Z.min ex ey)))) in *.
      destruct S as [|p|p] eqn:ES; try lia. cbn [binary_normalize] in *.
      unfold binary_round in *.
      destruct (shl_align p _ _) as [mz ez].
      pose proof (binary_round_aux_sign false (Zpos mz) ez loc_Exact) as Sg.
      destruct (binary_round_aux prec emax false (Zpos mz) ez loc_Exact);
        try discriminate; try reflexivity. subst. exact B.
Qed.

(** *** Floats that are zero or positive *)

Lemma fnn_fle (K : Z) (x : float) : fnn K x = true -> fle K x = true.
Proof. apply sf_nonneg_le. Qed.

Lemma fnn_weaken (K K' : Z) (x : float) : K <= K' -> fnn K x = true -> fnn K' x = true.
Proof.
  unfold fnn, sf_nonneg. intros HK. destruct (Prim2SF x) as [| | |[] m e]; try easy.
  intros H. apply Z.leb_le in H. apply Z.leb_le. lia.
Qed.

Lemma fnn_mul (K1 K2 K : Z) (x y : float) :
  fnn K1 x = true -> fnn K2 y = true -> K1 + K2 + 1 <= K -> -1073 <= K <= 972 ->
  fnn K (x * y) = true.
Proof.
  unfold fnn. intros H1 H2 HK Hb. rewrite mul_spec.
  replace K with (K - 1 + 1) by lia. apply (SFmul_nonneg _ _ K1 K2); auto; lia.
Qed.

Lemma fnn_add (K1 K2 K : Z) (x y : float) :
  fnn K1 x = true -> fnn K2 y = true -> K1 + 2 <= K -> K2 + 2 <= K -> -1073 <= K <= 972 ->
  fnn K (x + y) = true.
Proof.
  unfold fnn. intros H1 H2 HK1 HK2 Hb. rewrite add_spec.
  replace K with (K - 2 + 2) by lia. apply (SFadd_nonneg _ _ K1 K2); auto; lia.
Qed.

Lemma unit_float_fnn (x : float) : unit_float x = true -> fnn 1 x = true.
Proof.
  intros H. pose proof (unit_float_fle x H) as F. unfold unit_float in H.
  apply andb_prop in H as [H0 _]. rewrite leb_spec in H0.
  change (Prim2SF 0) with (S754_zero false) in H0. unfold fnn, fle in *.
  destruct (Prim2SF x) as [| | |[] m e]; try discriminate; try reflexivity. exact F.
Qed.

(** Adding a positive constant of ordinary size to a float that is zero or
    positive gives a float that is not zero. *)
Lemma fnn_add_nonzero (K : Z) (x c : float) :
  fnn K x = true -> sf_pos (-1073) (Prim2SF c) = true ->
  (x + c =? 0)%float = false.
Proof.
  unfold fnn. intros Hx Hc. rewrite eqb_spec, add_spec.
  change (Prim2SF 0) with (S754_zero false). unfold SF64add.
  destruct (Prim2SF c) as [| | |[] mc ec]; try discriminate. cbn [sf_pos] in Hc.
  apply Z.leb_le in Hc.
  destruct (Prim2SF x) as [sx| | |[] mx ex]; try discriminate.
  - reflexivity.
  - pose proof (SFadd_finite_pos mx mc ex ec Hc) as P.
    destruct (SFadd prec emax _ _) as [| | |s' m' e']; try contradiction; subst; reflexivity.
Qed.

Ltac fnn_split :=
  lazymatch goal with
  | |- fnn ?K (?x + ?y)%float = true =>
      let K' := eval vm_compute in (K - 2) in
      apply (fnn_add K' K' K x y); [| |lia..]
  | |- fnn ?K (?x * ?y)%float = true =>
      let K' := eval vm_compute in ((K - 1) / 2) in
      apply (fnn_mul K' K' K x y); [| |lia..]
  end.

Ltac fnn_hyp :=
  match goal with
  | H : fnn ?K0 ?x = true |- fnn ?K ?x = true =>
      solve [apply (fnn_weaken K0 K x); [lia | exact H]]
  end.

Ltac fnn_auto :=
  repeat first [fnn_hyp | fnn_split | solve [vm_compute; reflexivity]].

(** ** The contrast ratio is defined on valid colours *)

Section Luminance.

Variable pow : float -> float -> float.
Hypothesis pow_unit : pow_unit_on_channels pow = true.

Lemma linearize_low (c : Z) :
  0 <= c < 256 -> (chan c <=? 0.03928)%float = true ->
  unit_float (chan c / 12.92) = true.
Proof.
  intros Hc Hlow.
  assert (H : implb (chan c <=? 0.03928)%float (unit_float (chan c / 12.92)) = true).
  { revert c Hc Hlow. intros c Hc _. rewrite (chan_nth_eq c Hc).
    revert c Hc. apply for_all_range. vm_compute. reflexivity. }
  now rewrite Hlow in H.
Qed.

Lemma linearize_unit (c : Z) :
  0 <= c <= 255 -> exists v, _linearize pow c = Ok v /\ unit_float v = true.
Proof.
  intros Hc. unfold _linearize. rewrite int_truediv_255. cbn [bind].
  destruct (chan c <=? 0.03928)%float eqn:Hlow.
  - unfold fdiv. change (12.92 =? 0)%float with false. cbv iota.
    eexists. split; [reflexivity|]. apply linearize_low; [lia | exact Hlow].
  - unfold fdiv. change (1.055 =? 0)%float with false. cbv iota. cbn [bind].
    eexists. split; [reflexivity|].
    unfold pow_unit_on_channels in pow_unit.
    pose proof (for_all_range 256 _ pow_unit c ltac:(lia)) as H. cbv beta in H.
    rewrite Hlow in H. exact H.
Qed.

Lemma relative_luminance_nonneg (s : string) :
  valid_hex s = true ->
  exists l, relative_luminance pow s = Ok l /\ fnn 8 l = true.
Proof.
  intros Hv. destruct (hex_to_rgb_valid s Hv) as (r & g & b & E & (Hr & Hg & Hb) & _).
  unfold relative_luminance. rewrite E. cbn [bind].
  destruct (linearize_unit r Hr) as (lr & -> & Ur).
  destruct (linearize_unit g Hg) as (lg & -> & Ug).
  destruct (linearize_unit b Hb) as (lb & -> & Ub). cbn [bind].
  apply unit_float_fnn in Ur, Ug, Ub.
  eexists. split; [reflexivity|]. fnn_auto.
Qed.

(** [wcag_contrast_ratio] returns on every pair of valid colours: the
    divisor [dark + 0.05] is never zero. *)
Lemma wcag_contrast_ratio_total (color1 color2 : string) :
  valid_hex color1 = true -> valid_hex color2 = true ->
  exists l1 l2,
    relative_luminance pow color1 = Ok l1 /\ relative_luminance pow color2 = Ok l2
    /\ fnn 8 l1 = true /\ fnn 8 l2 = true
    /\ wcag_contrast_ratio pow color1 color2
       = Ok (round ((fmax l1 l2 + 0.05) / (fmin l1 l2 + 0.05)) 2).
Proof.
  intros H1 H2.
  destruct (relative_luminance_nonneg color1 H1) as (l1 & E1 & N1).
  destruct (relative_luminance_nonneg color2 H2) as (l2 & E2 & N2).
  exists l1, l2. repeat split; try assumption.
  unfold wcag_contrast_ratio. rewrite E1, E2. cbn [bind]. unfold fdiv.
  assert (Hd : fnn 8 (fmin l1 l2) = true) by (destruct (fmin_cases l1 l2) as [->| ->]; assumption).
  rewrite (fnn_add_nonzero 8 (fmin l1 l2) 0.05 Hd eq_refl). reflexivity.
Qed.

Lemma summarize_total (checks : list Check.t) :
  exists q,
    int_truediv (Z.of_nat (List.length (filter Check.aa_normal checks)))
                (Z.max 1 (Z.of_nat (List.length checks))) = Ok q
    /\ summarize checks
       = Ok (Summary.mk (Z.of_nat (List.length checks))
               (Z.of_nat (List.length (filter Check.aa_normal checks)))
               (Z.of_nat (List.length checks)
                - Z.of_nat (List.length (filter Check.aa_normal checks)))
               (round (q * 100) 1)).
Proof.
  unfold summarize, int_truediv.
  destruct (Z.eqb_spec (Z.max 1 (Z.of_nat (List.length checks))) 0) as [H|_]; [lia|].
  eexists. split; reflexivity.
Qed.

Lemma list_prod_nil_r {A B : Type} (l : list A) : list_prod l (@nil B) = [].
Proof. induction l; simpl; auto. Qed.

Lemma In_firstn_In {A : Type} (n : nat) (l : list A) (x : A) :
  In x (firstn n l) -> In x l.
Proof.
  intros H. rewrite <- (firstn_skipn n l). apply in_or_app. now left.
Qed.

Lemma In_skipn_In {A : Type} (n : nat) (l : list A) (x : A) :
  In x (skipn n l) -> In x l.
Proof.
  intros H. rewrite <- (firstn_skipn n l). apply in_or_app. now right.
Qed.

Lemma In_audit_foregrounds (colors : list ColorSwatch.t) (sw : ColorSwatch.t) :
  In sw (audit_foregrounds colors) -> In sw colors.
Proof.
  unfold audit_foregrounds, foreground_candidates.
  destruct (filter _ colors) eqn:E; intros H.
  - exact (In_firstn_In _ _ _ H).
  - rewrite <- E in H. now apply filter_In in H.
Qed.

Lemma In_audit_backgrounds (colors : list ColorSwatch.t) (sw : ColorSwatch.t) :
  In sw (audit_backgrounds colors) -> In sw colors.
Proof.
  unfold audit_backgrounds, background_candidates.
  destruct (filter _ colors) eqn:E; intros H.
  - exact (In_skipn_In _ _ _ H).
  - rewrite <- E in H. now apply filter_In in H.
Qed.

(** On a palette of valid colours every check is computed. *)
Lemma a11y_check_valid_swatches (palette : Palette.t) :
  valid_swatches palette -> exists report, a11y_check pow palette = Ok report.
Proof.
  intros Hv. rewrite (a11y_check_audit_spec pow palette).
  unfold audit_spec. cbv zeta.
  match goal with |- context [mapM ?f ?l] =>
    destruct (mapM_Forall2 f (fun _ _ => True) l) as (checks & -> & _)
  end.
  { intros [fg bg] Hin. apply in_prod_iff in Hin as [Hfg Hbg].
    apply In_audit_foregrounds in Hfg. apply In_audit_backgrounds in Hbg.
    unfold valid_swatches in Hv. rewrite Forall_forall in Hv.
    destruct (wcag_contrast_ratio_total _ _ (Hv fg Hfg) (Hv bg Hbg))
      as (l1 & l2 & _ & _ & _ & _ & ->).
    cbn [bind]. eauto. }
  cbn [bind]. destruct (summarize_total checks) as (q & _ & ->). cbn [bind]. eauto.
Qed.

End Luminance.

(** C10: the audit never divides by zero.  The summary divides by
    [max(1, len(checks))], so it is computed for every list of checks; when
    there is no foreground or no background (for instance at most two
    swatches, none with a background role) the report has no check and the
    summary 0, 0, 0, 0.0; and on a palette of valid colours every contrast
    ratio is defined ([dark + 0.05] is not zero), so [a11y_check]
    returns. *)
Theorem a11y_check_never_fails (pow : float -> float -> float) (palette : Palette.t) :
  (forall checks, exists summary, summarize checks = Ok summary)
  /\ (audit_foregrounds (Palette.colors palette) = []
      \/ audit_backgrounds (Palette.colors palette) = [] ->
      a11y_check pow palette
      = Ok (Report.mk (Palette.id palette) (Palette.name palette) []
              (Summary.mk 0 0 0 0%float)))
  /\ ((List.length (Palette.colors palette) <= 2)%nat ->
      background_candidates (Palette.colors palette) = [] ->
      audit_backgrounds (Palette.colors palette) = [])
  /\ (pow_unit_on_channels pow = true -> valid_swatches palette ->
      exists report, a11y_check pow palette = Ok report).
Proof.
  split; [|split; [|split]].
  - intros checks. destruct (summarize_total checks) as (q & _ & ->). eauto.
  - intros H. rewrite (a11y_check_audit_spec pow palette).
    unfold audit_spec. cbv zeta.
    assert (E : list_prod (audit_foregrounds (Palette.colors palette))
                          (audit_backgrounds (Palette.colors palette)) = []).
    { destruct H as [-> | ->]; [reflexivity | apply list_prod_nil_r]. }
    rewrite E. reflexivity.
  - intros Hlen Hbg. unfold audit_backgrounds. rewrite Hbg.
    destruct (Palette.colors palette) as [|a [|b [|c t]]]; simpl in *; try reflexivity; lia.
  - intros Hpow. now apply a11y_check_valid_swatches.
Qed.


(** ** Blending *)

Lemma float_of_int_small (c : Z) : -255 <= c <= 255 -> fle 8 (float_of_int c) = true.
Proof.
  intros Hc. replace c with (c + 255 - 255) by lia.
  generalize (c + 255) (ltac:(lia) : 0 <= c + 255 < 511). clear.
  apply (for_all_range 511 (fun k => fle 8 (float_of_int (k - 255)))).
  vm_compute. reflexivity.
Qed.

(** A channel of a blend is computed for every float ratio in [0, 1]. *)
Lemma blend_channel_total (c1 c2 : Z) (t : float) :
  0 <= c1 <= 255 -> 0 <= c2 <= 255 -> unit_float t = true ->
  exists c, blend_channel c1 c2 t = Ok c.
Proof.
  intros H1 H2 Ht. unfold blend_channel. apply (fle_int_of_float 40).
  pose proof (float_of_int_small c1 ltac:(lia)).
  pose proof (float_of_int_small (c2 - c1) ltac:(lia)).
  pose proof (unit_float_fle t Ht). fle_auto.
Qed.

(** At the two ends the channel is the channel of one of the colours. *)
Lemma blend_channel_ends (c1 c2 : Z) :
  0 <= c1 < 256 -> 0 <= c2 < 256 ->
  blend_channel c1 c2 0 = Ok c1 /\ blend_channel c1 c2 1 = Ok c2.
Proof.
  intros H1 H2.
  set (chk := fun c1 c2 =>
    match blend_channel c1 c2 0, blend_channel c1 c2 1 with
    | Ok v0, Ok v1 => (v0 =? c1) && (v1 =? c2)
    | _, _ => false
    end).
  assert (H : chk c1 c2 = true).
  { revert c1 c2 H1 H2. apply for_all_range2. vm_compute. reflexivity. }
  unfold chk in H.
  destruct (blend_channel c1 c2 0), (blend_channel c1 c2 1); try discriminate.
  apply andb_prop in H as [Ha Hb]. apply Z.eqb_eq in Ha, Hb. now subst.
Qed.

(** C7: blending two valid colours at ratio 0.0 gives the first colour and
    at ratio 1.0 the second, in normal form (the colour itself when it is
    ['#'] and six lower-case digits); for every float ratio the ratio used
    is [max(0.0, min(1.0, ratio))], which lies in [0, 1], and each channel
    is [int(c1 + (c2 - c1) * t)], the interpolated value truncated to an
    integer. *)
Theorem blend_colors_ends (hex1 hex2 : string) :
  valid_hex hex1 = true -> valid_hex hex2 = true ->
  blend_colors hex1 hex2 0 = Ok (String "#" (lowercase (hex_digits_of hex1)))
  /\ blend_colors hex1 hex2 1 = Ok (String "#" (lowercase (hex_digits_of hex2)))
  /\ (canonical_hex hex1 = true -> blend_colors hex1 hex2 0 = Ok hex1)
  /\ (canonical_hex hex2 = true -> blend_colors hex1 hex2 1 = Ok hex2)
  /\ forall ratio,
       let t := fmax 0 (fmin 1 ratio) in
       unit_float t = true
       /\ exists r1 g1 b1 r2 g2 b2 r g b,
            hex_to_rgb hex1 = Ok (r1, g1, b1) /\ hex_to_rgb hex2 = Ok (r2, g2, b2)
            /\ int_of_float (float_of_int r1 + float_of_int (r2 - r1) * t) = Ok r
            /\ int_of_float (float_of_int g1 + float_of_int (g2 - g1) * t) = Ok g
            /\ int_of_float (float_of_int b1 + float_of_int (b2 - b1) * t) = Ok b
            /\ blend_colors hex1 hex2 ratio = Ok (rgb_to_hex r g b).
Proof.
  intros Hv1 Hv2.
  destruct (hex_to_rgb_valid hex1 Hv1) as (r1 & g1 & b1 & E1 & (Hr1 & Hg1 & Hb1) & F1 & _).
  destruct (hex_to_rgb_valid hex2 Hv2) as (r2 & g2 & b2 & E2 & (Hr2 & Hg2 & Hb2) & F2 & _).
  assert (H0 : blend_colors hex1 hex2 0 = Ok (String "#" (lowercase (hex_digits_of hex1)))).
  { unfold blend_colors. rewrite E1, E2. cbn [bind].
    change (fmax 0 (fmin 1 0)) with 0%float.
    destruct (blend_channel_ends r1 r2) as [-> _]; try lia.
    destruct (blend_channel_ends g1 g2) as [-> _]; try lia.
    destruct (blend_channel_ends b1 b2) as [-> _]; try lia.
    cbn [bind]. now rewrite F1. }
  assert (H1 : blend_colors hex1 hex2 1 = Ok (String "#" (lowercase (hex_digits_of hex2)))).
  { unfold blend_colors. rewrite E1, E2. cbn [bind].
    change (fmax 0 (fmin 1 1)) with 1%float.
    destruct (blend_channel_ends r1 r2) as [_ ->]; try lia.
    destruct (blend_channel_ends g1 g2) as [_ ->]; try lia.
    destruct (blend_channel_ends b1 b2) as [_ ->]; try lia.
    cbn [bind]. now rewrite F2. }
  split; [exact H0|]. split; [exact H1|]. split; [|split].
  - intros Hc. apply canonical_hex_digits in Hc as [_ Hc]. now rewrite H0, <- Hc.
  - intros Hc. apply canonical_hex_digits in Hc as [_ Hc]. now rewrite H1, <- Hc.
  - intros ratio t. pose proof (clamp_unit ratio) as Ht. fold t in Ht.
    split; [exact Ht|].
    destruct (blend_channel_total r1 r2 t Hr1 Hr2 Ht) as (r & Er).
    destruct (blend_channel_total g1 g2 t Hg1 Hg2 Ht) as (g & Eg).
    destruct (blend_channel_total b1 b2 t Hb1 Hb2 Ht) as (b & Eb).
    exists r1, g1, b1, r2, g2, b2, r, g, b.
    repeat (split; [assumption|]).
    unfold blend_colors. rewrite E1, E2. cbn [bind]. fold t.
    now rewrite Er, Eg, Eb.
Qed.

Lemma blend_colors_ends_witness :
  blend_colors "#ff0000" "#0000ff" 0 = Ok (String "#" (lowercase (hex_digits_of "#ff0000")))
  /\ blend_colors "#ff0000" "#0000ff" 1
     = Ok (String "#" (lowercase (hex_digits_of "#0000ff")))
  /\ (canonical_hex "#ff0000" = true -> blend_colors "#ff0000" "#0000ff" 0 = Ok "#ff0000")
  /\ (canonical_hex "#0000ff" = true -> blend_colors "#ff0000" "#0000ff" 1 = Ok "#0000ff")
  /\ forall ratio,
       let t := fmax 0 (fmin 1 ratio) in
       unit_float t = true
       /\ exists r1 g1 b1 r2 g2 b2 r g b,
            hex_to_rgb "#ff0000" = Ok (r1, g1, b1)
            /\ hex_to_rgb "#0000ff" = Ok (r2, g2, b2)
            /\ int_of_float (float_of_int r1 + float_of_int (r2 - r1) * t) = Ok r
            /\ int_of_float (float_of_int g1 + float_of_int (g2 - g1) * t) = Ok g
            /\ int_of_float (float_of_int b1 + float_of_int (b2 - b1) * t) = Ok b
            /\ blend_colors "#ff0000" "#0000ff" ratio = Ok (rgb_to_hex r g b).
Proof. apply (blend_colors_ends "#ff0000" "#0000ff"); reflexivity. Defined.

(** ** Rounding to nearest, ties to even *)

Lemma compare_cases (a b : Z) (c : comparison) :
  (a ?= b) = c ->
  match c with Lt => a < b | Eq => a = b | Gt => a > b end.
Proof. intros <-. destruct (Z.compare_spec a b); lia. Qed.

Lemma round_half_even_cases (N D : Z) :
  0 < D ->
  let q := N / D in
  let r := N mod D in
  N = D * q + r /\ 0 <= r < D
  /\ ((2 * r < D /\ round_half_even N D = q)
      \/ (2 * r = D /\ Z.even q = true /\ round_half_even N D = q)
      \/ (2 * r = D /\ Z.even q = false /\ round_half_even N D = q + 1)
      \/ (2 * r > D /\ round_half_even N D = q + 1)).
Proof.
  intros HD q r. split; [apply Z.div_mod; lia|]. split; [apply Z.mod_pos_bound; lia|].
  unfold round_half_even. fold q r.
  destruct (Z.compare_spec (2 * r) D) as [E|L|G].
  - destruct (Z.even q) eqn:Ev; [right; left | right; right; left]; auto.
  - left. auto.
  - right. right. right. split; [lia | reflexivity].
Qed.

Lemma round_half_even_mono (N D N' D' : Z) :
  0 < D -> 0 < D' -> N * D' <= N' * D ->
  round_half_even N D <= round_half_even N' D'.
Proof.
  intros HD HD' Hle.
  destruct (round_half_even_cases N D HD) as (E & R & C).
  destruct (round_half_even_cases N' D' HD') as (E' & R' & C').
  set (q := N / D) in *. set (r := N mod D) in *.
  set (q' := N' / D') in *. set (r' := N' mod D') in *.
  assert (Hq : q <= q').
  { destruct (Z_le_gt_dec q q') as [|Hgt]; [assumption|]. exfalso.
    assert (q' + 1 <= q) by lia.
    assert (N' * D < (q' + 1) * D' * D) by nia.
    assert ((q' + 1) * D' * D <= q * D * D') by nia.
    nia. }
  destruct (Z.eq_dec q q') as [Heq|Hne].
  - (* same integer part: compare the remainders *)
    assert (Hr : r * D' <= r' * D) by nia.
    destruct C as [(C1 & ->)|[(C1 & C2 & ->)|[(C1 & C2 & ->)|(C1 & ->)]]];
      destruct C' as [(C1' & ->)|[(C1' & C2' & ->)|[(C1' & C2' & ->)|(C1' & ->)]]];
      try lia; try congruence; exfalso; nia.
  - destruct C as [(_ & ->)|[(_ & _ & ->)|[(_ & _ & ->)|(_ & ->)]]];
      destruct C' as [(_ & ->)|[(_ & _ & ->)|[(_ & _ & ->)|(_ & ->)]]]; lia.
Qed.

Lemma round_half_even_eq (N D N' D' : Z) :
  0 < D -> 0 < D' -> N * D' = N' * D ->
  round_half_even N D = round_half_even N' D'.
Proof.
  intros HD HD' E. apply Z.le_antisymm; apply round_half_even_mono; lia.
Qed.

Lemma round_half_even_exact (a D : Z) : 0 < D -> round_half_even (a * D) D = a.
Proof.
  intros HD. unfold round_half_even.
  rewrite Z.div_mul, Z.mod_mul by lia.
  destruct D; try lia. reflexivity.
Qed.

Lemma round_half_even_le (N D c : Z) : 0 < D -> N <= c * D -> round_half_even N D <= c.
Proof.
  intros HD H. rewrite <- (round_half_even_exact c D HD).
  apply round_half_even_mono; nia.
Qed.

Lemma round_half_even_ge (N D c : Z) : 0 < D -> c * D <= N -> c <= round_half_even N D.
Proof.
  intros HD H. rewrite <- (round_half_even_exact c D HD) at 1.
  apply round_half_even_mono; nia.
Qed.

Lemma div_between (N D m : Z) : 0 < D -> m * D <= N < (m + 1) * D -> N / D = m.
Proof.
  intros HD H. symmetry. apply Z.div_unique with (r := N - m * D); lia.
Qed.

Lemma located_round (m : Z) (l : location) (N D : Z) :
  0 < D -> located m l N D -> round_nearest_even m l = round_half_even N D.
Proof.
  intros HD H. destruct (round_half_even_cases N D HD) as (E & R & C).
  assert (Hq : N / D = m).
  { apply div_between; [assumption|]. destruct l; cbn [located] in H; lia. }
  rewrite Hq in *.
  destruct l as [|c]; cbn [located round_nearest_even] in *.
  - destruct C as [(C1 & ->)|[(C1 & C2 & ->)|[(C1 & C2 & ->)|(C1 & ->)]]]; lia.
  - destruct H as [B Hc]. apply compare_cases in Hc.
    destruct c;
      destruct C as [(C1 & ->)|[(C1 & C2 & ->)|[(C1 & C2 & ->)|(C1 & ->)]]];
      rewrite ?C2; try reflexivity; exfalso; lia.
Qed.

Lemma shr_1_located (r : shr_record) (N D : Z) :
  0 <= shr_m r -> 0 < D ->
  located (shr_m r) (loc_of_shr_record r) N D ->
  located (shr_m (shr_1 r)) (loc_of_shr_record (shr_1 r)) N (2 * D).
Proof.
  destruct r as [m rb sb]. cbn [shr_m]. intros Hm HD H.
  destruct m as [|[p|p|]|p]; try lia; destruct rb, sb;
    cbn [shr_1 shr_m loc_of_shr_record orb located] in *;
    try match type of H with _ /\ _ => destruct H as [? Hc]; apply compare_cases in Hc end;
    try (split; [lia|]);
    try (apply Z.compare_lt_iff; lia);
    try (apply Z.compare_gt_iff; lia);
    try (apply Z.compare_eq_iff; lia); try lia.
Qed.

Lemma pow2_xO (p : positive) : 2 ^ Zpos p~0 = 2 ^ Zpos p * 2 ^ Zpos p.
Proof. rewrite <- Z.pow_add_r by lia. f_equal. lia. Qed.

Lemma pow2_xI (p : positive) : 2 ^ Zpos p~1 = 2 * (2 ^ Zpos p * 2 ^ Zpos p).
Proof.
  rewrite <- Z.pow_add_r, <- Z.pow_succ_r by lia. f_equal. lia.
Qed.

Lemma iter_shr_1_located (p : positive) (r : shr_record) (N D : Z) :
  0 <= shr_m r -> 0 < D ->
  located (shr_m r) (loc_of_shr_record r) N D ->
  located (shr_m (iter_pos shr_1 p r)) (loc_of_shr_record (iter_pos shr_1 p r))
          N (D * 2 ^ Zpos p).
Proof.
  revert r D. induction p as [p IH|p IH|]; intros r D Hr HD H; simpl iter_pos.
  - assert (H2 : 0 < 2 ^ Zpos p) by (apply Z.pow_pos_nonneg; lia).
    assert (H1 : 0 <= shr_m (shr_1 r)) by (rewrite shr_1_m by assumption; apply Z.div_pos; lia).
    assert (H3 : 0 <= shr_m (iter_pos shr_1 p (shr_1 r)))
      by (rewrite iter_shr_1_m by assumption; apply Z.div_pos; lia).
    replace (D * 2 ^ Zpos p~1) with (2 * D * 2 ^ Zpos p * 2 ^ Zpos p).
    + apply IH; [assumption | nia |]. apply IH; [assumption | lia |].
      now apply shr_1_located.
    + rewrite pow2_xI. lia.
  - assert (H2 : 0 < 2 ^ Zpos p) by (apply Z.pow_pos_nonneg; lia).
    assert (H3 : 0 <= shr_m (iter_pos shr_1 p r))
      by (rewrite iter_shr_1_m by assumption; apply Z.div_pos; lia).
    replace (D * 2 ^ Zpos p~0) with (D * 2 ^ Zpos p * 2 ^ Zpos p).
    + apply IH; [assumption | nia |]. now apply IH.
    + rewrite pow2_xO. lia.
  - replace (D * 2 ^ 1) with (2 * D) by (change (2 ^ 1) with 2; lia).
    now apply shr_1_located.
Qed.

Lemma loc_of_shr_record_of_loc (m : Z) (l : location) :
  loc_of_shr_record (shr_record_of_loc m l) = l.
Proof. destruct l as [|[]]; reflexivity. Qed.

Lemma shr_fexp_located (m e : Z) (l : location) (N D : Z) :
  0 <= m -> 0 < D -> located m l N D ->
  located (shr_m (fst (shr_fexp prec emax m e l)))
          (loc_of_shr_record (fst (shr_fexp prec emax m e l)))
          N (D * 2 ^ (snd (shr_fexp prec emax m e l) - e)).
Proof.
  intros Hm HD H. unfold shr_fexp, shr.
  destruct (SpecFloat.fexp prec emax (Zdigits2 m + e) - e) as [|p|p] eqn:E;
    simpl fst; simpl snd.
  - rewrite Z.sub_diag, Z.mul_1_r, shr_record_of_loc_m, loc_of_shr_record_of_loc. exact H.
  - replace (e + Zpos p - e) with (Zpos p) by lia.
    apply iter_shr_1_located; rewrite ?shr_record_of_loc_m, ?loc_of_shr_record_of_loc; auto.
  - rewrite Z.sub_diag, Z.mul_1_r, shr_record_of_loc_m, loc_of_shr_record_of_loc. exact H.
Qed.

Lemma located_bounds (m : Z) (l : location) (N D : Z) :
  located m l N D -> m * D <= N < (m + 1) * D \/ D <= 0.
Proof. destruct l; cbn [located]; lia. Qed.

Lemma pow2_pos (k : Z) : 0 <= k -> 0 < 2 ^ k.
Proof. intros. apply Z.pow_pos_nonneg; lia. Qed.

Lemma Zdigits2_unique (x k : Z) : 1 <= k -> 2 ^ (k - 1) <= x < 2 ^ k -> Zdigits2 x = k.
Proof.
  intros Hk [Hlo Hhi].
  assert (Hx : 0 < x) by (pose proof (pow2_pos (k - 1)); lia).
  assert (Zdigits2 x <= k) by (apply Zdigits2_le; lia).
  pose proof (Zdigits2_lt_pow x ltac:(lia)) as H1.
  pose proof (Zdigits2_nonneg x).
  destruct (Z_le_gt_dec k (Zdigits2 x)); [lia|]. exfalso.
  assert (2 ^ Zdigits2 x <= 2 ^ (k - 1)) by (apply Z.pow_le_mono_r; lia).
  lia.
Qed.

(** Scaling by a power of two moves the digits. *)
Lemma Zdigits2_scaled (N D j : Z) :
  0 < D -> 1 <= N / D -> 0 <= j ->
  Zdigits2 (N * 2 ^ j / D) = Zdigits2 (N / D) + j.
Proof.
  intros HD Hq Hj.
  destruct (Zdigits2_pos_ge (N / D) ltac:(lia)) as [Hlo Hd].
  pose proof (Zdigits2_lt_pow (N / D) ltac:(lia)) as Hhi.
  set (d := Zdigits2 (N / D)) in *.
  pose proof (pow2_pos j Hj) as Hj2.
  pose proof (pow2_pos (d - 1) ltac:(lia)) as Hd2.
  assert (HN : 2 ^ (d - 1) * D <= N < 2 ^ d * D).
  { pose proof (Z.div_mod N D ltac:(lia)). pose proof (Z.mod_pos_bound N D HD). nia. }
  apply Zdigits2_unique; [lia|]. split.
  - apply Z.div_le_lower_bound; [lia|].
    replace (d + j - 1) with (d - 1 + j) by lia. rewrite Z.pow_add_r by lia. nia.
  - apply Z.div_lt_upper_bound; [lia|]. rewrite Z.pow_add_r by lia. nia.
Qed.

(** The value of a rounding: the nearest double to the number the
    mantissa, the exponent and the location stand for. *)
Lemma binary_round_aux_value (s : bool) (m e : Z) (l : location) (N D : Z) :
  0 < m -> 0 < D -> located m l N D ->
  - scale <= e -> e <= Z.max (Zdigits2 m + e - 53) (-1074) -> Zdigits2 m + e <= 1023 ->
  SFval (binary_round_aux prec emax s m e l) = nearest (N * 2 ^ (e + scale)) D.
Proof.
  intros Hm HD HL Hs He Hov. unfold binary_round_aux.
  destruct (shr_fexp_m m e l ltac:(lia)) as [E1 M1].
  pose proof (shr_fexp_located m e l N D ltac:(lia) HD HL) as L1.
  destruct (shr_fexp prec emax m e l) as [mrs' e']. simpl fst in *; simpl snd in *.
  assert (E1' : e' = Z.max (Zdigits2 m + e - 53) (-1074)) by lia. clear E1.
  set (m1 := shr_m mrs') in *.
  assert (H2k : 0 < 2 ^ (e' - e)) by (apply pow2_pos; lia).
  assert (HD1 : 0 < D * 2 ^ (e' - e)) by nia.
  pose proof (located_round _ _ _ _ HD1 L1) as R2.
  set (m2 := round_nearest_even m1 (loc_of_shr_record mrs')) in *.
  assert (Hm1 : 0 <= m1) by (rewrite M1; apply Z.div_pos; lia).
  pose proof (round_nearest_even_bounds m1 (loc_of_shr_record mrs')) as Hr. fold m2 in Hr.
  assert (D1 : Zdigits2 m1 <= 53).
  { pose proof (Zdigits2_div_pow m (e' - e) (Zdigits2 m) ltac:(lia) ltac:(lia) ltac:(lia)) as H.
    rewrite <- M1 in H. pose proof (Zdigits2_nonneg m1). lia. }
  assert (B1 : m1 < 2 ^ 53).
  { eapply Z.lt_le_trans; [apply Zdigits2_lt_pow; lia|]. apply Z.pow_le_mono_r; lia. }
  destruct (shr_fexp_m m2 e' loc_Exact ltac:(lia)) as [E2 M2].
  destruct (shr_fexp prec emax m2 e' loc_Exact) as [mrs'' e'']. simpl fst in *; simpl snd in *.
  assert (V : shr_m mrs'' * 2 ^ (e'' + scale) = m2 * 2 ^ (e' + scale) /\ e'' <= 971).
  { destruct (Z.eq_dec m2 (2 ^ 53)) as [Heq|Hne].
    - rewrite Heq in E2, M2 |- *. change (Zdigits2 (2 ^ 53)) with 54 in E2.
      assert (e'' = e' + 1) as -> by lia.
      rewrite M2. replace (e' + 1 - e') with 1 by lia.
      change (2 ^ 53 / 2 ^ 1) with (2 ^ 52).
      replace (e' + 1 + scale) with (1 + (e' + scale)) by lia.
      rewrite Z.pow_add_r by (unfold scale; lia).
      change (2 ^ 53) with (2 ^ 52 * 2 ^ 1). split; [lia|]. unfold scale in *. lia.
    - assert (Zdigits2 m2 <= 53) by (apply Zdigits2_le; lia).
      assert (e'' = e') as -> by lia.
      rewrite M2, Z.sub_diag, Z.div_1_r. split; [reflexivity|]. lia. }
  destruct V as [V Hle].
  assert (Hm3 : 0 <= shr_m mrs'') by (rewrite M2; apply Z.div_pos; [lia | apply pow2_pos; lia]).
  assert (R : SFval
    match shr_m mrs'' with
    | 0 => S754_zero s
    | Z.pos m0 => if e'' <=? emax - prec then S754_finite s m0 e'' else S754_infinity s
    | Z.neg _ => S754_nan
    end = m2 * 2 ^ (e' + scale)).
  { rewrite <- V. destruct (shr_m mrs'') as [|p|p]; [reflexivity| |lia].
    change (emax - prec) with 971.
    destruct (Z.leb_spec e'' 971); [reflexivity | lia]. }
  rewrite R. unfold nearest.
  assert (Hq : N / D = m).
  { apply div_between; [assumption|]. destruct (located_bounds _ _ _ _ HL); lia. }
  assert (Hes : 0 <= e + scale) by lia.
  rewrite Zdigits2_scaled, Hq by (rewrite ?Hq; lia).
  replace (Z.max (Zdigits2 m + (e + scale) - 53) (scale - 1074)) with (e' + scale) by lia.
  f_equal. rewrite R2. apply round_half_even_eq; try assumption.
  - pose proof (pow2_pos (e' + scale) ltac:(lia)). nia.
  - replace (e' + scale) with ((e' - e) + (e + scale)) by lia.
    rewrite Z.pow_add_r by lia. ring.
Qed.

(** ** The nearest double is monotone *)

Lemma div_fraction_mono (A B A' B' : Z) :
  0 < B -> 0 < B' -> A * B' <= A' * B -> A / B <= A' / B'.
Proof.
  intros HB HB' H.
  apply Z.div_le_lower_bound; [lia|].
  pose proof (Z.div_mod A B ltac:(lia)). pose proof (Z.mod_pos_bound A B HB).
  assert (Hm : B * (B' * (A / B)) <= B * A') by nia.
  apply Z.mul_le_mono_pos_l in Hm; lia.
Qed.

Lemma nearest_mono (A B A' B' : Z) :
  0 <= A -> 0 < B -> 0 < B' -> A * B' <= A' * B ->
  nearest A B <= nearest A' B'.
Proof.
  intros HA HB HB' H. unfold nearest.
  pose proof (div_fraction_mono A B A' B' HB HB' H) as Hq.
  assert (Hq0 : 0 <= A / B) by (apply Z.div_pos; lia).
  pose proof (Zdigits2_mono (A / B) (A' / B') ltac:(lia)) as Hp.
  set (p := Zdigits2 (A / B)) in *. set (p' := Zdigits2 (A' / B')) in *.
  set (E := Z.max (p - 53) (scale - 1074)). set (E' := Z.max (p' - 53) (scale - 1074)).
  assert (HE : 0 < 2 ^ E) by (apply pow2_pos; unfold E, scale; lia).
  assert (HE' : 0 < 2 ^ E') by (apply pow2_pos; unfold E', scale; lia).
  destruct (Z.eq_dec E E') as [Heq|Hne].
  - rewrite <- Heq. apply Z.mul_le_mono_nonneg_r; [lia|].
    apply round_half_even_mono; nia.
  - assert (HEE : E + 1 <= E') by (unfold E, E' in *; lia).
    assert (Hp' : E' = p' - 53) by (unfold E, E' in *; lia).
    assert (Hpp : p <= E + 53) by (unfold E; lia).
    assert (H0 : 0 <= E) by (unfold E, scale; lia).
    (* the smaller value rounds to at most [2^(53+E)] *)
    assert (U : round_half_even A (B * 2 ^ E) * 2 ^ E <= 2 ^ 53 * 2 ^ E).
    { apply Z.mul_le_mono_nonneg_r; [lia|]. apply round_half_even_le; [nia|].
      pose proof (Zdigits2_lt_pow (A / B) Hq0) as Hlt. fold p in Hlt.
      assert (Hpw : 2 ^ p <= 2 ^ (E + 53)) by (apply Z.pow_le_mono_r; lia).
      rewrite Z.pow_add_r in Hpw by lia.
      pose proof (Z.div_mod A B ltac:(lia)). pose proof (Z.mod_pos_bound A B HB).
      assert (A < (A / B + 1) * B) by nia.
      assert ((A / B + 1) * B <= 2 ^ E * 2 ^ 53 * B) by (apply Z.mul_le_mono_nonneg_r; lia).
      lia. }
    (* the larger one to at least [2^(52+E')] *)
    assert (L : 2 ^ 52 * 2 ^ E' <= round_half_even A' (B' * 2 ^ E') * 2 ^ E').
    { apply Z.mul_le_mono_nonneg_r; [lia|]. apply round_half_even_ge; [nia|].
      assert (Hq1 : 0 < A' / B').
      { destruct (Z_lt_le_dec 0 (A' / B')); [assumption|].
        assert (A' / B' = 0) as E0 by lia. unfold p' in Hp'. rewrite E0 in Hp'.
        simpl in Hp'. lia. }
      destruct (Zdigits2_pos_ge (A' / B') Hq1) as [Hlo _]. fold p' in Hlo.
      replace (p' - 1) with (52 + E') in Hlo by lia.
      rewrite Z.pow_add_r in Hlo by lia.
      pose proof (Z.div_mod A' B' ltac:(lia)). pose proof (Z.mod_pos_bound A' B' HB').
      assert (2 ^ 52 * 2 ^ E' * B' <= A' / B' * B') by (apply Z.mul_le_mono_nonneg_r; lia).
      lia. }
    assert (2 ^ 53 * 2 ^ E <= 2 ^ 52 * 2 ^ E').
    { replace E' with ((E' - E - 1) + 1 + E) by lia.
      rewrite !Z.pow_add_r by lia. change (2 ^ 53) with (2 ^ 52 * 2 ^ 1).
      pose proof (pow2_pos (E' - E - 1) ltac:(lia)). nia. }
    lia.
Qed.

Lemma nearest_eq (A B A' B' : Z) :
  0 <= A -> 0 < B -> 0 < B' -> A * B' = A' * B -> nearest A B = nearest A' B'.
Proof.
  intros HA HB HB' H. assert (0 <= A') by nia.
  apply Z.le_antisymm; apply nearest_mono; lia.
Qed.

Lemma round_half_even_0 (D : Z) : 0 < D -> round_half_even 0 D = 0.
Proof. intros HD. apply (round_half_even_exact 0 D HD). Qed.

Lemma nearest_0 (B : Z) : 0 < B -> nearest 0 B = 0.
Proof.
  intros HB. unfold nearest. rewrite Z.div_0_l by lia.
  change (Z.max (Zdigits2 0 - 53) (scale - 1074)) with 1126.
  rewrite round_half_even_0; [reflexivity|]. pose proof (pow2_pos 1126). lia.
Qed.

(** ** The order of floats is the order of their values *)

Lemma valid_finite (s : bool) (m : positive) (e : Z) :
  valid_binary (S754_finite s m e) = true ->
  e = Z.max (Zpos (digits2_pos m) + e - 53) (-1074) /\ e <= 971.
Proof.
  intros V.
  unfold valid_binary, SpecFloat.valid_binary, bounded, canonical_mantissa, fexp, SpecFloat.emin in V.
  apply andb_prop in V as [V1 V2]. apply Z.eqb_eq in V1. apply Z.leb_le in V2.
  change prec with 53 in *. change emax with 1024 in *. lia.
Qed.

Lemma SFval_lt_exp (s1 s2 : bool) (m1 m2 : positive) (e1 e2 : Z) :
  valid_binary (S754_finite s1 m1 e1) = true ->
  valid_binary (S754_finite s2 m2 e2) = true ->
  e1 < e2 ->
  Zpos m1 * 2 ^ (e1 + scale) < Zpos m2 * 2 ^ (e2 + scale).
Proof.
  intros V1 V2 He. apply valid_finite in V1 as [C1 _], V2 as [C2 _].
  pose proof (digits2_pos_bounds m1) as [_ B1].
  pose proof (digits2_pos_bounds m2) as [B2 _].
  assert (D2 : Zpos (digits2_pos m2) = 53) by lia. rewrite D2 in B2.
  assert (D1 : 2 ^ Zpos (digits2_pos m1) <= 2 ^ 53) by (apply Z.pow_le_mono_r; lia).
  replace (e2 + scale) with ((e2 - e1 - 1) + 1 + (e1 + scale)) by lia.
  rewrite (Z.pow_add_r 2 (e2 - e1 - 1 + 1)), (Z.pow_add_r 2 (e2 - e1 - 1))
    by (unfold scale; lia).
  pose proof (pow2_pos (e2 - e1 - 1) ltac:(lia)) as HQ.
  pose proof (pow2_pos (e1 + scale) ltac:(unfold scale; lia)) as HP.
  change (2 ^ (53 - 1)) with (2 ^ 52) in B2. change (2 ^ 53) with (2 ^ 52 * 2) in D1.
  change (2 ^ 1) with 2.
  set (P := 2 ^ (e1 + scale)) in *. set (Q := 2 ^ (e2 - e1 - 1)) in *.
  set (c := 2 ^ 52) in *. clearbody P Q c.
  apply Z.lt_le_trans with (c * 2 * P).
  - apply Z.mul_lt_mono_pos_r; lia.
  - replace (Zpos m2 * (Q * 2 * P)) with (Zpos m2 * Q * 2 * P) by ring.
    apply Z.mul_le_mono_nonneg_r; [lia|]. apply Z.mul_le_mono_nonneg_r; [lia|].
    apply Z.le_trans with (Zpos m2 * 1); [lia|]. apply Z.mul_le_mono_nonneg_l; lia.
Qed.

Lemma SFval_pos (s : bool) (m : positive) (e : Z) :
  valid_binary (S754_finite s m e) = true -> 0 < SFval (S754_finite s m e).
Proof.
  intros V. apply valid_finite in V as [C _]. cbn [SFval].
  pose proof (pow2_pos (e + scale) ltac:(unfold scale; lia)). nia.
Qed.

Lemma SFcompare_val (x y : spec_float) (K1 K2 : Z) :
  valid_binary x = true -> valid_binary y = true ->
  sf_nonneg K1 x = true -> sf_nonneg K2 y = true ->
  SFcompare x y = Some (SFval x ?= SFval y).
Proof.
  intros Vx Vy Nx Ny.
  destruct x as [sx|sx| |sx mx ex], y as [sy|sy| |sy my ey]; try discriminate;
    try (destruct sx; try discriminate); try (destruct sy; try discriminate);
    try reflexivity.
  - pose proof (SFval_pos _ _ _ Vy). cbn [SFcompare]. f_equal. symmetry.
    apply Z.compare_lt_iff. assumption.
  - pose proof (SFval_pos _ _ _ Vy). cbn [SFcompare]. f_equal. symmetry.
    apply Z.compare_lt_iff. assumption.
  - pose proof (SFval_pos _ _ _ Vx). cbn [SFcompare]. f_equal. symmetry.
    apply Z.compare_gt_iff. assumption.
  - pose proof (SFval_pos _ _ _ Vx). cbn [SFcompare]. f_equal. symmetry.
    apply Z.compare_gt_iff. assumption.
  - cbn [SFcompare SFval]. f_equal.
    destruct (Z.compare_spec ex ey) as [E|L|G].
    + subst ey. rewrite Pos.compare_cont_spec. cbn [Pos.switch_Eq].
      pose proof (valid_finite _ _ _ Vx) as [C _].
      pose proof (pow2_pos (ex + scale) ltac:(unfold scale; lia)).
      rewrite <- Zmult_compare_compat_r by lia.
      change (Zpos mx ?= Zpos my) with (mx ?= my)%positive.
      destruct (mx ?= my)%positive; reflexivity.
    + symmetry. apply Z.compare_lt_iff. eapply SFval_lt_exp; eassumption.
    + symmetry. apply Z.compare_gt_iff. eapply SFval_lt_exp; eassumption.
Qed.

(** ** The values of the rounded operations *)

Lemma nearest_exact (s : bool) (m : positive) (e : Z) :
  valid_binary (S754_finite s m e) = true ->
  nearest (Zpos m * 2 ^ (e + scale)) 1 = Zpos m * 2 ^ (e + scale).
Proof.
  intros V. apply valid_finite in V as [C _]. unfold nearest.
  assert (Hs : 0 <= e + scale) by (unfold scale; lia).
  pose proof (Zdigits2_scaled (Zpos m) 1 (e + scale) ltac:(lia)) as H.
  rewrite !Z.div_1_r in *. rewrite H by lia. cbn [Zdigits2].
  replace (Z.max (Zpos (digits2_pos m) + (e + scale) - 53) (scale - 1074)) with (e + scale)
    by lia.
  rewrite Z.mul_1_l, round_half_even_exact; [reflexivity | now apply pow2_pos].
Qed.

Lemma SFval_nearest (x : spec_float) :
  valid_binary x = true -> nearest (SFval x) 1 = SFval x.
Proof.
  destruct x as [s|s| |s m e]; cbn [SFval]; intros V; try (apply nearest_0; lia).
  now apply (nearest_exact s).
Qed.

Lemma Zdigits2_ge (x k : Z) : 0 <= k -> 2 ^ k <= x -> k + 1 <= Zdigits2 x.
Proof.
  intros Hk H. pose proof (pow2_pos k Hk).
  pose proof (Zdigits2_lt_pow x ltac:(lia)) as Hlt.
  assert (L : 2 ^ k < 2 ^ Zdigits2 x) by lia.
  apply Z.pow_lt_mono_r_iff in L; [lia | lia | apply Zdigits2_nonneg].
Qed.

Lemma SFmul_value (x y : spec_float) (K1 K2 : Z) :
  valid_binary x = true -> valid_binary y = true ->
  sf_nonneg K1 x = true -> sf_nonneg K2 y = true -> K1 + K2 <= 1023 ->
  SFval (SFmul prec emax x y) = nearest (SFval x * SFval y) (2 ^ scale).
Proof.
  assert (HS : 0 < 2 ^ scale) by (apply pow2_pos; unfold scale; lia).
  intros Vx Vy Nx Ny HK.
  destruct x as [sx|sx| |sx mx ex], y as [sy|sy| |sy my ey]; try discriminate;
    try (cbn [SFmul SFval]; rewrite ?Z.mul_0_r, ?Z.mul_0_l, nearest_0 by lia; reflexivity).
  destruct sx; [discriminate|]. destruct sy; [discriminate|].
  cbn [sf_nonneg] in Nx, Ny. apply Z.leb_le in Nx, Ny.
  pose proof (valid_finite _ _ _ Vx) as [Cx _]. pose proof (valid_finite _ _ _ Vy) as [Cy _].
  pose proof (digits2_pos_bounds mx) as [Lx Bx]. pose proof (digits2_pos_bounds my) as [Ly By].
  assert (D : Zdigits2 (Zpos (mx * my)) <= Zpos (digits2_pos mx) + Zpos (digits2_pos my)).
  { apply Zdigits2_le; [lia|]. rewrite Z.pow_add_r, Pos2Z.inj_mul by lia. nia. }
  assert (D' : Zpos (digits2_pos mx) + Zpos (digits2_pos my) - 1 <= Zdigits2 (Zpos (mx * my))).
  { replace (Zpos (digits2_pos mx) + Zpos (digits2_pos my) - 1)
      with (Zpos (digits2_pos mx) - 1 + (Zpos (digits2_pos my) - 1) + 1) by lia.
    apply Zdigits2_ge; [lia|]. rewrite Z.pow_add_r, Pos2Z.inj_mul by lia.
    pose proof (pow2_pos (Zpos (digits2_pos mx) - 1) ltac:(lia)).
    pose proof (pow2_pos (Zpos (digits2_pos my) - 1) ltac:(lia)). nia. }
  cbn [SFmul xorb].
  rewrite (binary_round_aux_value _ _ _ _ (Zpos (mx * my)) 1);
    try (unfold scale; cbn [located]; lia).
  cbn [SFval]. apply nearest_eq; try lia.
  rewrite Pos2Z.inj_mul, Z.mul_1_r.
  replace (Zpos mx * 2 ^ (ex + scale) * (Zpos my * 2 ^ (ey + scale)))
    with (Zpos mx * Zpos my * (2 ^ (ex + scale) * 2 ^ (ey + scale))) by ring.
  rewrite <- Z.mul_assoc. f_equal.
  rewrite <- !Z.pow_add_r by (unfold scale; lia). f_equal. lia.
Qed.

Lemma binary_normalize_value (m : positive) (e : Z) :
  - scale <= e -> Zpos (digits2_pos m) + e <= 1023 ->
  SFval (binary_normalize prec emax (Zpos m) e false) = nearest (Zpos m * 2 ^ (e + scale)) 1.
Proof.
  intros He Hov. cbn [binary_normalize]. unfold binary_round.
  destruct (shl_align_spec m e (SpecFloat.fexp prec emax (Zpos (digits2_pos m) + e)))
    as (E & V & Dg).
  destruct (shl_align m e (SpecFloat.fexp prec emax (Zpos (digits2_pos m) + e))) as [mz ez].
  cbn [fst snd] in *. rewrite fexp_eq in E.
  rewrite (binary_round_aux_value _ _ _ _ (Zpos mz) 1);
    try (unfold scale in *; cbn [located Zdigits2]; lia).
  f_equal. rewrite V, <- Z.mul_assoc, <- Z.pow_add_r by (unfold scale in *; lia).
  f_equal. f_equal. lia.
Qed.

Lemma SFadd_value (x y : spec_float) (K : Z) :
  valid_binary x = true -> valid_binary y = true ->
  sf_nonneg K x = true -> sf_nonneg K y = true -> K <= 1021 ->
  SFval (SFadd prec emax x y) = nearest (SFval x + SFval y) 1.
Proof.
  intros Vx Vy Nx Ny HK.
  destruct x as [sx|sx| |sx mx ex], y as [sy|sy| |sy my ey]; try discriminate.
  - cbn [SFval]. rewrite nearest_0 by lia. cbn [SFadd]. destruct sx, sy; reflexivity.
  - cbn [SFadd]. rewrite Z.add_0_l. symmetry. now apply SFval_nearest.
  - cbn [SFadd]. change (SFval (S754_zero sy)) with 0. rewrite Z.add_0_r.
    symmetry. now apply SFval_nearest.
  - destruct sx; [discriminate|]. destruct sy; [discriminate|].
    cbn [sf_nonneg] in Nx, Ny. apply Z.leb_le in Nx, Ny.
    pose proof (valid_finite _ _ _ Vx) as [Cx _]. pose proof (valid_finite _ _ _ Vy) as [Cy _].
    unfold SFadd.
    destruct (shl_align_spec mx ex (Z.min ex ey)) as (E1 & V1 & _).
    destruct (shl_align_spec my ey (Z.min ex ey)) as (E2 & V2 & _).
    set (ez := Z.min ex ey) in *.
    set (ax := fst (shl_align mx ex ez)) in *. set (ay := fst (shl_align my ey ez)) in *.
    replace (snd (shl_align mx ex ez)) with ez in * by (unfold ez in *; lia).
    replace (snd (shl_align my ey ez)) with ez in * by (unfold ez in *; lia).
    cbn [cond_Zopp]. change (Zpos ax + Zpos ay) with (Zpos (ax + ay)).
    pose proof (aligned_lt mx ex ez K ltac:(unfold ez; lia) ltac:(lia)) as Ax.
    pose proof (aligned_lt my ey ez K ltac:(unfold ez; lia) ltac:(lia)) as Ay.
    pose proof (Zdigits2_abs_sum _ _ (K - ez) ltac:(unfold ez; lia) Ax Ay false false) as Ds.
    cbn [cond_Zopp] in Ds. rewrite <- V1, <- V2 in Ds.
    change (Zpos ax + Zpos ay) with (Zpos (ax + ay)) in Ds. cbn [Zdigits2] in Ds.
    rewrite binary_normalize_value by (unfold scale, ez in *; lia).
    f_equal. cbn [SFval]. rewrite Pos2Z.inj_add, V1, V2, Z.mul_add_distr_r.
    rewrite <- !Z.mul_assoc, <- !Z.pow_add_r by (unfold scale, ez in *; lia).
    f_equal; f_equal; f_equal; lia.
Qed.

(** ** Division *)

Lemma new_location_located (D q r N : Z) :
  0 < D -> N = D * q + r -> 0 <= r < D -> located q (new_location D r) N D.
Proof.
  intros HD HN Hr. unfold new_location, new_location_even, new_location_odd.
  destruct (Z.even D) eqn:Ev; destruct (Z.eqb_spec r 0) as [E0|N0];
    cbn [located]; try lia; (split; [lia|]).
  - destruct (Z.compare_spec (2 * r) D);
      [apply Z.compare_eq_iff | apply Z.compare_lt_iff | apply Z.compare_gt_iff]; lia.
  - assert (Hodd : Z.odd D = true) by (rewrite <- Z.negb_even, Ev; reflexivity).
    apply Z.odd_spec in Hodd as [k Hk].
    destruct (Z.compare_spec (2 * r + 1) D);
      [apply Z.compare_lt_iff | apply Z.compare_lt_iff | apply Z.compare_gt_iff]; lia.
Qed.

Lemma SFdiv_core_binary_spec (m1 e1 m2 e2 : Z) :
  0 < m1 -> 0 < m2 -> -1021 <= Zdigits2 m1 + e1 - (Zdigits2 m2 + e2) ->
  let '(q, e', l) := SFdiv_core_binary prec emax m1 e1 m2 e2 in
  e' = Z.min (Zdigits2 m1 + e1 - (Zdigits2 m2 + e2) - 53) (e1 - e2)
  /\ located q l (m1 * 2 ^ (e1 - e2 - e')) m2
  /\ 0 < q
  /\ e' <= Z.max (Zdigits2 q + e' - 53) (-1074)
  /\ Zdigits2 q + e' <= Zdigits2 m1 + e1 - (Zdigits2 m2 + e2) + 1.
Proof.
  intros H1 H2 Hg. unfold SFdiv_core_binary. rewrite fexp_eq.
  set (d1 := Zdigits2 m1) in *. set (d2 := Zdigits2 m2) in *.
  replace (Z.max (d1 + e1 - (d2 + e2) - 53) (-1074)) with (d1 + e1 - (d2 + e2) - 53) by lia.
  set (e' := Z.min (d1 + e1 - (d2 + e2) - 53) (e1 - e2)).
  set (s := e1 - e2 - e').
  assert (Hs : 53 - d1 + d2 <= s) by (unfold s, e'; lia).
  assert (Hs0 : 0 <= s) by (unfold s, e'; lia).
  assert (Hm' : match s with Z.pos _ => Z.shiftl m1 s | 0 => m1 | Z.neg _ => 0 end
                = m1 * 2 ^ s).
  { destruct s as [|p|p] eqn:Es; [lia | | lia]. apply Z.shiftl_mul_pow2. lia. }
  rewrite Hm'.
  pose proof (Z_div_mod (m1 * 2 ^ s) m2 ltac:(lia)) as DM.
  destruct (Z.div_eucl (m1 * 2 ^ s) m2) as [q r]. destruct DM as [DM Hr].
  destruct (Zdigits2_pos_ge m1 H1) as [L1 D1]. fold d1 in L1, D1.
  destruct (Zdigits2_pos_ge m2 H2) as [L2 D2]. fold d2 in L2, D2.
  pose proof (Zdigits2_lt_pow m1 ltac:(lia)) as U1. fold d1 in U1.
  pose proof (Zdigits2_lt_pow m2 ltac:(lia)) as U2. fold d2 in U2.
  (* the numerator is at least [2^52 * 2^d2] *)
  assert (Lo : 2 ^ 52 * 2 ^ d2 <= m1 * 2 ^ s).
  { rewrite <- Z.pow_add_r by lia.
    apply Z.le_trans with (2 ^ (d1 - 1 + s)); [apply Z.pow_le_mono_r; lia|].
    rewrite Z.pow_add_r by lia. pose proof (pow2_pos s Hs0).
    apply Z.mul_le_mono_nonneg_r; lia. }
  (* and below [2^(d1+s)] *)
  assert (Hi : m1 * 2 ^ s < 2 ^ (d1 + s)).
  { rewrite Z.pow_add_r by lia. pose proof (pow2_pos s Hs0).
    apply Z.mul_lt_mono_pos_r; lia. }
  assert (Q52 : 2 ^ 52 <= q).
  { destruct (Z_le_gt_dec (2 ^ 52) q) as [|Hq]; [assumption|]. exfalso.
    assert (q + 1 <= 2 ^ 52) by lia.
    assert (m1 * 2 ^ s < m2 * (q + 1)) by lia.
    assert (m2 * (q + 1) <= m2 * 2 ^ 52) by (apply Z.mul_le_mono_nonneg_l; lia).
    assert (m2 * 2 ^ 52 < 2 ^ d2 * 2 ^ 52) by (apply Z.mul_lt_mono_pos_r; lia).
    lia. }
  assert (Dq : 53 <= Zdigits2 q) by (apply (Zdigits2_ge q 52); lia).
  assert (Uq : Zdigits2 q <= d1 + s - d2 + 1).
  { apply Zdigits2_le; [lia|]. split; [lia|].
    destruct (Z_lt_le_dec q (2 ^ (d1 + s - d2 + 1))) as [|Hq]; [assumption|]. exfalso.
    assert (E : 2 ^ (d1 + s) = 2 ^ (d2 - 1) * 2 ^ (d1 + s - d2 + 1)).
    { rewrite <- Z.pow_add_r by lia. f_equal. lia. }
    assert (2 ^ (d2 - 1) * 2 ^ (d1 + s - d2 + 1) <= m2 * q).
    { apply Z.mul_le_mono_nonneg; try lia; apply Z.lt_le_incl, pow2_pos; lia. }
    lia. }
  split; [reflexivity|]. split; [|split; [|split]].
  - apply new_location_located; fold s; lia.
  - pose proof (pow2_pos 52). lia.
  - lia.
  - unfold s in Uq. lia.
Qed.

Lemma SFdiv_value (x y : spec_float) (Jx Kx Jy Ky : Z) :
  valid_binary x = true -> valid_binary y = true ->
  sf_pos Jx x = true -> sf_nonneg Kx x = true ->
  sf_pos Jy y = true -> sf_nonneg Ky y = true ->
  -1021 <= Jx - Ky -> Kx - Jy <= 1022 ->
  SFval (SFdiv prec emax x y) = nearest (SFval x * 2 ^ scale) (SFval y).
Proof.
  intros Vx Vy Px Nx Py Ny Hlo HK.
  destruct y as [sy|sy| |sy my ey]; try discriminate.
  destruct sy; [discriminate|]. cbn [sf_pos sf_nonneg] in Py, Ny. apply Z.leb_le in Py, Ny.
  pose proof (SFval_pos _ _ _ Vy) as Hy.
  destruct x as [sx|sx| |sx mx ex]; try discriminate.
  destruct sx; [discriminate|]. cbn [sf_pos sf_nonneg] in Px, Nx. apply Z.leb_le in Px, Nx.
  pose proof (valid_finite _ _ _ Vx) as [Cx Ex]. pose proof (valid_finite _ _ _ Vy) as [Cy Ey].
  cbn [SFdiv xorb].
  pose proof (SFdiv_core_binary_spec (Zpos mx) ex (Zpos my) ey ltac:(lia) ltac:(lia)) as S.
  cbn [Zdigits2] in S. specialize (S ltac:(lia)).
  destruct (SFdiv_core_binary prec emax (Zpos mx) ex (Zpos my) ey) as [[q e'] l].
  destruct S as (E' & L & Hq & Hp & Hd).
  rewrite (binary_round_aux_value _ _ _ _ (Zpos mx * 2 ^ (ex - ey - e')) (Zpos my));
    try assumption; try (unfold scale; lia).
  cbn [SFval] in *.
  pose proof (pow2_pos (e' + scale) ltac:(unfold scale; lia)).
  pose proof (pow2_pos (ex - ey - e') ltac:(lia)).
  pose proof (pow2_pos scale ltac:(unfold scale; lia)).
  pose proof (pow2_pos (ex + scale) ltac:(unfold scale; lia)).
  apply nearest_eq; try lia.
  replace (Zpos mx * 2 ^ (ex - ey - e') * 2 ^ (e' + scale) * (Zpos my * 2 ^ (ey + scale)))
    with (Zpos mx * Zpos my * (2 ^ (ex - ey - e') * 2 ^ (e' + scale) * 2 ^ (ey + scale)))
    by ring.
  replace (Zpos mx * 2 ^ (ex + scale) * 2 ^ scale * Zpos my)
    with (Zpos mx * Zpos my * (2 ^ (ex + scale) * 2 ^ scale)) by ring.
  f_equal. rewrite <- !Z.pow_add_r by (unfold scale; lia). f_equal. lia.
Qed.

(** ** The primitive operations on values *)

Lemma SFval_nonneg (x : spec_float) : 0 <= SFval x.
Proof.
  destruct x as [s|s| |s m e]; cbn [SFval]; lia.
Qed.

Lemma fval_nonneg (x : float) : 0 <= fval x.
Proof. apply SFval_nonneg. Qed.

Lemma fval_compare (K1 K2 : Z) (x y : float) :
  fnn K1 x = true -> fnn K2 y = true ->
  SFcompare (Prim2SF x) (Prim2SF y) = Some (fval x ?= fval y).
Proof.
  intros Hx Hy. apply (SFcompare_val _ _ K1 K2); auto using Prim2SF_valid.
Qed.

Lemma fval_leb (K1 K2 : Z) (x y : float) :
  fnn K1 x = true -> fnn K2 y = true -> (x <=? y)%float = (fval x <=? fval y).
Proof.
  intros Hx Hy. rewrite leb_spec. unfold SFleb.
  rewrite (fval_compare K1 K2) by assumption. unfold Z.leb.
  destruct (fval x ?= fval y); reflexivity.
Qed.

Lemma fval_ltb (K1 K2 : Z) (x y : float) :
  fnn K1 x = true -> fnn K2 y = true -> (x <? y)%float = (fval x <? fval y).
Proof.
  intros Hx Hy. rewrite ltb_spec. unfold SFltb.
  rewrite (fval_compare K1 K2) by assumption. unfold Z.ltb.
  destruct (fval x ?= fval y); reflexivity.
Qed.

Lemma fval_mul (K1 K2 : Z) (x y : float) :
  fnn K1 x = true -> fnn K2 y = true -> K1 + K2 <= 1023 ->
  fval (x * y) = nearest (fval x * fval y) (2 ^ scale).
Proof.
  intros Hx Hy HK. unfold fval. rewrite mul_spec.
  apply (SFmul_value _ _ K1 K2); auto using Prim2SF_valid.
Qed.

Lemma fval_add (K : Z) (x y : float) :
  fnn K x = true -> fnn K y = true -> K <= 1021 ->
  fval (x + y) = nearest (fval x + fval y) 1.
Proof.
  intros Hx Hy HK. unfold fval. rewrite add_spec.
  apply (SFadd_value _ _ K); auto using Prim2SF_valid.
Qed.

Lemma fval_div (Jx Kx Jy Ky : Z) (x y : float) :
  sf_pos Jx (Prim2SF x) = true -> fnn Kx x = true ->
  sf_pos Jy (Prim2SF y) = true -> fnn Ky y = true ->
  -1021 <= Jx - Ky -> Kx - Jy <= 1022 ->
  fval (x / y) = nearest (fval x * 2 ^ scale) (fval y).
Proof.
  intros Px Hx Py Hy H1 H2. unfold fval. rewrite div_spec.
  apply (SFdiv_value _ _ Jx Kx Jy Ky); auto using Prim2SF_valid.
Qed.

(** *** Monotonicity *)

Lemma fval_mul_mono (K1 K2 : Z) (x x' y y' : float) :
  fnn K1 x = true -> fnn K1 x' = true -> fnn K2 y = true -> fnn K2 y' = true ->
  K1 + K2 <= 1023 ->
  fval x <= fval x' -> fval y <= fval y' -> fval (x * y) <= fval (x' * y').
Proof.
  intros Hx Hx' Hy Hy' HK Lx Ly.
  rewrite (fval_mul K1 K2 x y), (fval_mul K1 K2 x' y') by assumption.
  pose proof (pow2_pos scale ltac:(unfold scale; lia)).
  pose proof (fval_nonneg x). pose proof (fval_nonneg y).
  apply nearest_mono; [apply Z.mul_nonneg_nonneg; lia | lia | lia |].
  apply Z.mul_le_mono_nonneg_r; [lia|]. apply Z.mul_le_mono_nonneg; lia.
Qed.

Lemma fval_add_mono (K : Z) (x x' y y' : float) :
  fnn K x = true -> fnn K x' = true -> fnn K y = true -> fnn K y' = true ->
  K <= 1021 ->
  fval x <= fval x' -> fval y <= fval y' -> fval (x + y) <= fval (x' + y').
Proof.
  intros Hx Hx' Hy Hy' HK Lx Ly.
  rewrite (fval_add K x y), (fval_add K x' y') by assumption.
  pose proof (fval_nonneg x). pose proof (fval_nonneg y).
  apply nearest_mono; lia.
Qed.

Lemma SFval_finite_pos (J : Z) (x : spec_float) :
  valid_binary x = true -> sf_pos J x = true -> 0 < SFval x.
Proof.
  destruct x as [s|s| |s m e]; try discriminate. intros V _. now apply SFval_pos.
Qed.

Lemma fval_div_mono (J K : Z) (x x' y y' : float) :
  sf_pos J (Prim2SF x) = true -> fnn K x = true ->
  sf_pos J (Prim2SF x') = true -> fnn K x' = true ->
  sf_pos J (Prim2SF y) = true -> fnn K y = true ->
  sf_pos J (Prim2SF y') = true -> fnn K y' = true ->
  -1021 <= J - K -> K - J <= 1022 ->
  fval x <= fval x' -> fval y' <= fval y -> fval (x / y) <= fval (x' / y').
Proof.
  intros Px Hx Px' Hx' Py Hy Py' Hy' H1 H2 Lx Ly.
  rewrite (fval_div J K J K x y), (fval_div J K J K x' y') by assumption.
  pose proof (pow2_pos scale ltac:(unfold scale; lia)).
  pose proof (fval_nonneg x).
  pose proof (SFval_finite_pos J _ (Prim2SF_valid y) Py).
  pose proof (SFval_finite_pos J _ (Prim2SF_valid y') Py').
  fold (fval y) in *. fold (fval y') in *.
  apply nearest_mono; [apply Z.mul_nonneg_nonneg; lia | lia | lia |].
  apply Z.mul_le_mono_nonneg; [apply Z.mul_nonneg_nonneg; lia | | lia | lia].
  apply Z.mul_le_mono_nonneg_r; lia.
Qed.

(** A float above a positive one is positive, and of no smaller size. *)
Lemma sf_pos_mono (J K : Z) (c x : spec_float) :
  valid_binary c = true -> valid_binary x = true ->
  sf_pos J c = true -> sf_nonneg K x = true -> SFval c <= SFval x ->
  sf_pos J x = true.
Proof.
  intros Vc Vx Pc Nx L.
  destruct c as [sc|sc| |sc mc ec]; try discriminate. destruct sc; [discriminate|].
  pose proof (SFval_pos _ _ _ Vc) as Hc.
  destruct x as [sx|sx| |sx mx ex]; try discriminate; [cbn [SFval] in *; lia|].
  destruct sx; [discriminate|]. cbn [sf_pos] in *. apply Z.leb_le in Pc. apply Z.leb_le.
  pose proof (valid_finite _ _ _ Vc) as [Cc _]. pose proof (valid_finite _ _ _ Vx) as [Cx _].
  pose proof (digits2_pos_bounds mc) as [Lc _]. pose proof (digits2_pos_bounds mx) as [_ Ux].
  cbn [SFval] in L.
  pose proof (pow2_pos (ec + scale) ltac:(unfold scale; lia)) as Pc2.
  pose proof (pow2_pos (ex + scale) ltac:(unfold scale; lia)) as Px2.
  assert (A : 2 ^ (Zpos (digits2_pos mc) - 1 + (ec + scale)) <= Zpos mc * 2 ^ (ec + scale)).
  { rewrite (Z.pow_add_r 2 (Zpos (digits2_pos mc) - 1)) by (unfold scale; lia).
    apply Z.mul_le_mono_nonneg_r; lia. }
  assert (B : Zpos mx * 2 ^ (ex + scale) < 2 ^ (Zpos (digits2_pos mx) + (ex + scale))).
  { rewrite (Z.pow_add_r 2 (Zpos (digits2_pos mx))) by (unfold scale; lia).
    apply Z.mul_lt_mono_pos_r; lia. }
  assert (C : 2 ^ (Zpos (digits2_pos mc) - 1 + (ec + scale))
              < 2 ^ (Zpos (digits2_pos mx) + (ex + scale))) by lia.
  apply Z.pow_lt_mono_r_iff in C; unfold scale in *; lia.
Qed.

(** Valid non-negative floats of the same value are the same, up to the
    sign of zero. *)
Lemma SFval_inj (K1 K2 : Z) (x y : spec_float) :
  valid_binary x = true -> valid_binary y = true ->
  sf_nonneg K1 x = true -> sf_nonneg K2 y = true -> SFval x = SFval y ->
  x = y \/ (exists s s', x = S754_zero s /\ y = S754_zero s').
Proof.
  intros Vx Vy Nx Ny E.
  pose proof (SFcompare_val x y K1 K2 Vx Vy Nx Ny) as C.
  rewrite E, Z.compare_refl in C.
  destruct x as [sx|sx| |sx mx ex], y as [sy|sy| |sy my ey]; try discriminate;
    try (destruct sx; try discriminate); try (destruct sy; try discriminate);
    try (right; eauto; fail).
  left. cbn [SFcompare] in C.
  destruct (Z.compare_spec ex ey) as [Ee|L|G]; try discriminate.
  subst ey. injection C as C. rewrite Pos.compare_cont_spec in C.
  destruct (Pos.compare_spec mx my) as [Em|L|G]; try discriminate. now subst.
Qed.

(** ** Rounding gives valid floats *)

Lemma binary_round_aux_valid (s : bool) (m e : Z) (l : location) :
  0 < m -> e <= Z.max (Zdigits2 m + e - 53) (-1074) -> Zdigits2 m + e <= 1023 ->
  valid_binary (binary_round_aux prec emax s m e l) = true.
Proof.
  intros Hm He Hov. unfold binary_round_aux.
  destruct (shr_fexp_m m e l ltac:(lia)) as [E1 M1].
  destruct (shr_fexp prec emax m e l) as [mrs' e']. simpl fst in *; simpl snd in *.
  assert (E1' : e' = Z.max (Zdigits2 m + e - 53) (-1074)) by lia. clear E1.
  set (m1 := shr_m mrs') in *.
  assert (H2k : 0 < 2 ^ (e' - e)) by (apply pow2_pos; lia).
  set (m2 := round_nearest_even m1 (loc_of_shr_record mrs')) in *.
  assert (Hm1 : 0 <= m1) by (rewrite M1; apply Z.div_pos; lia).
  pose proof (round_nearest_even_bounds m1 (loc_of_shr_record mrs')) as Hr. fold m2 in Hr.
  assert (D1 : Zdigits2 m1 + (e' - e) <= Z.max (Zdigits2 m) (e' - e)).
  { rewrite M1. apply Zdigits2_div_pow; lia. }
  pose proof (Zdigits2_nonneg m1) as Dn1.
  pose proof (Zdigits2_lt_pow m1 Hm1) as B1.
  destruct (shr_fexp_m m2 e' loc_Exact ltac:(lia)) as [E2 M2].
  destruct (shr_fexp prec emax m2 e' loc_Exact) as [mrs'' e'']. simpl fst in *; simpl snd in *.
  (* the shape of the result: [m3 * 2^e''] with [m3] of at most 53 digits,
     and of exactly 53 above the smallest exponent *)
  assert (V : 0 <= shr_m mrs'' /\ e'' <= 971
              /\ (shr_m mrs'' = 0
                  \/ e'' = Z.max (Zdigits2 (shr_m mrs'') + e'' - 53) (-1074))).
  { destruct (Z.eq_dec m2 (2 ^ 53)) as [Heq|Hne].
    - rewrite Heq in E2, M2. change (Zdigits2 (2 ^ 53)) with 54 in E2.
      assert (e'' = e' + 1) as -> by lia.
      rewrite M2. replace (e' + 1 - e') with 1 by lia.
      change (2 ^ 53 / 2 ^ 1) with (2 ^ 52). change (Zdigits2 (2 ^ 52)) with 53.
      assert (Zdigits2 m1 <= 53) by lia.
      split; [apply Z.lt_le_incl, pow2_pos; lia|]. split; [lia|]. right. lia.
    - assert (Dm1 : Zdigits2 m1 <= 53) by lia.
      assert (Bm1 : m1 < 2 ^ 53).
      { eapply Z.lt_le_trans; [exact B1|]. apply Z.pow_le_mono_r; lia. }
      assert (Dm2 : Zdigits2 m2 <= 53) by (apply Zdigits2_le; lia).
      assert (e'' = e') as -> by lia.
      rewrite M2, Z.sub_diag, Z.div_1_r.
      split; [lia|]. split; [lia|].
      destruct (Z.eq_dec m2 0) as [Z0|NZ]; [left; assumption | right].
      destruct (Z_le_gt_dec (Zdigits2 m + e - 53) (-1074)) as [Sub|Nor]; [lia|].
      (* normal range: [m1] has exactly 53 digits *)
      assert (K : 0 <= e' - e < Zdigits2 m) by lia.
      destruct (Zdigits2_div_pow_ge m (e' - e) Hm K) as [P1 G1]. rewrite <- M1 in P1, G1.
      assert (L1 : 2 ^ 52 <= m1).
      { destruct (Zdigits2_pos_ge m1 P1) as [L _].
        eapply Z.le_trans; [|exact L]. apply Z.pow_le_mono_r; lia. }
      assert (Zdigits2 m2 = 53) by (apply Zdigits2_unique; change (2 ^ (53 - 1)) with (2 ^ 52); lia).
      lia. }
  destruct V as (P3 & Le & C).
  destruct (shr_m mrs'') as [|p|p] eqn:E3; [reflexivity| |lia].
  change (emax - prec) with 971. destruct (Z.leb_spec e'' 971) as [_|]; [|lia].
  destruct C as [C|C]; [discriminate|]. cbn [Zdigits2] in C.
  unfold valid_binary, SpecFloat.valid_binary, bounded, canonical_mantissa.
  rewrite fexp_eq. change (emax - prec) with 971.
  apply andb_true_intro. split; [apply Z.eqb_eq | apply Z.leb_le]; lia.
Qed.

(** ** [round(x, 2)] *)

Lemma round_half_even_nonneg (N D : Z) : 0 < D -> 0 <= N -> 0 <= round_half_even N D.
Proof. intros HD HN. apply round_half_even_ge; lia. Qed.

(** The integer [round_half_even (m * 100) (2^(-e))] of a double. *)
Lemma round_scaled_bounds (m : positive) (e : Z) :
  Zpos (digits2_pos m) <= 53 -> e < 0 ->
  0 <= round_half_even (Zpos m * 100) (2 ^ (- e)) < 2 ^ 61.
Proof.
  intros Hd He. pose proof (pow2_pos (- e) ltac:(lia)) as Hp.
  split; [apply round_half_even_nonneg; lia|].
  apply Z.le_lt_trans with (2 ^ 60); [|reflexivity].
  apply round_half_even_le; [lia|].
  pose proof (digits2_pos_bounds m) as [_ B].
  assert (2 ^ Zpos (digits2_pos m) <= 2 ^ 53) by (apply Z.pow_le_mono_r; lia).
  apply Z.le_trans with (2 ^ 60 * 1); [|apply Z.mul_le_mono_nonneg_l; lia].
  change (2 ^ 60) with (2 ^ 53 * 128). lia.
Qed.

Lemma SFround_2_valid (x : spec_float) :
  valid_binary x = true -> valid_binary (SFround x 2) = true.
Proof.
  intros V. destruct x as [s|s| |s m e]; try exact V. unfold SFround.
  destruct (Z.leb_spec 0 e) as [|He]; [exact V|].
  pose proof (valid_finite _ _ _ V) as [C _].
  pose proof (round_scaled_bounds m e ltac:(lia) He) as [N0 N1].
  change (10 ^ 2) with 100.
  set (n := round_half_even (Zpos m * 100) (2 ^ (- e))) in *.
  destruct (Z.eqb_spec n 0) as [|NZ]; [reflexivity|].
  assert (Dn : Zdigits2 n <= 61) by (apply Zdigits2_le; lia).
  pose proof (Zdigits2_pos_ge n ltac:(lia)) as [_ Dn1].
  pose proof (SFdiv_core_binary_spec n 0 100 0 ltac:(lia) ltac:(lia)) as S.
  change (Zdigits2 100) with 7 in S. specialize (S ltac:(lia)).
  destruct (SFdiv_core_binary prec emax n 0 100 0) as [[q e'] l].
  destruct S as (E' & L & Hq & Hp & Hd).
  apply binary_round_aux_valid; lia.
Qed.

Lemma Prim2SF_round_2 (x : float) : Prim2SF (round x 2) = SFround (Prim2SF x) 2.
Proof.
  unfold round. apply Prim2SF_SF2Prim, SFround_2_valid, Prim2SF_valid.
Qed.

(** The value of [round(x, 2)] for [0 <= x < 2^52] (where the exponent of
    [x] is negative): [x] times 100 rounded to an integer, ties to even,
    and the nearest double to that integer over 100. *)
Lemma SFround_2_value (x : spec_float) :
  valid_binary x = true -> sf_nonneg 52 x = true ->
  SFval (SFround x 2)
  = nearest (round_half_even (SFval x * 100) (2 ^ scale) * 2 ^ scale) 100.
Proof.
  intros V N. pose proof (pow2_pos scale ltac:(unfold scale; lia)) as HS.
  destruct x as [s|s| |s m e]; try discriminate.
  - cbn [SFround SFval]. change (0 * 100) with 0.
    rewrite round_half_even_0 by lia. change (0 * 2 ^ scale) with 0.
    rewrite nearest_0 by lia. reflexivity.
  - destruct s; [discriminate|]. cbn [sf_nonneg] in N. apply Z.leb_le in N.
    pose proof (valid_finite _ _ _ V) as [C _].
    assert (He : e < 0) by lia. unfold SFround.
    destruct (Z.leb_spec 0 e) as [|_]; [lia|].
    pose proof (round_scaled_bounds m e ltac:(lia) He) as [N0 N1].
    change (10 ^ 2) with 100.
    assert (En : round_half_even (Zpos m * 100) (2 ^ (- e))
                 = round_half_even (SFval (S754_finite false m e) * 100) (2 ^ scale)).
    { apply round_half_even_eq; [apply pow2_pos; lia | exact HS |].
      cbn [SFval].
      replace (Zpos m * 2 ^ (e + scale) * 100 * 2 ^ (- e))
        with (Zpos m * 100 * (2 ^ (e + scale) * 2 ^ (- e))) by ring.
      rewrite <- Z.pow_add_r by (unfold scale; lia). f_equal. f_equal. lia. }
    rewrite <- En.
    set (n := round_half_even (Zpos m * 100) (2 ^ (- e))) in *.
    destruct (Z.eqb_spec n 0) as [Z0|NZ].
    + rewrite Z0, Z.mul_0_l, nearest_0 by lia. reflexivity.
    + assert (Dn : Zdigits2 n <= 61) by (apply Zdigits2_le; lia).
      pose proof (Zdigits2_pos_ge n ltac:(lia)) as [_ Dn1].
      pose proof (SFdiv_core_binary_spec n 0 100 0 ltac:(lia) ltac:(lia)) as S.
      change (Zdigits2 100) with 7 in S. specialize (S ltac:(lia)).
      destruct (SFdiv_core_binary prec emax n 0 100 0) as [[q e'] l].
      destruct S as (E' & L & Hq & Hp & Hd).
      rewrite (binary_round_aux_value _ _ _ _ (n * 2 ^ (0 - 0 - e')) 100);
        try assumption; try (unfold scale; lia).
      f_equal. rewrite <- Z.mul_assoc. f_equal.
      rewrite <- Z.pow_add_r by (unfold scale; lia). f_equal. lia.
Qed.

(** ** Signs and sizes of quotients and of [round] *)

Lemma sf_nonneg_of_le (K : Z) (s : bool) (m e : Z) (l : location) :
  sf_le K (binary_round_aux prec emax false m e l) = true ->
  sf_nonneg K (binary_round_aux prec emax false m e l) = true.
Proof.
  intros B. pose proof (binary_round_aux_sign false m e l) as S.
  destruct (binary_round_aux prec emax false m e l) as [| | |s' m' e'];
    try discriminate; [reflexivity|].
  subst s'. exact B.
Qed.

Lemma SFdiv_nonneg (x y : spec_float) (Jx Kx Jy Ky : Z) :
  valid_binary x = true -> valid_binary y = true ->
  sf_pos Jx x = true -> sf_nonneg Kx x = true ->
  sf_pos Jy y = true -> sf_nonneg Ky y = true ->
  -1021 <= Jx - Ky -> -1074 <= Kx - Jy + 1 <= 971 ->
  sf_nonneg (Kx - Jy + 2) (SFdiv prec emax x y) = true.
Proof.
  intros Vx Vy Px Nx Py Ny Hlo HK.
  destruct y as [sy|sy| |sy my ey]; try discriminate.
  destruct sy; [discriminate|]. cbn [sf_pos sf_nonneg] in Py, Ny. apply Z.leb_le in Py, Ny.
  destruct x as [sx|sx| |sx mx ex]; try discriminate.
  destruct sx; [discriminate|]. cbn [sf_pos sf_nonneg] in Px, Nx. apply Z.leb_le in Px, Nx.
  pose proof (valid_finite _ _ _ Vx) as [Cx Ex]. pose proof (valid_finite _ _ _ Vy) as [Cy Ey].
  cbn [SFdiv xorb].
  pose proof (SFdiv_core_binary_spec (Zpos mx) ex (Zpos my) ey ltac:(lia) ltac:(lia)) as S.
  cbn [Zdigits2] in S. specialize (S ltac:(lia)).
  destruct (SFdiv_core_binary prec emax (Zpos mx) ex (Zpos my) ey) as [[q e'] l].
  destruct S as (E' & L & Hq & Hp & Hd).
  apply (sf_nonneg_of_le _ false).
  replace (Kx - Jy + 2) with (Kx - Jy + 1 + 1) by lia.
  pose proof (Zdigits2_nonneg q).
  apply binary_round_aux_le; lia.
Qed.

Lemma SFround_2_nonneg (x : spec_float) :
  valid_binary x = true -> sf_nonneg 52 x = true -> sf_nonneg 56 (SFround x 2) = true.
Proof.
  intros V N. destruct x as [s|s| |s m e]; try discriminate; [reflexivity|].
  destruct s; [discriminate|]. cbn [sf_nonneg] in N. apply Z.leb_le in N.
  pose proof (valid_finite _ _ _ V) as [C _].
  assert (He : e < 0) by lia. unfold SFround.
  destruct (Z.leb_spec 0 e) as [|_]; [lia|].
  pose proof (round_scaled_bounds m e ltac:(lia) He) as [N0 N1].
  change (10 ^ 2) with 100.
  set (n := round_half_even (Zpos m * 100) (2 ^ (- e))) in *.
  destruct (Z.eqb_spec n 0) as [Z0|NZ]; [reflexivity|].
  assert (Dn : Zdigits2 n <= 61) by (apply Zdigits2_le; lia).
  pose proof (Zdigits2_pos_ge n ltac:(lia)) as [_ Dn1].
  pose proof (SFdiv_core_binary_spec n 0 100 0 ltac:(lia) ltac:(lia)) as S.
  change (Zdigits2 100) with 7 in S. specialize (S ltac:(lia)).
  destruct (SFdiv_core_binary prec emax n 0 100 0) as [[q e'] l].
  destruct S as (E' & L & Hq & Hp & Hd).
  apply (sf_nonneg_of_le _ false). pose proof (Zdigits2_nonneg q).
  apply (binary_round_aux_le false q e' l 55); lia.
Qed.

Lemma fnn_div (Jx Kx Jy Ky K : Z) (x y : float) :
  sf_pos Jx (Prim2SF x) = true -> fnn Kx x = true ->
  sf_pos Jy (Prim2SF y) = true -> fnn Ky y = true ->
  -1021 <= Jx - Ky -> -1074 <= Kx - Jy + 1 <= 971 -> Kx - Jy + 2 <= K ->
  fnn K (x / y) = true.
Proof.
  intros Px Hx Py Hy H1 H2 H3. apply (fnn_weaken (Kx - Jy + 2)); [lia|].
  unfold fnn. rewrite div_spec.
  apply (SFdiv_nonneg _ _ Jx Kx Jy Ky); auto using Prim2SF_valid.
Qed.

Lemma fnn_round_2 (x : float) : fnn 52 x = true -> fnn 56 (round x 2) = true.
Proof.
  intros H. unfold fnn. rewrite Prim2SF_round_2.
  apply SFround_2_nonneg; [apply Prim2SF_valid | exact H].
Qed.

Lemma fval_round_2 (x : float) :
  fnn 52 x = true ->
  fval (round x 2) = nearest (round_half_even (fval x * 100) (2 ^ scale) * 2 ^ scale) 100.
Proof.
  intros H. unfold fval. rewrite Prim2SF_round_2.
  apply SFround_2_value; [apply Prim2SF_valid | exact H].
Qed.

Lemma fval_round_2_mono (x x' : float) :
  fnn 52 x = true -> fnn 52 x' = true -> fval x <= fval x' ->
  fval (round x 2) <= fval (round x' 2).
Proof.
  intros H H' L. rewrite !fval_round_2 by assumption.
  pose proof (pow2_pos scale ltac:(unfold scale; lia)) as HS.
  pose proof (fval_nonneg x).
  assert (R : round_half_even (fval x * 100) (2 ^ scale)
              <= round_half_even (fval x' * 100) (2 ^ scale)).
  { apply round_half_even_mono; try lia. apply Z.mul_le_mono_nonneg_r; lia. }
  assert (R0 : 0 <= round_half_even (fval x * 100) (2 ^ scale)).
  { apply round_half_even_nonneg; lia. }
  apply nearest_mono; [apply Z.mul_nonneg_nonneg; lia | lia | lia |].
  apply Z.mul_le_mono_nonneg_r; [lia|]. apply Z.mul_le_mono_nonneg_r; lia.
Qed.

Lemma fval_pos_mono (J K : Z) (c x : float) :
  sf_pos J (Prim2SF c) = true -> fnn K x = true -> fval c <= fval x ->
  sf_pos J (Prim2SF x) = true.
Proof.
  intros Pc Nx L. apply (sf_pos_mono J K (Prim2SF c)); auto using Prim2SF_valid.
Qed.

Lemma Prim2SF_inj (a b : float) : Prim2SF a = Prim2SF b -> a = b.
Proof.
  intros H. rewrite <- (SF2Prim_Prim2SF a), <- (SF2Prim_Prim2SF b), H. reflexivity.
Qed.

(** Floats of the same value are the same float once added to a finite
    constant (they differ at most in the sign of zero). *)
Lemma add_same_value (K : Z) (a b c : float) :
  fnn K a = true -> fnn K b = true -> fval a = fval b ->
  (match Prim2SF c with S754_finite _ _ _ => true | _ => false end) = true ->
  (a + c)%float = (b + c)%float.
Proof.
  intros Ha Hb E Hc.
  destruct (SFval_inj K K _ _ (Prim2SF_valid a) (Prim2SF_valid b) Ha Hb E)
    as [Eq|(s & s' & Ea & Eb)].
  - now rewrite (Prim2SF_inj a b Eq).
  - apply Prim2SF_inj. rewrite !add_spec, Ea, Eb.
    destruct (Prim2SF c); try discriminate. reflexivity.
Qed.

(** ** The contrast ratio lies between 1 and 21 *)

Lemma unit_float_val (v : float) :
  unit_float v = true -> fnn 1 v = true /\ fval v <= fval 1.
Proof.
  intros U. pose proof (unit_float_fnn v U) as N. split; [exact N|].
  unfold unit_float in U. apply andb_prop in U as [_ U].
  rewrite (fval_leb 1 1 v 1 N eq_refl) in U. now apply Z.leb_le.
Qed.

Lemma fmin_le_fmax (K : Z) (l1 l2 : float) :
  fnn K l1 = true -> fnn K l2 = true -> fval (fmin l1 l2) <= fval (fmax l1 l2).
Proof.
  intros N1 N2. unfold fmin, fmax.
  rewrite (fval_ltb K K l1 l2), (fval_ltb K K l2 l1) by assumption.
  destruct (Z.ltb_spec (fval l1) (fval l2)), (Z.ltb_spec (fval l2) (fval l1)); lia.
Qed.

(** The two luminances, each increased by 0.05. *)
Lemma contrast_terms (l1 l2 : float) :
  fnn 8 l1 = true -> fnn 8 l2 = true -> fval l1 <= fval 1 -> fval l2 <= fval 1 ->
  let B := (fmax l1 l2 + 0.05)%float in
  let D := (fmin l1 l2 + 0.05)%float in
  (fnn 10 B = true /\ sf_pos (-4) (Prim2SF B) = true)
  /\ (fnn 10 D = true /\ sf_pos (-4) (Prim2SF D) = true)
  /\ fval D <= fval B /\ fval B <= fval (1 + 0.05) /\ fval (0 + 0.05) <= fval D.
Proof.
  intros N1 N2 U1 U2 B D.
  assert (Nb : fnn 8 (fmax l1 l2) = true) by (destruct (fmax_cases l1 l2) as [->| ->]; assumption).
  assert (Nd : fnn 8 (fmin l1 l2) = true) by (destruct (fmin_cases l1 l2) as [->| ->]; assumption).
  assert (Ub : fval (fmax l1 l2) <= fval 1) by (destruct (fmax_cases l1 l2) as [->| ->]; assumption).
  assert (Nc : fnn 8 0.05 = true) by reflexivity.
  assert (LD : fval (0 + 0.05) <= fval D).
  { apply (fval_add_mono 8); try assumption; try reflexivity; try lia.
    apply fval_nonneg. }
  assert (LB : fval D <= fval B).
  { apply (fval_add_mono 8); try assumption; try lia. now apply (fmin_le_fmax 8). }
  assert (NB : fnn 10 B = true) by (apply (fnn_add 8 8); try assumption; lia).
  assert (ND : fnn 10 D = true) by (apply (fnn_add 8 8); try assumption; lia).
  assert (PD : sf_pos (-4) (Prim2SF D) = true).
  { apply (fval_pos_mono (-4) 10 (0 + 0.05)); [reflexivity | exact ND | exact LD]. }
  assert (PB : sf_pos (-4) (Prim2SF B) = true).
  { apply (fval_pos_mono (-4) 10 (0 + 0.05)); [reflexivity | exact NB | lia]. }
  repeat split; try assumption.
  apply (fval_add_mono 8); try assumption; try reflexivity; lia.
Qed.

Lemma fval_1 : fval 1 = 2 ^ scale.
Proof. vm_compute. reflexivity. Qed.

Lemma nearest_1 : nearest (2 ^ scale) 1 = fval 1.
Proof. rewrite <- fval_1. apply (SFval_nearest (Prim2SF 1)), Prim2SF_valid. Qed.

Lemma contrast_bounds (l1 l2 : float) :
  fnn 8 l1 = true -> fnn 8 l2 = true -> fval l1 <= fval 1 -> fval l2 <= fval 1 ->
  let r := round ((fmax l1 l2 + 0.05) / (fmin l1 l2 + 0.05)) 2 in
  (1 <=? r)%float = true /\ (r <=? 21)%float = true.
Proof.
  intros N1 N2 U1 U2.
  destruct (contrast_terms l1 l2 N1 N2 U1 U2) as ((NB & PB) & (ND & PD) & LDB & UB & LD).
  set (B := (fmax l1 l2 + 0.05)%float) in *. set (D := (fmin l1 l2 + 0.05)%float) in *.
  intros r.
  assert (Nq : fnn 52 (B / D) = true).
  { apply (fnn_div (-4) 10 (-4) 10); try assumption; lia. }
  pose proof (pow2_pos scale ltac:(unfold scale; lia)) as HS.
  pose proof (SFval_finite_pos (-4) _ (Prim2SF_valid D) PD) as HD. fold (fval D) in HD.
  (* 1 <= B / D *)
  assert (Lq : fval 1 <= fval (B / D)).
  { rewrite (fval_div (-4) 10 (-4) 10 B D) by (try assumption; lia).
    rewrite <- nearest_1. apply nearest_mono; try lia.
    rewrite Z.mul_1_r, (Z.mul_comm (fval B)). apply Z.mul_le_mono_nonneg_l; lia. }
  (* B / D <= 1.05 / 0.05 *)
  assert (Uq : fval (B / D) <= fval ((1 + 0.05) / (0 + 0.05))).
  { apply (fval_div_mono (-4) 10); try assumption; try reflexivity; lia. }
  assert (Nr : fnn 56 r = true) by (apply fnn_round_2; exact Nq).
  split.
  - rewrite (fval_leb 1 56 1 r eq_refl Nr). apply Z.leb_le.
    change 1%float with (round 1 2) at 1.
    apply fval_round_2_mono; [reflexivity | exact Nq | exact Lq].
  - rewrite (fval_leb 56 5 r 21 Nr eq_refl). apply Z.leb_le.
    change 21%float with (round ((1 + 0.05) / (0 + 0.05)) 2).
    apply fval_round_2_mono; [exact Nq | reflexivity | exact Uq].
Qed.

(** A finite positive float divided by itself is 1. *)
Lemma fdiv_self (J K : Z) (x : float) :
  sf_pos J (Prim2SF x) = true -> fnn K x = true ->
  -1021 <= J - K -> -1074 <= K - J + 1 <= 971 ->
  (x / x)%float = 1%float.
Proof.
  intros P N H1 H2. apply Prim2SF_inj.
  pose proof (pow2_pos scale ltac:(unfold scale; lia)) as HS.
  pose proof (SFval_finite_pos J _ (Prim2SF_valid x) P) as Hx. fold (fval x) in Hx.
  assert (E : fval (x / x) = fval 1).
  { rewrite (fval_div J K J K x x) by (try assumption; lia).
    rewrite <- nearest_1. apply nearest_eq; try lia; apply Z.mul_nonneg_nonneg; lia. }
  assert (Nq : fnn (K - J + 2) (x / x) = true).
  { apply (fnn_div J K J K); try assumption; lia. }
  destruct (SFval_inj (K - J + 2) 1 _ _ (Prim2SF_valid (x / x)) (Prim2SF_valid 1) Nq eq_refl E)
    as [Eq|(s & s' & _ & E1)]; [exact Eq | discriminate].
Qed.

Section Contrast.

Variable pow : float -> float -> float.
Hypothesis pow_unit : pow_unit_on_channels pow = true.

Lemma relative_luminance_unit (s : string) :
  valid_hex s = true ->
  exists l, relative_luminance pow s = Ok l /\ fnn 8 l = true /\ fval l <= fval 1.
Proof.
  intros Hv. destruct (hex_to_rgb_valid s Hv) as (r & g & b & E & (Hr & Hg & Hb) & _).
  unfold relative_luminance. rewrite E. cbn [bind].
  destruct (linearize_unit pow pow_unit r Hr) as (lr & -> & Ur).
  destruct (linearize_unit pow pow_unit g Hg) as (lg & -> & Ug).
  destruct (linearize_unit pow pow_unit b Hb) as (lb & -> & Ub). cbn [bind].
  apply unit_float_val in Ur as [Nr Vr], Ug as [Ng Vg], Ub as [Nb Vb].
  eexists. split; [reflexivity|]. split; [fnn_auto|].
  assert (T : forall k v : float, fnn 1 k = true -> fnn 1 v = true -> fval v <= fval 1 ->
              fval (k * v) <= fval (k * 1)).
  { intros k v Nk Nv Lv. apply (fval_mul_mono 1 1); try assumption; try reflexivity; lia. }
  assert (P : forall k v : float, fnn 1 k = true -> fnn 1 v = true -> fnn 8 (k * v) = true).
  { intros k v Nk Nv. fnn_auto. }
  change 1%float with (0.2126 * 1 + 0.7152 * 1 + 0.0722 * 1)%float.
  apply (fval_add_mono 8); try (apply P; assumption || reflexivity); try lia.
  - fnn_auto.
  - reflexivity.
  - apply (fval_add_mono 8); try (apply P; assumption || reflexivity); try lia.
    + apply T; assumption || reflexivity.
    + apply T; assumption || reflexivity.
  - apply T; assumption || reflexivity.
Qed.

End Contrast.

(** ** The contrast ratio: symmetry, equal colours, black on white *)

Lemma fmax_add_comm (K : Z) (l1 l2 c : float) :
  fnn K l1 = true -> fnn K l2 = true ->
  (match Prim2SF c with S754_finite _ _ _ => true | _ => false end) = true ->
  (fmax l1 l2 + c = fmax l2 l1 + c)%float.
Proof.
  intros N1 N2 Hc. unfold fmax.
  rewrite (fval_ltb K K l1 l2), (fval_ltb K K l2 l1) by assumption.
  destruct (Z.ltb_spec (fval l1) (fval l2)), (Z.ltb_spec (fval l2) (fval l1));
    try reflexivity; try lia.
  apply (add_same_value K); try assumption. lia.
Qed.

Lemma fmin_add_comm (K : Z) (l1 l2 c : float) :
  fnn K l1 = true -> fnn K l2 = true ->
  (match Prim2SF c with S754_finite _ _ _ => true | _ => false end) = true ->
  (fmin l1 l2 + c = fmin l2 l1 + c)%float.
Proof.
  intros N1 N2 Hc. unfold fmin.
  rewrite (fval_ltb K K l1 l2), (fval_ltb K K l2 l1) by assumption.
  destruct (Z.ltb_spec (fval l1) (fval l2)), (Z.ltb_spec (fval l2) (fval l1));
    try reflexivity; try lia.
  apply (add_same_value K); try assumption. lia.
Qed.

Lemma fmax_same (K : Z) (l : float) : fnn K l = true -> fmax l l = l /\ fmin l l = l.
Proof.
  intros N. unfold fmax, fmin. rewrite (fval_ltb K K l l N N), Z.ltb_irrefl. auto.
Qed.

Section ContrastRatio.

Variable pow : float -> float -> float.
Hypothesis pow_unit : pow_unit_on_channels pow = true.

(** The ratio of two valid colours, from their luminances. *)
Lemma wcag_contrast_ratio_luminances (color1 color2 : string) :
  valid_hex color1 = true -> valid_hex color2 = true ->
  exists l1 l2,
    relative_luminance pow color1 = Ok l1 /\ relative_luminance pow color2 = Ok l2
    /\ (fnn 8 l1 = true /\ fval l1 <= fval 1) /\ (fnn 8 l2 = true /\ fval l2 <= fval 1)
    /\ wcag_contrast_ratio pow color1 color2
       = Ok (round ((fmax l1 l2 + 0.05) / (fmin l1 l2 + 0.05)) 2).
Proof.
  intros H1 H2.
  destruct (wcag_contrast_ratio_total pow pow_unit color1 color2 H1 H2)
    as (l1 & l2 & E1 & E2 & _ & _ & E).
  destruct (relative_luminance_unit pow pow_unit color1 H1) as (l1' & E1' & N1 & U1).
  destruct (relative_luminance_unit pow pow_unit color2 H2) as (l2' & E2' & N2 & U2).
  assert (l1' = l1) by congruence. assert (l2' = l2) by congruence. subst l1' l2'.
  exists l1, l2. auto 10.
Qed.

Lemma wcag_contrast_ratio_sym (a b : string) :
  valid_hex a = true -> valid_hex b = true ->
  wcag_contrast_ratio pow a b = wcag_contrast_ratio pow b a.
Proof.
  intros Ha Hb.
  destruct (wcag_contrast_ratio_luminances a b Ha Hb)
    as (l1 & l2 & E1 & E2 & (N1 & _) & (N2 & _) & E).
  destruct (wcag_contrast_ratio_luminances b a Hb Ha)
    as (l2' & l1' & E2' & E1' & _ & _ & E').
  assert (l1' = l1) by congruence. assert (l2' = l2) by congruence. subst l1' l2'.
  rewrite E, E'.
  rewrite (fmax_add_comm 8 l1 l2 0.05 N1 N2 eq_refl).
  rewrite (fmin_add_comm 8 l1 l2 0.05 N1 N2 eq_refl). reflexivity.
Qed.

Lemma wcag_contrast_ratio_same (c : string) :
  valid_hex c = true -> wcag_contrast_ratio pow c c = Ok 1%float.
Proof.
  intros Hc.
  destruct (wcag_contrast_ratio_luminances c c Hc Hc)
    as (l & l' & E1 & E1' & (N & U) & _ & E).
  assert (l' = l) by congruence. subst l'. rewrite E.
  destruct (contrast_terms l l N N U U) as ((NB & PB) & _).
  destruct (fmax_same 8 l N) as [-> ->].
  destruct (fmax_same 8 l N) as [Em _]. rewrite Em in NB, PB.
  rewrite (fdiv_self (-4) 10 _ PB NB) by lia. reflexivity.
Qed.

Lemma wcag_contrast_ratio_range (a b : string) :
  valid_hex a = true -> valid_hex b = true ->
  exists r, wcag_contrast_ratio pow a b = Ok r
            /\ (1 <=? r)%float = true /\ (r <=? 21)%float = true.
Proof.
  intros Ha Hb.
  destruct (wcag_contrast_ratio_luminances a b Ha Hb)
    as (l1 & l2 & _ & _ & (N1 & U1) & (N2 & U2) & E).
  eexists. split; [exact E|]. now apply contrast_bounds.
Qed.

Hypothesis pow_one : pow 1%float 2.4%float = 1%float.

Lemma wcag_contrast_ratio_black_white :
  wcag_contrast_ratio pow "#000000" "#ffffff" = Ok 21%float.
Proof.
  unfold wcag_contrast_ratio.
  assert (E0 : relative_luminance pow "#000000" = Ok 0%float) by (vm_compute; reflexivity).
  assert (E1 : relative_luminance pow "#ffffff"
               = Ok (0.2126 * pow 1%float 2.4%float + 0.7152 * pow 1%float 2.4%float + 0.0722 * pow 1%float 2.4%float)%float)
    by (vm_compute; reflexivity).
  rewrite E0, E1, pow_one. vm_compute. reflexivity.
Qed.

End ContrastRatio.

(** C6.  For every [pow] that stays in [0, 1] on the channel arguments and
    returns 1 at 1 (as C's [pow] does): the contrast ratio of two valid
    colours does not depend on their order; the ratio of a valid colour with
    itself is exactly 1.0; the ratio of ["#000000"] and ["#ffffff"] is
    exactly 21.0; and the ratio of any two valid colours is returned and
    lies in [1.0, 21.0]. *)
Theorem wcag_contrast_ratio_properties (pow : float -> float -> float) :
  pow_unit_on_channels pow = true -> pow 1%float 2.4%float = 1%float ->
  (forall a b, valid_hex a = true -> valid_hex b = true ->
     wcag_contrast_ratio pow a b = wcag_contrast_ratio pow b a)
  /\ (forall c, valid_hex c = true -> wcag_contrast_ratio pow c c = Ok 1%float)
  /\ wcag_contrast_ratio pow "#000000" "#ffffff" = Ok 21%float
  /\ (forall a b, valid_hex a = true -> valid_hex b = true ->
        exists r, wcag_contrast_ratio pow a b = Ok r
                  /\ (1 <=? r)%float = true /\ (r <=? 21)%float = true).
Proof.
  intros Hu H1. split; [|split; [|split]].
  - apply wcag_contrast_ratio_sym; assumption.
  - apply wcag_contrast_ratio_same; assumption.
  - apply wcag_contrast_ratio_black_white; assumption.
  - apply wcag_contrast_ratio_range; assumption.
Qed.

Lemma wcag_contrast_ratio_properties_witness :
  pow_unit_on_channels pow_by_roots = true /\ pow_by_roots 1%float 2.4%float = 1%float
  /\ wcag_contrast_ratio pow_by_roots "#3b82f6" "#3b82f6" = Ok 1%float
  /\ wcag_contrast_ratio pow_by_roots "#000000" "#ffffff" = Ok 21%float
  /\ wcag_contrast_ratio pow_by_roots "#3b82f6" "#ffffff"
     = wcag_contrast_ratio pow_by_roots "#ffffff" "#3b82f6".
Proof.
  assert (Hu : pow_unit_on_channels pow_by_roots = true) by (vm_compute; reflexivity).
  assert (H1 : pow_by_roots 1%float 2.4%float = 1%float) by (vm_compute; reflexivity).
  destruct (wcag_contrast_ratio_properties pow_by_roots Hu H1) as (S & E & BW & _).
  split; [exact Hu|]. split; [exact H1|]. split; [|split].
  - apply E. reflexivity.
  - exact BW.
  - apply S; reflexivity.
Defined.

(** ** Formatting and parsing back *)

Lemma int16_format_02x (v : Z) : 0 <= v < 256 -> int16 (format_02x v) = Ok v.
Proof.
  intros Hv.
  assert (H : match int16 (format_02x v) with Ok w => w =? v | Err _ => false end = true).
  { revert v Hv. apply for_all_range. vm_compute. reflexivity. }
  destruct (int16 (format_02x v)); [|discriminate]. apply Z.eqb_eq in H. now subst.
Qed.

Lemma hex_digit_not_hash_16 (v : Z) : 0 <= v < 16 -> Ascii.eqb (hex_digit v) "#" = false.
Proof.
  intros Hv. apply hex_digit_not_hash.
  pose proof (hex_digit_lower v Hv) as H. unfold is_lower_hex_digit in H.
  now apply andb_prop in H as [H _].
Qed.

Lemma clamp255_range (n : Z) : 0 <= clamp255 n < 256.
Proof. unfold clamp255. lia. Qed.

Lemma clamp255_id (n : Z) : 0 <= n <= 255 -> clamp255 n = n.
Proof. unfold clamp255. lia. Qed.

(** What [rgb_to_hex] writes, [hex_to_rgb] reads: the clamped channels. *)
Lemma hex_to_rgb_written (r g b : Z) :
  hex_to_rgb (rgb_to_hex r g b) = Ok (clamp255 r, clamp255 g, clamp255 b).
Proof.
  pose proof (clamp255_range r) as Hr. pose proof (clamp255_range g) as Hg.
  pose proof (clamp255_range b) as Hb.
  pose proof (int16_format_02x _ Hr) as Er. pose proof (int16_format_02x _ Hg) as Eg.
  pose proof (int16_format_02x _ Hb) as Eb.
  unfold rgb_to_hex, hex_to_rgb. unfold format_02x in *.
  cbn [String.append lstrip_hash]. rewrite Ascii.eqb_refl.
  rewrite hex_digit_not_hash_16
    by (split; [apply Z.div_pos; lia | apply Z.div_lt_upper_bound; lia]).
  cbn [String.length Nat.eqb slice substring Nat.sub].
  rewrite Er. cbn [bind]. rewrite Eg. cbn [bind]. rewrite Eb. reflexivity.
Qed.

(** X1: for all integers, [hex_to_rgb] reads back what [rgb_to_hex] wrote:
    the three channels, each clamped to 0..255 - so a triple of channels in
    range survives the round trip unchanged, and formatting is clamping;
    the string written is always ['#'] and six lower-case hex digits. *)
Theorem hex_to_rgb_of_rgb_to_hex (r g b : Z) :
  hex_to_rgb (rgb_to_hex r g b) = Ok (clamp255 r, clamp255 g, clamp255 b)
  /\ canonical_hex (rgb_to_hex r g b) = true
  /\ rgb_to_hex (clamp255 r) (clamp255 g) (clamp255 b) = rgb_to_hex r g b
  /\ (0 <= r <= 255 -> 0 <= g <= 255 -> 0 <= b <= 255 ->
      hex_to_rgb (rgb_to_hex r g b) = Ok (r, g, b)).
Proof.
  pose proof (hex_to_rgb_written r g b) as E.
  split; [exact E|]. split; [apply rgb_to_hex_canonical|]. split.
  - pose proof (clamp255_range r). pose proof (clamp255_range g).
    pose proof (clamp255_range b). unfold rgb_to_hex.
    rewrite (clamp255_id (clamp255 r)), (clamp255_id (clamp255 g)),
      (clamp255_id (clamp255 b)) by lia.
    reflexivity.
  - intros Hr Hg Hb. rewrite E, !clamp255_id by lia. reflexivity.
Qed.

(** ** The range of parsed channels *)

Lemma int16_one_range (c : ascii) (v : Z) :
  int16 (String c "") = Ok v -> 0 <= v <= 15.
Proof.
  intros H.
  assert (G : match int16 (String c "") with
              | Ok w => (0 <=? w) && (w <=? 15) | Err _ => true end = true).
  { revert c H. intros c _. revert c. apply for_all_ascii. vm_compute. reflexivity. }
  rewrite H in G. lia.
Qed.

Lemma int16_two_range (c1 c2 : ascii) (v : Z) :
  int16 (String c1 (String c2 "")) = Ok v ->
  -15 <= v <= 255 /\ (v < 0 -> c1 = "-"%char).
Proof.
  intros H.
  assert (G : match int16 (String c1 (String c2 "")) with
              | Ok w => (-15 <=? w) && (w <=? 255) && ((0 <=? w) || Ascii.eqb c1 "-")
              | Err _ => true end = true).
  { revert c1 c2 H. intros c1 c2 _. revert c1 c2. apply for_all_ascii2.
    vm_compute. reflexivity. }
  rewrite H in G. apply andb_prop in G as [G1 G2]. split; [lia|].
  intros Hneg. apply orb_prop in G2 as [G2|G2]; [lia | now apply Ascii.eqb_eq].
Qed.

Lemma int16_slice_range (t : string) (v : Z) :
  (String.length t <= 2)%nat -> int16 t = Ok v ->
  -15 <= v <= 255 /\ (v < 0 -> exists u, t = String "-" u).
Proof.
  destruct t as [|c1 [|c2 [|c3 t]]]; simpl String.length; intros Hl H.
  - discriminate.
  - apply int16_one_range in H. split; lia.
  - apply int16_two_range in H as [H1 H2]. split; [exact H1|].
    intros Hn. rewrite (H2 Hn). eauto.
  - lia.
Qed.

(** X2: whatever string [hex_to_rgb] accepts, no channel it returns is
    above 255 or below -15; a channel is negative only when its two
    characters start with a minus sign, which [int(_, 16)] reads as a sign
    (so [hex_to_rgb] does not only return channels in 0..255). *)
Theorem hex_to_rgb_channel_range (s : string) (r g b : Z) :
  hex_to_rgb s = Ok (r, g, b) ->
  let h := hex_digits_of s in
  (-15 <= r <= 255 /\ -15 <= g <= 255 /\ -15 <= b <= 255)
  /\ (r < 0 -> exists u, slice 0 2 h = String "-" u)
  /\ (g < 0 -> exists u, slice 2 4 h = String "-" u)
  /\ (b < 0 -> exists u, slice 4 6 h = String "-" u).
Proof.
  rewrite hex_to_rgb_unfold. cbv zeta. intros H.
  apply bind_ok in H as (r' & Hr & H). apply bind_ok in H as (g' & Hg & H).
  apply bind_ok in H as (b' & Hb & H). injection H as <- <- <-.
  apply int16_slice_range in Hr as [Hr1 Hr2]; [|apply substring_length_le].
  apply int16_slice_range in Hg as [Hg1 Hg2]; [|apply substring_length_le].
  apply int16_slice_range in Hb as [Hb1 Hb2]; [|apply substring_length_le].
  auto 10.
Qed.

Lemma hex_to_rgb_channel_range_witness :
  hex_to_rgb "-f0f-1" = Ok (-15, 15, -1)
  /\ (-15 <= -15 <= 255 /\ -15 <= 15 <= 255 /\ -15 <= -1 <= 255)
  /\ (-15 < 0 -> exists u, slice 0 2 (hex_digits_of "-f0f-1") = String "-" u).
Proof.
  split; [reflexivity|].
  destruct (hex_to_rgb_channel_range "-f0f-1" (-15) 15 (-1) eq_refl) as (B & R & _).
  split; [exact B | exact R].
Defined.

(** ** Grades and flags *)

(** The thresholds are nested, for every float (nan, for which every
    comparison is false, and the infinities included). *)
Lemma leb_threshold (c c' r : float) (m m' : positive) (e e' : Z) :
  Prim2SF c = S754_finite false m e -> Prim2SF c' = S754_finite false m' e' ->
  (e' < e \/ (e' = e /\ (m' <= m)%positive)) ->
  (c <=? r)%float = true -> (c' <=? r)%float = true.
Proof.
  intros Hc Hc' Hlt. rewrite !leb_spec, Hc, Hc'. unfold SFleb.
  destruct (Prim2SF r) as [s|s| |s mr er]; cbn [SFcompare]; try easy.
  destruct s; [easy|].
  destruct (Z.compare_spec e er) as [E|L|G]; try discriminate.
  - subst er. rewrite Pos.compare_cont_spec. cbn [Pos.switch_Eq].
    destruct (Pos.compare_spec m mr) as [Em|Lm|Gm]; try discriminate; intros _.
    + subst mr. destruct Hlt as [Hlt|[-> Hm]].
      * destruct (Z.compare_spec e' e); try reflexivity; lia.
      * rewrite Z.compare_refl, Pos.compare_cont_spec. cbn [Pos.switch_Eq].
        destruct (Pos.compare_spec m' m); try reflexivity; lia.
    + destruct Hlt as [Hlt|[-> Hm]].
      * destruct (Z.compare_spec e' e); try reflexivity; lia.
      * rewrite Z.compare_refl, Pos.compare_cont_spec. cbn [Pos.switch_Eq].
        destruct (Pos.compare_spec m' mr); try reflexivity; lia.
  - intros _. destruct (Z.compare_spec e' er) as [E'|L'|G']; try reflexivity; try lia.
Qed.

Lemma leb_7_45 (r : float) : (7 <=? r)%float = true -> (4.5 <=? r)%float = true.
Proof.
  apply (leb_threshold 7 4.5 r 7881299347898368 5066549580791808 (-50) (-50));
    try reflexivity. right. split; [reflexivity | lia].
Qed.

Lemma leb_45_3 (r : float) : (4.5 <=? r)%float = true -> (3 <=? r)%float = true.
Proof.
  apply (leb_threshold 4.5 3 r 5066549580791808 6755399441055744 (-50) (-51));
    try reflexivity. left. lia.
Qed.

(** X3: for every float ratio the three pass flags are nested (AAA-normal
    implies AA-normal implies AA-large) and the grade says the same as the
    flags: "AAA" exactly when [ratio >= 7.0], "AA" when [4.5 <= ratio] but
    not [7.0 <= ratio], "AA-Large" when [3.0 <= ratio] but not
    [4.5 <= ratio], "Fail" exactly when [ratio >= 3.0] is false - which is
    the case of a nan ratio. *)
Theorem wcag_grade_flags (ratio : float) :
  ((7.0 <=? ratio)%float = true -> (4.5 <=? ratio)%float = true)
  /\ ((4.5 <=? ratio)%float = true -> (3.0 <=? ratio)%float = true)
  /\ (wcag_grade ratio = "AAA" <-> (7.0 <=? ratio)%float = true)
  /\ (wcag_grade ratio = "AA"
      <-> (4.5 <=? ratio)%float = true /\ (7.0 <=? ratio)%float = false)
  /\ (wcag_grade ratio = "AA-Large"
      <-> (3.0 <=? ratio)%float = true /\ (4.5 <=? ratio)%float = false)
  /\ (wcag_grade ratio = "Fail" <-> (3.0 <=? ratio)%float = false)
  /\ (Prim2SF ratio = S754_nan -> wcag_grade ratio = "Fail").
Proof.
  split; [apply leb_7_45|]. split; [apply leb_45_3|].
  assert (Hnan : Prim2SF ratio = S754_nan -> (3 <=? ratio)%float = false).
  { intros N. rewrite leb_spec, N. reflexivity. }
  unfold wcag_grade.
  destruct (7 <=? ratio)%float eqn:E7.
  - pose proof (leb_7_45 ratio E7) as E4. pose proof (leb_45_3 ratio E4) as E3.
    rewrite E4, E3 in *.
    repeat split; try discriminate; try reflexivity;
      try (intros [? ?]; discriminate); intros N; specialize (Hnan N); discriminate.
  - destruct (4.5 <=? ratio)%float eqn:E4.
    + pose proof (leb_45_3 ratio E4) as E3. rewrite E3 in *.
      repeat split; try discriminate; try reflexivity;
        try (intros [? ?]; discriminate); intros N; specialize (Hnan N); discriminate.
    + destruct (3 <=? ratio)%float eqn:E3;
        repeat split; try discriminate; try reflexivity;
        try (intros [? ?]; discriminate); intros N; specialize (Hnan N); discriminate.
Qed.

(** ** The colour operations return on valid colours *)

Lemma clamp_fle (x : float) : fle 8 (fmax 0 (fmin 1 x)) = true.
Proof. apply (fle_weaken 1); [lia|]. apply unit_float_fle, clamp_unit. Qed.

Lemma adjust_lightness_any (s : string) (delta : float) :
  valid_hex s = true ->
  exists c, adjust_lightness s delta = Ok c /\ canonical_hex c = true.
Proof.
  intros Hv.
  destruct (hls_of_valid_hex s Hv) as (r & g & b & h & l & sat & E & _ & Eh & Hl & Hs).
  unfold adjust_lightness. rewrite E. cbn [bind]. rewrite Eh. cbn [bind].
  apply hls_hex_total; [apply clamp_fle | now apply (fle_weaken 1)].
Qed.

Lemma adjust_saturation_any (s : string) (delta : float) :
  valid_hex s = true ->
  exists c, adjust_saturation s delta = Ok c /\ canonical_hex c = true.
Proof.
  intros Hv.
  destruct (hls_of_valid_hex s Hv) as (r & g & b & h & l & sat & E & _ & Eh & Hl & Hs).
  unfold adjust_saturation. rewrite E. cbn [bind]. rewrite Eh. cbn [bind].
  apply hls_hex_total; [now apply (fle_weaken 1) | apply clamp_fle].
Qed.

(** X4: on a valid colour, [adjust_lightness] and [adjust_saturation]
    return for every float [delta] - a nan or an infinite one included,
    since the sum is clamped with [max(0.0, min(1.0, _))] before it is
    used - and [rotate_hue] returns for every integer angle; none of the
    divisions of [colorsys] is by zero and no [int()] is of a nan.  Each
    result is a colour in the normal form ['#'] and six lower-case hex
    digits, so the operations can be chained. *)
Theorem colour_operations_total (s : string) :
  valid_hex s = true ->
  (forall delta, exists c, adjust_lightness s delta = Ok c /\ canonical_hex c = true)
  /\ (forall delta, exists c, adjust_saturation s delta = Ok c /\ canonical_hex c = true)
  /\ (forall degrees, Z.abs degrees < 2 ^ 1023 ->
        exists c, rotate_hue s degrees = Ok c /\ canonical_hex c = true)
  /\ (forall delta degrees, Z.abs degrees < 2 ^ 1023 ->
        exists c c', adjust_lightness s delta = Ok c /\ rotate_hue c degrees = Ok c'
                     /\ canonical_hex c' = true).
Proof.
  intros Hv. split; [|split; [|split]].
  - intros delta. now apply adjust_lightness_any.
  - intros delta. now apply adjust_saturation_any.
  - intros degrees _. now apply rotate_hue_total.
  - intros delta degrees _.
    destruct (adjust_lightness_any s delta Hv) as (c & Ec & Hc).
    destruct (rotate_hue_total c degrees (canonical_hex_valid c Hc)) as (c' & Ec' & Hc').
    eauto.
Qed.

Lemma colour_operations_total_witness :
  valid_hex "#3b82f6" = true
  /\ (exists c, adjust_lightness "#3b82f6" nan = Ok c /\ canonical_hex c = true)
  /\ (exists c, rotate_hue "#3b82f6" 180 = Ok c /\ canonical_hex c = true).
Proof.
  destruct (colour_operations_total "#3b82f6" eq_refl) as (L & _ & R & _).
  split; [reflexivity|]. split; [apply L|]. apply R. reflexivity.
Defined.

(** ** The palettes of [generate] *)

Lemma Forall2_map_eq {A B C : Type} (P : A -> B -> Prop) (f : A -> C) (g : B -> C)
      (l : list A) (l' : list B) :
  (forall x y, P x y -> g y = f x) -> Forall2 P l l' -> map g l' = map f l.
Proof.
  intros H F. induction F as [|x y l l' Hxy _ IH]; simpl; [reflexivity|].
  now rewrite (H x y Hxy), IH.
Qed.

(** X5: the monochromatic scheme.  For every valid colour, [generate]
    returns five swatches, in this order: the base colour moved to the
    lightness 0.92 with role background, 0.75 surface, 0.55 primary, 0.35
    secondary and 0.15 text (each by [adjust_lightness] with the difference
    to the lightness of the base colour), named [<name or 'color'>-1] to
    [-5]; no hue is rotated and no light or dark variant is appended. *)
Theorem generate_monochromatic_swatches (w : world) (base name : string) :
  valid_hex base = true ->
  exists r g b h l sat swatches,
    hex_to_rgb base = Ok (r, g, b) /\ hls_of_rgb r g b = Ok (h, l, sat)
    /\ generate w base "monochromatic" name
       = Ok (palette_of w base "monochromatic" name swatches)
    /\ Forall2 (fun step sw =>
                  adjust_lightness (full_hex base) (fst step - l) = Ok (ColorSwatch.hex sw))
               [(0.92%float, "background"); (0.75%float, "surface"); (0.55%float, "primary");
                (0.35%float, "secondary"); (0.15%float, "text")]
               swatches
    /\ map ColorSwatch.role swatches
       = ["background"; "surface"; "primary"; "secondary"; "text"]
    /\ map ColorSwatch.name swatches
       = map (fun i => (name_or_color name ++ "-" ++ i)%string) ["1"; "2"; "3"; "4"; "5"]
    /\ List.length swatches = 5%nat.
Proof.
  intros Hv.
  destruct (generate_monochromatic w base name Hv)
    as (r & g & b & h & l & sat & swatches & E & Eh & Hgen & Hsw & _).
  exists r, g, b, h, l, sat, swatches.
  split; [exact E|]. split; [exact Eh|]. split; [exact Hgen|].
  change (enumerate monochromatic_steps)
    with [(0, (0.92%float, "background")); (1, (0.75%float, "surface"));
          (2, (0.55%float, "primary")); (3, (0.35%float, "secondary"));
          (4, (0.15%float, "text"))] in Hsw.
  split; [|split; [|split]].
  - clear -Hsw.
    repeat match goal with
           | H : Forall2 _ (_ :: _) _ |- _ => inversion H; subst; clear H
           | H : Forall2 _ [] _ |- _ => inversion H; subst; clear H
           end.
    repeat constructor;
      match goal with H : monochromatic_swatch _ _ _ ?st ?sw |- _ = Ok (ColorSwatch.hex ?sw) =>
        exact (proj1 H) end.
  - rewrite (Forall2_map_eq _ (fun st => snd (snd st)) _ _ _ (fun x y H => proj1 (proj2 H)) Hsw).
    reflexivity.
  - rewrite (Forall2_map_eq _
               (fun st => (name_or_color name ++ "-" ++ str_of_int (fst st + 1))%string)
               _ _ _ (fun x y H => proj2 (proj2 H)) Hsw).
    reflexivity.
  - now rewrite (Forall2_length_eq _ _ _ Hsw).
Qed.

Lemma generate_monochromatic_swatches_witness :
  exists swatches,
    generate (Build_world "id" "now") "#3b82f6" "monochromatic" ""
    = Ok (palette_of (Build_world "id" "now") "#3b82f6" "monochromatic" "" swatches)
    /\ map ColorSwatch.role swatches
       = ["background"; "surface"; "primary"; "secondary"; "text"]
    /\ map ColorSwatch.name swatches
       = ["color-1"; "color-2"; "color-3"; "color-4"; "color-5"].
Proof.
  destruct (generate_monochromatic_swatches (Build_world "id" "now") "#3b82f6" "" eq_refl)
    as (r & g & b & h & l & sat & swatches & _ & _ & Hgen & _ & Hr & Hn & _).
  exists swatches. split; [exact Hgen|]. split; [exact Hr | exact Hn].
Defined.

(** X6: for every valid colour and each of the six harmony kinds,
    [generate] returns a palette that carries the kind as its harmony and
    as its only tag, the id and the time stamp read from the environment,
    an empty description, and the given name - or, when the name is empty,
    the kind in title case followed by " Palette".  It holds 5 swatches for
    the monochromatic kind and two more than the kind has angles otherwise:
    4 for complementary, 5 for triadic, analogous and split-complementary,
    6 for tetradic. *)
Theorem generate_palette_shape (w : world) (base kind name : string) (angles : list Z) :
  valid_hex base = true ->
  dict_get kind _HARMONY_ANGLES = Some angles ->
  exists p,
    generate w base kind name = Ok p
    /\ Palette.id p = uuid4 w /\ Palette.created_at p = utcnow w
    /\ Palette.harmony p = kind /\ Palette.tags p = [kind]
    /\ Palette.description p = ""
    /\ Palette.name p = (if String.eqb name "" then (title kind ++ " Palette")%string else name)
    /\ In (title kind ++ " Palette")%string
          ["Complementary Palette"; "Triadic Palette"; "Analogous Palette";
           "Monochromatic Palette"; "Split-Complementary Palette"; "Tetradic Palette"]
    /\ List.length (Palette.colors p)
       = (if String.eqb kind "monochromatic" then 5 else List.length angles + 2)%nat
    /\ (4 <= List.length (Palette.colors p) <= 6)%nat.
Proof.
  intros Hv Hk.
  assert (Hname : forall sw,
            Palette.name (palette_of w base kind name sw)
            = (if String.eqb name "" then (title kind ++ " Palette")%string else name)).
  { intros sw. cbn [palette_of Palette.name]. now destruct name. }
  assert (Hkinds : (kind = "complementary" /\ angles = [0; 180])
                   \/ (kind = "triadic" /\ angles = [0; 120; 240])
                   \/ (kind = "analogous" /\ angles = [0; 30; 60])
                   \/ (kind = "monochromatic" /\ angles = [])
                   \/ (kind = "split-complementary" /\ angles = [0; 150; 210])
                   \/ (kind = "tetradic" /\ angles = [0; 90; 180; 270])).
  { unfold _HARMONY_ANGLES, dict_get in Hk.
    repeat match type of Hk with
           | (if String.eqb ?a ?b then _ else _) = _ =>
               destruct (String.eqb_spec a b) as [->|?];
               [injection Hk as <-; tauto|]
           end.
    discriminate. }
  assert (Htitle : In (title kind ++ " Palette")%string
          ["Complementary Palette"; "Triadic Palette"; "Analogous Palette";
           "Monochromatic Palette"; "Split-Complementary Palette"; "Tetradic Palette"]).
  { destruct Hkinds as [[-> _]|[[-> _]|[[-> _]|[[-> _]|[[-> _]|[-> _]]]]]]; vm_compute; tauto. }
  destruct (String.eqb_spec kind "monochromatic") as [->|Hmono].
  - destruct (generate_monochromatic w base name Hv)
      as (_ & _ & _ & _ & l & _ & swatches & _ & _ & Hgen & Hsw & _).
    apply Forall2_length_eq in Hsw. change (List.length (enumerate monochromatic_steps))
      with 5%nat in Hsw.
    eexists. split; [exact Hgen|]. rewrite Hname.
    cbn [palette_of Palette.id Palette.created_at Palette.harmony Palette.tags
         Palette.description Palette.colors].
    rewrite Hsw. repeat split; try assumption; lia.
  - destruct (generate_rotated w base kind name angles Hv Hk Hmono)
      as (rotated & light & dark & Hgen & Hrot & _).
    apply Forall2_length_eq in Hrot.
    assert (Hlen : List.length (enumerate angles) = List.length angles).
    { unfold enumerate. rewrite length_combine. unfold range.
      rewrite length_map, length_seq, Nat2Z.id. lia. }
    eexists. split; [exact Hgen|]. rewrite Hname.
    cbn [palette_of Palette.id Palette.created_at Palette.harmony Palette.tags
         Palette.description Palette.colors].
    rewrite length_app, Hrot, Hlen. cbn [List.length].
    repeat split; try assumption; try lia;
      destruct Hkinds as [[_ ->]|[[_ ->]|[[_ ->]|[[? _]|[[_ ->]|[_ ->]]]]]];
      try contradiction; cbn [List.length]; lia.
Qed.

Lemma generate_palette_shape_witness :
  exists p,
    generate (Build_world "id" "now") "#f00" "split-complementary" "" = Ok p
    /\ Palette.name p = "Split-Complementary Palette"
    /\ Palette.tags p = ["split-complementary"]
    /\ List.length (Palette.colors p) = 5%nat.
Proof.
  destruct (generate_palette_shape (Build_world "id" "now") "#f00" "split-complementary" ""
              [0; 150; 210] eq_refl eq_refl)
    as (p & Hgen & _ & _ & _ & Ht & _ & Hn & _ & Hl & _).
  exists p. split; [exact Hgen|]. split; [exact Hn|]. split; [exact Ht | exact Hl].
Defined.

(** ** Floats of integers *)

Lemma float_of_int_Prim2SF (k : Z) :
  0 <= k < 2 ^ 53 ->
  Prim2SF (float_of_int k) = binary_normalize prec emax k 0 false.
Proof.
  intros Hk. unfold float_of_int. apply Prim2SF_SF2Prim.
  apply binary_normalize_exact; [apply Zdigits2_le; lia | lia |].
  assert (Zdigits2 k <= 53) by (apply Zdigits2_le; lia). lia.
Qed.

Lemma float_of_int_fval (k : Z) :
  0 <= k < 2 ^ 53 -> fval (float_of_int k) = nearest (k * 2 ^ scale) 1.
Proof.
  intros Hk. unfold fval. rewrite float_of_int_Prim2SF by assumption.
  destruct k as [|p|p]; [| |lia].
  - cbn [binary_normalize SFval]. rewrite Z.mul_0_l, nearest_0; [reflexivity | lia].
  - assert (D : Zdigits2 (Zpos p) <= 53) by (apply Zdigits2_le; lia). cbn [Zdigits2] in D.
    rewrite binary_normalize_value by (unfold scale; lia). reflexivity.
Qed.

Lemma float_of_int_fnn (k : Z) : 0 <= k < 2 ^ 53 -> fnn 53 (float_of_int k) = true.
Proof.
  intros Hk. unfold fnn. rewrite float_of_int_Prim2SF by assumption.
  assert (D : Zdigits2 k <= 53) by (apply Zdigits2_le; lia).
  destruct (binary_normalize_exact k 0 false D ltac:(lia) ltac:(lia)) as [_ L].
  apply (sf_le_weaken _ 53) in L; [|lia].
  destruct k as [|p|p]; [reflexivity| |lia].
  cbn [binary_normalize] in *. unfold binary_round in *.
  destruct (shl_align p 0 _) as [mz ez]. now apply (sf_nonneg_of_le 53 false).
Qed.

Lemma float_of_int_pos (k : Z) :
  1 <= k < 2 ^ 53 -> sf_pos 1 (Prim2SF (float_of_int k)) = true.
Proof.
  intros Hk. apply (fval_pos_mono 1 53 1%float); [reflexivity | apply float_of_int_fnn; lia |].
  rewrite float_of_int_fval by lia. rewrite <- nearest_1.
  pose proof (pow2_pos scale ltac:(unfold scale; lia)).
  apply nearest_mono; try lia. rewrite !Z.mul_1_r.
  apply Z.le_trans with (1 * 2 ^ scale); [lia|]. apply Z.mul_le_mono_nonneg_r; lia.
Qed.

Lemma sf_pos_nonzero (J : Z) (x : float) :
  sf_pos J (Prim2SF x) = true -> (x =? 0)%float = false.
Proof.
  intros H. rewrite eqb_spec. change (Prim2SF 0) with (S754_zero false).
  destruct (Prim2SF x) as [| | |[] m e]; try discriminate. reflexivity.
Qed.

Lemma int_truediv_zero (n : Z) : 1 <= n < 2 ^ 53 -> int_truediv 0 n = Ok 0%float.
Proof.
  intros Hn. unfold int_truediv. destruct (Z.eqb_spec n 0); [lia|]. f_equal.
  apply Prim2SF_inj. rewrite div_spec.
  pose proof (float_of_int_pos n Hn) as P.
  change (Prim2SF (float_of_int 0)) with (S754_zero false).
  destruct (Prim2SF (float_of_int n)) as [| | |[] m e]; try discriminate. reflexivity.
Qed.

Lemma int_truediv_self (n : Z) : 1 <= n < 2 ^ 53 -> int_truediv n n = Ok 1%float.
Proof.
  intros Hn. unfold int_truediv. destruct (Z.eqb_spec n 0); [lia|]. f_equal.
  apply (fdiv_self 1 53); [now apply float_of_int_pos | apply float_of_int_fnn; lia | lia | lia].
Qed.

(** ** Lists built by comprehension over [range] *)

Lemma range_succ (n : Z) : 0 <= n -> range (n + 1) = (range n ++ [n])%list.
Proof.
  intros Hn. unfold range. replace (Z.to_nat (n + 1)) with (S (Z.to_nat n)) by lia.
  rewrite seq_S, map_app. simpl. now rewrite Z2Nat.id.
Qed.

Lemma range_head (n : Z) : 1 <= n -> exists t, range n = 0 :: t.
Proof.
  intros Hn. unfold range. destruct (Z.to_nat n) as [|k] eqn:E; [lia|].
  simpl. eauto.
Qed.

Lemma range_length (n : Z) : List.length (range n) = Z.to_nat n.
Proof. unfold range. now rewrite length_map, length_seq. Qed.

Lemma In_range (n i : Z) : In i (range n) -> 0 <= i < n.
Proof.
  unfold range. intros H. apply in_map_iff in H as (k & <- & H). apply in_seq in H. lia.
Qed.

Lemma mapM_last {A B : Type} (f : A -> result B) (t : list A) (x : A) (l : list B) (d : B) :
  mapM f (t ++ [x]) = Ok l -> f x = Ok (last l d).
Proof.
  rewrite mapM_app. intros H. apply bind_ok in H as (a & _ & H).
  apply bind_ok in H as (b & Hb & H). injection H as <-.
  simpl in Hb. apply bind_ok in Hb as (y & Hy & Hb). injection Hb as <-.
  now rewrite last_last.
Qed.

(** ** Gradients *)

Lemma blend_colors_total (hex1 hex2 : string) (ratio : float) :
  valid_hex hex1 = true -> valid_hex hex2 = true ->
  exists c, blend_colors hex1 hex2 ratio = Ok c /\ canonical_hex c = true.
Proof.
  intros Hv1 Hv2.
  destruct (hex_to_rgb_valid hex1 Hv1) as (r1 & g1 & b1 & E1 & (Hr1 & Hg1 & Hb1) & _).
  destruct (hex_to_rgb_valid hex2 Hv2) as (r2 & g2 & b2 & E2 & (Hr2 & Hg2 & Hb2) & _).
  pose proof (clamp_unit ratio) as Ht.
  destruct (blend_channel_total r1 r2 _ Hr1 Hr2 Ht) as (r & Er).
  destruct (blend_channel_total g1 g2 _ Hg1 Hg2 Ht) as (g & Eg).
  destruct (blend_channel_total b1 b2 _ Hb1 Hb2 Ht) as (b & Eb).
  unfold blend_colors. rewrite E1, E2. cbn [bind]. rewrite Er, Eg, Eb. cbn [bind].
  eexists. split; [reflexivity | apply rgb_to_hex_canonical].
Qed.

Lemma blend_colors_0 (hex1 hex2 : string) :
  valid_hex hex1 = true -> valid_hex hex2 = true ->
  blend_colors hex1 hex2 0 = Ok (String "#" (lowercase (hex_digits_of hex1)))
  /\ blend_colors hex1 hex2 1 = Ok (String "#" (lowercase (hex_digits_of hex2))).
Proof.
  intros Hv1 Hv2.
  destruct (hex_to_rgb_valid hex1 Hv1) as (r1 & g1 & b1 & E1 & (Hr1 & Hg1 & Hb1) & F1 & _).
  destruct (hex_to_rgb_valid hex2 Hv2) as (r2 & g2 & b2 & E2 & (Hr2 & Hg2 & Hb2) & F2 & _).
  destruct (blend_channel_ends r1 r2 ltac:(lia) ltac:(lia)) as [R0 R1].
  destruct (blend_channel_ends g1 g2 ltac:(lia) ltac:(lia)) as [G0 G1].
  destruct (blend_channel_ends b1 b2 ltac:(lia) ltac:(lia)) as [B0 B1].
  unfold blend_colors. rewrite E1, E2. cbn [bind].
  change (fmax 0 (fmin 1 0)) with 0%float. change (fmax 0 (fmin 1 1)) with 1%float.
  rewrite R0, G0, B0, R1, G1, B1. cbn [bind]. now rewrite F1, F2.
Qed.

(** X7: for two valid colours and a count of stops of at least 2,
    [generate_gradient_stops] returns exactly that many colours, each in
    the normal form ['#'] and six lower-case hex digits; the first one is
    the first colour and the last one the second colour (in normal form),
    because the ratios [0 / (stops - 1)] and [(stops - 1) / (stops - 1)]
    are exactly 0.0 and 1.0; the stop at index [i] is the blend at ratio
    [i / (stops - 1)]. *)
Theorem generate_gradient_stops_ends (hex1 hex2 : string) (stops : Z) :
  valid_hex hex1 = true -> valid_hex hex2 = true -> 2 <= stops <= 2 ^ 53 ->
  exists l,
    generate_gradient_stops hex1 hex2 stops = Ok l
    /\ Z.of_nat (List.length l) = stops
    /\ hd_error l = Some (String "#" (lowercase (hex_digits_of hex1)))
    /\ last l "" = String "#" (lowercase (hex_digits_of hex2))
    /\ Forall (fun c => canonical_hex c = true) l
    /\ Forall2 (fun i c =>
                  blend_colors hex1 hex2 (float_of_int i / float_of_int (stops - 1)) = Ok c)
               (range stops) l.
Proof.
  intros Hv1 Hv2 Hs. unfold generate_gradient_stops.
  set (f := fun i => let* t := int_truediv i (stops - 1) in blend_colors hex1 hex2 t).
  destruct (mapM_Forall2 f
              (fun i c => canonical_hex c = true
                          /\ blend_colors hex1 hex2
                               (float_of_int i / float_of_int (stops - 1)) = Ok c)
              (range stops)) as (l & El & Hl).
  { intros i Hi. unfold f, int_truediv. destruct (Z.eqb_spec (stops - 1) 0); [lia|].
    cbn [bind].
    destruct (blend_colors_total hex1 hex2
                (float_of_int i / float_of_int (stops - 1)) Hv1 Hv2) as (c & Ec & Hc).
    exists c. auto. }
  destruct (blend_colors_0 hex1 hex2 Hv1 Hv2) as [B0 B1].
  exists l. split; [exact El|]. split; [|split; [|split; [|split]]].
  - rewrite (Forall2_length_eq _ _ _ Hl), range_length. lia.
  - destruct (range_head stops ltac:(lia)) as (t & Et). rewrite Et in El.
    cbn [mapM] in El. apply bind_ok in El as (y & Hy & El).
    apply bind_ok in El as (ys & _ & El). injection El as <-. cbn [hd_error].
    unfold f in Hy. rewrite int_truediv_zero in Hy by lia. cbn [bind] in Hy. congruence.
  - replace stops with (stops - 1 + 1) in El by lia. rewrite range_succ in El by lia.
    apply (mapM_last _ _ _ _ "") in El. unfold f in El.
    rewrite int_truediv_self in El by lia. cbn [bind] in El. congruence.
  - clear -Hl. induction Hl; constructor; tauto.
  - clear -Hl. induction Hl; constructor; tauto.
Qed.

Lemma generate_gradient_stops_ends_witness :
  exists l,
    generate_gradient_stops "#000000" "#ffffff" 3 = Ok l
    /\ Z.of_nat (List.length l) = 3
    /\ hd_error l = Some "#000000" /\ last l "" = "#ffffff".
Proof.
  destruct (generate_gradient_stops_ends "#000000" "#ffffff" 3 eq_refl eq_refl)
    as (l & E & Hlen & Hh & Hlast & _).
  { split; [lia|]. apply Z.leb_le. reflexivity. }
  exists l. split; [exact E|]. split; [exact Hlen|]. split; [exact Hh | exact Hlast].
Defined.

(** ** Lightness scales *)

(** [hls_hex] with a lightness that is only known to be finite. *)
Lemma _v_bounded_wide (m1 m2 hue : float) :
  fle 130 m1 = true -> fle 130 m2 = true ->
  exists v, colorsys._v m1 m2 hue = Ok v /\ fle 700 v = true.
Proof.
  intros H1 H2. unfold colorsys._v.
  destruct (float_mod_1 hue) as (r & -> & Hr). simpl bind.
  destruct (r <? colorsys.ONE_SIXTH)%float eqn:C1;
    [|destruct (r <? 0.5)%float eqn:C2; [|destruct (r <? colorsys.TWO_THIRD)%float eqn:C3]];
    eexists; (split; [reflexivity|]).
  - destruct Hr as [Hr|Hr]; [|now rewrite Hr in C1]. fle_auto.
  - fle_auto.
  - destruct Hr as [Hr|Hr]; [|now rewrite Hr in C3]. fle_auto.
  - fle_auto.
Qed.

Lemma hls_hex_total_wide (h l s : float) :
  fle 60 l = true -> fle 8 s = true ->
  exists c, hls_hex h l s = Ok c /\ canonical_hex c = true.
Proof.
  intros Hl Hs. unfold hls_hex.
  unfold fdiv at 1. change (360 =? 0)%float with false. cbv iota. simpl bind.
  assert (T : exists r g b, colorsys.hls_to_rgb (h / 360) l s = Ok (r, g, b)
                /\ fle 700 r = true /\ fle 700 g = true /\ fle 700 b = true).
  { unfold colorsys.hls_to_rgb. destruct (s =? 0)%float.
    { exists l, l, l. repeat split; fle_auto. }
    set (m2 := if (l <=? 0.5)%float then (l * (1 + s))%float else (l + s - l * s)%float).
    assert (Hm2 : fle 128 m2 = true) by (unfold m2; destruct (l <=? 0.5)%float; fle_auto).
    assert (Hm2' : fle 130 m2 = true) by fle_auto.
    assert (Hm1 : fle 130 (2 * l - m2) = true) by fle_auto.
    destruct (_v_bounded_wide (2 * l - m2) m2 (h / 360 + colorsys.ONE_THIRD) Hm1 Hm2')
      as (r & -> & Hr).
    destruct (_v_bounded_wide (2 * l - m2) m2 (h / 360) Hm1 Hm2') as (g & -> & Hg).
    destruct (_v_bounded_wide (2 * l - m2) m2 (h / 360 - colorsys.ONE_THIRD) Hm1 Hm2')
      as (b & -> & Hb).
    simpl bind. exists r, g, b. auto. }
  destruct T as (r & g & b & -> & Hr & Hg & Hb). simpl bind.
  destruct (fle_int_of_float 900 (r * 255)) as [r' ->];
    [apply (fle_mul 700 8); [assumption | reflexivity | lia | lia]|].
  destruct (fle_int_of_float 900 (g * 255)) as [g' ->];
    [apply (fle_mul 700 8); [assumption | reflexivity | lia | lia]|].
  destruct (fle_int_of_float 900 (b * 255)) as [b' ->];
    [apply (fle_mul 700 8); [assumption | reflexivity | lia | lia]|].
  simpl bind. eexists. split; [reflexivity | apply rgb_to_hex_canonical].
Qed.

(** [generate_tints_shades] returns on every valid colour, for at least two
    steps. *)
Lemma generate_tints_shades_total (hex_color : string) (steps : Z) :
  valid_hex hex_color = true -> 2 <= steps <= 2 ^ 53 ->
  exists l,
    generate_tints_shades hex_color steps = Ok l
    /\ Z.of_nat (List.length l) = steps
    /\ Forall (fun c => canonical_hex c = true) l.
Proof.
  intros Hv Hs.
  destruct (hls_of_valid_hex hex_color Hv)
    as (r & g & b & h & lt & sat & E & _ & Eh & Hl & Hsat).
  unfold generate_tints_shades. rewrite E. cbn [bind]. rewrite Eh. cbn [bind].
  pose proof (float_of_int_pos (steps - 1) ltac:(lia)) as P.
  pose proof (float_of_int_fnn (steps - 1) ltac:(lia)) as N.
  assert (Hd : fle 1 (0.90 / float_of_int (steps - 1)) = true).
  { apply fnn_fle. apply (fnn_div 0 0 1 53); try assumption; try reflexivity; lia. }
  match goal with |- context [mapM ?f (range steps)] =>
    destruct (mapM_Forall2 f (fun _ c => canonical_hex c = true) (range steps))
      as (l & -> & Hall)
  end.
  { intros i Hi. apply In_range in Hi. unfold fdiv.
    rewrite (sf_pos_nonzero 1 _ P). cbn [bind].
    apply hls_hex_total_wide; [|apply (fle_weaken 1); [lia | exact Hsat]].
    pose proof (fnn_fle _ _ (float_of_int_fnn i ltac:(lia))) as Hi'.
    apply (fle_sub 58 58); try lia; [reflexivity|].
    apply (fle_mul 53 1); try assumption; lia. }
  exists l. split; [reflexivity|]. split.
  - rewrite (Forall2_length_eq _ _ _ Hall), range_length. lia.
  - clear -Hall. induction Hall; constructor; assumption.
Qed.

(** X8: for a valid colour and a count of steps of at least 2,
    [generate_tints_shades] returns exactly that many colours, each in the
    normal form ['#'] and six lower-case hex digits: the step
    [0.90 / (steps - 1)] is defined and no lightness of the scale makes
    [hls_hex] fail.  The colour at index [i] has the hue and the saturation
    of the given colour and the lightness [0.95 - i * (0.90 / (steps - 1))],
    from 0.95 at index 0 downwards. *)
Theorem generate_tints_shades_scale (hex_color : string) (steps : Z) :
  valid_hex hex_color = true -> 2 <= steps <= 2 ^ 53 ->
  exists r g b h lt s l,
    hex_to_rgb hex_color = Ok (r, g, b) /\ hls_of_rgb r g b = Ok (h, lt, s)
    /\ generate_tints_shades hex_color steps = Ok l
    /\ Z.of_nat (List.length l) = steps
    /\ Forall (fun c => canonical_hex c = true) l
    /\ Forall2 (fun i c =>
                  hls_hex (h * 360)
                          (0.95 - float_of_int i * (0.90 / float_of_int (steps - 1))) s
                  = Ok c)
               (range steps) l.
Proof.
  intros Hv Hs.
  destruct (generate_tints_shades_total hex_color steps Hv Hs) as (l & E & Hlen & Hc).
  destruct (hls_of_valid_hex hex_color Hv) as (r & g & b & h & lt & s & E1 & _ & Eh & _).
  exists r, g, b, h, lt, s, l.
  split; [exact E1|]. split; [exact Eh|]. split; [exact E|]. split; [exact Hlen|].
  split; [exact Hc|].
  unfold generate_tints_shades in E. rewrite E1 in E. cbn [bind] in E.
  rewrite Eh in E. cbn [bind] in E. apply mapM_Forall2_ok in E.
  pose proof (float_of_int_pos (steps - 1) ltac:(lia)) as P.
  eapply Forall2_impl; [|exact E]. cbv beta. intros i c Hi.
  unfold fdiv in Hi. rewrite (sf_pos_nonzero 1 _ P) in Hi. exact Hi.
Qed.

Lemma generate_tints_shades_scale_witness :
  exists l,
    generate_tints_shades "#3b82f6" 9 = Ok l
    /\ Z.of_nat (List.length l) = 9
    /\ Forall (fun c => canonical_hex c = true) l.
Proof.
  destruct (generate_tints_shades_scale "#3b82f6" 9 eq_refl)
    as (r & g & b & h & lt & s & l & _ & _ & E & Hlen & Hc & _).
  { split; [lia|]. apply Z.leb_le. reflexivity. }
  exists l. split; [exact E|]. split; [exact Hlen | exact Hc].
Defined.

(** ** Lightness and saturation lie in [0, 1] *)

Lemma hls_of_rgb_unit (r g b : Z) :
  0 <= r <= 255 -> 0 <= g <= 255 -> 0 <= b <= 255 ->
  exists h l s, hls_of_rgb r g b = Ok (h, l, s)
                /\ unit_float l = true /\ unit_float s = true.
Proof.
  intros Hr Hg Hb. unfold hls_of_rgb. rewrite !int_truediv_255. simpl bind.
  unfold colorsys.rgb_to_hls.
  rewrite !fmax_chan, !fmin_chan by lia.
  set (x := Z.max (Z.max r g) b). set (y := Z.min (Z.min r g) b).
  pose proof (hls_pair_table x y ltac:(lia) ltac:(lia)) as T. unfold hls_pair_ok in T. cbv zeta in T.
  apply andb_prop in T as [Tl T].
  unfold fdiv at 1. change (2 =? 0)%float with false. cbv iota. simpl bind.
  destruct (chan y =? chan x)%float.
  { do 3 eexists. split; [reflexivity|]. split; [exact Tl | reflexivity]. }
  simpl in T. apply andb_prop in T as [Tr T].
  assert (Hs : exists s,
             (if ((chan x + chan y) / 2 <=? 0.5)%float
              then fdiv (chan x - chan y) (chan x + chan y)
              else fdiv (chan x - chan y) (2 - chan x - chan y)) = Ok s
             /\ unit_float s = true).
  { unfold fdiv. destruct ((chan x + chan y) / 2 <=? 0.5)%float;
      apply andb_prop in T as [T1 T2];
      match goal with |- context [if ?c then _ else _] => destruct c end;
      try discriminate; eauto. }
  destruct Hs as (s & -> & Hs). simpl bind.
  unfold fdiv. destruct (chan x - chan y =? 0)%float; [discriminate|]. simpl bind.
  change (6 =? 0)%float with false. cbv iota. simpl bind.
  unfold float_mod. change (1 =? 0)%float with false. cbv iota.
  repeat match goal with |- context [if ?c then _ else _] => destruct c end;
    simpl bind; do 3 eexists; (split; [reflexivity|]); split; assumption.
Qed.

Lemma hls_of_valid_hex_unit (s : string) :
  valid_hex s = true ->
  exists r g b h l sat,
    hex_to_rgb s = Ok (r, g, b) /\ hls_of_rgb r g b = Ok (h, l, sat)
    /\ unit_float l = true /\ unit_float sat = true.
Proof.
  intros Hv. destruct (hex_to_rgb_valid s Hv) as (r & g & b & E & (Hr & Hg & Hb) & _).
  destruct (hls_of_rgb_unit r g b Hr Hg Hb) as (h & l & sat & Eh & Hl & Hs).
  exists r, g, b, h, l, sat. auto.
Qed.

(** [max(lo, min(hi, x))] lies between [lo] and [hi], whatever [x] is. *)
Lemma clamp_between (lo hi x : float) :
  (lo <=? hi)%float = true -> (lo <=? lo)%float = true -> (hi <=? hi)%float = true ->
  let y := fmax lo (fmin hi x) in
  (lo <=? y)%float = true /\ (y <=? hi)%float = true.
Proof.
  intros Hlh Hll Hhh. unfold fmin. destruct (x <? hi)%float eqn:E1.
  - unfold fmax. destruct (lo <? x)%float eqn:E0.
    + split; now apply ltb_leb.
    + split; assumption.
  - unfold fmax. destruct (lo <? hi)%float eqn:E0; split; assumption.
Qed.

(** X9: for a palette whose base colour is valid, [suggest_semantic]
    returns the four entries success, warning, error and info, in this
    order, and [suggest_neutral] returns a colour; all five are in the
    normal form ['#'] and six lower-case hex digits.  The semantic colours
    are the hues 120, 38, 4 and 207 at the lightness of the base colour
    clamped to [0.35, 0.60] and at its saturation raised to at least
    0.55. *)
Theorem suggest_semantic_colours (palette : Palette.t) :
  valid_hex (Palette.base_color palette) = true ->
  exists r g b h l s,
    hex_to_rgb (Palette.base_color palette) = Ok (r, g, b)
    /\ hls_of_rgb r g b = Ok (h, l, s)
    /\ let tgt := fmax 0.35 (fmin 0.60 l) in
       let adj := fmax 0.55 s in
       ((0.35 <=? tgt)%float = true /\ (tgt <=? 0.60)%float = true)
       /\ (0.55 <=? adj)%float = true
       /\ exists success warning error info neutral,
            suggest_semantic palette
            = Ok [("success", success); ("warning", warning);
                  ("error", error); ("info", info)]
            /\ hls_hex 120 tgt adj = Ok success /\ hls_hex 38 tgt adj = Ok warning
            /\ hls_hex 4 tgt adj = Ok error /\ hls_hex 207 tgt adj = Ok info
            /\ suggest_neutral palette = Ok neutral
            /\ Forall (fun c => canonical_hex c = true)
                      [success; warning; error; info; neutral].
Proof.
  intros Hv.
  destruct (hls_of_valid_hex_unit _ Hv) as (r & g & b & h & l & s & E & Eh & Ul & Us).
  exists r, g, b, h, l, s. split; [exact E|]. split; [exact Eh|]. cbv zeta.
  pose proof (clamp_between 0.35 0.60 l eq_refl eq_refl eq_refl) as [T1 T2]. cbv zeta in T1, T2.
  assert (A : (0.55 <=? fmax 0.55 s)%float = true).
  { unfold fmax. destruct (0.55 <? s)%float eqn:C; [now apply ltb_leb | reflexivity]. }
  assert (Ft : fle 8 (fmax 0.35 (fmin 0.60 l)) = true).
  { unfold fmax, fmin. apply unit_float_fle in Ul.
    repeat match goal with |- context [if ?c then _ else _] => destruct c end;
      first [apply (fle_weaken 1); [lia | assumption] | reflexivity]. }
  assert (Fa : fle 8 (fmax 0.55 s) = true).
  { unfold fmax. apply unit_float_fle in Us.
    destruct (0.55 <? s)%float; first [apply (fle_weaken 1); [lia | assumption] | reflexivity]. }
  split; [split; assumption|]. split; [exact A|].
  destruct (hls_hex_total 120 _ _ Ft Fa) as (c1 & E1 & C1).
  destruct (hls_hex_total 38 _ _ Ft Fa) as (c2 & E2 & C2).
  destruct (hls_hex_total 4 _ _ Ft Fa) as (c3 & E3 & C3).
  destruct (hls_hex_total 207 _ _ Ft Fa) as (c4 & E4 & C4).
  destruct (hls_hex_total (h * 360) 0.5 0.05 eq_refl eq_refl) as (n & En & Cn).
  exists c1, c2, c3, c4, n.
  unfold suggest_semantic, suggest_neutral. rewrite E. cbn [bind]. rewrite Eh. cbn [bind].
  rewrite E1, E2, E3, E4. cbn [bind].
  repeat split; try assumption. repeat constructor; assumption.
Qed.

Lemma suggest_semantic_colours_witness :
  exists success warning error info,
    suggest_semantic (Palette.mk "id" "Ocean" "#3b82f6" "triadic" [] [] "" "")
    = Ok [("success", success); ("warning", warning); ("error", error); ("info", info)]
    /\ Forall (fun c => canonical_hex c = true) [success; warning; error; info].
Proof.
  destruct (suggest_semantic_colours
              (Palette.mk "id" "Ocean" "#3b82f6" "triadic" [] [] "" "") eq_refl)
    as (r & g & b & h & l & s & _ & _ & _ & _ & c1 & c2 & c3 & c4 & n & E & _ & _ & _ & _ & _ & F).
  exists c1, c2, c3, c4. split; [exact E|].
  inversion F as [|? ? F1 F2]; subst. inversion F2 as [|? ? F3 F4]; subst.
  inversion F4 as [|? ? F5 F6]; subst. inversion F6 as [|? ? F7 F8]; subst.
  repeat constructor; assumption.
Defined.

(** ** [round(x, n)] for the other counts of digits *)

Lemma pow10_bounds (n : Z) : 0 <= n <= 18 -> 1 <= 10 ^ n < 2 ^ 60.
Proof.
  intros Hn. split.
  - pose proof (Z.pow_pos_nonneg 10 n ltac:(lia) ltac:(lia)). lia.
  - apply Z.le_lt_trans with (10 ^ 18); [apply Z.pow_le_mono_r; lia | reflexivity].
Qed.

Lemma round_scaled_bounds_n (m : positive) (e p : Z) :
  Zpos (digits2_pos m) <= 53 -> e < 0 -> 1 <= p < 2 ^ 60 ->
  0 <= round_half_even (Zpos m * p) (2 ^ (- e)) < 2 ^ 114.
Proof.
  intros Hd He Hp. pose proof (pow2_pos (- e) ltac:(lia)) as H2.
  split; [apply round_half_even_nonneg; lia|].
  apply Z.le_lt_trans with (2 ^ 113); [|reflexivity].
  apply round_half_even_le; [lia|].
  pose proof (digits2_pos_bounds m) as [_ B].
  assert (2 ^ Zpos (digits2_pos m) <= 2 ^ 53) by (apply Z.pow_le_mono_r; lia).
  apply Z.le_trans with (2 ^ 113 * 1); [|apply Z.mul_le_mono_nonneg_l; lia].
  change (2 ^ 113) with (2 ^ 53 * 2 ^ 60). rewrite Z.mul_1_r.
  apply Z.mul_le_mono_nonneg; lia.
Qed.

(** What [SFdiv_core_binary] gives for the decimal [n / p]. *)
Lemma decimal_core (n p : Z) :
  0 < n < 2 ^ 114 -> 1 <= p < 2 ^ 60 ->
  let '(q, e', l) := SFdiv_core_binary prec emax n 0 p 0 in
  located q l (n * 2 ^ (0 - 0 - e')) p /\ 0 < q /\ - 120 <= e' <= 0
  /\ e' <= Z.max (Zdigits2 q + e' - 53) (-1074) /\ Zdigits2 q + e' <= 115.
Proof.
  intros Hn Hp.
  assert (Dn : Zdigits2 n <= 114) by (apply Zdigits2_le; lia).
  assert (Dp : Zdigits2 p <= 60) by (apply Zdigits2_le; lia).
  pose proof (Zdigits2_pos_ge n ltac:(lia)) as [_ Dn1].
  pose proof (Zdigits2_pos_ge p ltac:(lia)) as [_ Dp1].
  pose proof (SFdiv_core_binary_spec n 0 p 0 ltac:(lia) ltac:(lia) ltac:(lia)) as S.
  destruct (SFdiv_core_binary prec emax n 0 p 0) as [[q e'] l].
  destruct S as (E' & L & Hq & Hpr & Hd). repeat split; try assumption; lia.
Qed.

Lemma SFround_valid (x : spec_float) (n : Z) :
  0 <= n <= 18 -> valid_binary x = true -> valid_binary (SFround x n) = true.
Proof.
  intros Hn V. destruct x as [s|s| |s m e]; try exact V. unfold SFround.
  destruct (Z.leb_spec 0 e) as [|He]; [exact V|].
  pose proof (valid_finite _ _ _ V) as [C _].
  pose proof (pow10_bounds n Hn) as Hp.
  pose proof (round_scaled_bounds_n m e (10 ^ n) ltac:(lia) He Hp) as [N0 N1].
  set (k := round_half_even (Zpos m * 10 ^ n) (2 ^ (- e))) in *.
  destruct (Z.eqb_spec k 0) as [|NZ]; [reflexivity|].
  pose proof (decimal_core k (10 ^ n) ltac:(lia) Hp) as S.
  destruct (SFdiv_core_binary prec emax k 0 (10 ^ n) 0) as [[q e'] l].
  destruct S as (L & Hq & He' & Hpr & Hd).
  apply binary_round_aux_valid; lia.
Qed.

Lemma Prim2SF_round (x : float) (n : Z) :
  0 <= n <= 18 -> Prim2SF (round x n) = SFround (Prim2SF x) n.
Proof.
  intros Hn. unfold round. apply Prim2SF_SF2Prim, SFround_valid; [exact Hn|].
  apply Prim2SF_valid.
Qed.

Lemma SFround_value (x : spec_float) (n : Z) :
  0 <= n <= 18 -> valid_binary x = true -> sf_nonneg 52 x = true ->
  SFval (SFround x n)
  = nearest (round_half_even (SFval x * 10 ^ n) (2 ^ scale) * 2 ^ scale) (10 ^ n)
  /\ sf_nonneg 117 (SFround x n) = true.
Proof.
  intros Hn V N. pose proof (pow2_pos scale ltac:(unfold scale; lia)) as HS.
  pose proof (pow10_bounds n Hn) as Hp.
  destruct x as [s|s| |s m e]; try discriminate.
  - cbn [SFround SFval]. change (0 * 10 ^ n) with 0.
    rewrite round_half_even_0 by lia. change (0 * 2 ^ scale) with 0.
    rewrite nearest_0 by lia. split; reflexivity.
  - destruct s; [discriminate|]. cbn [sf_nonneg] in N. apply Z.leb_le in N.
    pose proof (valid_finite _ _ _ V) as [C _].
    assert (He : e < 0) by lia. unfold SFround.
    destruct (Z.leb_spec 0 e) as [|_]; [lia|].
    pose proof (round_scaled_bounds_n m e (10 ^ n) ltac:(lia) He Hp) as [N0 N1].
    assert (En : round_half_even (Zpos m * 10 ^ n) (2 ^ (- e))
                 = round_half_even (SFval (S754_finite false m e) * 10 ^ n) (2 ^ scale)).
    { apply round_half_even_eq; [apply pow2_pos; lia | exact HS |].
      cbn [SFval].
      replace (Zpos m * 2 ^ (e + scale) * 10 ^ n * 2 ^ (- e))
        with (Zpos m * 10 ^ n * (2 ^ (e + scale) * 2 ^ (- e))) by ring.
      rewrite <- Z.pow_add_r by (unfold scale; lia). f_equal. f_equal. lia. }
    rewrite <- En.
    set (k := round_half_even (Zpos m * 10 ^ n) (2 ^ (- e))) in *.
    destruct (Z.eqb_spec k 0) as [Z0|NZ].
    + rewrite Z0, Z.mul_0_l, nearest_0 by lia. split; reflexivity.
    + pose proof (decimal_core k (10 ^ n) ltac:(lia) Hp) as S.
      destruct (SFdiv_core_binary prec emax k 0 (10 ^ n) 0) as [[q e'] l].
      destruct S as (L & Hq & He' & Hpr & Hd). split.
      * rewrite (binary_round_aux_value _ _ _ _ (k * 2 ^ (0 - 0 - e')) (10 ^ n));
          try assumption; try (unfold scale; lia).
        f_equal. rewrite <- Z.mul_assoc. f_equal.
        rewrite <- Z.pow_add_r by (unfold scale; lia). f_equal. lia.
      * apply (sf_nonneg_of_le _ false). pose proof (Zdigits2_nonneg q).
        apply (binary_round_aux_le false q e' l 116); lia.
Qed.

Lemma fval_round (x : float) (n : Z) :
  0 <= n <= 18 -> fnn 52 x = true ->
  fval (round x n)
  = nearest (round_half_even (fval x * 10 ^ n) (2 ^ scale) * 2 ^ scale) (10 ^ n)
  /\ fnn 117 (round x n) = true.
Proof.
  intros Hn H. unfold fval, fnn. rewrite Prim2SF_round by assumption.
  apply SFround_value; [exact Hn | apply Prim2SF_valid | exact H].
Qed.

Lemma fval_round_mono (x x' : float) (n : Z) :
  0 <= n <= 18 -> fnn 52 x = true -> fnn 52 x' = true -> fval x <= fval x' ->
  fval (round x n) <= fval (round x' n).
Proof.
  intros Hn H H' L.
  destruct (fval_round x n Hn H) as [-> _]. destruct (fval_round x' n Hn H') as [-> _].
  pose proof (pow2_pos scale ltac:(unfold scale; lia)) as HS.
  pose proof (pow10_bounds n Hn) as Hp.
  pose proof (fval_nonneg x).
  assert (R : round_half_even (fval x * 10 ^ n) (2 ^ scale)
              <= round_half_even (fval x' * 10 ^ n) (2 ^ scale)).
  { apply round_half_even_mono; try lia. apply Z.mul_le_mono_nonneg_r; [lia|].
    apply Z.mul_le_mono_nonneg_r; lia. }
  assert (R0 : 0 <= round_half_even (fval x * 10 ^ n) (2 ^ scale)).
  { apply round_half_even_nonneg; [lia|]. apply Z.mul_nonneg_nonneg; lia. }
  apply nearest_mono; [apply Z.mul_nonneg_nonneg; lia | lia | lia |].
  apply Z.mul_le_mono_nonneg_r; [lia|]. apply Z.mul_le_mono_nonneg_r; lia.
Qed.

(** Rounding keeps a float between two floats that are their own
    roundings. *)
Lemma round_between (lo hi x : float) (n : Z) :
  0 <= n <= 18 -> fnn 52 lo = true -> fnn 52 hi = true -> fnn 52 x = true ->
  round lo n = lo -> round hi n = hi ->
  (lo <=? x)%float = true -> (x <=? hi)%float = true ->
  (lo <=? round x n)%float = true /\ (round x n <=? hi)%float = true.
Proof.
  intros Hn Nlo Nhi Nx Rlo Rhi L U.
  rewrite (fval_leb 52 52) in L, U by assumption. apply Z.leb_le in L, U.
  destruct (fval_round x n Hn Nx) as [_ Nr].
  rewrite (fval_leb 52 117), (fval_leb 117 52) by assumption.
  split; apply Z.leb_le.
  - rewrite <- Rlo at 1. now apply fval_round_mono.
  - rewrite <- Rhi. now apply fval_round_mono.
Qed.

(** ** The summary of an audit *)

(** A float below a float of size [Kc] is of size [Kc]. *)
Lemma fnn_le_mono (K Kc : Z) (x c : float) :
  fnn K x = true -> fnn Kc c = true -> fval x <= fval c -> fnn Kc x = true.
Proof.
  unfold fnn, fval. intros Nx Nc L.
  pose proof (Prim2SF_valid x) as Vx. pose proof (Prim2SF_valid c) as Vc.
  destruct (Prim2SF x) as [sx|sx| |sx mx ex]; try discriminate; [reflexivity|].
  destruct sx; [discriminate|].
  pose proof (SFval_pos _ _ _ Vx) as Px.
  destruct (Prim2SF c) as [sc|sc| |sc mc ec]; try discriminate;
    [cbn [SFval] in *; lia|].
  destruct sc; [discriminate|]. cbn [sf_nonneg SFval] in *.
  apply Z.leb_le in Nc. apply Z.leb_le.
  pose proof (valid_finite _ _ _ Vx) as [Cx _]. pose proof (valid_finite _ _ _ Vc) as [Cc _].
  pose proof (digits2_pos_bounds mx) as [Lx _]. pose proof (digits2_pos_bounds mc) as [_ Uc].
  pose proof (pow2_pos (ec + scale) ltac:(unfold scale; lia)) as Pc2.
  pose proof (pow2_pos (ex + scale) ltac:(unfold scale; lia)) as Px2.
  assert (A : 2 ^ (Zpos (digits2_pos mx) - 1 + (ex + scale)) <= Zpos mx * 2 ^ (ex + scale)).
  { rewrite (Z.pow_add_r 2 (Zpos (digits2_pos mx) - 1)) by (unfold scale; lia).
    apply Z.mul_le_mono_nonneg_r; lia. }
  assert (B : Zpos mc * 2 ^ (ec + scale) < 2 ^ (Zpos (digits2_pos mc) + (ec + scale))).
  { rewrite (Z.pow_add_r 2 (Zpos (digits2_pos mc))) by (unfold scale; lia).
    apply Z.mul_lt_mono_pos_r; lia. }
  assert (C : 2 ^ (Zpos (digits2_pos mx) - 1 + (ex + scale))
              < 2 ^ (Zpos (digits2_pos mc) + (ec + scale))) by lia.
  apply Z.pow_lt_mono_r_iff in C; unfold scale in *; lia.
Qed.

Lemma fnn_zero_le (K : Z) (x : float) : fnn K x = true -> (0 <=? x)%float = true.
Proof.
  intros N. rewrite (fval_leb 0 K 0 x eq_refl N). apply Z.leb_le. apply fval_nonneg.
Qed.

Lemma float_of_int_mono (a b : Z) :
  0 <= a <= b -> b < 2 ^ 53 -> fval (float_of_int a) <= fval (float_of_int b).
Proof.
  intros Ha Hb. rewrite !float_of_int_fval by lia.
  pose proof (pow2_pos scale ltac:(unfold scale; lia)).
  apply nearest_mono; try lia. rewrite !Z.mul_1_r. apply Z.mul_le_mono_nonneg_r; lia.
Qed.

(** The pass rate [round(passed / total * 100, 1)]. *)
Lemma pass_rate_bounds (P N : Z) :
  0 <= P <= N -> 1 <= N < 2 ^ 53 ->
  exists q, int_truediv P N = Ok q
    /\ (0 <=? round (q * 100) 1)%float = true /\ (round (q * 100) 1 <=? 100)%float = true
    /\ (P = 0 -> round (q * 100) 1 = 0%float)
    /\ (P = N -> round (q * 100) 1 = 100%float).
Proof.
  intros HP HN.
  destruct (Z.eq_dec P 0) as [->|P0].
  { rewrite int_truediv_zero by lia. exists 0%float. repeat split; try reflexivity.
    intros <-. lia. }
  destruct (Z.eq_dec P N) as [->|PN].
  { rewrite int_truediv_self by lia. exists 1%float. repeat split; try reflexivity.
    intros ->. lia. }
  unfold int_truediv. destruct (Z.eqb_spec N 0); [lia|]. eexists. split; [reflexivity|].
  pose proof (float_of_int_pos P ltac:(lia)) as PP.
  pose proof (float_of_int_fnn P ltac:(lia)) as NP.
  pose proof (float_of_int_pos N ltac:(lia)) as PN'.
  pose proof (float_of_int_fnn N ltac:(lia)) as NN.
  set (q := (float_of_int P / float_of_int N)%float).
  assert (Nq : fnn 54 q = true) by (apply (fnn_div 1 53 1 53); try assumption; lia).
  pose proof (pow2_pos scale ltac:(unfold scale; lia)) as HS.
  pose proof (SFval_finite_pos 1 _ (Prim2SF_valid _) PN') as HN'.
  fold (fval (float_of_int N)) in HN'.
  assert (Lq : fval q <= fval 1).
  { unfold q. rewrite (fval_div 1 53 1 53) by (try assumption; lia).
    rewrite <- nearest_1. pose proof (float_of_int_mono P N ltac:(lia) ltac:(lia)).
    pose proof (fval_nonneg (float_of_int P)).
    apply nearest_mono; [apply Z.mul_nonneg_nonneg; lia | lia | lia |].
    rewrite Z.mul_1_r, (Z.mul_comm (2 ^ scale)). apply Z.mul_le_mono_nonneg_r; lia. }
  assert (Nq1 : fnn 1 q = true) by (apply (fnn_le_mono 54 1 q 1); [assumption | reflexivity | assumption]).
  assert (Nx : fnn 52 (q * 100) = true) by (apply (fnn_mul 1 7); [assumption | reflexivity | lia | lia]).
  assert (Lx : fval (q * 100) <= fval (1 * 100)).
  { apply (fval_mul_mono 1 7); try assumption; try reflexivity; lia. }
  assert (U : (q * 100 <=? 100)%float = true).
  { rewrite (fval_leb 52 52) by (assumption || reflexivity). apply Z.leb_le. exact Lx. }
  destruct (round_between 0 100 (q * 100) 1 ltac:(lia) eq_refl eq_refl Nx eq_refl eq_refl
              (fnn_zero_le _ _ Nx) U) as [R0 R1].
  repeat split; try assumption; intros; lia.
Qed.

(** X10: the summary of any list of checks (of fewer than 2^53 entries):
    [total] is the number of checks, [pass_aa] the number of those whose
    [aa_normal] flag is set, [fail_aa] the rest; the pass rate lies in
    [0.0, 100.0], is exactly 0.0 when no check passes and exactly 100.0
    when there is a check and all pass. *)
Theorem summarize_invariants (checks : list Check.t) :
  Z.of_nat (List.length checks) < 2 ^ 53 ->
  exists s,
    summarize checks = Ok s
    /\ Summary.total s = Z.of_nat (List.length checks)
    /\ Summary.pass_aa s = Z.of_nat (List.length (filter Check.aa_normal checks))
    /\ Summary.pass_aa s + Summary.fail_aa s = Summary.total s
    /\ 0 <= Summary.pass_aa s /\ 0 <= Summary.fail_aa s
    /\ (0 <=? Summary.pass_rate s)%float = true
    /\ (Summary.pass_rate s <=? 100)%float = true
    /\ (Summary.pass_aa s = 0 -> Summary.pass_rate s = 0%float)
    /\ (0 < Summary.total s -> Summary.fail_aa s = 0 -> Summary.pass_rate s = 100%float).
Proof.
  intros Hlen. unfold summarize.
  pose proof (filter_length_le Check.aa_normal checks) as Hf.
  set (P := Z.of_nat (List.length (filter Check.aa_normal checks))) in *.
  set (N := Z.of_nat (List.length checks)) in *.
  destruct (pass_rate_bounds P (Z.max 1 N) ltac:(lia) ltac:(lia))
    as (q & -> & R0 & R1 & Rz & Rf).
  cbn [bind]. eexists. split; [reflexivity|].
  cbn [Summary.total Summary.pass_aa Summary.fail_aa Summary.pass_rate].
  repeat split; try assumption; try reflexivity; try lia.
  intros Hpos Hfail. apply Rf. lia.
Qed.

Lemma summarize_invariants_witness :
  exists s,
    summarize [] = Ok s /\ Summary.total s = 0 /\ Summary.pass_rate s = 0%float.
Proof.
  destruct (summarize_invariants []) as (s & E & Ht & Hp & _ & _ & _ & _ & _ & Hz & _).
  { reflexivity. }
  exists s. split; [exact E|]. split; [exact Ht|]. apply Hz. exact Hp.
Defined.

(** ** The audit of a palette *)

Section AuditReport.

Variable pow : float -> float -> float.
Hypothesis pow_unit : pow_unit_on_channels pow = true.

Lemma a11y_check_as_mapM (palette : Palette.t) :
  a11y_check pow palette =
  let* checks :=
    mapM (fun '(fg, bg) => check_pair pow fg bg)
         (list_prod (audit_foregrounds (Palette.colors palette))
                    (audit_backgrounds (Palette.colors palette))) in
  let* summary := summarize checks in
  Ok (Report.mk (Palette.id palette) (Palette.name palette) checks summary).
Proof.
  unfold a11y_check. cbv zeta. rewrite outer_loop_mapM.
  unfold audit_foregrounds, audit_backgrounds, foreground_candidates, background_candidates.
  rewrite !list_or_match.
  destruct (mapM _ _); reflexivity.
Qed.

(** The check of a pair of valid colours: the ratio lies in [1, 21]. *)
Lemma check_pair_range (fg bg : ColorSwatch.t) :
  valid_hex (ColorSwatch.hex fg) = true -> valid_hex (ColorSwatch.hex bg) = true ->
  exists c, check_pair pow fg bg = Ok c
    /\ (1 <=? Check.ratio c)%float = true /\ (Check.ratio c <=? 21)%float = true
    /\ Check.fg_name c = ColorSwatch.name fg /\ Check.fg_hex c = ColorSwatch.hex fg
    /\ Check.bg_name c = ColorSwatch.name bg /\ Check.bg_hex c = ColorSwatch.hex bg.
Proof.
  intros Hf Hb. unfold check_pair.
  destruct (wcag_contrast_ratio_range pow pow_unit _ _ Hf Hb) as (r & -> & H1 & H21).
  cbn [bind]. eexists. split; [reflexivity|]. cbn. repeat split; assumption.
Qed.

Lemma a11y_check_checks (palette : Palette.t) :
  valid_swatches palette ->
  exists checks summary,
    a11y_check pow palette
    = Ok (Report.mk (Palette.id palette) (Palette.name palette) checks summary)
    /\ summarize checks = Ok summary
    /\ List.length checks
       = (List.length (audit_foregrounds (Palette.colors palette))
          * List.length (audit_backgrounds (Palette.colors palette)))%nat
    /\ Forall (fun c =>
                 (1 <=? Check.ratio c)%float = true /\ (Check.ratio c <=? 21)%float = true
                 /\ (exists fg, In fg (Palette.colors palette)
                                /\ Check.fg_name c = ColorSwatch.name fg
                                /\ Check.fg_hex c = ColorSwatch.hex fg)
                 /\ (exists bg, In bg (Palette.colors palette)
                                /\ Check.bg_name c = ColorSwatch.name bg
                                /\ Check.bg_hex c = ColorSwatch.hex bg))
              checks.
Proof.
  intros Hv. rewrite a11y_check_as_mapM.
  unfold valid_swatches in Hv. rewrite Forall_forall in Hv.
  match goal with |- context [mapM ?f ?l] =>
    destruct (mapM_Forall2 f
                (fun p c =>
                   (1 <=? Check.ratio c)%float = true /\ (Check.ratio c <=? 21)%float = true
                   /\ (exists fg, In fg (Palette.colors palette)
                                  /\ Check.fg_name c = ColorSwatch.name fg
                                  /\ Check.fg_hex c = ColorSwatch.hex fg)
                   /\ (exists bg, In bg (Palette.colors palette)
                                  /\ Check.bg_name c = ColorSwatch.name bg
                                  /\ Check.bg_hex c = ColorSwatch.hex bg)) l)
      as (checks & E & F)
  end.
  { intros [fg bg] Hin. apply in_prod_iff in Hin as [Hfg Hbg].
    apply In_audit_foregrounds in Hfg. apply In_audit_backgrounds in Hbg.
    destruct (check_pair_range fg bg (Hv fg Hfg) (Hv bg Hbg))
      as (c & -> & H1 & H21 & Hfn & Hfh & Hbn & Hbh).
    exists c. split; [reflexivity|]. repeat split; try assumption.
    - exists fg. auto.
    - exists bg. auto. }
  rewrite E. cbn [bind].
  destruct (summarize_total checks) as (q & _ & Es). rewrite Es. cbn [bind].
  eexists. eexists. split; [reflexivity|]. split; [exact Es|]. split.
  - apply mapM_length in E. now rewrite E, length_prod.
  - clear -F. induction F; constructor; auto.
Qed.

End AuditReport.

(** X11: the report of the audit of a palette of valid colours.  For every
    [pow] that stays in [0, 1] on the channel arguments, [a11y_check]
    returns a report that carries the id and the name of the palette; every
    check has a contrast ratio in [1.0, 21.0] and names a foreground and a
    background that are swatches of the palette; and the summary counts
    these checks: [total] is their number, [pass_aa] the number of checks
    whose [aa_normal] flag is set, and [pass_aa + fail_aa = total]. *)
Theorem a11y_check_report (pow : float -> float -> float) (palette : Palette.t) :
  pow_unit_on_channels pow = true ->
  valid_swatches palette ->
  exists report,
    a11y_check pow palette = Ok report
    /\ Report.palette_id report = Palette.id palette
    /\ Report.palette_name report = Palette.name palette
    /\ Forall (fun c =>
                 (1 <=? Check.ratio c)%float = true /\ (Check.ratio c <=? 21)%float = true
                 /\ (exists fg, In fg (Palette.colors palette)
                                /\ Check.fg_name c = ColorSwatch.name fg
                                /\ Check.fg_hex c = ColorSwatch.hex fg)
                 /\ (exists bg, In bg (Palette.colors palette)
                                /\ Check.bg_name c = ColorSwatch.name bg
                                /\ Check.bg_hex c = ColorSwatch.hex bg))
              (Report.checks report)
    /\ Summary.total (Report.summary report) = Z.of_nat (List.length (Report.checks report))
    /\ Summary.pass_aa (Report.summary report)
       = Z.of_nat (List.length (filter Check.aa_normal (Report.checks report)))
    /\ Summary.pass_aa (Report.summary report) + Summary.fail_aa (Report.summary report)
       = Summary.total (Report.summary report).
Proof.
  intros Hpow Hv.
  destruct (a11y_check_checks pow Hpow palette Hv) as (checks & summary & E & Es & _ & F).
  exists (Report.mk (Palette.id palette) (Palette.name palette) checks summary).
  split; [exact E|]. cbn [Report.palette_id Report.palette_name Report.checks Report.summary].
  split; [reflexivity|]. split; [reflexivity|]. split; [exact F|].
  destruct (summarize_total checks) as (q & _ & Es'). rewrite Es' in Es.
  injection Es as <-. cbn [Summary.total Summary.pass_aa Summary.fail_aa].
  repeat split; lia.
Qed.

Lemma a11y_check_report_witness :
  exists report,
    a11y_check pow_by_roots
      (Palette.mk "id" "p" "#000000" "complementary"
         [ColorSwatch.mk "#000000" "ink" "text" 0 0 0;
          ColorSwatch.mk "#ffffff" "paper" "background" 0 1 0]
         [] "now" "") = Ok report
    /\ Summary.total (Report.summary report) = Z.of_nat (List.length (Report.checks report)).
Proof.
  destruct (a11y_check_report pow_by_roots
              (Palette.mk "id" "p" "#000000" "complementary"
                 [ColorSwatch.mk "#000000" "ink" "text" 0 0 0;
                  ColorSwatch.mk "#ffffff" "paper" "background" 0 1 0]
                 [] "now" ""))
    as (report & E & _ & _ & _ & Ht & _).
  - vm_compute. reflexivity.
  - repeat constructor.
  - exists report. split; [exact E | exact Ht].
Defined.

(** ** The audit of a generated palette *)

Lemma filter_role_length (roles : list string) (colors : list ColorSwatch.t) :
  List.length (filter (role_in roles) colors)
  = List.length (filter (fun r => existsb (String.eqb r) roles)
                        (map ColorSwatch.role colors)).
Proof.
  induction colors as [|sw t IH]; simpl; [reflexivity|].
  unfold role_in at 1. destruct (existsb _ roles); simpl; now rewrite IH.
Qed.

Lemma audit_foregrounds_length (colors : list ColorSwatch.t) (n : nat) :
  List.length (filter (fun r => existsb (String.eqb r) text_roles)
                      (map ColorSwatch.role colors)) = S n ->
  List.length (audit_foregrounds colors) = S n.
Proof.
  intros H. rewrite <- filter_role_length in H.
  unfold audit_foregrounds, foreground_candidates.
  change (fun s : ColorSwatch.t => existsb (String.eqb (ColorSwatch.role s))
                                     ["text"; "primary"; "secondary"; "accent"])
    with (role_in text_roles).
  destruct (filter (role_in text_roles) colors); [discriminate | exact H].
Qed.

Lemma audit_backgrounds_length (colors : list ColorSwatch.t) (n : nat) :
  List.length (filter (fun r => existsb (String.eqb r) bg_roles)
                      (map ColorSwatch.role colors)) = S n ->
  List.length (audit_backgrounds colors) = S n.
Proof.
  intros H. rewrite <- filter_role_length in H.
  unfold audit_backgrounds, background_candidates.
  change (fun s : ColorSwatch.t => existsb (String.eqb (ColorSwatch.role s))
                                     ["background"; "surface"; "muted"])
    with (role_in bg_roles).
  destruct (filter (role_in bg_roles) colors); [discriminate | exact H].
Qed.

(** The roles of the swatches of a generated palette. *)
Lemma generate_roles (w : world) (base kind name : string) (angles : list Z) :
  valid_hex base = true ->
  dict_get kind _HARMONY_ANGLES = Some angles ->
  exists p,
    generate w base kind name = Ok p
    /\ Palette.id p = uuid4 w
    /\ valid_swatches p
    /\ map ColorSwatch.role (Palette.colors p)
       = (if String.eqb kind "monochromatic"
          then ["background"; "surface"; "primary"; "secondary"; "text"]
          else map role_at (range (Z.of_nat (List.length angles))) ++ ["background"; "text"])%list.
Proof.
  intros Hv Hk.
  destruct (String.eqb_spec kind "monochromatic") as [->|Hmono].
  - destruct (generate_monochromatic w base name Hv)
      as (_ & _ & _ & _ & l & _ & swatches & _ & _ & Hgen & Hsw & Hc).
    eexists. split; [exact Hgen|]. cbn [palette_of Palette.id Palette.colors].
    split; [reflexivity|]. split.
    + unfold valid_swatches. cbn [palette_of Palette.colors].
      eapply Forall_impl; [|exact Hc]. intros sw. apply canonical_hex_valid.
    + clear -Hsw.
      assert (E : map ColorSwatch.role swatches
                  = map (fun st : Z * (float * string) => snd (snd st))
                        (enumerate monochromatic_steps)).
      { induction Hsw as [|st sw l0 l' (_ & Hr & _) _ IH]; simpl; [reflexivity|].
        now rewrite Hr, IH. }
      rewrite E. reflexivity.
  - destruct (generate_rotated w base kind name angles Hv Hk Hmono)
      as (rotated & light & dark & Hgen & Hrot & (_ & Hl & _) & (_ & Hd & _) & Hc).
    eexists. split; [exact Hgen|]. cbn [palette_of Palette.id Palette.colors].
    split; [reflexivity|]. split.
    + unfold valid_swatches. cbn [palette_of Palette.colors].
      eapply Forall_impl; [|exact Hc]. intros sw. apply canonical_hex_valid.
    + rewrite map_app, (rotated_roles _ _ _ _ Hrot), enumerate_fst. cbn [map].
      now rewrite Hl, Hd.
Qed.

(** X12: the audit of a generated palette.  For every valid colour and
    each of the six harmony kinds, [generate] returns a palette on which
    [a11y_check] returns (for every [pow] that stays in [0, 1] on the
    channel arguments); the report carries the id of the palette, and it
    holds 6 checks for the monochromatic kind (three foregrounds against
    background and surface), 3 for complementary and 4 for triadic,
    analogous, split-complementary and tetradic (the quaternary swatch of
    the tetradic kind is in no check); every ratio lies in [1.0, 21.0]. *)
Theorem generate_then_a11y_check (pow : float -> float -> float) (w : world)
        (base kind name : string) (angles : list Z) :
  pow_unit_on_channels pow = true ->
  valid_hex base = true ->
  dict_get kind _HARMONY_ANGLES = Some angles ->
  exists p report,
    generate w base kind name = Ok p
    /\ a11y_check pow p = Ok report
    /\ Report.palette_id report = uuid4 w
    /\ Report.palette_name report = Palette.name p
    /\ List.length (Report.checks report)
       = (if String.eqb kind "monochromatic" then 6
          else if String.eqb kind "complementary" then 3 else 4)%nat
    /\ Summary.total (Report.summary report)
       = (if String.eqb kind "monochromatic" then 6
          else if String.eqb kind "complementary" then 3 else 4)
    /\ List.length (audit_backgrounds (Palette.colors p))
       = (if String.eqb kind "monochromatic" then 2 else 1)%nat
    /\ Forall (fun c => (1 <=? Check.ratio c)%float = true
                        /\ (Check.ratio c <=? 21)%float = true)
              (Report.checks report).
Proof.
  intros Hpow Hv Hk.
  destruct (generate_roles w base kind name angles Hv Hk) as (p & Hgen & Hid & Hvs & Hroles).
  destruct (a11y_check_checks pow Hpow p Hvs) as (checks & summary & E & Es & Hlen & F).
  exists p, (Report.mk (Palette.id p) (Palette.name p) checks summary).
  split; [exact Hgen|]. split; [exact E|].
  cbn [Report.palette_id Report.palette_name Report.checks Report.summary].
  split; [exact Hid|]. split; [reflexivity|].
  destruct (summarize_total checks) as (q & _ & Es'). rewrite Es' in Es.
  injection Es as <-. cbn [Summary.total].
  assert (Hkinds : (kind = "complementary" /\ angles = [0; 180])
                   \/ (kind = "triadic" /\ angles = [0; 120; 240])
                   \/ (kind = "analogous" /\ angles = [0; 30; 60])
                   \/ (kind = "monochromatic" /\ angles = [])
                   \/ (kind = "split-complementary" /\ angles = [0; 150; 210])
                   \/ (kind = "tetradic" /\ angles = [0; 90; 180; 270])).
  { unfold _HARMONY_ANGLES, dict_get in Hk.
    repeat match type of Hk with
           | (if String.eqb ?a ?b then _ else _) = _ =>
               destruct (String.eqb_spec a b) as [->|?];
               [injection Hk as <-; tauto|]
           end.
    discriminate. }
  assert (Hf : forall n, List.length (filter (fun r => existsb (String.eqb r) text_roles)
                                 (map ColorSwatch.role (Palette.colors p))) = S n ->
                         List.length (audit_foregrounds (Palette.colors p)) = S n)
    by (intros n; apply audit_foregrounds_length).
  assert (Hb : forall n, List.length (filter (fun r => existsb (String.eqb r) bg_roles)
                                 (map ColorSwatch.role (Palette.colors p))) = S n ->
                         List.length (audit_backgrounds (Palette.colors p)) = S n)
    by (intros n; apply audit_backgrounds_length).
  rewrite Hroles in Hf, Hb. rewrite Hlen.
  assert (F' : Forall (fun c => (1 <=? Check.ratio c)%float = true
                                /\ (Check.ratio c <=? 21)%float = true) checks).
  { eapply Forall_impl; [|exact F]. intros c (H1 & H21 & _). now split. }
  destruct Hkinds as [[-> ->]|[[-> ->]|[[-> ->]|[[-> ->]|[[-> ->]|[-> ->]]]]]];
    cbn in Hf, Hb |- *;
    rewrite (Hf _ eq_refl), (Hb _ eq_refl); repeat split; try exact F'.
Qed.

Lemma generate_then_a11y_check_witness :
  exists p report,
    generate (Build_world "id" "now") "#3b82f6" "tetradic" "" = Ok p
    /\ a11y_check pow_by_roots p = Ok report
    /\ List.length (Report.checks report) = 4%nat.
Proof.
  destruct (generate_then_a11y_check pow_by_roots (Build_world "id" "now")
              "#3b82f6" "tetradic" "" [0; 90; 180; 270])
    as (p & report & Hgen & E & _ & _ & Hlen & _).
  - vm_compute. reflexivity.
  - reflexivity.
  - reflexivity.
  - exists p, report. split; [exact Hgen|]. split; [exact E | exact Hlen].
Defined.

(** ** The Tailwind export *)

Lemma fold_left_append {A B : Type} (f : A -> B) (l : list A) (acc : list B) :
  fold_left (fun lines x => lines ++ [f x])%list l acc = (acc ++ map f l)%list.
Proof.
  revert acc; induction l as [|x t IH]; intros acc; simpl.
  - now rewrite app_nil_r.
  - now rewrite IH, <- app_assoc.
Qed.

Lemma fold_left_append_pair {A B C : Type} (f : A -> B -> C) (l : list (A * B)) (acc : list C) :
  fold_left (fun lines '(a, b) => lines ++ [f a b])%list l acc
  = (acc ++ map (fun '(a, b) => f a b) l)%list.
Proof.
  revert acc; induction l as [|[a b] t IH]; intros acc; simpl.
  - now rewrite app_nil_r.
  - now rewrite IH, <- app_assoc.
Qed.

(** X13: the Tailwind export of a palette whose base colour is valid.
    [to_tailwind] returns the lines of the configuration joined by line
    feeds: six opening lines that name the palette in lower case with
    dashes for spaces, the nine colours of the tint and shade scale under
    the keys 50, 100, 200, ..., 800 - the key 900 is never written, the
    scale being one colour short of the ten keys - then one line per
    swatch with its role and colour, in the order of the palette, and five
    closing lines.  The colours of the swatches are written as they are,
    without being parsed. *)
Theorem to_tailwind_lines (palette : Palette.t) :
  valid_hex (Palette.base_color palette) = true ->
  exists scale,
    generate_tints_shades (Palette.base_color palette) 9 = Ok scale
    /\ List.length scale = 9%nat
    /\ Forall (fun c => canonical_hex c = true) scale
    /\ to_tailwind palette
       = Ok (join_lines
               ([ "/** @type {import('tailwindcss').Config} */";
                  "module.exports = {"; "  theme: {"; "    extend: {"; "      colors: {";
                  ("        '" ++ replace_spaces (str_lower (Palette.name palette))
                   ++ "': {")%string ]
                ++ map (fun '(key, c) => ("          " ++ key ++ ": '" ++ c ++ "',")%string)
                       (combine ["50"; "100"; "200"; "300"; "400"; "500"; "600"; "700"; "800"]
                                scale)
                ++ [ "        },";
                     ("        '" ++ replace_spaces (str_lower (Palette.name palette))
                      ++ "-roles': {")%string ]
                ++ map (fun sw => ("          '" ++ ColorSwatch.role sw ++ "': '"
                                   ++ ColorSwatch.hex sw ++ "',")%string)
                       (Palette.colors palette)
                ++ ["        },"; "      },"; "    },"; "  },"; "};"])%list).
Proof.
  intros Hv.
  destruct (generate_tints_shades_total (Palette.base_color palette) 9 Hv)
    as (scale & E & Hlen & Hc).
  { split; [lia|]. apply Z.leb_le. reflexivity. }
  assert (Hlen' : List.length scale = 9%nat) by lia.
  exists scale. split; [exact E|]. split; [exact Hlen'|]. split; [exact Hc|].
  unfold to_tailwind. rewrite E. cbn [bind]. cbv zeta.
  rewrite (fold_left_append_pair
             (fun num hex_val => ("          " ++ str_of_int num ++ ": '" ++ hex_val ++ "',")%string)).
  rewrite fold_left_append.
  do 9 (destruct scale as [|? scale]; [discriminate Hlen'|]).
  destruct scale; [|discriminate Hlen'].
  reflexivity.
Qed.

Lemma to_tailwind_lines_witness :
  exists scale,
    generate_tints_shades "#3b82f6" 9 = Ok scale
    /\ List.length scale = 9%nat.
Proof.
  destruct (to_tailwind_lines
              (Palette.mk "id" "My Blue" "#3b82f6" "complementary" [] [] "now" "") eq_refl)
    as (scale & E & Hlen & _).
  exists scale. split; [exact E | exact Hlen].
Defined.

(** ** Differences of non-negative floats *)

Lemma binary_round_aux_opp (s : bool) (m e : Z) (l : location) :
  binary_round_aux prec emax (negb s) m e l = SFopp (binary_round_aux prec emax s m e l).
Proof.
  unfold binary_round_aux.
  destruct (shr_fexp prec emax m e l) as [r1 e1].
  destruct (shr_fexp prec emax (round_nearest_even (shr_m r1) (loc_of_shr_record r1))
              e1 loc_Exact) as [r2 e2].
  destruct (shr_m r2); [reflexivity| |reflexivity].
  destruct (e2 <=? emax - prec); reflexivity.
Qed.

Lemma binary_normalize_neg (p : positive) (e : Z) (s : bool) :
  binary_normalize prec emax (Zneg p) e s
  = SFopp (binary_normalize prec emax (Zpos p) e false).
Proof.
  cbn [binary_normalize]. unfold binary_round.
  destruct (shl_align p e (SpecFloat.fexp prec emax (Zpos (digits2_pos p) + e))) as [mz ez].
  apply (binary_round_aux_opp false).
Qed.

Lemma SFval_opp (x : spec_float) : SFval (SFopp x) = SFval x.
Proof. now destruct x. Qed.

Lemma SFopp_involutive (x : spec_float) : SFopp (SFopp x) = x.
Proof. destruct x as [[]|[]| |[] m e]; reflexivity. Qed.

Lemma binary_normalize_nonneg (p : positive) (e K : Z) :
  sf_le K (binary_normalize prec emax (Zpos p) e false) = true ->
  sf_nonneg K (binary_normalize prec emax (Zpos p) e false) = true.
Proof.
  cbn [binary_normalize]. unfold binary_round.
  destruct (shl_align p e (SpecFloat.fexp prec emax (Zpos (digits2_pos p) + e))) as [mz ez].
  apply sf_nonneg_of_le. exact false.
Qed.

(** [x - y] for two non-negative floats: the nearest double to the
    difference of the values, with the sign of the difference. *)
Lemma SFsub_value (x y : spec_float) (K : Z) :
  valid_binary x = true -> valid_binary y = true ->
  sf_nonneg K x = true -> sf_nonneg K y = true -> -1075 <= K <= 970 ->
  SFval (SFsub prec emax x y) = nearest (Z.abs (SFval x - SFval y)) 1
  /\ (SFval y <= SFval x -> sf_nonneg (K + 2) (SFsub prec emax x y) = true)
  /\ (SFval x <= SFval y -> sf_nonneg (K + 2) (SFopp (SFsub prec emax x y)) = true).
Proof.
  intros Vx Vy Nx Ny HK.
  pose proof (SFsub_le x y K K K (sf_nonneg_le _ _ Nx) (sf_nonneg_le _ _ Ny)
                ltac:(lia) ltac:(lia) HK) as B.
  destruct x as [sx|sx| |sx mx ex], y as [sy|sy| |sy my ey]; try discriminate.
  - cbn [SFval]. change (Z.abs (0 - 0)) with 0. rewrite nearest_0 by lia.
    destruct sx, sy; repeat split; reflexivity.
  - destruct sy; [discriminate|]. pose proof (SFval_pos _ _ _ Vy) as Py.
    cbn [SFsub negb]. change (SFval (S754_zero sx)) with 0.
    change (SFval (S754_finite true my ey)) with (SFval (S754_finite false my ey)).
    replace (Z.abs (0 - SFval (S754_finite false my ey)))
      with (SFval (S754_finite false my ey)) by lia.
    split; [symmetry; now apply SFval_nearest|]. split; [lia|]. intros _. exact B.
  - destruct sx; [discriminate|]. pose proof (SFval_pos _ _ _ Vx) as Px.
    cbn [SFsub]. change (SFval (S754_zero sy)) with 0.
    replace (Z.abs (SFval (S754_finite false mx ex) - 0))
      with (SFval (S754_finite false mx ex)) by lia.
    split; [symmetry; now apply SFval_nearest|]. split; [|lia]. intros _. exact B.
  - destruct sx; [discriminate|]. destruct sy; [discriminate|].
    cbn [sf_nonneg] in Nx, Ny. apply Z.leb_le in Nx, Ny.
    pose proof (valid_finite _ _ _ Vx) as [Cx _]. pose proof (valid_finite _ _ _ Vy) as [Cy _].
    unfold SFsub in *.
    destruct (shl_align_spec mx ex (Z.min ex ey)) as (E1 & V1 & _).
    destruct (shl_align_spec my ey (Z.min ex ey)) as (E2 & V2 & _).
    set (ez := Z.min ex ey) in *.
    set (ax := fst (shl_align mx ex ez)) in *. set (ay := fst (shl_align my ey ez)) in *.
    replace (snd (shl_align mx ex ez)) with ez in * by (unfold ez in *; lia).
    replace (snd (shl_align my ey ez)) with ez in * by (unfold ez in *; lia).
    cbn [cond_Zopp] in *.
    pose proof (aligned_lt mx ex ez K ltac:(unfold ez; lia) ltac:(lia)) as Ax.
    pose proof (aligned_lt my ey ez K ltac:(unfold ez; lia) ltac:(lia)) as Ay.
    rewrite <- V1 in Ax. rewrite <- V2 in Ay.
    pose proof (pow2_pos (ez + scale) ltac:(unfold scale, ez; lia)) as Pz.
    assert (Ex : SFval (S754_finite false mx ex) = Zpos ax * 2 ^ (ez + scale)).
    { cbn [SFval]. rewrite V1, <- Z.mul_assoc, <- Z.pow_add_r by (unfold scale, ez; lia).
      do 2 f_equal. lia. }
    assert (Ey : SFval (S754_finite false my ey) = Zpos ay * 2 ^ (ez + scale)).
    { cbn [SFval]. rewrite V2, <- Z.mul_assoc, <- Z.pow_add_r by (unfold scale, ez; lia).
      do 2 f_equal. lia. }
    rewrite Ex, Ey, <- Z.mul_sub_distr_r.
    assert (Hd : forall p, Zpos p <= Z.max (Zpos ax) (Zpos ay) ->
                           Zpos (digits2_pos p) + ez <= 1023).
    { intros p Hp. assert (Hlt : 0 <= Zpos p < 2 ^ (K - ez)) by lia.
      pose proof (Zdigits2_le (Zpos p) (K - ez) ltac:(unfold ez; lia) Hlt) as D.
      cbn [Zdigits2] in D. lia. }
    destruct (Zpos ax - Zpos ay) as [|p|p] eqn:ED.
    + cbn [binary_normalize SFval SFopp sf_nonneg]. change (Z.abs (0 * _)) with 0.
      rewrite nearest_0 by lia. repeat split; reflexivity.
    + rewrite Z.abs_eq by lia.
      rewrite binary_normalize_value by (unfold scale, ez; try apply Hd; lia).
      split; [reflexivity|]. split.
      * intros _. now apply binary_normalize_nonneg.
      * intros H. exfalso.
        assert (Zpos ax * 2 ^ (ez + scale) <= Zpos ay * 2 ^ (ez + scale)) by lia.
        apply Z.mul_le_mono_pos_r in H0; lia.
    + rewrite binary_normalize_neg in *. rewrite SFval_opp, SFopp_involutive.
      rewrite SFopp_le in B.
      replace (Z.abs (Z.neg p * 2 ^ (ez + scale))) with (Zpos p * 2 ^ (ez + scale)) by lia.
      rewrite binary_normalize_value by (unfold scale, ez; try apply Hd; lia).
      split; [reflexivity|]. split.
      * intros H. exfalso.
        assert (Zpos ay * 2 ^ (ez + scale) <= Zpos ax * 2 ^ (ez + scale)) by lia.
        apply Z.mul_le_mono_pos_r in H0; lia.
      * intros _. now apply binary_normalize_nonneg.
Qed.

(** The rounding of a non-negative mantissa is never a nan. *)
Lemma binary_round_aux_not_nan (s : bool) (m e : Z) (l : location) :
  0 <= m -> binary_round_aux prec emax s m e l <> S754_nan.
Proof.
  intros Hm. unfold binary_round_aux.
  destruct (shr_fexp_m m e l Hm) as [E1 M1].
  destruct (shr_fexp prec emax m e l) as [mrs' e']. simpl fst in *; simpl snd in *.
  set (m1 := shr_m mrs') in *.
  set (m2 := round_nearest_even m1 (loc_of_shr_record mrs')).
  assert (Hm1 : 0 <= m1) by (rewrite M1; apply Z.div_pos; [lia | apply pow2_pos; lia]).
  pose proof (round_nearest_even_bounds m1 (loc_of_shr_record mrs')) as Hr. fold m2 in Hr.
  destruct (shr_fexp_m m2 e' loc_Exact ltac:(lia)) as [E2 M2].
  destruct (shr_fexp prec emax m2 e' loc_Exact) as [mrs'' e'']. simpl fst in *; simpl snd in *.
  assert (Hm3 : 0 <= shr_m mrs'')
    by (rewrite M2; apply Z.div_pos; [lia | apply pow2_pos; lia]).
  destruct (shr_m mrs''); [discriminate| |lia].
  destruct (e'' <=? emax - prec); discriminate.
Qed.

(** The sign of [x - y] alone, whatever the sizes. *)
Lemma SFsub_sign (x y : spec_float) (K1 K2 : Z) :
  valid_binary x = true -> valid_binary y = true ->
  sf_nonneg K1 x = true -> sf_nonneg K2 y = true -> SFval x <= SFval y ->
  match SFsub prec emax x y with
  | S754_zero _ => True
  | S754_finite s _ _ | S754_infinity s => s = true
  | S754_nan => False
  end.
Proof.
  intros Vx Vy Nx Ny L.
  destruct x as [sx|sx| |sx mx ex], y as [sy|sy| |sy my ey]; try discriminate.
  - cbn. now destruct sx, sy.
  - destruct sy; [discriminate|]. reflexivity.
  - destruct sx; [discriminate|]. pose proof (SFval_pos _ _ _ Vx). cbn [SFval] in *. lia.
  - destruct sx; [discriminate|]. destruct sy; [discriminate|].
    pose proof (valid_finite _ _ _ Vx) as [Cx _]. pose proof (valid_finite _ _ _ Vy) as [Cy _].
    unfold SFsub.
    destruct (shl_align_spec mx ex (Z.min ex ey)) as (E1 & V1 & _).
    destruct (shl_align_spec my ey (Z.min ex ey)) as (E2 & V2 & _).
    set (ez := Z.min ex ey) in *.
    set (ax := fst (shl_align mx ex ez)) in *. set (ay := fst (shl_align my ey ez)) in *.
    replace (snd (shl_align mx ex ez)) with ez in * by (unfold ez in *; lia).
    replace (snd (shl_align my ey ez)) with ez in * by (unfold ez in *; lia).
    cbn [cond_Zopp].
    pose proof (pow2_pos (ez + scale) ltac:(unfold scale, ez; lia)) as Pz.
    assert (Ex : SFval (S754_finite false mx ex) = Zpos ax * 2 ^ (ez + scale)).
    { cbn [SFval]. rewrite V1, <- Z.mul_assoc, <- Z.pow_add_r by (unfold scale, ez; lia).
      do 2 f_equal. lia. }
    assert (Ey : SFval (S754_finite false my ey) = Zpos ay * 2 ^ (ez + scale)).
    { cbn [SFval]. rewrite V2, <- Z.mul_assoc, <- Z.pow_add_r by (unfold scale, ez; lia).
      do 2 f_equal. lia. }
    rewrite Ex, Ey in L. apply Z.mul_le_mono_pos_r in L; [|lia].
    destruct (Zpos ax - Zpos ay) as [|p|p] eqn:ED; [exact I | lia |].
    cbn [binary_normalize]. unfold binary_round.
    destruct (shl_align p ez (SpecFloat.fexp prec emax (Zpos (digits2_pos p) + ez))) as [mz e'].
    pose proof (binary_round_aux_sign true (Zpos mz) e' loc_Exact) as S.
    pose proof (binary_round_aux_not_nan true (Zpos mz) e' loc_Exact ltac:(lia)) as N.
    destruct (binary_round_aux prec emax true (Zpos mz) e' loc_Exact); auto.
Qed.

(** [x + (-y)] is [x - y], and sums commute. *)
Lemma SFadd_opp (x y : spec_float) :
  SFadd prec emax x (SFopp y) = SFsub prec emax x y.
Proof.
  destruct x as [sx|sx| |sx mx ex], y as [sy|sy| |sy my ey]; try reflexivity;
    try (destruct sx, sy; reflexivity).
Qed.

Lemma SFadd_comm (x y : spec_float) :
  match x with S754_nan => False | _ => True end ->
  match y with S754_nan => False | _ => True end ->
  SFadd prec emax x y = SFadd prec emax y x.
Proof.
  intros Hx Hy.
  destruct x as [sx|sx| |sx mx ex], y as [sy|sy| |sy my ey]; try contradiction;
    try reflexivity; try (destruct sx, sy; reflexivity).
  unfold SFadd. rewrite (Z.min_comm ey ex). f_equal. apply Z.add_comm.
Qed.

(** *** On primitive floats *)

Lemma fval_opp (x : float) : fval (- x) = fval x.
Proof. unfold fval. rewrite opp_spec. apply SFval_opp. Qed.

Lemma fval_sub (K : Z) (x y : float) :
  fnn K x = true -> fnn K y = true -> -1075 <= K <= 970 ->
  fval (x - y) = nearest (Z.abs (fval x - fval y)) 1
  /\ (fval y <= fval x -> fnn (K + 2) (x - y) = true)
  /\ (fval x <= fval y -> fnn (K + 2) (- (x - y)) = true).
Proof.
  intros Hx Hy HK. unfold fval, fnn. rewrite opp_spec, sub_spec.
  apply SFsub_value; auto using Prim2SF_valid.
Qed.

(** A sum with a negative float: [x + y] where [y = - y']. *)
Lemma fval_add_opp (K : Z) (x y : float) :
  fnn K x = true -> fnn K (- y) = true -> -1075 <= K <= 970 ->
  fval (x + y) = nearest (Z.abs (fval x - fval y)) 1
  /\ (fval y <= fval x -> fnn (K + 2) (x + y) = true)
  /\ (fval x <= fval y -> fnn (K + 2) (- (x + y)) = true).
Proof.
  intros Hx Hy HK. unfold fval, fnn in *. rewrite opp_spec in *. rewrite add_spec.
  assert (V : valid_binary (SFopp (Prim2SF y)) = true)
    by (rewrite <- opp_spec; apply Prim2SF_valid).
  assert (E : Prim2SF y = SFopp (SFopp (Prim2SF y))) by (symmetry; apply SFopp_involutive).
  set (y' := SFopp (Prim2SF y)) in *. rewrite E, SFadd_opp, SFval_opp.
  apply SFsub_value; auto using Prim2SF_valid.
Qed.

(** ** The size of a quotient *)

(** The integer quotient of [SFdiv_core_binary], underflow included. *)
Lemma SFdiv_core_binary_le (m1 e1 m2 e2 K : Z) :
  0 < m1 -> 0 < m2 ->
  Zdigits2 m1 + e1 - (Zdigits2 m2 + e2) + 1 <= K -> -1074 <= K ->
  let '(q, e', l) := SFdiv_core_binary prec emax m1 e1 m2 e2 in
  0 <= q /\ Zdigits2 q + e' <= K /\ e' <= K.
Proof.
  intros H1 H2 HK HK'. unfold SFdiv_core_binary. rewrite fexp_eq.
  set (d1 := Zdigits2 m1) in *. set (d2 := Zdigits2 m2) in *.
  set (e' := Z.min (Z.max (d1 + e1 - (d2 + e2) - 53) (-1074)) (e1 - e2)).
  set (s := e1 - e2 - e').
  assert (Hs0 : 0 <= s) by (unfold s, e'; lia).
  assert (Hm' : match s with Z.pos _ => Z.shiftl m1 s | 0 => m1 | Z.neg _ => 0 end
                = m1 * 2 ^ s).
  { destruct s as [|p|p] eqn:Es; [lia | | lia]. apply Z.shiftl_mul_pow2. lia. }
  rewrite Hm'.
  pose proof (Z_div_mod (m1 * 2 ^ s) m2 ltac:(lia)) as DM.
  destruct (Z.div_eucl (m1 * 2 ^ s) m2) as [q r]. destruct DM as [DM Hr].
  destruct (Zdigits2_pos_ge m1 H1) as [L1 D1]. fold d1 in L1, D1.
  destruct (Zdigits2_pos_ge m2 H2) as [L2 D2]. fold d2 in L2, D2.
  pose proof (Zdigits2_lt_pow m1 ltac:(lia)) as U1. fold d1 in U1.
  pose proof (pow2_pos s Hs0) as Ps.
  assert (Hq : 0 <= q).
  { destruct (Z_le_gt_dec 0 q) as [|Hn]; [assumption|]. exfalso.
    assert (m2 * q <= m2 * (-1)) by (apply Z.mul_le_mono_nonneg_l; lia).
    assert (0 < m1 * 2 ^ s) by (apply Z.mul_pos_pos; lia). lia. }
  split; [exact Hq|]. split; [|unfold e'; lia].
  destruct (Z.eq_dec q 0) as [->|Hq0]; [cbn [Zdigits2]; unfold e'; lia|].
  assert (Hi : m1 * 2 ^ s < 2 ^ (d1 + s)).
  { rewrite Z.pow_add_r by lia. apply Z.mul_lt_mono_pos_r; lia. }
  assert (Hm2q : m2 <= m2 * q) by (replace m2 with (m2 * 1) at 1 by lia;
                                  apply Z.mul_le_mono_nonneg_l; lia).
  assert (Hd : d2 - 1 < d1 + s).
  { apply (Z.pow_lt_mono_r_iff 2); lia. }
  assert (Uq : Zdigits2 q <= d1 + s - d2 + 1).
  { apply Zdigits2_le; [lia|]. split; [lia|].
    destruct (Z_lt_le_dec q (2 ^ (d1 + s - d2 + 1))) as [|Hge]; [assumption|]. exfalso.
    assert (E : 2 ^ (d1 + s) = 2 ^ (d2 - 1) * 2 ^ (d1 + s - d2 + 1)).
    { rewrite <- Z.pow_add_r by lia. f_equal. lia. }
    assert (2 ^ (d2 - 1) * 2 ^ (d1 + s - d2 + 1) <= m2 * q).
    { apply Z.mul_le_mono_nonneg; try lia; apply Z.lt_le_incl, pow2_pos; lia. }
    lia. }
  unfold s in Uq. lia.
Qed.

Lemma SFdiv_le (x y : spec_float) (Kx Jy : Z) :
  sf_le Kx x = true -> sf_pos Jy y = true ->
  -1074 <= Kx - Jy + 1 <= 971 ->
  sf_le (Kx - Jy + 2) (SFdiv prec emax x y) = true.
Proof.
  intros Hx Hy HK.
  destruct y as [sy|sy| |sy my ey]; try discriminate.
  destruct sy; [discriminate|]. cbn [sf_pos] in Hy. apply Z.leb_le in Hy.
  destruct x as [sx|sx| |sx mx ex]; try discriminate; [reflexivity|].
  cbn [sf_le] in Hx. apply Z.leb_le in Hx. cbn [SFdiv].
  pose proof (SFdiv_core_binary_le (Zpos mx) ex (Zpos my) ey (Kx - Jy + 1)
                ltac:(lia) ltac:(lia)) as S.
  cbn [Zdigits2] in S. specialize (S ltac:(lia) ltac:(lia)).
  destruct (SFdiv_core_binary prec emax (Zpos mx) ex (Zpos my) ey) as [[q e'] l].
  destruct S as (Hq & Hd & He).
  replace (Kx - Jy + 2) with (Kx - Jy + 1 + 1) by lia.
  apply binary_round_aux_le; lia.
Qed.

Lemma fle_div (Kx Jy K : Z) (x y : float) :
  fle Kx x = true -> sf_pos Jy (Prim2SF y) = true ->
  -1074 <= Kx - Jy + 1 <= 971 -> Kx - Jy + 2 <= K ->
  fle K (x / y) = true.
Proof.
  intros Hx Hy H1 H2. apply (fle_weaken (Kx - Jy + 2)); [lia|].
  unfold fle. rewrite div_spec. now apply SFdiv_le.
Qed.

(** ** The remainder modulo 1.0 *)

(** [fmod(x, 1.0)] of a finite [x] is a finite float of magnitude at most
    1, with the sign of [x]. *)
Lemma SFfmod_1 (x : spec_float) (K : Z) :
  valid_binary x = true -> sf_le K x = true ->
  let M := SFfmod x (S754_finite false 4503599627370496 (-52)) in
  valid_binary M = true /\ SFval M <= 2 ^ scale
  /\ match M with
     | S754_zero _ => True
     | S754_finite _ m e => Zpos (digits2_pos m) + e <= 1
     | _ => False
     end.
Proof.
  intros V B. cbv zeta.
  pose proof (pow2_pos scale ltac:(unfold scale; lia)) as PS.
  destruct x as [sx|sx| |sx mx ex]; try discriminate; cbn [SFfmod].
  { split; [reflexivity|]. split; [cbn [SFval]; lia | exact I]. }
  pose proof (valid_finite _ _ _ V) as [Cx _].
  set (e := Z.min ex (-52)).
  set (X := Zpos mx * 2 ^ (ex - e)). set (Y := 4503599627370496 * 2 ^ (-52 - e)).
  assert (HY : 0 < Y) by (unfold Y; apply Z.mul_pos_pos; [lia | apply pow2_pos; unfold e; lia]).
  assert (HX : 0 <= X)
    by (unfold X; apply Z.mul_nonneg_nonneg; [lia | apply Z.pow_nonneg; lia]).
  pose proof (Z.mod_pos_bound X Y HY) as [R0 RY].
  pose proof (Z.mod_le X Y HX HY) as RX.
  assert (EY : Y = 2 ^ (- e)).
  { unfold Y. change 4503599627370496 with (2 ^ 52).
    rewrite <- Z.pow_add_r by (unfold e; lia). f_equal. lia. }
  pose proof (aligned_lt mx ex e (Zpos (digits2_pos mx) + ex) ltac:(unfold e; lia) ltac:(lia))
    as [_ BX].
  fold X in BX.
  assert (D1 : Zdigits2 (X mod Y) <= - e)
    by (apply Zdigits2_le; [unfold e; lia | rewrite <- EY; lia]).
  assert (D2 : Zdigits2 (X mod Y) <= Zpos (digits2_pos mx) + ex - e)
    by (apply Zdigits2_le; [unfold e; lia | lia]).
  assert (G : forall p, Zpos p = X mod Y ->
            let N := binary_normalize prec emax (Zpos p) e false in
            valid_binary N = true /\ SFval N <= 2 ^ scale
            /\ match N with
               | S754_zero _ => True
               | S754_finite _ m e => Zpos (digits2_pos m) + e <= 1
               | _ => False
               end).
  { intros p Hp. cbv zeta. rewrite <- Hp in D1, D2, RY. cbn [Zdigits2] in D1, D2.
    destruct (binary_normalize_exact (Zpos p) e false) as [VN BN];
      cbn [Zdigits2]; try (unfold e in *; lia).
    split; [exact VN|]. split.
    - rewrite binary_normalize_value by (unfold scale, e in *; lia).
      rewrite <- fval_1, <- nearest_1.
      pose proof (pow2_pos (e + scale) ltac:(unfold scale, e; lia)).
      apply nearest_mono; try lia. rewrite !Z.mul_1_r.
      replace (2 ^ scale) with (2 ^ (- e) * 2 ^ (e + scale)).
      + apply Z.mul_le_mono_nonneg_r; lia.
      + rewrite <- Z.pow_add_r by (unfold scale, e; lia). f_equal. lia.
    - cbn [Zdigits2] in BN.
      destruct (binary_normalize prec emax (Zpos p) e false) as [| | |s' m' e'];
        try discriminate; [exact I|].
      cbn [sf_le] in BN. apply Z.leb_le in BN. lia. }
  destruct (X mod Y) as [|p|p] eqn:ER; [| |lia].
  - replace (cond_Zopp sx 0) with 0 by (now destruct sx). cbn [binary_normalize].
    split; [reflexivity|]. split; [cbn [SFval]; lia | exact I].
  - destruct sx; cbn [cond_Zopp Z.opp].
    + rewrite binary_normalize_neg. specialize (G p eq_refl). cbv zeta in G.
      destruct G as (VN & LN & SN).
      destruct (binary_normalize prec emax (Zpos p) e false) as [| | |s' m' e'];
        try contradiction; cbn [SFopp]; auto.
    + exact (G p eq_refl).
Qed.

Lemma fadd_comm (x y : float) :
  match Prim2SF x with S754_nan => False | _ => True end ->
  match Prim2SF y with S754_nan => False | _ => True end ->
  (x + y)%float = (y + x)%float.
Proof.
  intros Hx Hy. apply Prim2SF_inj. rewrite !add_spec. now apply SFadd_comm.
Qed.

(** [x % 1.0] of a finite float lies in [0, 1] - the upper end included,
    which a tiny negative [x] reaches. *)
Lemma float_mod_1_unit (K : Z) (x : float) :
  fle K x = true ->
  exists r, float_mod x 1 = Ok r /\ fnn 3 r = true /\ fval r <= fval 1.
Proof.
  intros B. unfold float_mod. change (1 =? 0)%float with false. cbv iota.
  change (1 <? 0)%float with false. cbv iota. cbn [xorb].
  destruct (SFfmod_1 (Prim2SF x) K (Prim2SF_valid x) B) as (VM & LM & SM).
  assert (EM : Prim2SF (fmod x 1) = SFfmod (Prim2SF x) (S754_finite false 4503599627370496 (-52))).
  { unfold fmod. now rewrite Prim2SF_SF2Prim. }
  set (m := fmod x 1) in *.
  set (M := SFfmod (Prim2SF x) (S754_finite false 4503599627370496 (-52))) in *.
  pose proof (pow2_pos scale ltac:(unfold scale; lia)) as PS.
  assert (F1 : fval 1 = 2 ^ scale) by apply fval_1.
  destruct M as [s|s| |s mm em] eqn:HM; try contradiction.
  - assert (E0 : (m =? 0)%float = true) by (rewrite eqb_spec, EM; reflexivity).
    rewrite E0. exists 0%float. split; [reflexivity|]. split; [reflexivity|].
    change (fval 0) with 0. lia.
  - assert (E0 : (m =? 0)%float = false) by (rewrite eqb_spec, EM; now destruct s).
    rewrite E0. destruct s.
    + assert (E1 : (m <? 0)%float = true) by (rewrite ltb_spec, EM; reflexivity).
      rewrite E1. exists (m + 1)%float. split; [reflexivity|].
      assert (Nm : fnn 1 (- m) = true).
      { unfold fnn. rewrite opp_spec, EM. cbn [SFopp negb sf_nonneg]. apply Z.leb_le. lia. }
      assert (Vm : fval m <= fval 1) by (unfold fval at 1; rewrite EM; lia).
      rewrite (fadd_comm m 1) by (rewrite ?EM; exact I).
      destruct (fval_add_opp 1 1 m eq_refl Nm ltac:(lia)) as (Ev & Hn & _).
      split; [apply (Hn Vm)|]. rewrite Ev.
      rewrite Z.abs_eq by lia.
      pose proof (SFval_nearest (Prim2SF 1) (Prim2SF_valid 1)) as N1. fold (fval 1) in N1.
      pose proof (fval_nonneg m).
      apply Z.le_trans with (nearest (fval 1) 1); [apply nearest_mono; lia | lia].
    + assert (E1 : (m <? 0)%float = false) by (rewrite ltb_spec, EM; reflexivity).
      rewrite E1. exists m. split; [reflexivity|]. split.
      * unfold fnn. rewrite EM. cbn [sf_nonneg]. apply Z.leb_le. lia.
      * unfold fval at 1. rewrite EM. lia.
Qed.

(** ** The hue, lightness and saturation of a swatch *)

Lemma chan_diff_table (x c : Z) :
  0 <= c <= x -> x < 256 -> chan_diff_ok (chan x) (chan c) = true.
Proof.
  intros Hc Hx. rewrite (chan_nth_eq x), (chan_nth_eq c) by lia.
  assert (G : forall x c, 0 <= x < 256 -> 0 <= c < 256 ->
              implb (c <=? x) (chan_diff_ok (chan_nth x) (chan_nth c)) = true).
  { apply for_all_range2. vm_compute. reflexivity. }
  specialize (G x c ltac:(lia) ltac:(lia)).
  destruct (Z.leb_spec c x); [exact G | lia].
Qed.

(** The hue of [rgb_to_hls] lies in [0, 1], the lightness and the
    saturation as well. *)
Lemma hls_of_rgb_hue (r g b : Z) :
  0 <= r <= 255 -> 0 <= g <= 255 -> 0 <= b <= 255 ->
  exists h l s, hls_of_rgb r g b = Ok (h, l, s)
                /\ (fnn 3 h = true /\ fval h <= fval 1)
                /\ unit_float l = true /\ unit_float s = true.
Proof.
  intros Hr Hg Hb. unfold hls_of_rgb. rewrite !int_truediv_255. simpl bind.
  unfold colorsys.rgb_to_hls.
  rewrite !fmax_chan, !fmin_chan by lia.
  set (x := Z.max (Z.max r g) b). set (y := Z.min (Z.min r g) b).
  pose proof (hls_pair_table x y ltac:(lia) ltac:(lia)) as T. unfold hls_pair_ok in T.
  cbv zeta in T. apply andb_prop in T as [Tl T].
  unfold fdiv at 1. change (2 =? 0)%float with false. cbv iota. simpl bind.
  destruct (chan y =? chan x)%float eqn:Exy.
  { do 3 eexists. split; [reflexivity|]. split; [split; [reflexivity|]|].
    - change (fval 0) with 0. apply fval_nonneg.
    - split; [exact Tl | reflexivity]. }
  simpl in T. apply andb_prop in T as [Tr T].
  assert (Hs : exists s,
             (if ((chan x + chan y) / 2 <=? 0.5)%float
              then fdiv (chan x - chan y) (chan x + chan y)
              else fdiv (chan x - chan y) (2 - chan x - chan y)) = Ok s
             /\ unit_float s = true).
  { unfold fdiv. destruct ((chan x + chan y) / 2 <=? 0.5)%float;
      apply andb_prop in T as [T1 T2];
      match goal with |- context [if ?c then _ else _] => destruct c end;
      try discriminate; eauto. }
  destruct Hs as (s & -> & Hs). simpl bind.
  assert (Dy : sf_pos (-8) (Prim2SF (chan x - chan y)) = true).
  { pose proof (chan_diff_table x y ltac:(lia) ltac:(lia)) as D. unfold chan_diff_ok in D.
    apply andb_prop in D as [_ D]. rewrite Exy in D. exact D. }
  assert (Q : forall c, y <= c <= x ->
                        fle 11 ((chan x - chan c) / (chan x - chan y)) = true).
  { intros c Hc. pose proof (chan_diff_table x c ltac:(lia) ltac:(lia)) as D.
    unfold chan_diff_ok in D. apply andb_prop in D as [D _].
    apply (fle_div 1 (-8)); [apply fnn_fle; exact D | exact Dy | lia | lia]. }
  pose proof (Q r ltac:(lia)) as Qr. pose proof (Q g ltac:(lia)) as Qg.
  pose proof (Q b ltac:(lia)) as Qb.
  unfold fdiv. destruct (chan x - chan y =? 0)%float; [discriminate|]. simpl bind.
  change (6 =? 0)%float with false. cbv iota. simpl bind.
  match goal with |- context [float_mod (?h / 6) 1] =>
    assert (H6 : fle 30 (h / 6) = true)
  end.
  { apply (fle_div 30 3); [| reflexivity | lia | lia].
    destruct (chan r =? chan x)%float; [|destruct (chan g =? chan x)%float]; fle_auto. }
  destruct (float_mod_1_unit 30 _ H6) as (h' & -> & Nh & Lh).
  simpl bind. do 3 eexists. split; [reflexivity|]. auto.
Qed.

(** The fields that [ColorSwatch] computes, from a hue, a lightness and a
    saturation in [0, 1]. *)
Lemma swatch_fields_range (h l s : float) :
  fnn 3 h = true -> fval h <= fval 1 -> unit_float l = true -> unit_float s = true ->
  (0 <=? round (h * 360) 2)%float = true
  /\ (round (h * 360) 2 <=? 360)%float = true
  /\ unit_float (round l 4) = true
  /\ unit_float (round s 4) = true.
Proof.
  intros Nh Lh Ul Us.
  assert (R4 : forall v, unit_float v = true -> unit_float (round v 4) = true).
  { intros v U. pose proof (unit_float_fnn v U) as N. unfold unit_float in *.
    apply andb_prop in U as [U0 U1].
    destruct (round_between 0 1 v 4 ltac:(lia) eq_refl eq_refl
                (fnn_weaken 1 52 v ltac:(lia) N) eq_refl eq_refl U0 U1) as [A B].
    now rewrite A, B. }
  assert (N360 : fnn 52 (h * 360) = true)
    by (apply (fnn_mul 3 9); [assumption | reflexivity | lia | lia]).
  assert (L360 : fval (h * 360) <= fval 360).
  { change 360%float with (1 * 360)%float at 2.
    apply (fval_mul_mono 3 9); try assumption; try reflexivity; lia. }
  destruct (round_between 0 360 (h * 360) 2 ltac:(lia) eq_refl eq_refl N360 eq_refl eq_refl)
    as [A B].
  - apply (fnn_zero_le 52). exact N360.
  - rewrite (fval_leb 52 52) by (assumption || reflexivity). now apply Z.leb_le.
  - split; [exact A|]. split; [exact B|]. split; apply R4; assumption.
Qed.

(** X14: the swatch of a valid colour.  [ColorSwatch] returns, keeps the
    colour, the name and the role it is given, and computes a hue in
    [0.0, 360.0] and a lightness and a saturation in [0.0, 1.0]. *)
Theorem ColorSwatch_fields (c name role : string) :
  valid_hex c = true ->
  exists sw,
    ColorSwatch c name role = Ok sw
    /\ ColorSwatch.hex sw = c /\ ColorSwatch.name sw = name /\ ColorSwatch.role sw = role
    /\ (0 <=? ColorSwatch.hue sw)%float = true
    /\ (ColorSwatch.hue sw <=? 360)%float = true
    /\ unit_float (ColorSwatch.lightness sw) = true
    /\ unit_float (ColorSwatch.saturation sw) = true.
Proof.
  intros Hv.
  destruct (hex_to_rgb_valid c Hv) as (r & g & b & E & (Hr & Hg & Hb) & _).
  destruct (hls_of_rgb_hue r g b Hr Hg Hb) as (h & l & s & Eh & (Nh & Lh) & Ul & Us).
  unfold ColorSwatch. rewrite E. cbn [bind]. rewrite Eh. cbn [bind].
  eexists. split; [reflexivity|].
  cbn [ColorSwatch.hex ColorSwatch.name ColorSwatch.role ColorSwatch.hue
       ColorSwatch.lightness ColorSwatch.saturation].
  split; [reflexivity|]. split; [reflexivity|]. split; [reflexivity|].
  now apply swatch_fields_range.
Qed.

Lemma ColorSwatch_fields_witness :
  exists sw,
    ColorSwatch "#3b82f6" "brand" "primary" = Ok sw
    /\ ColorSwatch.hex sw = "#3b82f6"
    /\ (ColorSwatch.hue sw <=? 360)%float = true.
Proof.
  destruct (ColorSwatch_fields "#3b82f6" "brand" "primary" eq_refl)
    as (sw & E & Hh & _ & _ & _ & H360 & _).
  exists sw. split; [exact E|]. split; [exact Hh | exact H360].
Defined.

(** ** The swatches of a generated palette *)

(** A swatch that [ColorSwatch] returned is the swatch of its own colour,
    name and role. *)
Lemma ColorSwatch_built (c name role : string) (sw : ColorSwatch.t) :
  ColorSwatch c name role = Ok sw ->
  ColorSwatch (ColorSwatch.hex sw) (ColorSwatch.name sw) (ColorSwatch.role sw) = Ok sw.
Proof.
  intros H.
  assert (E : ColorSwatch.hex sw = c /\ ColorSwatch.name sw = name
              /\ ColorSwatch.role sw = role).
  { unfold ColorSwatch in H. apply bind_ok in H as ([[r g] b] & _ & H).
    apply bind_ok in H as ([[h l] s] & _ & H). injection H as <-. auto. }
  destruct E as (-> & -> & ->). exact H.
Qed.

Lemma built_swatch_range (sw : ColorSwatch.t) :
  valid_hex (ColorSwatch.hex sw) = true ->
  ColorSwatch (ColorSwatch.hex sw) (ColorSwatch.name sw) (ColorSwatch.role sw) = Ok sw ->
  (0 <=? ColorSwatch.hue sw)%float = true
  /\ (ColorSwatch.hue sw <=? 360)%float = true
  /\ unit_float (ColorSwatch.lightness sw) = true
  /\ unit_float (ColorSwatch.saturation sw) = true.
Proof.
  intros Hv H.
  destruct (hex_to_rgb_valid _ Hv) as (r & g & b & E & (Hr & Hg & Hb) & _).
  destruct (hls_of_rgb_hue r g b Hr Hg Hb) as (h & l & s & Eh & (Nh & Lh) & Ul & Us).
  unfold ColorSwatch in H. rewrite E in H. cbn [bind] in H. rewrite Eh in H.
  cbn [bind] in H. injection H as H. rewrite <- H.
  cbn [ColorSwatch.hue ColorSwatch.lightness ColorSwatch.saturation].
  now apply swatch_fields_range.
Qed.

Lemma mapM_Forall_out {A B : Type} (f : A -> result B) (P : B -> Prop)
      (l : list A) (l' : list B) :
  (forall x y, f x = Ok y -> P y) -> mapM f l = Ok l' -> Forall P l'.
Proof.
  intros H E. apply mapM_Forall2_ok in E.
  induction E as [|x y l l' Hxy _ IH]; constructor; eauto.
Qed.

Lemma generate_swatches_built (w : world) (base kind name : string) (p : Palette.t) :
  generate w base kind name = Ok p ->
  Forall (fun sw => ColorSwatch (ColorSwatch.hex sw) (ColorSwatch.name sw)
                                (ColorSwatch.role sw) = Ok sw)
         (Palette.colors p).
Proof.
  rewrite generate_unfold. cbv zeta. intros H.
  destruct (negb _); [discriminate|].
  destruct (dict_get kind _HARMONY_ANGLES) as [angles|]; [|discriminate].
  apply bind_ok in H as ([[r g] b] & _ & H).
  apply bind_ok in H as ([[h l] s] & _ & H).
  apply bind_ok in H as (swatches & Hs & H). injection H as <-. cbn [Palette.colors].
  destruct (String.eqb kind "monochromatic").
  - eapply mapM_Forall_out; [|exact Hs]. cbv beta. intros [i [lv role]] sw Hsw.
    apply bind_ok in Hsw as (c & _ & Hsw). eapply ColorSwatch_built; eassumption.
  - apply bind_ok in Hs as (rotated & Hrot & Hs).
    apply bind_ok in Hs as (cl & _ & Hs). apply bind_ok in Hs as (light & Hl & Hs).
    apply bind_ok in Hs as (cd & _ & Hs). apply bind_ok in Hs as (dark & Hd & Hs).
    injection Hs as <-. apply Forall_app. split.
    + eapply mapM_Forall_out; [|exact Hrot]. cbv beta. intros [i angle] sw Hsw.
      apply bind_ok in Hsw as (c & _ & Hsw). eapply ColorSwatch_built; eassumption.
    + repeat constructor; eapply ColorSwatch_built; eassumption.
Qed.

Lemma append_inj (p a b : string) : (p ++ a)%string = (p ++ b)%string -> a = b.
Proof. induction p as [|c p IH]; simpl; intros H; [exact H|]. injection H. exact IH. Qed.

Lemma NoDup_map_append (p : string) (l : list string) :
  NoDup l -> NoDup (map (String.append p) l).
Proof.
  induction 1 as [|x l Hx _ IH]; simpl; constructor; [|exact IH].
  rewrite in_map_iff. intros (y & Hy & Hin). apply append_inj in Hy. now subst.
Qed.

Lemma harmony_kinds_cases (kind : string) (angles : list Z) :
  dict_get kind _HARMONY_ANGLES = Some angles ->
  (kind = "complementary" /\ angles = [0; 180])
  \/ (kind = "triadic" /\ angles = [0; 120; 240])
  \/ (kind = "analogous" /\ angles = [0; 30; 60])
  \/ (kind = "monochromatic" /\ angles = [])
  \/ (kind = "split-complementary" /\ angles = [0; 150; 210])
  \/ (kind = "tetradic" /\ angles = [0; 90; 180; 270]).
Proof.
  intros Hk. unfold _HARMONY_ANGLES, dict_get in Hk.
  repeat match type of Hk with
         | (if String.eqb ?a ?b then _ else _) = _ =>
             destruct (String.eqb_spec a b) as [->|?];
             [injection Hk as <-; tauto|]
         end.
  discriminate.
Qed.

(** The names of the swatches of a generated palette: the label followed
    by distinct endings. *)
Lemma generate_names (w : world) (base kind name : string) (angles : list Z) :
  valid_hex base = true ->
  dict_get kind _HARMONY_ANGLES = Some angles ->
  exists p,
    generate w base kind name = Ok p
    /\ Forall (fun sw => canonical_hex (ColorSwatch.hex sw) = true) (Palette.colors p)
    /\ map ColorSwatch.name (Palette.colors p)
       = map (String.append (name_or_color name))
             (if String.eqb kind "monochromatic"
              then map (fun i => ("-" ++ str_of_int (i + 1))%string) (range 5)
              else (map (fun i => ("-" ++ str_of_int (i + 1))%string)
                        (range (Z.of_nat (List.length angles)))
                    ++ ["-light"; "-dark"])%list).
Proof.
  intros Hv Hk.
  destruct (String.eqb_spec kind "monochromatic") as [->|Hmono].
  - destruct (generate_monochromatic w base name Hv)
      as (_ & _ & _ & _ & l & _ & swatches & _ & _ & Hgen & Hsw & Hc).
    eexists. split; [exact Hgen|]. cbn [palette_of Palette.colors]. split; [exact Hc|].
    rewrite (Forall2_map_eq _
               (fun st : Z * (float * string) =>
                  (name_or_color name ++ "-" ++ str_of_int (fst st + 1))%string)
               _ _ _ (fun x y H => proj2 (proj2 H)) Hsw).
    reflexivity.
  - destruct (generate_rotated w base kind name angles Hv Hk Hmono)
      as (rotated & light & dark & Hgen & Hrot & (_ & _ & Hl) & (_ & _ & Hd) & Hc).
    eexists. split; [exact Hgen|]. cbn [palette_of Palette.colors]. split; [exact Hc|].
    rewrite !map_app. cbn [map]. rewrite Hl, Hd. f_equal.
    rewrite (Forall2_map_eq _
               (fun ia : Z * Z =>
                  (name_or_color name ++ "-" ++ str_of_int (fst ia + 1))%string)
               _ _ _ (fun x y H => proj2 (proj2 H)) Hrot).
    rewrite <- (enumerate_fst angles), !map_map. reflexivity.
Qed.

(** X15: the swatches of a generated palette.  For every valid colour and
    each of the six harmony kinds, every swatch of the palette that
    [generate] returns has a colour in the normal form ['#'] and six
    lower-case hex digits, is the swatch that [ColorSwatch] builds from its
    own colour, name and role - so its hue lies in [0.0, 360.0] and its
    lightness and saturation in [0.0, 1.0] - and no two swatches of the
    palette have the same name. *)
Theorem generate_swatch_invariants (w : world) (base kind name : string) (angles : list Z) :
  valid_hex base = true ->
  dict_get kind _HARMONY_ANGLES = Some angles ->
  exists p,
    generate w base kind name = Ok p
    /\ Forall (fun sw =>
                 canonical_hex (ColorSwatch.hex sw) = true
                 /\ ColorSwatch (ColorSwatch.hex sw) (ColorSwatch.name sw)
                                (ColorSwatch.role sw) = Ok sw
                 /\ (0 <=? ColorSwatch.hue sw)%float = true
                 /\ (ColorSwatch.hue sw <=? 360)%float = true
                 /\ unit_float (ColorSwatch.lightness sw) = true
                 /\ unit_float (ColorSwatch.saturation sw) = true)
              (Palette.colors p)
    /\ NoDup (map ColorSwatch.name (Palette.colors p)).
Proof.
  intros Hv Hk.
  destruct (generate_names w base kind name angles Hv Hk) as (p & Hgen & Hc & Hn).
  pose proof (generate_swatches_built w base kind name p Hgen) as Hb.
  exists p. split; [exact Hgen|]. split.
  - rewrite Forall_forall in *. intros sw Hin.
    specialize (Hc sw Hin). specialize (Hb sw Hin).
    split; [exact Hc|]. split; [exact Hb|].
    apply built_swatch_range; [now apply canonical_hex_valid | exact Hb].
  - rewrite Hn. apply NoDup_map_append.
    destruct (harmony_kinds_cases kind angles Hk)
      as [[-> ->]|[[-> ->]|[[-> ->]|[[-> ->]|[[-> ->]|[-> ->]]]]]];
      vm_compute; repeat constructor; simpl; intuition discriminate.
Qed.

Lemma generate_swatch_invariants_witness :
  exists p,
    generate (Build_world "id" "now") "#3b82f6" "triadic" "Ocean" = Ok p
    /\ NoDup (map ColorSwatch.name (Palette.colors p)).
Proof.
  destruct (generate_swatch_invariants (Build_world "id" "now") "#3b82f6" "triadic" "Ocean"
              [0; 120; 240] eq_refl eq_refl) as (p & E & _ & N).
  exists p. split; [exact E | exact N].
Defined.

(** ** Blending stays between the two colours *)

(** An integer below [2^53] is a double. *)
Lemma nearest_int (k : Z) : 0 <= k < 2 ^ 53 -> nearest (k * 2 ^ scale) 1 = k * 2 ^ scale.
Proof.
  intros Hk. destruct (Z.eq_dec k 0) as [->|Hk0].
  { rewrite Z.mul_0_l. apply nearest_0. lia. }
  unfold nearest.
  pose proof (Zdigits2_scaled k 1 scale ltac:(lia)) as H.
  rewrite !Z.div_1_r in *. rewrite H by (unfold scale; lia).
  assert (D : Zdigits2 k <= 53) by (apply Zdigits2_le; lia).
  pose proof (Zdigits2_nonneg k) as D0.
  set (E := Z.max (Zdigits2 k + scale - 53) (scale - 1074)).
  assert (HE : 0 <= E <= scale) by (unfold E, scale; lia).
  pose proof (pow2_pos E ltac:(lia)) as PE.
  assert (S : k * 2 ^ scale = k * 2 ^ (scale - E) * 2 ^ E).
  { rewrite <- Z.mul_assoc, <- Z.pow_add_r by lia. do 2 f_equal. lia. }
  rewrite Z.mul_1_l. rewrite S at 1. rewrite round_half_even_exact by lia.
  symmetry. exact S.
Qed.

Lemma float_of_int_exact (k : Z) :
  0 <= k < 2 ^ 53 -> fval (float_of_int k) = k * 2 ^ scale.
Proof. intros Hk. rewrite float_of_int_fval by lia. now apply nearest_int. Qed.

Lemma valid_binary_opp (x : spec_float) : valid_binary (SFopp x) = valid_binary x.
Proof. now destruct x. Qed.

Lemma float_of_int_opp (k : Z) :
  0 < k < 2 ^ 53 -> float_of_int (- k) = (- float_of_int k)%float.
Proof.
  intros Hk. apply Prim2SF_inj. rewrite opp_spec, (float_of_int_Prim2SF k) by lia.
  unfold float_of_int. destruct k as [|p|p]; try lia.
  change (- Zpos p) with (Zneg p). rewrite binary_normalize_neg.
  apply Prim2SF_SF2Prim. rewrite valid_binary_opp.
  rewrite <- (float_of_int_Prim2SF (Zpos p)) by lia. apply Prim2SF_valid.
Qed.

Lemma SFmul_opp_l (x y : spec_float) :
  SFmul prec emax (SFopp x) y = SFopp (SFmul prec emax x y).
Proof.
  destruct x as [sx|sx| |sx mx ex], y as [sy|sy| |sy my ey]; cbn [SFmul SFopp];
    try reflexivity; try (destruct sx, sy; reflexivity).
  replace (xorb (negb sx) sy) with (negb (xorb sx sy)) by (now destruct sx, sy).
  apply binary_round_aux_opp.
Qed.

Lemma fmul_opp_l (x y : float) : (- x * y)%float = (- (x * y))%float.
Proof. apply Prim2SF_inj. rewrite opp_spec, !mul_spec, opp_spec. apply SFmul_opp_l. Qed.

Lemma fopp_involutive (x : float) : (- - x)%float = x.
Proof. apply Prim2SF_inj. rewrite !opp_spec. apply SFopp_involutive. Qed.

(** [int(x)] of a non-negative float is the integer part of its value. *)
Lemma int_of_float_fval (K : Z) (x : float) :
  fnn K x = true -> int_of_float x = Ok (fval x / 2 ^ scale).
Proof.
  unfold fnn, int_of_float, fval. intros N. pose proof (Prim2SF_valid x) as V.
  pose proof (pow2_pos scale ltac:(unfold scale; lia)) as PS.
  destruct (Prim2SF x) as [s|s| |s m e]; try discriminate.
  { cbn [SFval]. now rewrite Z.div_0_l by lia. }
  destruct s; [discriminate|]. pose proof (valid_finite _ _ _ V) as [C _].
  cbn [cond_Zopp SFval]. f_equal.
  destruct (Z_le_gt_dec 0 e) as [He|He].
  - rewrite Z.shiftl_mul_pow2 by lia. rewrite Z.pow_add_r by (unfold scale; lia).
    rewrite Z.mul_assoc, Z.div_mul by lia. reflexivity.
  - rewrite Z.shiftl_div_pow2 by lia.
    pose proof (pow2_pos (e + scale) ltac:(unfold scale; lia)).
    pose proof (pow2_pos (- e) ltac:(lia)).
    replace (2 ^ scale) with (2 ^ (- e) * 2 ^ (e + scale)).
    + rewrite Z.div_mul_cancel_r by lia. reflexivity.
    + rewrite <- Z.pow_add_r by (unfold scale; lia). f_equal. lia.
Qed.

Lemma fmul_1_val (K : Z) (x : float) :
  fnn K x = true -> K <= 1000 -> fval (x * 1) = fval x.
Proof.
  intros N HK. rewrite (fval_mul K 1) by (try assumption; try reflexivity; lia).
  rewrite fval_1. pose proof (pow2_pos scale ltac:(unfold scale; lia)).
  pose proof (fval_nonneg x).
  rewrite (nearest_eq _ _ (fval x) 1) by (try apply Z.mul_nonneg_nonneg; lia).
  apply SFval_nearest, Prim2SF_valid.
Qed.

(** A blended channel lies between the two channels, whatever the ratio
    in [0, 1]: the float sum is rounded and truncated, but never past an
    end. *)
Lemma blend_channel_between (c1 c2 : Z) (t : float) :
  0 <= c1 <= 255 -> 0 <= c2 <= 255 -> unit_float t = true ->
  exists v, blend_channel c1 c2 t = Ok v /\ Z.min c1 c2 <= v <= Z.max c1 c2.
Proof.
  intros H1 H2 Ht. unfold blend_channel.
  destruct (unit_float_val t Ht) as [Nt Lt].
  pose proof (pow2_pos scale ltac:(unfold scale; lia)) as PS.
  assert (P53 : 255 < 2 ^ 53) by (apply Z.ltb_lt; reflexivity).
  set (a := float_of_int c1).
  assert (Na : fnn 53 a = true) by (apply float_of_int_fnn; lia).
  assert (Va : fval a = c1 * 2 ^ scale) by (apply float_of_int_exact; lia).
  assert (Na' : fnn 60 a = true) by (apply (fnn_weaken 53); [lia | assumption]).
  assert (Dv : forall X lo hi, lo * 2 ^ scale <= X <= hi * 2 ^ scale ->
                               lo <= X / 2 ^ scale <= hi).
  { intros X lo hi [A B]. split.
    - apply Z.div_le_lower_bound; lia.
    - apply Z.div_le_upper_bound; lia. }
  destruct (Z_le_gt_dec c1 c2) as [Hle|Hgt].
  - set (d := float_of_int (c2 - c1)).
    assert (Nd : fnn 53 d = true) by (apply float_of_int_fnn; lia).
    assert (Vd : fval d = (c2 - c1) * 2 ^ scale) by (apply float_of_int_exact; lia).
    assert (Np : fnn 60 (d * t) = true)
      by (apply (fnn_mul 53 1); [assumption | assumption | lia | lia]).
    assert (Lp : fval (d * t) <= fval d).
    { rewrite <- (fmul_1_val 53 d Nd ltac:(lia)).
      apply (fval_mul_mono 53 1); try assumption; try reflexivity; lia. }
    assert (Ns : fnn 64 (a + d * t) = true)
      by (apply (fnn_add 53 60); try assumption; lia).
    rewrite (int_of_float_fval 64 _ Ns). eexists. split; [reflexivity|].
    rewrite Z.min_l, Z.max_r by lia. apply Dv.
    rewrite (fval_add 60 a (d * t) Na' Np ltac:(lia)).
    pose proof (fval_nonneg (d * t)).
    rewrite <- (nearest_int c1), <- (nearest_int c2) by lia.
    split; apply nearest_mono; lia.
  - set (d := float_of_int (c1 - c2)).
    assert (Nd : fnn 53 d = true) by (apply float_of_int_fnn; lia).
    assert (Vd : fval d = (c1 - c2) * 2 ^ scale) by (apply float_of_int_exact; lia).
    replace (c2 - c1) with (- (c1 - c2)) by lia.
    rewrite float_of_int_opp by lia. fold d. rewrite fmul_opp_l.
    assert (Np : fnn 60 (d * t) = true)
      by (apply (fnn_mul 53 1); [assumption | assumption | lia | lia]).
    assert (Lp : fval (d * t) <= fval d).
    { rewrite <- (fmul_1_val 53 d Nd ltac:(lia)).
      apply (fval_mul_mono 53 1); try assumption; try reflexivity; lia. }
    destruct (fval_add_opp 60 a (- (d * t))) as (Ev & Hn & _);
      [exact Na' | rewrite fopp_involutive; exact Np | lia |].
    rewrite fval_opp in Ev, Hn. specialize (Hn ltac:(lia)).
    rewrite (int_of_float_fval 62 _ Hn). eexists. split; [reflexivity|].
    rewrite Z.min_r, Z.max_l by lia. apply Dv.
    rewrite Ev, Z.abs_eq by lia.
    pose proof (fval_nonneg (d * t)).
    rewrite <- (nearest_int c1), <- (nearest_int c2) by lia.
    split; apply nearest_mono; lia.
Qed.

(** X16: a blend lies between its two colours.  For two valid colours and
    every float ratio (a nan or an infinite one included), [blend_colors]
    returns a colour in normal form whose red, green and blue channels each
    lie between the corresponding channels of the two colours (ends
    included); so a colour blended with itself is that colour, in normal
    form. *)
Theorem blend_colors_between (hex1 hex2 : string) (ratio : float) :
  valid_hex hex1 = true -> valid_hex hex2 = true ->
  (exists r1 g1 b1 r2 g2 b2 c r g b,
     hex_to_rgb hex1 = Ok (r1, g1, b1) /\ hex_to_rgb hex2 = Ok (r2, g2, b2)
     /\ blend_colors hex1 hex2 ratio = Ok c /\ canonical_hex c = true
     /\ hex_to_rgb c = Ok (r, g, b)
     /\ Z.min r1 r2 <= r <= Z.max r1 r2
     /\ Z.min g1 g2 <= g <= Z.max g1 g2
     /\ Z.min b1 b2 <= b <= Z.max b1 b2)
  /\ blend_colors hex1 hex1 ratio = Ok (String "#" (lowercase (hex_digits_of hex1))).
Proof.
  intros Hv1 Hv2.
  destruct (hex_to_rgb_valid hex1 Hv1) as (r1 & g1 & b1 & E1 & (Hr1 & Hg1 & Hb1) & F1 & _).
  destruct (hex_to_rgb_valid hex2 Hv2) as (r2 & g2 & b2 & E2 & (Hr2 & Hg2 & Hb2) & _).
  pose proof (clamp_unit ratio) as Ht.
  split.
  - destruct (blend_channel_between r1 r2 _ Hr1 Hr2 Ht) as (r & Er & Br).
    destruct (blend_channel_between g1 g2 _ Hg1 Hg2 Ht) as (g & Eg & Bg).
    destruct (blend_channel_between b1 b2 _ Hb1 Hb2 Ht) as (b & Eb & Bb).
    exists r1, g1, b1, r2, g2, b2, (rgb_to_hex r g b), r, g, b.
    split; [exact E1|]. split; [exact E2|]. split.
    { unfold blend_colors. rewrite E1, E2. cbn [bind]. rewrite Er, Eg, Eb. reflexivity. }
    split; [apply rgb_to_hex_canonical|]. split; [|auto].
    rewrite hex_to_rgb_written. unfold clamp255.
    repeat f_equal; lia.
  - destruct (blend_channel_between r1 r1 _ Hr1 Hr1 Ht) as (r & Er & Br).
    destruct (blend_channel_between g1 g1 _ Hg1 Hg1 Ht) as (g & Eg & Bg).
    destruct (blend_channel_between b1 b1 _ Hb1 Hb1 Ht) as (b & Eb & Bb).
    unfold blend_colors. rewrite E1. cbn [bind]. rewrite Er, Eg, Eb. cbn [bind].
    replace r with r1 by lia. replace g with g1 by lia. replace b with b1 by lia.
    now rewrite F1.
Qed.

Lemma blend_colors_between_witness :
  exists c r g b,
    blend_colors "#102030" "#fff" nan = Ok c /\ hex_to_rgb c = Ok (r, g, b)
    /\ 16 <= r <= 255 /\ 32 <= g <= 255 /\ 48 <= b <= 255.
Proof.
  destruct (blend_colors_between "#102030" "#fff" nan eq_refl eq_refl)
    as [(r1 & g1 & b1 & r2 & g2 & b2 & c & r & g & b & E1 & E2 & Ec & _ & Er & Br & Bg & Bb) _].
  injection E1 as <- <- <-. injection E2 as <- <- <-.
  exists c, r, g, b. split; [exact Ec|]. split; [exact Er|].
  split; [exact Br|]. split; [exact Bg | exact Bb].
Defined.

(** ** Darkening and desaturating by a whole unit *)

Lemma clamp_below (x : float) :
  below_zero (Prim2SF x) = true -> fmax 0 (fmin 1 x) = 0%float.
Proof.
  intros H.
  assert (A : (x <? 1)%float = true).
  { rewrite ltb_spec. change (Prim2SF 1) with (S754_finite false 4503599627370496 (-52)).
    destruct (Prim2SF x) as [s|s| |s m e]; try discriminate; cbn in H; try subst s;
      reflexivity. }
  assert (B : (0 <? x)%float = false).
  { rewrite ltb_spec. change (Prim2SF 0) with (S754_zero false).
    destruct (Prim2SF x) as [s|s| |s m e]; try discriminate; cbn in H; try subst s;
      reflexivity. }
  unfold fmin. rewrite A. unfold fmax. now rewrite B.
Qed.

Lemma SFcompare_neg (m1 m2 : positive) (e1 e2 : Z) :
  SFcompare (S754_finite true m1 e1) (S754_finite true m2 e2)
  = SFcompare (S754_finite false m2 e2) (S754_finite false m1 e1).
Proof.
  cbn [SFcompare]. rewrite (Z.compare_antisym e1 e2).
  destruct (e1 ?= e2); cbn [CompOpp]; try reflexivity.
  f_equal. apply (Pos.compare_cont_antisym m1 m2 Eq).
Qed.

(** A float in [0, 1] plus a float that is at most -1.0 is not above
    zero. *)
Lemma add_below (l delta : float) :
  unit_float l = true -> (delta <=? -1)%float = true ->
  below_zero (Prim2SF (l + delta)) = true.
Proof.
  intros Ul H. destruct (unit_float_val l Ul) as [Nl Ll].
  rewrite add_spec. rewrite leb_spec in H.
  change (Prim2SF (-1)) with (S754_finite true 4503599627370496 (-52)) in H.
  pose proof (Prim2SF_valid l) as Vl. pose proof (Prim2SF_valid delta) as Vd.
  unfold fnn, fval in *.
  change (SFval (Prim2SF 1)) with (SFval (S754_finite false 4503599627370496 (-52))) in Ll.
  unfold SFleb in H.
  destruct (Prim2SF delta) as [s|s| |s md ed].
  - destruct s; cbn in H; discriminate.
  - destruct s; [|cbn in H; discriminate].
    destruct (Prim2SF l) as [sl|sl| |sl ml el]; try discriminate; reflexivity.
  - cbn in H. discriminate.
  - destruct s; [|cbn in H; discriminate].
    rewrite SFcompare_neg in H.
    assert (Vd' : valid_binary (S754_finite false md ed) = true) by exact Vd.
    assert (Nd : sf_nonneg 1024 (S754_finite false md ed) = true).
    { cbn [sf_nonneg]. apply Z.leb_le. destruct (valid_finite _ _ _ Vd') as [C1 C2]. lia. }
    rewrite (SFcompare_val _ _ 1 1024) in H by (try assumption; reflexivity).
    assert (L1 : SFval (S754_finite false 4503599627370496 (-52))
                 <= SFval (S754_finite false md ed)).
    { destruct (SFval (S754_finite false 4503599627370496 (-52))
                ?= SFval (S754_finite false md ed)) eqn:C; try discriminate.
      - apply Z.compare_eq in C. rewrite C. apply Z.le_refl.
      - apply Z.lt_le_incl. exact C. }
    change (S754_finite true md ed) with (SFopp (S754_finite false md ed)).
    rewrite SFadd_opp.
    pose proof (SFsub_sign (Prim2SF l) (S754_finite false md ed) 1 1024 Vl Vd' Nl Nd
                  ltac:(lia)) as S.
    destruct (SFsub prec emax (Prim2SF l) (S754_finite false md ed)) as [| | |s' m' e'];
      try contradiction; cbn [below_zero]; auto.
Qed.

(** At lightness 0 every channel is 0. *)
Lemma zero_ramp (K : Z) (y : float) :
  fle K y = true -> (0 + (0 - 0) * y * 6)%float = 0%float.
Proof.
  intros F. apply Prim2SF_inj. rewrite add_spec, !mul_spec, sub_spec.
  unfold fle in F. destruct (Prim2SF y) as [[]|[]| |[] m e]; try discriminate; reflexivity.
Qed.

Lemma _v_zero (hue : float) : colorsys._v 0 0 hue = Ok 0%float.
Proof.
  unfold colorsys._v. destruct (float_mod_1 hue) as (r & -> & Hr). cbn [bind].
  destruct (r <? colorsys.ONE_SIXTH)%float eqn:E1.
  { destruct Hr as [Hr|Hr]; [|rewrite Hr in E1; discriminate].
    now rewrite (zero_ramp 3). }
  destruct (r <? 0.5)%float; [reflexivity|].
  destruct (r <? colorsys.TWO_THIRD)%float eqn:E3; [|reflexivity].
  destruct Hr as [Hr|Hr]; [|rewrite Hr in E3; discriminate].
  rewrite (zero_ramp 8); [reflexivity|].
  apply (fle_sub 3 3); try lia; [reflexivity | exact Hr].
Qed.

Lemma hls_to_rgb_black (h s : float) :
  fnn 1 s = true -> colorsys.hls_to_rgb h 0 s = Ok (0, 0, 0)%float.
Proof.
  intros N. unfold colorsys.hls_to_rgb. destruct (s =? 0)%float; [reflexivity|].
  change (0 <=? 0.5)%float with true. cbv iota.
  assert (E : (0 * (1 + s))%float = 0%float).
  { apply Prim2SF_inj. rewrite mul_spec.
    assert (N1 : fnn 5 (1 + s) = true)
      by (apply (fnn_add 1 1); try assumption; try reflexivity; lia).
    assert (Z1 : (1 + s =? 0)%float = false).
    { rewrite (fadd_comm 1 s); [apply (fnn_add_nonzero 1); [exact N | reflexivity] | exact I |].
      unfold fnn in N. now destruct (Prim2SF s). }
    unfold fnn in N1. rewrite eqb_spec in Z1.
    destruct (Prim2SF (1 + s)) as [[]| | |[] m e]; try discriminate; reflexivity. }
  rewrite E. change (2 * 0 - 0)%float with 0%float.
  now rewrite !_v_zero.
Qed.

Lemma hls_hex_black (h s : float) : fnn 1 s = true -> hls_hex h 0 s = Ok "#000000".
Proof.
  intros N. unfold hls_hex, fdiv. change (360 =? 0)%float with false. cbv iota.
  cbn [bind]. rewrite hls_to_rgb_black by assumption. reflexivity.
Qed.

(** At saturation 0 the three channels are equal. *)
Lemma hls_hex_grey (h l : float) :
  unit_float l = true ->
  exists v, 0 <= v <= 255 /\ hls_hex h l 0 = Ok (rgb_to_hex v v v).
Proof.
  intros U. destruct (unit_float_val l U) as [N L].
  pose proof (pow2_pos scale ltac:(unfold scale; lia)) as PS.
  assert (N255 : fnn 12 (l * 255) = true)
    by (apply (fnn_mul 1 8); [assumption | reflexivity | lia | lia]).
  assert (L255 : fval (l * 255) <= 255 * 2 ^ scale).
  { rewrite <- (float_of_int_exact 255) by (split; [lia | apply Z.ltb_lt; reflexivity]).
    change (float_of_int 255) with (1 * 255)%float.
    apply (fval_mul_mono 1 8); try assumption; try reflexivity; lia. }
  pose proof (fval_nonneg (l * 255)) as P.
  exists (fval (l * 255) / 2 ^ scale). split.
  - split; [apply Z.div_pos; lia | apply Z.div_le_upper_bound; lia].
  - unfold hls_hex, fdiv. change (360 =? 0)%float with false. cbv iota. cbn [bind].
    unfold colorsys.hls_to_rgb. change (0 =? 0)%float with true. cbv iota. cbn [bind].
    rewrite (int_of_float_fval 12 _ N255). reflexivity.
Qed.

(** X17: darkening by a whole unit, desaturating by two.  For every valid
    colour and every [delta] that is at most -1.0 (minus infinity
    included), [adjust_lightness] returns black, ["#000000"]; when
    [delta] is at most -2.0, [adjust_saturation] returns a grey: a colour
    whose red, green and blue channels are one and the same value in
    0..255.  (The saturation that [colorsys] computes is below 2 whatever
    the release, so that -2.0 brings it to 0.) *)
Theorem adjust_to_black_and_grey (c : string) (delta : float) :
  valid_hex c = true -> (delta <=? -1)%float = true ->
  adjust_lightness c delta = Ok "#000000"
  /\ ((delta <=? -2)%float = true ->
      exists v, 0 <= v <= 255 /\ adjust_saturation c delta = Ok (rgb_to_hex v v v)).
Proof.
  intros Hv Hd.
  destruct (hls_of_valid_hex_unit c Hv) as (r & g & b & h & l & s & E & Eh & Ul & Us).
  split.
  - unfold adjust_lightness. rewrite E. cbn [bind]. rewrite Eh. cbn [bind].
    rewrite (clamp_below _ (add_below l delta Ul Hd)).
    apply hls_hex_black. now apply unit_float_fnn.
  - intros _. unfold adjust_saturation. rewrite E. cbn [bind]. rewrite Eh. cbn [bind].
    rewrite (clamp_below _ (add_below s delta Us Hd)).
    now apply hls_hex_grey.
Qed.

Lemma adjust_to_black_and_grey_witness :
  adjust_lightness "#3b82f6" neg_infinity = Ok "#000000"
  /\ exists v, 0 <= v <= 255
               /\ adjust_saturation "#3b82f6" neg_infinity = Ok (rgb_to_hex v v v).
Proof.
  destruct (adjust_to_black_and_grey "#3b82f6" neg_infinity eq_refl eq_refl) as [B G].
  split; [exact B | exact (G eq_refl)].
Defined.

(** ** The relative luminance *)

Lemma linear_threshold (c : Z) :
  0 <= c < 256 -> (chan c <=? 0.03928)%float = (c <=? 10).
Proof.
  intros Hc. rewrite (chan_nth_eq c Hc). apply eqb_prop.
  revert c Hc. apply for_all_range. vm_compute. reflexivity.
Qed.

(** X18: the relative luminance of a valid colour.  For every [pow] that
    stays in [0, 1] on the channel arguments, [_linearize] returns a value
    in [0.0, 1.0] for each channel 0..255 - by the linear branch
    [c / 255 / 12.92] exactly for the channels 0 to 10, by the power branch
    from 11 on - and [relative_luminance] returns the weighted sum of the
    three linearised channels, which lies in [0.0, 1.0]. *)
Theorem relative_luminance_range (pow : float -> float -> float) (s : string) :
  pow_unit_on_channels pow = true -> valid_hex s = true ->
  (forall c, 0 <= c <= 255 ->
     exists v, _linearize pow c = Ok v /\ unit_float v = true
               /\ v = if c <=? 10 then (chan c / 12.92)%float
                      else pow (pow_base c) 2.4%float)
  /\ exists r g b lr lg lb,
       hex_to_rgb s = Ok (r, g, b)
       /\ _linearize pow r = Ok lr /\ _linearize pow g = Ok lg /\ _linearize pow b = Ok lb
       /\ relative_luminance pow s = Ok (0.2126 * lr + 0.7152 * lg + 0.0722 * lb)%float
       /\ unit_float (0.2126 * lr + 0.7152 * lg + 0.0722 * lb)%float = true.
Proof.
  intros Hpow Hv. split.
  - intros c Hc. destruct (linearize_unit pow Hpow c Hc) as (v & E & U).
    exists v. split; [exact E|]. split; [exact U|].
    unfold _linearize in E. rewrite int_truediv_255 in E. cbn [bind] in E.
    rewrite linear_threshold in E by lia. unfold fdiv in E.
    destruct (c <=? 10).
    + change (12.92 =? 0)%float with false in E. cbv iota in E. now injection E.
    + change (1.055 =? 0)%float with false in E. cbv iota in E. cbn [bind] in E.
      now injection E.
  - destruct (hex_to_rgb_valid s Hv) as (r & g & b & E & (Hr & Hg & Hb) & _).
    destruct (linearize_unit pow Hpow r Hr) as (lr & Er & _).
    destruct (linearize_unit pow Hpow g Hg) as (lg & Eg & _).
    destruct (linearize_unit pow Hpow b Hb) as (lb & Eb & _).
    exists r, g, b, lr, lg, lb.
    assert (R : relative_luminance pow s
                = Ok (0.2126 * lr + 0.7152 * lg + 0.0722 * lb)%float).
    { unfold relative_luminance. rewrite E. cbn [bind]. now rewrite Er, Eg, Eb. }
    repeat (split; [assumption|]).
    destruct (relative_luminance_unit pow Hpow s Hv) as (l & El & Nl & Ll).
    rewrite R in El. injection El as <-.
    unfold unit_float. rewrite (fnn_zero_le 8 _ Nl).
    rewrite (fval_leb 8 1) by (assumption || reflexivity).
    apply Z.leb_le. exact Ll.
Qed.

Lemma relative_luminance_range_witness :
  exists l, relative_luminance pow_by_roots "#3b82f6" = Ok l /\ unit_float l = true.
Proof.
  destruct (relative_luminance_range pow_by_roots "#3b82f6")
    as (_ & r & g & b & lr & lg & lb & _ & _ & _ & _ & E & U).
  - vm_compute. reflexivity.
  - reflexivity.
  - eexists. split; [exact E | exact U].
Defined.
